(** * Markdown renderer of the chat client: the regex pipeline of
    [renderMarkdown] and the DOM based [escapeHtml], embedded as functions
    over UTF-16 code units. *)

From Stdlib Require Import String Ascii List NArith Bool Arith Lia.
Import ListNotations.

Set Implicit Arguments.
Set Warnings "-register-all".

(** ** Code units and character classes *)

(** A JavaScript string is a sequence of 16-bit code units. *)
Definition cu := N.
Definition jsstring := list cu.

Definition str (s : string) : jsstring :=
  map N_of_ascii (list_ascii_of_string s).

Definition NL : cu := 10%N.
Definition CR : cu := 13%N.
Definition NBSP : cu := 160%N.
Definition AMP : cu := 38%N.
Definition LTC : cu := 60%N.
Definition GTC : cu := 62%N.
Definition QUOT : cu := 34%N.
Definition BACKTICK : cu := 96%N.
Definition STAR : cu := 42%N.

(** LineTerminator of ECMAScript: LF, CR, LS, PS. *)
Definition is_line_terminator (c : cu) : bool :=
  ((c =? 10) || (c =? 13) || (c =? 8232) || (c =? 8233))%N.

(** WhiteSpace of ECMAScript: TAB, VT, FF, SP, NBSP, ZWNBSP and the
    space separators of Unicode. *)
Definition is_white_space (c : cu) : bool :=
  ((c =? 9) || (c =? 11) || (c =? 12) || (c =? 32) || (c =? 160)
   || (c =? 5760) || ((8192 <=? c) && (c <=? 8202)) || (c =? 8239)
   || (c =? 8287) || (c =? 12288) || (c =? 65279))%N.

(** The class [\s], also the set that [String.prototype.trim] strips. *)
Definition is_space (c : cu) : bool :=
  is_white_space c || is_line_terminator c.

(** The class [\d]. *)
Definition is_digit (c : cu) : bool := ((48 <=? c) && (c <=? 57))%N.

(** The class [\w]. *)
Definition is_word (c : cu) : bool :=
  (((97 <=? c) && (c <=? 122)) || ((65 <=? c) && (c <=? 90))
   || is_digit c || (c =? 95))%N.

(** The class [.] without the [s] flag. *)
Definition is_dot (c : cu) : bool := negb (is_line_terminator c).

(** The class [[\s\S]]. *)
Definition is_any (c : cu) : bool := is_space c || negb (is_space c).

Definition is_char (x : cu) (c : cu) : bool := (c =? x)%N.
Definition is_not_char (x : cu) (c : cu) : bool := negb (c =? x)%N.

(** The class [[123]]. *)
Definition is_123 (c : cu) : bool := ((c =? 49) || (c =? 50) || (c =? 51))%N.

(** ** Regular expressions *)

Inductive regex : Type :=
| Eps : regex
| Chr : (cu -> bool) -> regex
| Seq : regex -> regex -> regex
| Alt : regex -> regex -> regex
| Star : bool -> regex -> regex      (* [true]: greedy [r*]; [false]: lazy [r*?] *)
| Group : nat -> regex -> regex      (* capturing group number [i] *)
| Bol : regex                        (* [^] under the [m] flag *)
| Eol : regex.                       (* [$] under the [m] flag *)

Declare Scope regex_scope.
Delimit Scope regex_scope with re.
Bind Scope regex_scope with regex.
Notation "a ;; b" := (Seq a b) (at level 61, right associativity) : regex_scope.

(** [r+] and [r?] (both greedy). *)
Definition Plus (r : regex) : regex := Seq r (Star true r).
Definition Opt (r : regex) : regex := Alt r Eps.

(** A literal string. *)
Fixpoint Lit (w : jsstring) : regex :=
  match w with
  | [] => Eps
  | c :: w' => Seq (Chr (is_char c)) (Lit w')
  end.

Definition L (s : string) : regex := Lit (str s).

(** ** The backtracking matcher *)

Section Engine.

(** The characters of the subject carry a code unit, which is all a
    pattern can observe; [lit] builds the characters that a
    replacement template inserts. *)
Context {A : Type} (code : A -> cu) (lit : cu -> A).

Record mstate : Type := MState {
  prev : option A;            (* the character before the current position *)
  rest : list A;              (* the subject from the current position on *)
  caps : list (nat * list A)  (* captures, the most recent first *)
}.

Definition at_bol (st : mstate) : bool :=
  match prev st with
  | None => true
  | Some c => is_line_terminator (code c)
  end.

Definition at_eol (st : mstate) : bool :=
  match rest st with
  | [] => true
  | c :: _ => is_line_terminator (code c)
  end.

(** What a match from [st] to [st'] consumed. *)
Definition consumed (st st' : mstate) : list A :=
  firstn (length (rest st) - length (rest st')) (rest st).

Definition set_cap (i : nat) (st st' : mstate) : mstate :=
  MState (prev st') (rest st') ((i, consumed st st') :: caps st').

Definition progress (st st' : mstate) : bool :=
  length (rest st') <? length (rest st).

(** The iterations of a quantifier: an iteration that consumes nothing
    is rejected, as RepeatMatcher does; [n] bounds the number of
    iterations and is never reached when it exceeds the length of the
    subject. *)
Fixpoint star (greedy : bool) (step : mstate -> list mstate)
         (n : nat) (st : mstate) : list mstate :=
  match n with
  | O => [st]
  | S n' =>
      let more := flat_map (star greedy step n')
                           (filter (progress st) (step st)) in
      if greedy then more ++ [st] else st :: more
  end.

(** All the ways [r] matches at [st], in the order in which a
    backtracking matcher tries them. *)
Fixpoint m (r : regex) (st : mstate) : list mstate :=
  match r with
  | Eps => [st]
  | Chr p =>
      match rest st with
      | c :: s => if p (code c) then [MState (Some c) s (caps st)] else []
      | [] => []
      end
  | Seq a b => flat_map (m b) (m a st)
  | Alt a b => m a st ++ m b st
  | Star g a => star g (m a) (S (length (rest st))) st
  | Group i a => map (set_cap i st) (m a st)
  | Bol => if at_bol st then [st] else []
  | Eol => if at_eol st then [st] else []
  end.

(** The match at the current position, if any. *)
Definition exec (r : regex) (p : option A) (s : list A) : option mstate :=
  hd_error (m r (MState p s [])).

Fixpoint get_cap (i : nat) (cs : list (nat * list A)) : list A :=
  match cs with
  | [] => []
  | (j, v) :: cs' => if Nat.eqb i j then v else get_cap i cs'
  end.

(** [$i] in a replacement. *)
Definition cap (i : nat) (st : mstate) : list A := get_cap i (caps st).

Definition lits (w : jsstring) : list A := map lit w.

(** [String.prototype.replace] with a global pattern: the leftmost
    match from each position on, matches do not overlap, and after an
    empty match the scan moves on by one character.  [skip] counts the
    characters of the current match that are still to be passed. *)
Fixpoint replace_from (r : regex) (tpl : mstate -> list A)
         (skip : nat) (p : option A) (s : list A) : list A :=
  match skip with
  | S k =>
      match s with
      | [] => []
      | c :: s' => replace_from r tpl k (Some c) s'
      end
  | O =>
      match exec r p s with
      | Some st' =>
          tpl st' ++
          match length s - length (rest st') with
          | O =>
              match s with
              | [] => []
              | c :: s' => c :: replace_from r tpl 0 (Some c) s'
              end
          | S k =>
              match s with
              | [] => []
              | c :: s' => replace_from r tpl k (Some c) s'
              end
          end
      | None =>
          match s with
          | [] => []
          | c :: s' => c :: replace_from r tpl 0 (Some c) s'
          end
      end
  end.

Definition replace (r : regex) (tpl : mstate -> list A) (s : list A) : list A :=
  replace_from r tpl 0 None s.

(** [String.prototype.trim]. *)
Fixpoint trim_start (s : list A) : list A :=
  match s with
  | [] => []
  | c :: s' => if is_space (code c) then trim_start s' else s
  end.

Definition trim (s : list A) : list A :=
  rev (trim_start (rev (trim_start s))).

(** A replacement string of the shape [open$1close]. *)
Definition wrap1 (o c : string) (st : mstate) : list A :=
  lits (str o) ++ cap 1 st ++ lits (str c).

(** *** The stages of [renderMarkdown], in the order of the source *)

(** The fence pattern: three backticks, group 1 [\w*], [\n], group 2
    [[\s\S]*?] (lazy), three backticks; flag [g].  The replacement is a
    function that trims group 2. *)
Definition re_fence : regex :=
  (L "```" ;; Group 1 (Star true (Chr is_word)) ;; Chr (is_char NL) ;;
   Group 2 (Star false (Chr is_any)) ;; L "```")%re.

Definition code_blocks (html : list A) : list A :=
  replace re_fence
    (fun st => lits (str "<pre><code>") ++ trim (cap 2 st)
               ++ lits (str "</code></pre>")) html.

(** [/`([^`]+)`/g] with the replacement [<code>$1</code>] *)
Definition re_inline : regex :=
  (L "`" ;; Group 1 (Plus (Chr (is_not_char BACKTICK))) ;; L "`")%re.

Definition inline_code (html : list A) : list A :=
  replace re_inline (wrap1 "<code>" "</code>") html.

(** [/^### (.+)$/gm], [/^## (.+)$/gm], [/^# (.+)$/gm] *)
Definition re_line (marker : regex) : regex :=
  (Bol ;; marker ;; Group 1 (Plus (Chr is_dot)) ;; Eol)%re.

Definition re_h3 : regex := re_line (L "### ").
Definition re_h2 : regex := re_line (L "## ").
Definition re_h1 : regex := re_line (L "# ").

Definition headers (html : list A) : list A :=
  let html := replace re_h3 (wrap1 "<h3>" "</h3>") html in
  let html := replace re_h2 (wrap1 "<h2>" "</h2>") html in
  replace re_h1 (wrap1 "<h1>" "</h1>") html.

(** Bold: [\*\*], group 1 [[^*]+], [\*\*]; flag [g] *)
Definition re_bold : regex :=
  (L "**" ;; Group 1 (Plus (Chr (is_not_char STAR))) ;; L "**")%re.

Definition bold (html : list A) : list A :=
  replace re_bold (wrap1 "<strong>" "</strong>") html.

(** Italic: [\*], group 1 [[^*]+], [\*]; flag [g] *)
Definition re_italic : regex :=
  (L "*" ;; Group 1 (Plus (Chr (is_not_char STAR))) ;; L "*")%re.

Definition italic (html : list A) : list A :=
  replace re_italic (wrap1 "<em>" "</em>") html.

(** [/^- (.+)$/gm], then the grouping pattern: group 1 around one or
    more of [<li>], [.*] (greedy), [<\/li>], [\n?]; flag [g] *)
Definition re_item : regex := re_line (L "- ").

Definition re_items : regex :=
  Group 1 (Plus (L "<li>" ;; Star true (Chr is_dot) ;; L "</li>" ;;
                 Opt (Chr (is_char NL)))%re).

Definition unordered_lists (html : list A) : list A :=
  let html := replace re_item (wrap1 "<li>" "</li>") html in
  replace re_items (wrap1 "<ul>" "</ul>") html.

(** [/^\d+\. (.+)$/gm] *)
Definition re_numbered : regex :=
  re_line (Plus (Chr is_digit) ;; L ". ")%re.

Definition ordered_lists (html : list A) : list A :=
  replace re_numbered (wrap1 "<li>" "</li>") html.

(** [/\n\n/g], then the wrapper around the whole text *)
Definition re_blank : regex := Lit [NL; NL].

Definition paragraphs (html : list A) : list A :=
  let html := replace re_blank (fun _ => lits (str "</p><p>")) html in
  lits (str "<p>") ++ html ++ lits (str "</p>").

(** The seven clean-up patterns. *)
Definition re_spaces : regex := Star true (Chr is_space).

Definition re_empty_p : regex := (L "<p>" ;; re_spaces ;; L "</p>")%re.

Definition re_p_before (tag : regex) : regex :=
  (L "<p>" ;; re_spaces ;; Group 1 tag)%re.

Definition re_p_after (tag : regex) : regex :=
  (Group 1 tag ;; re_spaces ;; L "</p>")%re.

Definition tag_h_open : regex := (L "<h" ;; Chr is_123 ;; L ">")%re.
Definition tag_h_close : regex := (L "</h" ;; Chr is_123 ;; L ">")%re.

Definition only1 (st : mstate) : list A := cap 1 st.

Definition cleanup (html : list A) : list A :=
  let html := replace re_empty_p (fun _ => []) html in
  let html := replace (re_p_before tag_h_open) only1 html in
  let html := replace (re_p_after tag_h_close) only1 html in
  let html := replace (re_p_before (L "<pre>")) only1 html in
  let html := replace (re_p_after (L "</pre>")) only1 html in
  let html := replace (re_p_before (L "<ul>")) only1 html in
  replace (re_p_after (L "</ul>")) only1 html.

(** Everything [renderMarkdown] does after the escaping. *)
Definition markup (html : list A) : list A :=
  let html := code_blocks html in
  let html := inline_code html in
  let html := headers html in
  let html := bold html in
  let html := italic html in
  let html := unordered_lists html in
  let html := ordered_lists html in
  let html := paragraphs html in
  cleanup html.

End Engine.

Arguments mstate : clear implicits.

(** ** The declarative reading of a pattern *)

Section Semantics.

Context {A : Type} (code : A -> cu).

(** [lastp d w]: the last character of [w], or [d] when [w] is empty. *)
Definition lastp (d : option A) (w : list A) : option A :=
  fold_left (fun _ c => Some c) w d.

(** [Matches r st st']: the pattern [r] takes the matcher from [st] to
    [st'] by some choice of alternatives and iterations. *)
Inductive Matches : regex -> mstate A -> mstate A -> Prop :=
| M_Eps : forall st, Matches Eps st st
| M_Chr : forall (p : cu -> bool) pv c s cs,
    p (code c) = true ->
    Matches (Chr p) (MState pv (c :: s) cs) (MState (Some c) s cs)
| M_Seq : forall a b st1 st2 st3,
    Matches a st1 st2 -> Matches b st2 st3 -> Matches (Seq a b) st1 st3
| M_AltL : forall a b st st', Matches a st st' -> Matches (Alt a b) st st'
| M_AltR : forall a b st st', Matches b st st' -> Matches (Alt a b) st st'
| M_Star0 : forall g a st, Matches (Star g a) st st
| M_StarS : forall g a st1 st2 st3,
    Matches a st1 st2 -> length (rest st2) < length (rest st1) ->
    Matches (Star g a) st2 st3 -> Matches (Star g a) st1 st3
| M_Group : forall i a st st',
    Matches a st st' -> Matches (Group i a) st (set_cap i st st')
| M_Bol : forall st, at_bol code st = true -> Matches Bol st st
| M_Eol : forall st, at_eol code st = true -> Matches Eol st st.

(** What the matcher can see around a position: the code units of the
    character before it and of the character at it. *)
Definition ctx (st : mstate A) : option cu * option cu :=
  (option_map code (prev st), option_map code (hd_error (rest st))).

End Semantics.

(** A one-character look-ahead: [zw r k] is [false] only if [r] cannot
    match the empty string in the context [k], and [adv r k] is [false]
    only if [r] cannot consume a character there. *)
Fixpoint zw (r : regex) (k : option cu * option cu) : bool :=
  match r with
  | Eps => true
  | Chr _ => false
  | Seq a b => zw a k && zw b k
  | Alt a b => zw a k || zw b k
  | Star _ _ => true
  | Group _ a => zw a k
  | Bol => match fst k with None => true | Some c => is_line_terminator c end
  | Eol => match snd k with None => true | Some c => is_line_terminator c end
  end.

Fixpoint adv (r : regex) (k : option cu * option cu) : bool :=
  match r with
  | Eps => false
  | Chr p => match snd k with None => false | Some c => p c end
  | Seq a b => adv a k || (zw a k && adv b k)
  | Alt a b => adv a k || adv b k
  | Star _ a => adv a k
  | Group _ a => adv a k
  | Bol => false
  | Eol => false
  end.

Definition can_match (r : regex) (k : option cu * option cu) : bool :=
  zw r k || adv r k.

(** [r] has a character that every match must consume. *)
Fixpoint never_empty (r : regex) : bool :=
  match r with
  | Chr _ => true
  | Seq a b => never_empty a || never_empty b
  | Alt a b => never_empty a && never_empty b
  | Group _ a => never_empty a
  | Eps | Star _ _ | Bol | Eol => false
  end.

(** ** [escapeHtml]: a text node serialised by [innerHTML] *)

Inductive node : Type :=
| TextNode : jsstring -> node
| ElementNode : string -> list node -> node.

Definition createElement (name : string) : node := ElementNode name [].
Definition createTextNode (data : jsstring) : node := TextNode data.

Definition appendChild (parent child : node) : node :=
  match parent with
  | ElementNode name children => ElementNode name (children ++ [child])
  | TextNode _ => parent
  end.

(** One step of "escaping a string" of the HTML serialisation algorithm:
    every occurrence of [c] becomes [w]. *)
Definition replace_char (c : cu) (w : jsstring) (s : jsstring) : jsstring :=
  flat_map (fun x => if (x =? c)%N then w else [x]) s.

(** Escaping a string, outside attribute mode. *)
Definition escape_string (s : jsstring) : jsstring :=
  let s := replace_char AMP (str "&amp;") s in
  let s := replace_char NBSP (str "&nbsp;") s in
  let s := replace_char LTC (str "&lt;") s in
  replace_char GTC (str "&gt;") s.

(** The elements whose text children are serialised as they are. *)
Definition raw_text_element (name : string) : bool :=
  existsb (String.eqb name)
    ["style"; "script"; "xmp"; "iframe"; "noembed"; "noframes"; "plaintext"]%string.

Fixpoint serialize (parent : string) (n : node) : jsstring :=
  match n with
  | TextNode data =>
      if raw_text_element parent then data else escape_string data
  | ElementNode name children =>
      str "<" ++ str name ++ str ">"
      ++ flat_map (serialize name) children
      ++ str "</" ++ str name ++ str ">"
  end.

Definition innerHTML (n : node) : jsstring :=
  match n with
  | ElementNode name children => flat_map (serialize name) children
  | TextNode _ => []
  end.

Definition escapeHtml (text : jsstring) : jsstring :=
  let div := createElement "div" in
  let div := appendChild div (createTextNode text) in
  innerHTML div.

(** ** [renderMarkdown] *)

Definition plain (c : cu) : cu := c.

Definition renderMarkdown (text : jsstring) : jsstring :=
  let html := escapeHtml text in
  markup plain plain html.

(** ** Vocabulary of the statements *)

Definition spaces {A : Type} (code : A -> cu) (l : list A) : Prop :=
  Forall (fun c => is_space (code c) = true) l.

Definition head_not_space {A : Type} (code : A -> cu) (l : list A) : Prop :=
  match l with [] => True | c :: _ => is_space (code c) = false end.

(** The stages over plain code units. *)
Definition stage_paragraphs : jsstring -> jsstring := paragraphs plain plain.
Definition stage_cleanup : jsstring -> jsstring := cleanup plain.
Definition stage_code_blocks : jsstring -> jsstring := code_blocks plain plain.
Definition stage_headers : jsstring -> jsstring := headers plain plain.
Definition stage_bold : jsstring -> jsstring := bold plain plain.
Definition stage_italic : jsstring -> jsstring := italic plain plain.
Definition stage_lists : jsstring -> jsstring := unordered_lists plain plain.

(** What [escapeHtml] does to one character. *)
Definition escape_char (c : cu) : jsstring :=
  if (c =? AMP)%N then str "&amp;"
  else if (c =? LTC)%N then str "&lt;"
  else if (c =? GTC)%N then str "&gt;"
  else if (c =? NBSP)%N then str "&nbsp;"
  else [c].

(** The escaping stage in the words of the specification: the four
    reserved characters become entities, everything else is kept. *)
Definition spec_escape_char (c : cu) : jsstring :=
  if (c =? AMP)%N then str "&amp;"
  else if (c =? LTC)%N then str "&lt;"
  else if (c =? GTC)%N then str "&gt;"
  else if (c =? QUOT)%N then str "&quot;"
  else [c].

Definition spec_escape (s : jsstring) : jsstring := flat_map spec_escape_char s.

Fixpoint starts_with (w s : jsstring) : bool :=
  match w, s with
  | [], _ => true
  | _ :: _, [] => false
  | c :: w', d :: s' => (c =? d)%N && starts_with w' s'
  end.

(** [w] occurs in [s]. *)
Fixpoint occurs (w s : jsstring) : bool :=
  starts_with w s || match s with [] => false | _ :: s' => occurs w s' end.

Definition strip_prefix (w s : jsstring) : option jsstring :=
  if starts_with w s then Some (skipn (length w) s) else None.

(** An empty paragraph, as the clean-up reads it: [<p>], white space,
    [</p>]. *)
Definition empty_p_at (s : jsstring) : bool :=
  match strip_prefix (str "<p>") s with
  | Some s' => starts_with (str "</p>") (trim_start plain s')
  | None => false
  end.

Fixpoint has_empty_p (s : jsstring) : bool :=
  empty_p_at s || match s with [] => false | _ :: s' => has_empty_p s' end.

Definition block_tags : list jsstring :=
  map str ["<h1>"; "<h2>"; "<h3>"; "<pre>"; "<ul>"]%string.

Definition block_at (s : jsstring) : bool :=
  existsb (fun t => starts_with t s) block_tags.

(** A block-level tag opens while a [<p>] is open: [inside] tells whether
    the last paragraph tag seen was an opening one. *)
Fixpoint block_in_p (inside : bool) (s : jsstring) : bool :=
  match s with
  | [] => false
  | _ :: s' =>
      (inside && block_at s)
      || block_in_p (if starts_with (str "<p>") s then true
                     else if starts_with (str "</p>") s then false
                     else inside) s'
  end.

(** The fenced body in the words of the specification: one leading and
    one trailing blank line is taken away, nothing else. *)
Definition strip_final_newline (s : jsstring) : jsstring :=
  match rev s with
  | c :: s' => if (c =? NL)%N then rev s' else s
  | [] => []
  end.

Definition spec_strip_blank_lines (body : jsstring) : jsstring :=
  let body := match body with
              | c :: s' => if (c =? NL)%N then s' else body
              | [] => []
              end in
  strip_final_newline body.

(** Lines joined by a line feed. *)
Fixpoint unlines (ls : list jsstring) : jsstring :=
  match ls with
  | [] => []
  | [l] => l
  | l :: ls' => l ++ NL :: unlines ls'
  end.

(** Text that no pattern of the renderer can start a match in: no
    backtick, no [*], no [<], no line terminator. *)
Definition inert (c : cu) : bool :=
  negb (c =? BACKTICK)%N && negb (c =? STAR)%N && negb (c =? LTC)%N
  && negb (is_line_terminator c).

Definition ordinary (c : cu) : bool :=
  negb (c =? 35)%N && negb (c =? 45)%N && negb (is_digit c) && negb (is_space c).

Definition mid_line (p : option cu) : Prop :=
  match p with Some d => is_line_terminator d = false | None => False end.

Definition head_ordinary (s : jsstring) : Prop :=
  match s with c :: _ => ordinary c = true | [] => True end.

Fixpoint dead (r : regex) (p : option cu) (u s : jsstring) : Prop :=
  match u with
  | [] => True
  | c :: u' => exec plain r p (c :: u' ++ s) = None /\ dead r (Some c) u' s
  end.

Definition calm (r : regex) : Prop :=
  forall pv c, inert c = true -> mid_line pv \/ ordinary c = true ->
               can_match r (pv, Some c) = false.

Definition texty (E : jsstring) : Prop :=
  Forall (fun c => inert c = true) E /\ head_ordinary E.

Definition markup_free (c : cu) : bool :=
  negb (c =? BACKTICK)%N && negb (c =? STAR)%N && negb (is_line_terminator c).

Definition line_start (p : option cu) : Prop :=
  match p with None => True | Some c => is_line_terminator c = true end.

Definition line_end (s : jsstring) : Prop :=
  match s with [] => True | c :: _ => is_line_terminator c = true end.

Definition matches_tag (tagre : regex) (t : jsstring) : Prop :=
  forall p s cs, m plain tagre (MState p (t ++ s) cs) = [MState (lastp p t) s cs].

Definition texts (Es : list jsstring) : Prop :=
  Forall (fun E => E <> [] /\ Forall (fun c => inert c = true) E) Es.

Definition framed (pre post : jsstring) (Es : list jsstring) : jsstring :=
  unlines (map (fun E => pre ++ E ++ post) Es).

Definition li_body : regex :=
  (L "<li>" ;; Star true (Chr is_dot) ;; L "</li>" ;; Opt (Chr (is_char NL)))%re.

Definition li_lines (Es : list jsstring) : jsstring :=
  framed (str "<li>") (str "</li>") Es.


(** Characters that remember where they come from: [true] for a
    character of the escaped input, [false] for one that a replacement
    template of the renderer inserts. *)
Definition tagged : Type := (cu * bool)%type.
Definition from_input (c : cu) : tagged := (c, true).
Definition from_template (c : cu) : tagged := (c, false).
Definition erase (s : list tagged) : jsstring := map fst s.

Definition renderMarkdown_tagged (text : jsstring) : list tagged :=
  let html := map from_input (escapeHtml text) in
  markup fst from_template html.

Definition erase_state (st : mstate tagged) : mstate cu :=
  MState (option_map fst (prev st)) (erase (rest st))
         (map (fun kv => (fst kv, erase (snd kv))) (caps st)).

(** No character of the input is an angle bracket. *)
Definition input_is_safe (a : tagged) : Prop :=
  snd a = true -> fst a <> LTC /\ fst a <> GTC.

(** Everything the matcher holds satisfies [Q]. *)
Definition st_all {A : Type} (Q : A -> Prop) (st : mstate A) : Prop :=
  Forall Q (rest st) /\ Forall (fun kv => Forall Q (snd kv)) (caps st).

(** The text after [&] in the four entities that [escapeHtml] emits. *)
Definition entity_tails : list jsstring :=
  map str ["amp;"; "lt;"; "gt;"; "nbsp;"]%string.

Definition ent_tail_at (s : jsstring) : bool :=
  existsb (fun w => starts_with w s) entity_tails.

(** Every [&] begins an entity. *)
Fixpoint ents_ok (s : jsstring) : bool :=
  match s with
  | [] => true
  | c :: s' => (if (c =? AMP)%N then ent_tail_at s' else true) && ents_ok s'
  end.

(** The characters after the [&] of an entity, and its characters but
    the last one. *)
Definition ent_tail_char (c : cu) : bool :=
  existsb (N.eqb c) (str "amp;ltgnbs").

Definition ent_head_char (c : cu) : bool :=
  existsb (N.eqb c) (str "&ampltgnbs").

Definition safe_r (s : jsstring) : Prop :=
  match s with [] => True | c :: _ => ent_tail_char c = false end.

Definition safe_l (u : jsstring) : Prop :=
  u = [] \/ forall d, ent_head_char (last u d) = false.

(** No match of [r] begins at a character that an entity holds behind
    its [&]. *)
Definition ent_safe (r : regex) : Prop :=
  forall pv c, ent_tail_char c = true -> can_match r (pv, Some c) = false.

Fixpoint no_group (r : regex) : bool :=
  match r with
  | Group _ _ => false
  | Seq a b | Alt a b => no_group a && no_group b
  | Star _ a => no_group a
  | Eps | Chr _ | Bol | Eol => true
  end.

Definition chain (As : list regex) (r : regex) : regex := fold_right Seq r As.

(** Patterns for the statements about the paragraph tags, in the shape
    of the clean-up patterns: [Some c] is the character [c], [None] is a
    run of white space, [\s*].  [spaces_then k s]: [k] holds of [s]
    behind some white space; [pmatch pt s]: the pattern [pt] matches at
    the head of [s]. *)
Fixpoint spaces_then (k : jsstring -> bool) (s : jsstring) : bool :=
  k s || match s with [] => false | c :: s' => is_space c && spaces_then k s' end.

Fixpoint pmatch (pt : list (option cu)) (s : jsstring) {struct pt} : bool :=
  match pt with
  | [] => true
  | Some c :: pt' =>
      match s with [] => false | d :: s' => (c =? d)%N && pmatch pt' s' end
  | None :: pt' => spaces_then (pmatch pt') s
  end.

(** [poccurs pt s]: the pattern matches somewhere in [s]. *)
Fixpoint poccurs (pt : list (option cu)) (s : jsstring) : bool :=
  pmatch pt s || match s with [] => false | _ :: s' => poccurs pt s' end.

(** The pattern of a literal text. *)
Definition word (w : jsstring) : list (option cu) := map Some w.

(** [<p>], white space, [</p>] *)
Definition empty_p_pat : list (option cu) :=
  word (str "<p>") ++ None :: word (str "</p>").

(** The two paragraph tags. *)
Definition close_p_pat : list (option cu) := word (str "</p>").

Definition open_p_pat : list (option cu) := word (str "<p>").

(** The suffixes of a list, the list itself first. *)
Fixpoint tails {X : Type} (l : list X) : list (list X) :=
  l :: match l with [] => [] | _ :: l' => tails l' end.

(** Whatever is left of the pattern [pt] and matches at the head of
    [out] also matches at the head of [s]. *)
Definition keeps (pt : list (option cu)) (out s : jsstring) : Prop :=
  forall q, In q (tails pt) -> q <> [] -> pmatch q out = true -> pmatch q s = true.

(** A tag that no match of [pt] can touch. *)
Definition tag_ok (pt : list (option cu)) (o : jsstring) : Prop :=
  (forall Z, poccurs pt (o ++ Z) = poccurs pt Z)
  /\ (forall q, In q (tails pt) -> q <> [] -> forall Z, pmatch q (o ++ Z) = false).

(** Every [</p>] of [s] is the end of [s] or has a [<p>] behind it. *)
Fixpoint p_alternate (s : jsstring) : bool :=
  match s with
  | [] => true
  | _ :: s' =>
      (if starts_with (str "</p>") s
       then match skipn 4 s with [] => true | t => starts_with (str "<p>") t end
       else true)
      && p_alternate s'
  end.

(** [<p>], white space, the tag [t] *)
Definition open_pat (t : jsstring) : list (option cu) :=
  word (str "<p>") ++ None :: word t.

(** The tag [t], white space, [</p>] *)
Definition close_pat (t : jsstring) : list (option cu) :=
  word t ++ None :: word (str "</p>").

(** The closing tags of the block elements. *)
Definition block_close_tags : list jsstring :=
  map str ["</h1>"; "</h2>"; "</h3>"; "</pre>"; "</ul>"]%string.

(** What is left of [<p>], white space, [t] at the head of [out] is at
    the head of [s] too, or is there behind one more [<p>] and white
    space. *)
Definition keeps_open (t : jsstring) (out s : jsstring) : Prop :=
  keeps (word (tl t)) out s
  /\ (pmatch (word t) out = true ->
      pmatch (word t) s = true \/ pmatch (open_pat t) s = true)
  /\ (forall x, In x (tails (word (str "<p>"))) ->
                pmatch (x ++ None :: word t) out = true ->
                pmatch (x ++ None :: word t) s = true
                \/ pmatch (x ++ None :: open_pat t) s = true).

(** The tags that the patterns [<h[123]>] and [</h[123]>] match. *)
Definition h_open_tags : list jsstring := map str ["<h1>"; "<h2>"; "<h3>"]%string.
Definition h_close_tags : list jsstring := map str ["</h1>"; "</h2>"; "</h3>"]%string.



(** Lines: no line terminator inside. *)
Definition line (l : jsstring) : Prop := Forall (fun c => is_dot c = true) l.

(** Plain objects used as look-up tables ([userColorMap], [icons]).
    A property access yields a string that the object owns,
    [undefined], or a member that every object inherits from
    [Object.prototype]. *)
Inductive jsvalue : Type :=
| VString : jsstring -> jsvalue
| VUndefined : jsvalue
| VInherited : jsstring -> jsvalue.

(** The own properties of an object with string values, in the order of
    their creation. *)
Definition object : Type := list (jsstring * jsstring).

Fixpoint jsstring_eqb (a b : jsstring) : bool :=
  match a, b with
  | [], [] => true
  | x :: a', y :: b' => (x =? y)%N && jsstring_eqb a' b'
  | _, _ => false
  end.

(** The property names of [Object.prototype]; the members are functions,
    and [__proto__] yields the prototype object itself. *)
Definition object_prototype_keys : list jsstring :=
  map str ["constructor"; "__defineGetter__"; "__defineSetter__";
           "hasOwnProperty"; "__lookupGetter__"; "__lookupSetter__";
           "isPrototypeOf"; "propertyIsEnumerable"; "toString"; "valueOf";
           "__proto__"; "toLocaleString"]%string.

Definition inherited (k : jsstring) : bool :=
  existsb (jsstring_eqb k) object_prototype_keys.

Fixpoint own_property (o : object) (k : jsstring) : option jsstring :=
  match o with
  | [] => None
  | (k', v) :: o' => if jsstring_eqb k k' then Some v else own_property o' k
  end.

(** [o[k]]: the own property, else what the prototype chain holds. *)
Definition get_property (o : object) (k : jsstring) : jsvalue :=
  match own_property o k with
  | Some v => VString v
  | None => if inherited k then VInherited k else VUndefined
  end.

Fixpoint set_own (o : object) (k v : jsstring) : object :=
  match o with
  | [] => [(k, v)]
  | (k', v') :: o' =>
      if jsstring_eqb k k' then (k', v) :: o' else (k', v') :: set_own o' k v
  end.

(** [o[k] = v] for a string [v]: an own property is written or created;
    the setter of [__proto__] ignores a value that is not an object. *)
Definition set_property (o : object) (k v : jsstring) : object :=
  if jsstring_eqb k (str "__proto__") then o else set_own o k v.

(** ToBoolean. *)
Definition to_boolean (v : jsvalue) : bool :=
  match v with
  | VString [] => false
  | VString _ => true
  | VUndefined => false
  | VInherited _ => true
  end.

(** [Object.keys(o)] *)
Definition keys (o : object) : list jsstring := map fst o.

Definition USER_COLORS : list jsstring :=
  map str ["#e94560"; "#53a8e2"; "#f0a500"; "#6bcb77";
           "#c77dff"; "#ff6b6b"; "#48bfe3"; "#ffd166"]%string.

(** [colorForUser], with the map [userColorMap] passed in and out.  The
    index is below the length of [USER_COLORS], so the default of [nth]
    is never taken. *)
Definition colorForUser (userColorMap : object) (username : jsstring)
  : jsvalue * object :=
  let userColorMap :=
    if negb (to_boolean (get_property userColorMap username)) then
      let idx := length (keys userColorMap) mod length USER_COLORS in
      set_property userColorMap username (nth idx USER_COLORS [])
    else userColorMap in
  (get_property userColorMap username, userColorMap).

(** The map after [colorForUser] was called for each name of [us]. *)
Definition color_calls (m : object) (us : list jsstring) : object :=
  fold_left (fun m u => snd (colorForUser m u)) us m.

(** The entries of new users in the order of their first call, the
    first of them being user number [n]. *)
Fixpoint in_turn (n : nat) (us : list jsstring) : object :=
  match us with
  | [] => []
  | u :: us' =>
      (u, nth (n mod length USER_COLORS) USER_COLORS []) :: in_turn (S n) us'
  end.

(** [String.prototype.split] with a one-character separator. *)
Fixpoint split (sep : cu) (s : jsstring) : list jsstring :=
  match s with
  | [] => [[]]
  | c :: s' =>
      if (c =? sep)%N then [] :: split sep s'
      else match split sep s' with
           | h :: t => (c :: h) :: t
           | [] => [[c]]
           end
  end.

(** [Array.prototype.pop] of a fresh array: its last element. *)
Definition pop (l : list jsstring) : jsstring := last l [].

Definition icons : object :=
  [ (str "pdf", [55357; 56533]%N);
    (str "png", [55357; 56764; 65039]%N);
    (str "jpg", [55357; 56764; 65039]%N);
    (str "jpeg", [55357; 56764; 65039]%N);
    (str "gif", [55357; 56764; 65039]%N);
    (str "txt", [55357; 56541]%N);
    (str "csv", [55357; 56522]%N);
    (str "docx", [55357; 56516]%N) ].

Definition paperclip : jsstring := [55357; 56526]%N.

(** [fileIcon]; [String.prototype.toLowerCase] is a parameter. *)
Definition fileIcon (toLowerCase : jsstring -> jsstring) (filename : jsstring)
  : jsvalue :=
  let ext := toLowerCase (pop (split 46%N filename)) in
  let v := get_property icons ext in
  if to_boolean v then v else VString paperclip.

(** What [toLowerCase] does to a code unit of ASCII. *)
Definition ascii_lower (c : cu) : cu :=
  if ((65 <=? c) && (c <=? 90))%N then (c + 32)%N else c.

Definition is_ascii (c : cu) : bool := (c <? 128)%N.

(** The request that [sendMessage] of the chat with user names issues,
    or the error it shows instead: the part of the function before the
    first [fetch]. *)
Inductive send_plan (F : Type) : Type :=
| ShowError : string -> send_plan F
| PostUpload : F -> jsstring -> jsstring -> send_plan F
| PostMessage : jsstring -> jsstring -> send_plan F.
Arguments ShowError {F} _.
Arguments PostUpload {F} _ _ _.
Arguments PostMessage {F} _ _.

Definition is_empty (s : jsstring) : bool :=
  match s with [] => true | _ => false end.

Definition sendMessage_plan {F : Type}
    (username_value message_value : jsstring) (files : list F) : send_plan F :=
  let username := trim plain username_value in
  let content := trim plain message_value in
  if is_empty username then ShowError "Please enter a username."
  else if is_empty content && (length files =? 0) then
    ShowError "Please enter a message or attach a file."
  else
    match files with
    | file :: _ =>
        PostUpload file username
                   (if is_empty content then str "(file shared)" else content)
    | [] => PostMessage username content
    end.

(** The four characters that the serialisation of a text node rewrites. *)
Definition escaped (c : cu) : bool :=
  ((c =? AMP) || (c =? LTC) || (c =? GTC) || (c =? NBSP))%N.

(** A paragraph as the paragraph stage writes it. *)
Definition paragraph (E : jsstring) : jsstring := str "<p>" ++ E ++ str "</p>".

(** Texts with a blank line, two line feeds, between each two. *)
Fixpoint blank_separated (Es : list jsstring) : jsstring :=
  match Es with
  | [] => []
  | [E] => E
  | E :: Es' => E ++ NL :: NL :: blank_separated Es'
  end.

(** White space that the escaping leaves alone: not the no-break space. *)
Definition blank (c : cu) : bool := is_space c && negb (c =? NBSP)%N.

(** Lines of an ordered list: a number, a dot, a space and a text. *)
Definition numbered_lines (items : list (jsstring * jsstring)) : jsstring :=
  unlines (map (fun it => fst it ++ str ". " ++ snd it) items).

(** ** The assistant chat: [sendMessage] and its lock *)

(** [sendMessage] of the assistant chat is an [async] function: its
    body runs up to the first [await], the call of [fetch], and the rest
    runs when the response is there.  The two parts are the functions
    [sendMessage] and [sendMessage_resumed] below, over the variables of
    the closure and the properties of the page that they read and
    write.  The calls of [showError], [renderMessage], [fetch] and
    [loadConversationList] are recorded in the order in which they are
    made.  Files and conversation identifiers are what the page and the
    server give: a file has a name, an identifier is truthy or not. *)
Module Chatbot.

Section App.

Variables (file id : Type).
Variable name : file -> jsstring.
Variable truthy : id -> bool.

Inductive effect : Type :=
| showError (msg : jsstring)
| renderMessage (role content : jsstring) (suggestions : option (list jsstring))
| fetch_upload (f : file) (message : option jsstring) (conversation_id : option id)
| fetch_chat (message : jsstring) (conversation_id : option id)
| loadConversationList.

(** [awaiting] holds the calls of [sendMessage] that are suspended at
    their [await], each with its constant [hasFile], the oldest first. *)
Record app : Type := App {
  isWaiting : bool;
  currentConversationId : option id;
  messageInput_value : jsstring;
  fileInput_files : list file;
  filePreview_hidden : bool;
  sendBtn_disabled : bool;
  typingIndicator_hidden : bool;
  awaiting : list bool;
  effects : list effect
}.

Definition set_isWaiting (v : bool) (st : app) : app :=
  App v (currentConversationId st) (messageInput_value st) (fileInput_files st)
      (filePreview_hidden st) (sendBtn_disabled st) (typingIndicator_hidden st)
      (awaiting st) (effects st).

Definition set_currentConversationId (v : option id) (st : app) : app :=
  App (isWaiting st) v (messageInput_value st) (fileInput_files st)
      (filePreview_hidden st) (sendBtn_disabled st) (typingIndicator_hidden st)
      (awaiting st) (effects st).

Definition set_messageInput_value (v : jsstring) (st : app) : app :=
  App (isWaiting st) (currentConversationId st) v (fileInput_files st)
      (filePreview_hidden st) (sendBtn_disabled st) (typingIndicator_hidden st)
      (awaiting st) (effects st).

Definition set_fileInput_files (v : list file) (st : app) : app :=
  App (isWaiting st) (currentConversationId st) (messageInput_value st) v
      (filePreview_hidden st) (sendBtn_disabled st) (typingIndicator_hidden st)
      (awaiting st) (effects st).

Definition set_filePreview_hidden (v : bool) (st : app) : app :=
  App (isWaiting st) (currentConversationId st) (messageInput_value st)
      (fileInput_files st) v (sendBtn_disabled st) (typingIndicator_hidden st)
      (awaiting st) (effects st).

Definition set_sendBtn_disabled (v : bool) (st : app) : app :=
  App (isWaiting st) (currentConversationId st) (messageInput_value st)
      (fileInput_files st) (filePreview_hidden st) v (typingIndicator_hidden st)
      (awaiting st) (effects st).

Definition set_typingIndicator_hidden (v : bool) (st : app) : app :=
  App (isWaiting st) (currentConversationId st) (messageInput_value st)
      (fileInput_files st) (filePreview_hidden st) (sendBtn_disabled st) v
      (awaiting st) (effects st).

Definition set_awaiting (v : list bool) (st : app) : app :=
  App (isWaiting st) (currentConversationId st) (messageInput_value st)
      (fileInput_files st) (filePreview_hidden st) (sendBtn_disabled st)
      (typingIndicator_hidden st) v (effects st).

(** A call of one of the recorded functions. *)
Definition emit (e : effect) (st : app) : app :=
  App (isWaiting st) (currentConversationId st) (messageInput_value st)
      (fileInput_files st) (filePreview_hidden st) (sendBtn_disabled st)
      (typingIndicator_hidden st) (awaiting st) (effects st ++ [e]).

(** The call is suspended at its [await]. *)
Definition suspend (hasFile : bool) (st : app) : app :=
  set_awaiting (awaiting st ++ [hasFile]) st.

(** [currentConversationId], where the code tests it before use. *)
Definition conversation (st : app) : option id :=
  match currentConversationId st with
  | Some c => if truthy c then Some c else None
  | None => None
  end.

(** [text || messageInput.value.trim()], for [text] a string or
    [undefined]. *)
Definition message_of (text : option jsstring) (st : app) : jsstring :=
  match text with
  | Some (c :: t) => c :: t
  | _ => trim plain (messageInput_value st)
  end.

(** [sendMessage(text)], up to the [await] of [fetch]. *)
Definition sendMessage (text : option jsstring) (st : app) : app :=
  if isWaiting st then st
  else
    let message := message_of text st in
    let hasFile := negb (length (fileInput_files st) =? 0) in
    if is_empty message && negb hasFile then
      emit (showError (str "Please enter a message or attach a file.")) st
    else
      let st := set_isWaiting true st in
      let st := set_sendBtn_disabled true st in
      let st :=
        if is_empty message then st
        else emit (renderMessage (str "user") message None) st in
      let st :=
        match fileInput_files st with
        | f :: _ =>
            emit (renderMessage (str "user")
                    (paperclip ++ str " " ++ name f
                     ++ (if is_empty message then [] else NL :: message))
                    None) st
        | [] => st
        end in
      let st := set_messageInput_value [] st in
      let st := set_typingIndicator_hidden false st in
      match fileInput_files st with
      | f :: _ =>
          suspend true
            (emit (fetch_upload f (if is_empty message then None else Some message)
                     (conversation st)) st)
      | [] => suspend false (emit (fetch_chat message (conversation st)) st)
      end.

(** The body of a response that is a JSON object: the members that the
    code reads, each absent or there. *)
Record reply : Type := Reply {
  error : option jsstring;
  conversation_id : option id;
  assistant_message : option jsstring;
  suggestions : option (list jsstring)
}.

(** What comes back: [fetch] or [resp.json()] throws [err]; or the body
    is [null], and reading a member of it throws [err]; or the body is
    an object. *)
Inductive response : Type :=
| Thrown (err_message : jsstring)
| RepliedNull (ok : bool) (err_message : jsstring)
| Replied (ok : bool) (data : reply).

(** [a || b] for a string or [undefined] [a]. *)
Definition or_else (a : option jsstring) (b : jsstring) : jsstring :=
  match a with
  | Some (c :: t) => c :: t
  | _ => b
  end.

(** The rest of [sendMessage], from the response on, with the [catch]
    and the [finally] clause. *)
Definition sendMessage_resumed (hasFile : bool) (r : response) (st : app) : app :=
  let uploaded (st : app) :=
    if hasFile then set_filePreview_hidden true (set_fileInput_files [] st)
    else st in
  let st :=
    match r with
    | Thrown m => emit (showError (str "Connection error: " ++ m)) st
    | RepliedNull ok m =>
        let st := if ok then uploaded st else st in
        emit (showError (str "Connection error: " ++ m)) st
    | Replied false data =>
        emit (showError
                (or_else (error data)
                   (if hasFile then str "Upload failed."
                    else str "Failed to send message."))) st
    | Replied true data =>
        let st := uploaded st in
        let st :=
          match conversation_id data with
          | Some c => if truthy c then set_currentConversationId (Some c) st else st
          | None => st
          end in
        let st :=
          match assistant_message data with
          | Some content =>
              emit (renderMessage (str "assistant") content
                      (Some (match suggestions data with
                             | Some l => l
                             | None => []
                             end))) st
          | None => st
          end in
        emit loadConversationList st
    end in
  let st := set_isWaiting false st in
  let st := set_sendBtn_disabled false st in
  set_typingIndicator_hidden true st.

(** What happens to the page: a click or a key that calls
    [sendMessage]; the user edits the message or the chosen files; the
    response to the oldest suspended call arrives; another handler
    ([loadConversation], [newConversation]) sets the conversation. *)
Inductive event : Type :=
| Send (text : option jsstring)
| Edit (value : jsstring) (files : list file) (preview_hidden : bool)
| Answer (r : response)
| Open (c : option id).

Definition step (st : app) (e : event) : app :=
  match e with
  | Send text => sendMessage text st
  | Edit value files hidden =>
      set_filePreview_hidden hidden
        (set_fileInput_files files (set_messageInput_value value st))
  | Answer r =>
      match awaiting st with
      | hasFile :: rest => sendMessage_resumed hasFile r (set_awaiting rest st)
      | [] => st
      end
  | Open c => set_currentConversationId c st
  end.

Definition run (st : app) (es : list event) : app := fold_left step es st.

(** The requests among the calls, and the responses among the events. *)
Definition is_request (e : effect) : bool :=
  match e with
  | fetch_upload _ _ _ | fetch_chat _ _ => true
  | _ => false
  end.

Definition requests (st : app) : nat := length (filter is_request (effects st)).

Definition is_answer (e : event) : bool :=
  match e with Answer _ => true | _ => false end.

Definition answers (es : list event) : nat := length (filter is_answer es).

(** The lock is taken exactly while one call is suspended. *)
Definition locked (st : app) : Prop :=
  (isWaiting st = false /\ awaiting st = [])
  \/ (isWaiting st = true /\ exists h, awaiting st = [h]).

(** The send button and the typing indicator follow the lock. *)
Definition shown (st : app) : Prop :=
  sendBtn_disabled st = isWaiting st
  /\ typingIndicator_hidden st = negb (isWaiting st).

(** A request that says what it should: a text-only request has a
    message, an upload has no empty message, and a conversation that is
    named is truthy. *)
Definition sound_conversation (c : option id) : Prop :=
  match c with Some i => truthy i = true | None => True end.

Definition sound (e : effect) : Prop :=
  match e with
  | fetch_chat m c => m <> [] /\ sound_conversation c
  | fetch_upload _ m c => m <> Some [] /\ sound_conversation c
  | _ => True
  end.

End App.

Arguments showError {file id} msg.
Arguments renderMessage {file id} role content suggestions.
Arguments fetch_upload {file id} f message conversation_id.
Arguments fetch_chat {file id} message conversation_id.
Arguments loadConversationList {file id}.
Arguments Thrown {id} err_message.
Arguments RepliedNull {id} ok err_message.
Arguments Replied {id} ok data.
Arguments Send {file id} text.
Arguments Edit {file id} value files preview_hidden.
Arguments Answer {file id} r.
Arguments Open {file id} c.

End Chatbot.

(** ** The chat with user names: [fetchMessages] *)

(** [fetchMessages] is polled every two seconds and called after each
    message sent.  [lastMessageCount] is the variable of the closure;
    the calls of [renderMessages] are recorded with their argument, the
    latest last.  The code does not look at [resp.ok]: whatever JSON
    body comes back is taken for the messages.  A body is the array of
    the messages, or another value, of which the code reads the member
    [length]: a number of messages as well (a string, an object with
    such a member), or any other value, [undefined] when there is no
    such member.  [renderMessages] called with a body that is no array
    empties the page and then throws, in [forEach]; the [catch] clause
    logs that.  There is no body when [fetch] or [resp.json()] throws
    or the body is [null]: nothing changes then. *)
Module SecureChat.

Section Poll.

Variables (message other : Type).

(** [a === b] for two values that are no natural numbers. *)
Variable same : other -> other -> bool.

Inductive count : Type :=
| Num (n : nat)
| Other (v : other).

(** [a === b] *)
Definition count_eqb (a b : count) : bool :=
  match a, b with
  | Num x, Num y => x =? y
  | Other u, Other v => same u v
  | _, _ => false
  end.

Inductive body : Type :=
| Messages (messages : list message)
| NotArray (length_member : count).

(** [messages.length] *)
Definition length_of (b : body) : count :=
  match b with
  | Messages ms => Num (length ms)
  | NotArray l => l
  end.

Record page : Type := Page {
  lastMessageCount : count;
  renderMessages_calls : list body
}.

(** The body of [fetchMessages] from the response on. *)
Definition fetchMessages_resumed (r : option body) (st : page) : page :=
  match r with
  | Some messages =>
      if negb (count_eqb (length_of messages) (lastMessageCount st)) then
        Page (length_of messages) (renderMessages_calls st ++ [messages])
      else st
  | None => st
  end.

Definition polls (st : page) (rs : list (option body)) : page :=
  fold_left (fun st r => fetchMessages_resumed r st) rs st.

(** Each value differs from the one before it, by [===]. *)
Fixpoint changing (l : list count) : Prop :=
  match l with
  | a :: (b :: _) as l' => count_eqb b a = false /\ changing l'
  | _ => True
  end.

End Poll.

Arguments Num {other} n.
Arguments Other {other} v.
Arguments Messages {message other} messages.
Arguments NotArray {message other} length_member.

End SecureChat.

(** [w] stands in [s], as a run of neighbours. *)
Definition factor (w s : jsstring) : Prop := exists a b, s = a ++ w ++ b.

(** A match of [r] that begins in [w] puts the rest of [w] first. *)
Definition starts_keep (r : regex) (tpl : mstate cu -> jsstring) (w : jsstring)
  : Prop :=
  forall u v b p st',
    w = u ++ v -> v <> [] -> (u <> [] -> p = lastp None u) ->
    exec plain r p (v ++ b) = Some st' ->
    exists y, tpl st' = v ++ y.

(** A match of [r] that begins before [w] and reaches into it puts [w]
    out again, or ends in [w] and puts out what it took of [w] last. *)
Definition reaches_keep (r : regex) (tpl : mstate cu -> jsstring) (w : jsstring)
  : Prop :=
  forall p a b st',
    a <> [] -> exec plain r p (a ++ w ++ b) = Some st' ->
    length (rest st') < length (w ++ b) ->
    factor w (tpl st')
    \/ exists x u v, w = u ++ v /\ u <> [] /\ v <> []
                     /\ tpl st' = x ++ u /\ rest st' = v ++ b.

(** The tags of the clean-up patterns: [<], then no other [<]. *)
Definition one_tag (tag : regex) : Prop :=
  forall st1 st0, Matches plain tag st1 st0 ->
                  exists t, consumed st1 st0 = 60%N :: t /\ ~ In 60%N t.

Fixpoint chr_all (Q : cu -> bool) (r : regex) : Prop :=
  match r with
  | Chr q => forall c, q c = true -> Q c = true
  | Seq a b | Alt a b => chr_all Q a /\ chr_all Q b
  | Star _ a | Group _ a => chr_all Q a
  | Eps | Bol | Eol => True
  end.

(** The markers of the line patterns: characters of a line, and no
    [<]. *)
Definition marker_char (c : cu) : bool := is_dot c && negb (c =? 60)%N.

(** A character at which no pattern after the code stage and the
    emphasis can begin, and which is in none of their tags. *)
Definition quiet (c : cu) : bool :=
  ordinary c && negb (c =? 60)%N && negb (c =? 62)%N
  && negb (is_line_terminator c).

(** The patterns after the emphasis, the header patterns and those of
    the code stage. *)
Definition later_patterns : list regex :=
  [L "### "; L "## "; L "# "; L "- "; (Plus (Chr is_digit) ;; L ". ")%re;
   re_blank; re_empty_p; re_p_before tag_h_open; re_p_after tag_h_close;
   re_p_before (L "<pre>"); re_p_after (L "</pre>");
   re_p_before (L "<ul>"); re_p_after (L "</ul>")].

(** The number of [d] in a text. *)
Definition count (d : cu) (s : jsstring) : nat := count_occ N.eq_dec s d.

Definition not_backtick_first (b : jsstring) : Prop :=
  match b with c :: _ => c <> BACKTICK | [] => True end.

Fixpoint skip_digits (l : jsstring) : jsstring :=
  match l with
  | c :: l' => if is_digit c then skip_digits l' else l
  | [] => []
  end.

(** The line begins with digits, a dot and a space. *)
Definition begins_numbered (l : jsstring) : bool :=
  match l with
  | c :: _ => is_digit c && starts_with (str ". ") (skip_digits l)
  | [] => false
  end.

(** The line begins with the marker of a header or of a list item. *)
Definition begins_marker (l : jsstring) : bool :=
  starts_with (str "# ") l || starts_with (str "## ") l
  || starts_with (str "### ") l || starts_with (str "- ") l
  || begins_numbered l.

(** The lines after the first one of a text. *)
Definition more_lines (ls : list jsstring) : jsstring :=
  flat_map (fun l => NL :: l) ls.

(** The markers of the five line patterns. *)
Definition line_markers : list regex :=
  [L "### "; L "## "; L "# "; L "- "; (Plus (Chr is_digit) ;; L ". ")%re].

(** What stands after a line of a fenced block: nothing, a line
    terminator, or the [<] of a tag. *)
Definition code_follows (r : jsstring) : Prop :=
  match r with [] => True | c :: _ => marker_char c = false end.

(** No pattern can begin at an [inert] character. *)
Definition still (r : regex) : Prop :=
  forall pv c, inert c = true -> can_match r (pv, Some c) = false.

(** A line of code: not empty, one line, escaped, without backtick and
    without [*]. *)
Definition code_line (l : jsstring) : Prop :=
  l <> [] /\ Forall (fun c => inert c = true) l.

(** A line of code after the first: it does not begin with a marker. *)
Definition later_line (l : jsstring) : Prop :=
  code_line l /\ begins_marker l = false.

(** The element that the code stage makes of a fenced block. *)
Definition pre_block (T : jsstring) : jsstring :=
  str "<pre><code>" ++ T ++ str "</code></pre>".

(** [W] begins a line of [s]: it is at the beginning of [s], or a line
    terminator stands before it. *)
Definition stands (W s : jsstring) : Prop :=
  (exists b, s = W ++ b)
  \/ (exists t, is_line_terminator t = true /\ factor (t :: W) s).

(** The lines of a fenced block, as the message has them: not empty,
    without backtick and without [*]. *)
Definition source_line (l : jsstring) : Prop :=
  l <> [] /\ Forall (fun c => markup_free c = true) l.

(** * Properties *)

Unset Implicit Arguments.

(** ** The matcher *)

Section EngineFacts.

Context {A : Type} (code : A -> cu).

Implicit Types (st : mstate A) (r : regex).

Lemma lastp_app (d : option A) (u v : list A) :
  lastp d (u ++ v) = lastp (lastp d u) v.
Proof. unfold lastp. apply fold_left_app. Qed.

Lemma lastp_cons (d : option A) c (v : list A) :
  lastp d (c :: v) = lastp (Some c) v.
Proof. reflexivity. Qed.

Lemma star_sound g a (step : mstate A -> list (mstate A)) :
  (forall st st', In st' (step st) -> Matches code a st st') ->
  forall n st st', In st' (star g step n st) -> Matches code (Star g a) st st'.
Proof.
  intros Hstep n. induction n as [|n IH]; intros st st' Hin; simpl in Hin.
  - destruct Hin as [<-|[]]. constructor.
  - assert (Hmore : In st' (flat_map (star g step n)
                              (filter (progress st) (step st))) ->
                    Matches code (Star g a) st st').
    { intros H. apply in_flat_map in H. destruct H as (st2 & H2 & H3).
      apply filter_In in H2. destruct H2 as [H2 Hp].
      unfold progress in Hp. apply Nat.ltb_lt in Hp.
      eapply M_StarS; eauto. }
    destruct g.
    + apply in_app_or in Hin. destruct Hin as [H|[<-|[]]]; auto. constructor.
    + destruct Hin as [<-|H]; auto. constructor.
Qed.

(** Every result of the matcher is a match of the pattern. *)
Lemma m_sound r : forall st st', In st' (m code r st) -> Matches code r st st'.
Proof.
  induction r as [|p|a IHa b IHb|a IHa b IHb|g a IHa|i a IHa| |];
    intros st st' Hin.
  - destruct Hin as [<-|[]]. constructor.
  - destruct st as [pv [|c s] cs]; simpl in Hin; [contradiction|].
    destruct (p (code c)) eqn:Hp; [|contradiction].
    destruct Hin as [<-|[]]. now constructor.
  - simpl in Hin. apply in_flat_map in Hin. destruct Hin as (st2 & H1 & H2).
    econstructor; eauto.
  - simpl in Hin. apply in_app_or in Hin.
    destruct Hin; [apply M_AltL|apply M_AltR]; auto.
  - eapply star_sound; eauto.
  - simpl in Hin. apply in_map_iff in Hin. destruct Hin as (st2 & <- & H).
    constructor; auto.
  - simpl in Hin. destruct (at_bol code st) eqn:E; [|contradiction].
    destruct Hin as [<-|[]]. now constructor.
  - simpl in Hin. destruct (at_eol code st) eqn:E; [|contradiction].
    destruct Hin as [<-|[]]. now constructor.
Qed.

(** A match consumes a prefix of the subject and remembers its last
    character. *)
Lemma Matches_suffix r st st' :
  Matches code r st st' ->
  exists w, rest st = w ++ rest st' /\ prev st' = lastp (prev st) w.
Proof.
  induction 1; simpl.
  - exists []; auto.
  - exists [c]; auto.
  - destruct IHMatches1 as (w1 & E1 & P1), IHMatches2 as (w2 & E2 & P2).
    exists (w1 ++ w2). rewrite E1, E2, P2, P1, lastp_app, app_assoc. auto.
  - auto.
  - auto.
  - exists []; auto.
  - destruct IHMatches1 as (w1 & E1 & P1), IHMatches2 as (w2 & E2 & P2).
    exists (w1 ++ w2). rewrite E1, E2, P2, P1, lastp_app, app_assoc. auto.
  - auto.
  - exists []; auto.
  - exists []; auto.
Qed.

Lemma consumed_app (w : list A) st st' :
  rest st = w ++ rest st' -> consumed st st' = w.
Proof.
  intros E. unfold consumed. rewrite E, length_app.
  replace (length w + length (rest st') - length (rest st')) with (length w) by lia.
  rewrite firstn_app, firstn_all, Nat.sub_diag. simpl. apply app_nil_r.
Qed.

Lemma exec_sound r p s st' :
  exec code r p s = Some st' ->
  Matches code r (MState p s []) st'.
Proof.
  unfold exec. intros H. apply m_sound.
  destruct (m code r (MState p s [])); simpl in H; [discriminate|].
  injection H as <-. now left.
Qed.

Lemma exec_suffix r p s st' :
  exec code r p s = Some st' ->
  exists w, s = w ++ rest st' /\ prev st' = lastp p w.
Proof.
  intros H. apply exec_sound, Matches_suffix in H. exact H.
Qed.

(** *** The look-ahead is sound *)

Lemma Matches_same r st st' :
  Matches code r st st' -> length (rest st') = length (rest st) ->
  rest st' = rest st /\ prev st' = prev st.
Proof.
  intros H L. destruct (Matches_suffix _ _ _ H) as (w & E & P).
  rewrite E, length_app in L. destruct w; simpl in L; [|lia].
  simpl in E. rewrite P. auto.
Qed.

Lemma Matches_le r st st' :
  Matches code r st st' -> length (rest st') <= length (rest st).
Proof.
  intros H. destruct (Matches_suffix _ _ _ H) as (w & E & _).
  rewrite E, length_app. lia.
Qed.

Lemma ctx_same st st' :
  rest st' = rest st -> prev st' = prev st -> ctx code st' = ctx code st.
Proof. unfold ctx. now intros -> ->. Qed.

Lemma zw_sound r st st' :
  Matches code r st st' -> length (rest st') = length (rest st) ->
  zw r (ctx code st) = true.
Proof.
  induction 1; intros L; simpl; auto.
  - simpl in L. lia.
  - pose proof (Matches_le _ _ _ H). pose proof (Matches_le _ _ _ H0).
    assert (L1 : length (rest st2) = length (rest st1)) by lia.
    destruct (Matches_same _ _ _ H L1) as [E1 E2].
    rewrite IHMatches1 by assumption. simpl.
    rewrite <- (ctx_same _ _ E1 E2). apply IHMatches2. lia.
  - rewrite IHMatches; auto.
  - rewrite IHMatches; auto. apply orb_true_r.
  - unfold at_bol in H. unfold ctx. simpl. now destruct (prev st).
  - unfold at_eol in H. unfold ctx. simpl. now destruct (rest st).
Qed.

Lemma adv_sound r st st' :
  Matches code r st st' -> length (rest st') < length (rest st) ->
  adv r (ctx code st) = true.
Proof.
  induction 1; intros L; simpl; auto; try lia.
  - pose proof (Matches_le _ _ _ H). pose proof (Matches_le _ _ _ H0).
    destruct (Nat.eq_dec (length (rest st2)) (length (rest st1))) as [L1|L1].
    + destruct (Matches_same _ _ _ H L1) as [E1 E2].
      rewrite (zw_sound _ _ _ H L1). simpl.
      rewrite <- (ctx_same _ _ E1 E2). rewrite IHMatches2 by lia.
      apply orb_true_r.
    + rewrite IHMatches1 by lia. reflexivity.
  - rewrite IHMatches; auto.
  - rewrite IHMatches; auto. apply orb_true_r.
Qed.

Lemma can_match_sound r st st' :
  Matches code r st st' -> can_match r (ctx code st) = true.
Proof.
  intros H. unfold can_match. pose proof (Matches_le _ _ _ H).
  destruct (Nat.eq_dec (length (rest st')) (length (rest st))) as [L|L].
  - rewrite (zw_sound _ _ _ H L). reflexivity.
  - rewrite (adv_sound _ _ _ H) by lia. apply orb_true_r.
Qed.

Lemma exec_none r p s :
  can_match r (option_map code p, option_map code (hd_error s)) = false ->
  exec code r p s = None.
Proof.
  intros H. destruct (exec code r p s) as [st'|] eqn:E; [|reflexivity].
  apply exec_sound, can_match_sound in E. unfold ctx in E. simpl in E.
  congruence.
Qed.

(** A pattern that cannot match the empty string only has matches
    that consume something. *)
Lemma exec_nonempty r p s st' :
  (forall k, zw r k = false) ->
  exec code r p s = Some st' ->
  exists c w, s = c :: w ++ rest st' /\ prev st' = lastp (Some c) w.
Proof.
  intros Hz H. pose proof (exec_sound _ _ _ _ H) as HM.
  destruct (exec_suffix _ _ _ _ H) as (w & E & P).
  destruct w as [|c w].
  - exfalso. simpl in E. pose proof (zw_sound _ _ _ HM) as Z. simpl in Z.
    rewrite Hz in Z. rewrite E in Z. specialize (Z eq_refl). discriminate.
  - exists c, w. auto.
Qed.

Lemma never_empty_zw r : never_empty r = true -> forall k, zw r k = false.
Proof.
  induction r; simpl; intros H k; try discriminate; auto.
  - apply orb_true_iff in H. destruct H as [H|H].
    + now rewrite IHr1.
    + rewrite IHr2 by assumption. apply andb_false_r.
  - apply andb_true_iff in H. destruct H. now rewrite IHr1, IHr2.
Qed.

(** *** Equations to evaluate the matcher on a subject that is only
    partly known *)

Lemma flat_map_map {X Y Z : Type} (f : X -> Y) (g : Y -> list Z) l :
  flat_map g (map f l) = flat_map (fun x => g (f x)) l.
Proof. induction l; simpl; congruence. Qed.

Lemma m_star_chr_nil g q p cs :
  m code (Star g (Chr q)) (MState p [] cs) = [MState p [] cs].
Proof. simpl. destruct g; reflexivity. Qed.

Lemma star_S g (step : mstate A -> list (mstate A)) n st :
  star g step (S n) st
  = if g
    then flat_map (star g step n) (filter (progress st) (step st)) ++ [st]
    else st :: flat_map (star g step n) (filter (progress st) (step st)).
Proof. reflexivity. Qed.

Lemma m_Star g a st :
  m code (Star g a) st = star g (m code a) (S (length (rest st))) st.
Proof. reflexivity. Qed.

Lemma m_star_chr_cons g q p c s cs :
  m code (Star g (Chr q)) (MState p (c :: s) cs) =
  (if g
   then (if q (code c) then m code (Star g (Chr q)) (MState (Some c) s cs) else [])
          ++ [MState p (c :: s) cs]
   else MState p (c :: s) cs
          :: (if q (code c) then m code (Star g (Chr q)) (MState (Some c) s cs) else [])).
Proof.
  rewrite !m_Star. cbn [rest length]. rewrite star_S.
  change (m code (Chr q) (MState p (c :: s) cs))
    with (if q (code c) then [MState (Some c) s cs] else []).
  destruct (q (code c)).
  - cbn [filter]. unfold progress. cbn [rest length].
    assert (E : (length s <? S (length s)) = true) by (apply Nat.ltb_lt; lia).
    rewrite E. cbn [flat_map]. rewrite app_nil_r. reflexivity.
  - reflexivity.
Qed.

Lemma m_star_chr_stop g q p s cs :
  match s with [] => true | c :: _ => negb (q (code c)) end = true ->
  m code (Star g (Chr q)) (MState p s cs) = [MState p s cs].
Proof.
  destruct s as [|c s]; intros H.
  - apply m_star_chr_nil.
  - rewrite m_star_chr_cons. apply negb_true_iff in H. rewrite H.
    destruct g; reflexivity.
Qed.

Lemma star_skip_run {B : Type} g q (K : mstate A -> list B) u :
  forall p s cs,
    Forall (fun c => q (code c) = true) u ->
    (forall u1 c u2, u = u1 ++ c :: u2 ->
                     K (MState (lastp p u1) (c :: u2 ++ s) cs) = []) ->
    flat_map K (m code (Star g (Chr q)) (MState p (u ++ s) cs))
    = flat_map K (m code (Star g (Chr q)) (MState (lastp p u) s cs)).
Proof.
  induction u as [|c u IH]; intros p s cs Hq HK; [reflexivity|].
  inversion Hq as [|? ? Hc Hu]; subst.
  simpl app. rewrite m_star_chr_cons, Hc.
  assert (K0 : K (MState p (c :: u ++ s) cs) = []) by (apply (HK [] c u); reflexivity).
  assert (IH' : flat_map K (m code (Star g (Chr q)) (MState (Some c) (u ++ s) cs))
                = flat_map K (m code (Star g (Chr q)) (MState (lastp p (c :: u)) s cs))).
  { rewrite lastp_cons. apply IH; auto.
    intros u1 d u2 E. rewrite <- lastp_cons with (d := p).
    apply (HK (c :: u1) d u2). simpl. now rewrite E. }
  destruct g.
  - rewrite flat_map_app, IH'. cbn [flat_map]. rewrite K0, !app_nil_r. reflexivity.
  - cbn [flat_map]. rewrite K0, IH'. reflexivity.
Qed.

Lemma m_Lit w : forall p s cs,
  m code (Lit w) (MState p s cs)
  = if starts_with w (map code s)
    then [MState (lastp p (firstn (length w) s)) (skipn (length w) s) cs]
    else [].
Proof.
  induction w as [|c w IH]; intros p s cs; [reflexivity|].
  destruct s as [|d s]; [reflexivity|].
  cbn [Lit m rest caps map starts_with]. unfold is_char.
  rewrite N.eqb_sym. destruct (c =? code d)%N; [|reflexivity].
  cbn [flat_map andb]. rewrite app_nil_r, IH. reflexivity.
Qed.

Lemma m_Seq a b st :
  m code (Seq a b) st = flat_map (m code b) (m code a st).
Proof. reflexivity. Qed.

Lemma m_Group i a st :
  m code (Group i a) st = map (set_cap i st) (m code a st).
Proof. reflexivity. Qed.

Lemma m_Chr q p c s cs :
  m code (Chr q) (MState p (c :: s) cs)
  = if q (code c) then [MState (Some c) s cs] else [].
Proof. reflexivity. Qed.

Lemma set_cap_app i (p p' : option A) w s cs cs' :
  set_cap i (MState p (w ++ s) cs) (MState p' s cs') = MState p' s ((i, w) :: cs').
Proof.
  unfold set_cap. cbn [prev rest caps].
  rewrite (consumed_app w (MState p (w ++ s) cs) (MState p' s cs')); reflexivity.
Qed.

End EngineFacts.

(** ** The global replacement *)

Section ReplaceFacts.

Context {A : Type} (code : A -> cu).
Variables (r : regex) (tpl : mstate A -> list A).

Lemma replace_from_0 p s :
  replace_from code r tpl 0 p s =
  match exec code r p s with
  | Some st' =>
      tpl st' ++
      match length s - length (rest st') with
      | O => match s with
             | [] => []
             | c :: s' => c :: replace_from code r tpl 0 (Some c) s'
             end
      | S k => match s with
               | [] => []
               | c :: s' => replace_from code r tpl k (Some c) s'
               end
      end
  | None =>
      match s with
      | [] => []
      | c :: s' => c :: replace_from code r tpl 0 (Some c) s'
      end
  end.
Proof. destruct s; reflexivity. Qed.

Lemma replace_from_skip w : forall p s,
  replace_from code r tpl (length w) p (w ++ s)
  = replace_from code r tpl 0 (lastp p w) s.
Proof.
  induction w as [|c w IH]; intros p s; simpl length.
  - reflexivity.
  - simpl app. simpl replace_from. rewrite IH. reflexivity.
Qed.

(** No match at this position: the character is copied. *)
Lemma replace_from_none p c s :
  exec code r p (c :: s) = None ->
  replace_from code r tpl 0 p (c :: s)
  = c :: replace_from code r tpl 0 (Some c) s.
Proof. intros E. rewrite replace_from_0, E. reflexivity. Qed.

(** A match that consumes [c :: w]: the replacement, then the scan goes
    on behind the match. *)
Lemma replace_from_some p c w s st' :
  exec code r p (c :: w ++ s) = Some st' -> rest st' = s ->
  replace_from code r tpl 0 p (c :: w ++ s)
  = tpl st' ++ replace_from code r tpl 0 (lastp (Some c) w) s.
Proof.
  intros E R. rewrite replace_from_0, E, R. simpl length.
  rewrite length_app.
  replace (S (length w + length s) - length s) with (S (length w)) by lia.
  rewrite replace_from_skip. reflexivity.
Qed.

Lemma replace_from_match p s st' :
  never_empty r = true ->
  exec code r p s = Some st' ->
  replace_from code r tpl 0 p s
  = tpl st' ++ replace_from code r tpl 0 (prev st') (rest st').
Proof.
  intros Hz E.
  destruct (exec_nonempty code _ _ _ _ (never_empty_zw _ Hz) E) as (c & w & Es & Ep).
  rewrite Ep. subst s. apply replace_from_some; auto.
Qed.

Lemma replace_from_nil p :
  never_empty r = true -> replace_from code r tpl 0 p [] = [].
Proof.
  intros Hz. rewrite replace_from_0.
  destruct (exec code r p []) as [st'|] eqn:E; [|reflexivity].
  destruct (exec_nonempty code _ _ _ _ (never_empty_zw _ Hz) E) as (c & w & Es & _).
  discriminate.
Qed.

(** Induction along the scan of a pattern that never matches the empty
    string. *)
Lemma replace_from_ind (P : option A -> list A -> list A -> Prop) :
  (forall k, zw r k = false) ->
  (forall p, P p [] []) ->
  (forall p c s out,
      exec code r p (c :: s) = None ->
      P (Some c) s out -> P p (c :: s) (c :: out)) ->
  (forall p c w s st' out,
      exec code r p (c :: w ++ s) = Some st' -> rest st' = s ->
      P (lastp (Some c) w) s out -> P p (c :: w ++ s) (tpl st' ++ out)) ->
  forall p s, P p s (replace_from code r tpl 0 p s).
Proof.
  intros Hz Hnil Hnone Hsome p s. remember (length s) as n eqn:Hn.
  revert p s Hn. induction n as [n IH] using lt_wf_ind. intros p s Hn.
  destruct s as [|c s].
  - rewrite replace_from_0.
    destruct (exec code r p []) as [st'|] eqn:E; [|apply Hnil].
    destruct (exec_nonempty code _ _ _ _ Hz E) as (c & w & E' & _). discriminate.
  - destruct (exec code r p (c :: s)) as [st'|] eqn:E.
    + destruct (exec_nonempty code _ _ _ _ Hz E) as (c' & w & E' & _).
      injection E' as <- ->.
      rewrite (replace_from_some _ _ _ _ _ E eq_refl).
      apply Hsome; auto.
      eapply IH; [|reflexivity]. subst n. simpl. rewrite length_app. lia.
    + rewrite (replace_from_none _ _ _ E). apply Hnone; auto.
      eapply IH; [|reflexivity]. subst n. simpl. lia.
Qed.

End ReplaceFacts.


(** ** [String.prototype.trim] *)

Section TrimFacts.
Context {A : Type} (code : A -> cu).

Lemma trim_start_split s :
  exists l, s = l ++ trim_start code s /\ spaces code l.
Proof.
  induction s as [|c s (l & E & H)]; simpl.
  - exists []. split; [reflexivity|constructor].
  - destruct (is_space (code c)) eqn:Hc.
    + exists (c :: l). split; [simpl; congruence|constructor; auto].
    + exists []. split; [reflexivity|constructor].
Qed.

Lemma trim_start_head s : head_not_space code (trim_start code s).
Proof.
  induction s as [|c s IH]; simpl; [exact I|].
  destruct (is_space (code c)) eqn:Hc; [exact IH|exact Hc].
Qed.

Lemma trim_start_fixed s : head_not_space code s -> trim_start code s = s.
Proof. destruct s as [|c s]; simpl; [reflexivity|]. now intros ->. Qed.

Lemma trim_split s :
  exists l r, s = l ++ trim code s ++ r /\ spaces code l /\ spaces code r.
Proof.
  unfold trim.
  destruct (trim_start_split s) as (l & E1 & H1).
  destruct (trim_start_split (rev (trim_start code s))) as (l' & E2 & H2).
  exists l, (rev l'). repeat split; auto.
  - rewrite <- rev_app_distr, <- E2, rev_involutive. exact E1.
  - apply Forall_rev. exact H2.
Qed.

Lemma trim_ends s :
  head_not_space code (trim code s) /\ head_not_space code (rev (trim code s)).
Proof.
  unfold trim. rewrite rev_involutive. split; [|apply trim_start_head].
  destruct (trim_start_split (rev (trim_start code s))) as (l' & E2 & H2).
  pose proof (trim_start_head s) as H.
  apply (f_equal (@rev A)) in E2. rewrite rev_involutive, rev_app_distr in E2.
  rewrite E2 in H.
  destruct (rev (trim_start code (rev (trim_start code s)))); [exact I|exact H].
Qed.

End TrimFacts.

Lemma exec_nil_none {A} (code : A -> cu) r p :
  never_empty r = true -> exec code r p [] = None.
Proof.
  intros Hz. destruct (exec code r p []) as [st'|] eqn:E; [|reflexivity].
  destruct (exec_nonempty code _ _ _ _ (never_empty_zw _ Hz) E) as (c & w & Es & _).
  discriminate.
Qed.


(** ** The fence pattern *)

Ltac norm_str :=
  repeat match goal with
    | |- context [str ?s] =>
        let v := eval vm_compute in (str s) in change (str s) with v
    end.

Lemma map_plain s : map plain s = s.
Proof. induction s; simpl; unfold plain in *; congruence. Qed.

Lemma is_word_not_nl c : is_word c = true -> (c =? NL)%N = false.
Proof.
  intros H. destruct (N.eqb_spec c NL) as [->|]; [discriminate H|reflexivity].
Qed.

Lemma exec_fence p lang body :
  Forall (fun c => is_word c = true) lang ->
  ~ In BACKTICK body ->
  exec plain re_fence p (str "```" ++ lang ++ NL :: body ++ str "```")
  = Some (MState (Some BACKTICK) [] [(2, body); (1, lang)]).
Proof.
  intros Hl Hb. unfold exec, re_fence, L. norm_str.
  rewrite m_Seq, m_Lit. cbn [app map plain starts_with N.eqb Pos.eqb andb length firstn skipn lastp fold_left flat_map].
  rewrite app_nil_r.
  rewrite m_Seq, m_Group, flat_map_map.
  rewrite star_skip_run; [|exact Hl|].
  2:{ intros u1 c u2 E. unfold set_cap. cbn [prev rest caps].
      rewrite m_Seq, m_Chr. unfold is_char, plain.
      rewrite is_word_not_nl; [reflexivity|].
      rewrite Forall_forall in Hl. apply Hl. rewrite E. apply in_elt. }
  rewrite m_star_chr_stop by reflexivity.
  cbn [flat_map]. rewrite app_nil_r.
  rewrite set_cap_app.
  rewrite m_Seq, m_Chr. change (is_char NL (plain NL)) with true.
  cbn [flat_map]. rewrite app_nil_r.
  rewrite m_Seq, m_Group, flat_map_map.
  rewrite star_skip_run.
  2:{ apply Forall_forall. intros c _. unfold is_any. apply orb_negb_r. }
  2:{ intros u1 c u2 E. unfold set_cap. cbn [prev rest caps].
      rewrite m_Lit. cbn [map starts_with]. unfold plain.
      destruct (N.eqb_spec 96 c) as [<-|]; [|reflexivity].
      exfalso. apply Hb. rewrite E. apply in_elt. }
  rewrite m_star_chr_cons. cbn [flat_map].
  rewrite set_cap_app, m_Lit. reflexivity.
Qed.

Lemma lits_plain w : lits plain w = w.
Proof. unfold lits. induction w; simpl; unfold plain in *; congruence. Qed.

Lemma code_blocks_fence lang body :
  Forall (fun c => is_word c = true) lang ->
  ~ In BACKTICK body ->
  stage_code_blocks (str "```" ++ lang ++ NL :: body ++ str "```")
  = str "<pre><code>" ++ trim plain body ++ str "</code></pre>".
Proof.
  intros Hl Hb. unfold stage_code_blocks, code_blocks, replace.
  rewrite (replace_from_match plain re_fence _ _ _ _ eq_refl
             (exec_fence None lang body Hl Hb)).
  cbn [prev rest]. rewrite replace_from_nil by reflexivity.
  rewrite app_nil_r. unfold cap. cbn [caps get_cap Nat.eqb].
  rewrite !lits_plain. reflexivity.
Qed.

(** C9, as the specification states it, fails: the indentation of the
    first line and more than one blank line are stripped as well. *)
Lemma fence_strips_more_than_a_blank_line :
  stage_code_blocks (str "```" ++ NL :: (str "  x" ++ [NL]) ++ str "```")
  = str "<pre><code>x</code></pre>"
  /\ stage_code_blocks (str "```" ++ NL :: (str "  x" ++ [NL]) ++ str "```")
     <> str "<pre><code>" ++ spec_strip_blank_lines (str "  x" ++ [NL])
        ++ str "</code></pre>"
  /\ trim plain ([NL; NL] ++ str "x" ++ [NL; NL]) = str "x"
  /\ spec_strip_blank_lines ([NL; NL] ++ str "x" ++ [NL; NL])
     = [NL] ++ str "x" ++ [NL].
Proof.
  repeat split; try (vm_compute; reflexivity).
  intros H; vm_compute in H; discriminate.
Qed.

(** C9, amended.  When a fenced code block is rendered, all the white
    space at the two ends of the fenced body is stripped, blank lines and
    the indentation of the first line alike; what lies between is kept
    as it is, and the result is wrapped as
    [<pre><code>{body}</code></pre>]. *)
Theorem fence_body_trimmed lang body :
  Forall (fun c => is_word c = true) lang ->
  ~ In BACKTICK body ->
  stage_code_blocks (str "```" ++ lang ++ NL :: body ++ str "```")
  = str "<pre><code>" ++ trim plain body ++ str "</code></pre>"
  /\ (exists l r, body = l ++ trim plain body ++ r
                  /\ spaces plain l /\ spaces plain r)
  /\ head_not_space plain (trim plain body)
  /\ head_not_space plain (rev (trim plain body)).
Proof.
  intros Hl Hb. split; [now apply code_blocks_fence|].
  split; [apply trim_split|apply trim_ends].
Qed.

Lemma fence_body_trimmed_witness :
  stage_code_blocks (str "```" ++ str "js" ++ NL :: (str " a  b " ++ [NL]) ++ str "```")
  = str "<pre><code>a  b</code></pre>".
Proof.
  refine (proj1 (fence_body_trimmed (str "js") (str " a  b " ++ [NL]) _ _)).
  - repeat constructor.
  - vm_compute. intuition discriminate.
Defined.

Lemma starts_with_app w s : starts_with w (w ++ s) = true.
Proof. induction w; simpl; [reflexivity|]. now rewrite N.eqb_refl. Qed.

Lemma firstn_exact {A} (w s : list A) : firstn (length w) (w ++ s) = w.
Proof. rewrite firstn_app, firstn_all, Nat.sub_diag. simpl. apply app_nil_r. Qed.

Lemma skipn_exact {A} (w s : list A) : skipn (length w) (w ++ s) = s.
Proof. rewrite skipn_app, skipn_all, Nat.sub_diag. reflexivity. Qed.

Lemma m_Lit_app w p s cs :
  m plain (Lit w) (MState p (w ++ s) cs) = [MState (lastp p w) s cs].
Proof.
  rewrite m_Lit, map_plain, starts_with_app, firstn_exact, skipn_exact.
  reflexivity.
Qed.

Lemma starts_with_head w c s :
  match w with d :: _ => d <> c | [] => False end ->
  starts_with w (c :: s) = false.
Proof.
  destruct w as [|d w]; [contradiction|]. simpl. intros H.
  apply N.eqb_neq in H. now rewrite H.
Qed.

(** ** Delimited spans: inline code, bold, italic *)

(** A delimited span: [o], group 1 [[q]+], [c], where [c] begins with a
    character outside of [q]. *)
Lemma exec_span o c q p X s :
  X <> [] ->
  Forall (fun x => q x = true) X ->
  match c with d :: _ => q d = false | [] => False end ->
  exec plain (Lit o ;; Group 1 (Plus (Chr q)) ;; Lit c)%re p (o ++ X ++ c ++ s)
  = Some (MState (lastp p (o ++ X ++ c)) s [(1, X)]).
Proof.
  intros HX Hq Hc. destruct X as [|x X]; [contradiction|].
  inversion Hq as [|? ? Hx HX']; subst.
  unfold exec. rewrite m_Seq, m_Lit_app. cbn [flat_map]. rewrite app_nil_r.
  rewrite m_Seq, m_Group, flat_map_map. unfold Plus.
  rewrite m_Seq. cbn [app]. rewrite m_Chr. change (plain x) with x. rewrite Hx.
  cbn [flat_map]. rewrite app_nil_r.
  rewrite star_skip_run; [|exact HX'|].
  2:{ intros u1 d u2 E. unfold set_cap. cbn [prev rest caps].
      rewrite m_Lit. cbn [map]. rewrite starts_with_head; [reflexivity|].
      destruct c as [|e c]; [contradiction|]. unfold plain. intros ->.
      rewrite Forall_forall in HX'. rewrite HX' in Hc; [discriminate|].
      rewrite E. apply in_elt. }
  rewrite m_star_chr_stop.
  2:{ destruct c as [|e c]; [contradiction|]. simpl. unfold plain. now rewrite Hc. }
  cbn [flat_map]. rewrite app_nil_r.
  change (x :: X ++ c ++ s) with ((x :: X) ++ c ++ s).
  rewrite set_cap_app, m_Lit_app. cbn [hd_error].
  rewrite !lastp_app. cbn [app]. rewrite lastp_cons, lastp_app. reflexivity.
Qed.

Lemma replace_span o c q tpl X s :
  X <> [] ->
  Forall (fun x => q x = true) X ->
  match c with d :: _ => q d = false | [] => False end ->
  replace plain (Lit o ;; Group 1 (Plus (Chr q)) ;; Lit c)%re tpl (o ++ X ++ c ++ s)
  = tpl (MState (lastp None (o ++ X ++ c)) s [(1, X)])
    ++ replace_from plain (Lit o ;; Group 1 (Plus (Chr q)) ;; Lit c)%re tpl 0
         (lastp None (o ++ X ++ c)) s.
Proof.
  intros HX Hq Hc. unfold replace.
  assert (H : never_empty (Lit o ;; Group 1 (Plus (Chr q)) ;; Lit c)%re = true)
    by (simpl; apply orb_true_r).
  rewrite (replace_from_match plain _ tpl _ _ _ H (exec_span o c q None X s HX Hq Hc)).
  reflexivity.
Qed.

Lemma not_star_iff X :
  ~ In STAR X <-> Forall (fun x => is_not_char STAR x = true) X.
Proof.
  rewrite Forall_forall. unfold is_not_char. split.
  - intros H x Hx. apply negb_true_iff, N.eqb_neq. intros ->. contradiction.
  - intros H Hin. specialize (H _ Hin). now rewrite N.eqb_refl in H.
Qed.

Lemma bold_span X :
  X <> [] -> ~ In STAR X ->
  stage_bold (str "**" ++ X ++ str "**") = str "<strong>" ++ X ++ str "</strong>".
Proof.
  intros HX Hs. unfold stage_bold, bold, re_bold, L.
  replace (str "**" ++ X ++ str "**") with (str "**" ++ X ++ str "**" ++ [])
    by (now rewrite app_nil_r).
  rewrite (replace_span (str "**") (str "**") (is_not_char STAR) _ X []);
    try (now apply not_star_iff); auto; [|reflexivity].
  rewrite replace_from_nil by reflexivity.
  unfold wrap1, cap. cbn [caps get_cap Nat.eqb]. rewrite !lits_plain, app_nil_r.
  reflexivity.
Qed.

(** C8, as the specification states it, fails: a bold span may hold a
    newline, and a span with a single [*] inside is not bold. *)
Lemma bold_span_with_newline :
  renderMarkdown (str "**a" ++ NL :: str "b**")
  = str "<p><strong>a" ++ NL :: str "b</strong></p>"
  /\ renderMarkdown (str "**a*b**") = str "<p>*<em>a</em>b**</p>".
Proof. split; vm_compute; reflexivity. Qed.

(** C8, amended.  The bold rule rewrites [**X**], for [X] a non-empty
    run of characters other than [*] (newlines among them), to
    [<strong>X</strong>]; it is applied before the italic rule, so the
    input [**a** *b*] renders with [<strong>a</strong> <em>b</em>],
    whereas the italic rule applied first would consume the [**]
    delimiters. *)
Theorem bold_before_italic :
  (forall X, X <> [] -> ~ In STAR X ->
             stage_bold (str "**" ++ X ++ str "**")
             = str "<strong>" ++ X ++ str "</strong>")
  /\ renderMarkdown (str "**a** *b*")
     = str "<p><strong>a</strong> <em>b</em></p>"
  /\ stage_italic (stage_bold (str "**a** *b*"))
     = str "<strong>a</strong> <em>b</em>"
  /\ stage_bold (stage_italic (str "**a** *b*"))
     = str "*<em>a</em><em> </em>b*".
Proof.
  split; [exact bold_span|]. repeat split; vm_compute; reflexivity.
Qed.

Lemma bold_before_italic_witness :
  (str "a" ++ NL :: str "b" <> [] /\ ~ In STAR (str "a" ++ NL :: str "b"))
  /\ stage_bold (str "**" ++ (str "a" ++ NL :: str "b") ++ str "**")
     = str "<strong>" ++ (str "a" ++ NL :: str "b") ++ str "</strong>".
Proof.
  assert (H : str "a" ++ NL :: str "b" <> [] /\ ~ In STAR (str "a" ++ NL :: str "b")).
  { split; [discriminate|]. vm_compute. intuition discriminate. }
  split; [exact H|].
  exact (proj1 bold_before_italic _ (proj1 H) (proj2 H)).
Defined.

(** ** [escapeHtml] *)

Lemma replace_char_app c w a b :
  replace_char c w (a ++ b) = replace_char c w a ++ replace_char c w b.
Proof. apply flat_map_app. Qed.

Lemma escape_string_app a b :
  escape_string (a ++ b) = escape_string a ++ escape_string b.
Proof. unfold escape_string. now rewrite !replace_char_app. Qed.

Lemma escape_string_one c : escape_string [c] = escape_char c.
Proof.
  unfold escape_string, escape_char, replace_char, AMP, LTC, GTC, NBSP.
  simpl flat_map at 4.
  destruct (N.eqb_spec c 38) as [->|H1]; [reflexivity|].
  simpl. destruct (N.eqb_spec c 160) as [->|H2]; [reflexivity|].
  simpl. destruct (N.eqb_spec c 60) as [->|H3]; [reflexivity|].
  simpl. destruct (N.eqb_spec c 62) as [->|H4]; [reflexivity|].
  reflexivity.
Qed.

Lemma escapeHtml_flat_map s : escapeHtml s = flat_map escape_char s.
Proof.
  unfold escapeHtml. simpl. rewrite app_nil_r.
  induction s as [|c s IH]; [reflexivity|].
  change (c :: s) with ([c] ++ s).
  rewrite escape_string_app, escape_string_one, IH. reflexivity.
Qed.

(** ** The renderer on the inputs that the specification names *)

(** C10.  On the empty input the paragraph stage produces the wrapper
    [<p></p>] around the empty text, the clean-up removes that wrapper,
    and the renderer returns the empty string. *)
Theorem render_empty :
  stage_paragraphs [] = str "<p></p>"
  /\ stage_cleanup (str "<p></p>") = []
  /\ renderMarkdown [] = [].
Proof. repeat split; vm_compute; reflexivity. Qed.

(** C4, as the specification states it, fails: a double quote is not
    turned into [&quot;] (and a no-break space does not stay as it is). *)
Lemma escapeHtml_keeps_quote :
  escapeHtml [QUOT] = [QUOT]
  /\ escapeHtml [QUOT] <> spec_escape [QUOT]
  /\ escapeHtml [NBSP] <> [NBSP].
Proof.
  repeat split; try (vm_compute; reflexivity);
    intros H; vm_compute in H; discriminate.
Qed.

(** C4, amended.  The escaping stage maps [&] to [&amp;], [<] to [&lt;],
    [>] to [&gt;] and the no-break space to [&nbsp;]; every other
    character, the double quote and the newline among them, is left as
    it is. *)
Theorem escapeHtml_chars :
  (forall s, escapeHtml s = flat_map escape_char s)
  /\ escape_char AMP = str "&amp;"
  /\ escape_char LTC = str "&lt;"
  /\ escape_char GTC = str "&gt;"
  /\ escape_char NBSP = str "&nbsp;"
  /\ (forall c, c <> AMP -> c <> LTC -> c <> GTC -> c <> NBSP ->
                escape_char c = [c])
  /\ escape_char QUOT = [QUOT]
  /\ escape_char NL = [NL].
Proof.
  split; [exact escapeHtml_flat_map|].
  repeat split; try reflexivity.
  intros c H1 H2 H3 H4. unfold escape_char.
  apply N.eqb_neq in H1, H2, H3, H4. now rewrite H1, H2, H3, H4.
Qed.

Lemma escapeHtml_chars_witness :
  (65 <> AMP /\ 65 <> LTC /\ 65 <> GTC /\ 65 <> NBSP)%N /\ escape_char 65%N = [65%N].
Proof.
  assert (H : (65 <> AMP /\ 65 <> LTC /\ 65 <> GTC /\ 65 <> NBSP)%N)
    by (repeat split; discriminate).
  split; [exact H|].
  destruct H as (H1 & H2 & H3 & H4).
  exact (proj1 (proj2 (proj2 (proj2 (proj2 (proj2 escapeHtml_chars)))))
               65%N H1 H2 H3 H4).
Defined.

(** ** Text without markup passes through every stage *)

Lemma m_none {A} (code : A -> cu) r st :
  can_match r (ctx code st) = false -> m code r st = [].
Proof.
  intros H. destruct (m code r st) as [|st' l] eqn:E; [reflexivity|].
  assert (Hin : In st' (m code r st)) by (rewrite E; now left).
  apply m_sound, can_match_sound in Hin. congruence.
Qed.

Lemma replace_dead r tpl u : forall p s,
  dead r p u s ->
  replace_from plain r tpl 0 p (u ++ s)
  = u ++ replace_from plain r tpl 0 (lastp p u) s.
Proof.
  induction u as [|c u IH]; intros p s H; [reflexivity|].
  destruct H as [H1 H2]. cbn [app].
  rewrite (replace_from_none plain r tpl _ _ _ H1), lastp_cons, IH; auto.
Qed.

Lemma dead_app r u v : forall p s,
  dead r p u (v ++ s) -> dead r (lastp p u) v s -> dead r p (u ++ v) s.
Proof.
  induction u as [|c u IH]; intros p s H1 H2; [exact H2|].
  destruct H1 as [H H1]. cbn [app dead]. split.
  - now rewrite <- app_assoc.
  - apply IH; auto.
Qed.

Lemma inert_not_lt c : inert c = true -> is_line_terminator c = false.
Proof.
  unfold inert. intros H. apply andb_true_iff in H. destruct H as [_ H].
  now apply negb_true_iff in H.
Qed.

Lemma dead_inert r X : forall p s,
  calm r -> Forall (fun c => inert c = true) X ->
  mid_line p \/ head_ordinary X ->
  dead r p X s.
Proof.
  induction X as [|c X IH]; intros p s Hr HX Hp; [exact I|].
  inversion HX as [|? ? Hc HX']; subst. split.
  - apply exec_none. simpl. apply Hr; auto.
    destruct Hp as [Hp|Hp]; [left|right; exact Hp].
    destruct p; [exact Hp|contradiction].
  - apply IH; auto. left. simpl. now apply inert_not_lt.
Qed.

Lemma replace_calm r tpl p X :
  never_empty r = true -> calm r ->
  Forall (fun c => inert c = true) X ->
  mid_line p \/ head_ordinary X ->
  replace_from plain r tpl 0 p X = X.
Proof.
  intros Hz Hr HX Hp.
  rewrite <- (app_nil_r X) at 1.
  rewrite replace_dead by (apply dead_inert; auto).
  rewrite replace_from_nil by assumption. apply app_nil_r.
Qed.

Lemma inert_facts c :
  inert c = true ->
  (c =? 96)%N = false /\ (c =? 42)%N = false /\ (c =? 60)%N = false
  /\ (c =? 10)%N = false /\ is_line_terminator c = false.
Proof.
  unfold inert, BACKTICK, STAR, LTC. intros H.
  repeat (apply andb_true_iff in H; destruct H as [H ?]).
  repeat match goal with H : negb _ = true |- _ => apply negb_true_iff in H end.
  repeat split; auto.
  unfold is_line_terminator in *.
  destruct (c =? 10)%N; [discriminate|reflexivity].
Qed.

Lemma ordinary_facts c :
  ordinary c = true ->
  (c =? 35)%N = false /\ (c =? 45)%N = false /\ is_digit c = false
  /\ is_space c = false.
Proof.
  unfold ordinary. intros H.
  repeat (apply andb_true_iff in H; destruct H as [H ?]).
  repeat match goal with H : negb _ = true |- _ => apply negb_true_iff in H end.
  repeat split; auto.
Qed.

Lemma can_match_re_line mk k :
  zw mk k = false -> zw Bol k = false \/ adv mk k = false ->
  can_match (re_line mk) k = false.
Proof.
  intros Hz H. unfold can_match, re_line.
  cbn [zw adv]. rewrite Hz. cbn [andb].
  rewrite !andb_false_r. cbn [orb].
  destruct H as [H|H].
  - cbn [zw] in H. now rewrite H.
  - rewrite H. apply andb_false_r.
Qed.

Ltac calm_tac :=
  intros pv c Hi Hp;
  destruct (inert_facts c Hi) as (I1 & I2 & I3 & I4 & I5);
  unfold can_match; cbn; unfold is_char, is_not_char, plain, NL, BACKTICK, STAR, LTC;
  rewrite ?I1, ?I2, ?I3, ?I4; reflexivity.

Lemma calm_fence : calm re_fence.  Proof. calm_tac. Qed.
Lemma calm_inline : calm re_inline.  Proof. calm_tac. Qed.
Lemma calm_bold : calm re_bold.  Proof. calm_tac. Qed.
Lemma calm_italic : calm re_italic.  Proof. calm_tac. Qed.
Lemma calm_items : calm re_items.  Proof. calm_tac. Qed.
Lemma calm_blank : calm re_blank.  Proof. calm_tac. Qed.
Lemma calm_empty_p : calm re_empty_p.  Proof. calm_tac. Qed.
Lemma calm_p_before tag : calm (re_p_before tag).  Proof. calm_tac. Qed.
Lemma calm_p_after_h : calm (re_p_after tag_h_close).  Proof. calm_tac. Qed.
Lemma calm_p_after_pre : calm (re_p_after (L "</pre>")).  Proof. calm_tac. Qed.
Lemma calm_p_after_ul : calm (re_p_after (L "</ul>")).  Proof. calm_tac. Qed.

Lemma calm_line mk :
  (forall k, zw mk k = false) ->
  (forall pv c, ordinary c = true -> adv mk (pv, Some c) = false) ->
  calm (re_line mk).
Proof.
  intros Hz Ha pv c Hi Hp. apply can_match_re_line; [apply Hz|].
  destruct Hp as [Hp|Hp].
  - left. destruct pv as [d|]; [exact Hp|contradiction].
  - right. now apply Ha.
Qed.

Lemma calm_h3 : calm re_h3.
Proof.
  apply calm_line; [reflexivity|]. intros pv c H.
  destruct (ordinary_facts c H) as (O1 & O2 & O3 & O4).
  cbn. unfold is_char. now rewrite O1.
Qed.

Lemma calm_h2 : calm re_h2.
Proof.
  apply calm_line; [reflexivity|]. intros pv c H.
  destruct (ordinary_facts c H) as (O1 & O2 & O3 & O4).
  cbn. unfold is_char. now rewrite O1.
Qed.

Lemma calm_h1 : calm re_h1.
Proof.
  apply calm_line; [reflexivity|]. intros pv c H.
  destruct (ordinary_facts c H) as (O1 & O2 & O3 & O4).
  cbn. unfold is_char. now rewrite O1.
Qed.

Lemma calm_item : calm re_item.
Proof.
  apply calm_line; [reflexivity|]. intros pv c H.
  destruct (ordinary_facts c H) as (O1 & O2 & O3 & O4).
  cbn. unfold is_char. now rewrite O2.
Qed.

Lemma calm_numbered : calm re_numbered.
Proof.
  apply calm_line; [reflexivity|]. intros pv c H.
  destruct (ordinary_facts c H) as (O1 & O2 & O3 & O4).
  cbn. now rewrite O3.
Qed.

Lemma pre_paragraph_text E :
  texty E ->
  ordered_lists plain plain
    (unordered_lists plain plain
       (italic plain plain (bold plain plain (headers plain plain
          (inline_code plain plain (code_blocks plain plain E)))))) = E.
Proof.
  intros [HE H0].
  unfold code_blocks, inline_code, headers, bold, italic, unordered_lists,
    ordered_lists, replace.
  rewrite (replace_calm re_fence) by (auto using calm_fence).
  rewrite (replace_calm re_inline) by (auto using calm_inline).
  rewrite (replace_calm re_h3) by (auto using calm_h3).
  rewrite (replace_calm re_h2) by (auto using calm_h2).
  rewrite (replace_calm re_h1) by (auto using calm_h1).
  rewrite (replace_calm re_bold) by (auto using calm_bold).
  rewrite (replace_calm re_italic) by (auto using calm_italic).
  rewrite (replace_calm re_item) by (auto using calm_item).
  rewrite (replace_calm re_items) by (auto using calm_items).
  rewrite (replace_calm re_numbered) by (auto using calm_numbered).
  reflexivity.
Qed.

Lemma exec_p_spaces_none R p c s :
  is_space c = false ->
  can_match R (Some 62%N, Some c) = false ->
  exec plain (L "<p>" ;; re_spaces ;; R)%re p (60 :: 112 :: 62 :: c :: s)%N = None.
Proof.
  intros Hc HR. unfold exec, L.
  change (60 :: 112 :: 62 :: c :: s)%N with (str "<p>" ++ c :: s).
  rewrite m_Seq, m_Lit_app. cbn [flat_map]. rewrite app_nil_r.
  rewrite m_Seq. unfold re_spaces. rewrite m_star_chr_stop.
  2:{ simpl. unfold plain. now rewrite Hc. }
  cbn [flat_map]. rewrite app_nil_r.
  rewrite m_none; [reflexivity|]. exact HR.
Qed.

Ltac dead_concrete := cbn [dead app]; repeat (split; [reflexivity|]); exact I.

(** A pattern that finds nothing in [U], in the text [X] and in [V]. *)
Lemma replace_id_wrapped r tpl U X V :
  never_empty r = true -> calm r ->
  Forall (fun c => inert c = true) X ->
  dead r None U (X ++ V) ->
  mid_line (lastp None U) \/ head_ordinary X ->
  (forall p, dead r p V []) ->
  replace plain r tpl (U ++ X ++ V) = U ++ X ++ V.
Proof.
  intros Hz Hc HX HU Hp HV. unfold replace.
  rewrite replace_dead by exact HU.
  rewrite replace_dead by (apply dead_inert; auto).
  rewrite <- (app_nil_r V) at 1.
  rewrite replace_dead by apply HV.
  rewrite replace_from_nil by assumption. now rewrite app_nil_r.
Qed.

(** The clean-up leaves a paragraph of text alone. *)
Lemma cleanup_text E :
  E <> [] -> texty E ->
  cleanup plain (str "<p>" ++ E ++ str "</p>") = str "<p>" ++ E ++ str "</p>".
Proof.
  intros HE [Hi Ho]. destruct E as [|e0 E]; [contradiction|].
  destruct (inert_facts e0 (Forall_inv Hi)) as (I1 & I2 & I3 & I4 & I5).
  destruct (ordinary_facts e0 Ho) as (O1 & O2 & O3 & O4).
  assert (B : forall R, can_match R (Some 62%N, Some e0) = false ->
              dead (L "<p>" ;; re_spaces ;; R)%re None (str "<p>")
                   ((e0 :: E) ++ str "</p>")).
  { intros R HR. cbn [dead app str map list_ascii_of_string N_of_ascii].
    split; [|repeat (split; [reflexivity|]); exact I].
    apply (exec_p_spaces_none R None e0 _ O4 HR). }
  assert (C : forall tag, can_match (Group 1 tag) (Some 62%N, Some e0) = false ->
                replace plain (re_p_before tag) (only1 (A:=cu))
                        (str "<p>" ++ (e0 :: E) ++ str "</p>")
                = str "<p>" ++ (e0 :: E) ++ str "</p>").
  { intros tag Ht. apply replace_id_wrapped.
    - reflexivity.
    - apply calm_p_before.
    - exact Hi.
    - apply B, Ht.
    - left. reflexivity.
    - intros p. dead_concrete. }
  unfold cleanup.
  rewrite (replace_id_wrapped re_empty_p);
    [|reflexivity|apply calm_empty_p|exact Hi| |left; reflexivity
     |intros p; dead_concrete].
  2:{ apply B. unfold can_match. cbn. unfold is_char. now rewrite I3. }
  rewrite C by (unfold can_match; cbn; unfold is_char; now rewrite I3).
  rewrite (replace_id_wrapped (re_p_after tag_h_close));
    [|reflexivity|apply calm_p_after_h|exact Hi|dead_concrete|left; reflexivity
     |intros p; dead_concrete].
  rewrite C by (unfold can_match; cbn; unfold is_char; now rewrite I3).
  rewrite (replace_id_wrapped (re_p_after (L "</pre>")));
    [|reflexivity|apply calm_p_after_pre|exact Hi|dead_concrete|left; reflexivity
     |intros p; dead_concrete].
  rewrite C by (unfold can_match; cbn; unfold is_char; now rewrite I3).
  rewrite (replace_id_wrapped (re_p_after (L "</ul>")));
    [|reflexivity|apply calm_p_after_ul|exact Hi|dead_concrete|left; reflexivity
     |intros p; dead_concrete].
  reflexivity.
Qed.

Lemma escape_char_inert c :
  markup_free c = true -> Forall (fun x => inert x = true) (escape_char c).
Proof.
  unfold markup_free, escape_char, AMP, LTC, GTC, NBSP. intros H.
  destruct (N.eqb_spec c 38); [repeat constructor|].
  destruct (N.eqb_spec c 60); [repeat constructor|].
  destruct (N.eqb_spec c 62); [repeat constructor|].
  destruct (N.eqb_spec c 160); [repeat constructor|].
  constructor; [|constructor]. unfold inert, LTC.
  apply andb_true_iff in H. destruct H as [H1 H2]. rewrite H1, H2.
  apply N.eqb_neq in n0. now rewrite n0.
Qed.

Lemma escape_char_head c :
  ordinary c = true -> head_ordinary (escape_char c).
Proof.
  unfold escape_char, AMP, LTC, GTC, NBSP. intros H.
  destruct (N.eqb_spec c 38); [reflexivity|].
  destruct (N.eqb_spec c 60); [reflexivity|].
  destruct (N.eqb_spec c 62); [reflexivity|].
  destruct (N.eqb_spec c 160); [subst; discriminate H|].
  exact H.
Qed.

Lemma escape_char_nonempty c : escape_char c <> [].
Proof.
  unfold escape_char.
  repeat match goal with |- context [if ?b then _ else _] => destruct b end;
    discriminate.
Qed.

Lemma escapeHtml_texty X :
  Forall (fun c => markup_free c = true) X -> head_ordinary X ->
  texty (escapeHtml X).
Proof.
  intros HX H0. rewrite escapeHtml_flat_map. split.
  - clear H0. induction HX as [|c X Hc HX IH]; simpl; [constructor|].
    apply Forall_app. split; [now apply escape_char_inert|exact IH].
  - destruct X as [|c X]; [exact I|]. simpl.
    pose proof (escape_char_head c H0) as H.
    pose proof (escape_char_nonempty c).
    destruct (escape_char c); [contradiction|exact H].
Qed.

Lemma escapeHtml_nonempty X : X <> [] -> escapeHtml X <> [].
Proof.
  rewrite escapeHtml_flat_map. destruct X as [|c X]; [contradiction|].
  intros _. simpl. pose proof (escape_char_nonempty c).
  destruct (escape_char c); [contradiction|discriminate].
Qed.

Lemma render_text X :
  X <> [] -> Forall (fun c => markup_free c = true) X -> head_ordinary X ->
  renderMarkdown X = str "<p>" ++ escapeHtml X ++ str "</p>".
Proof.
  intros HX Hm H0. unfold renderMarkdown, markup.
  pose proof (escapeHtml_texty X Hm H0) as HT.
  rewrite (pre_paragraph_text _ HT).
  unfold paragraphs, replace.
  rewrite (replace_calm re_blank);
    [|reflexivity|apply calm_blank|apply HT|right; apply HT].
  rewrite !lits_plain. apply cleanup_text; auto using escapeHtml_nonempty.
Qed.

(** ** Lines, block tags and the end-to-end renderings *)

(** A whole line [w ++ X] under the pattern [^w(.+)$]. *)
Lemma exec_line_lit w p X s :
  line_start p -> X <> [] -> Forall (fun c => is_dot c = true) X -> line_end s ->
  exec plain (re_line (Lit w)) p (w ++ X ++ s)
  = Some (MState (lastp p (w ++ X)) s [(1, X)]).
Proof.
  intros Hp HX Hd Hs. destruct X as [|x X]; [contradiction|].
  inversion Hd as [|? ? Hx Hd']; subst.
  unfold exec, re_line. rewrite m_Seq.
  assert (Hb : m plain Bol (MState p (w ++ (x :: X) ++ s) [])
               = [MState p (w ++ (x :: X) ++ s) []]).
  { simpl. unfold at_bol. cbn [prev]. destruct p as [c|]; [|reflexivity].
    simpl in Hp. unfold plain. now rewrite Hp. }
  rewrite Hb. cbn [flat_map]. rewrite app_nil_r.
  rewrite m_Seq, m_Lit_app. cbn [flat_map]. rewrite app_nil_r.
  rewrite m_Seq, m_Group, flat_map_map. unfold Plus.
  rewrite m_Seq. cbn [app]. rewrite m_Chr. change (plain x) with x. rewrite Hx.
  cbn [flat_map]. rewrite app_nil_r.
  rewrite star_skip_run; [|exact Hd'|].
  2:{ intros u1 d u2 E. unfold set_cap. cbn [prev rest caps m at_eol].
      assert (Hdd : is_dot d = true).
      { rewrite Forall_forall in Hd'. apply Hd'. rewrite E. apply in_elt. }
      unfold is_dot in Hdd. apply negb_true_iff in Hdd. unfold plain.
      now rewrite Hdd. }
  rewrite m_star_chr_stop.
  2:{ destruct s as [|c s]; [reflexivity|]. simpl in Hs. unfold is_dot, plain.
      now rewrite Hs. }
  cbn [flat_map]. rewrite app_nil_r.
  change (x :: X ++ s) with ((x :: X) ++ s).
  rewrite set_cap_app. cbn [m at_eol rest].
  assert (He : at_eol plain (MState (lastp (Some x) X) s [(1, x :: X)]) = true).
  { unfold at_eol. cbn [rest]. destruct s as [|c s]; [reflexivity|]. exact Hs. }
  rewrite He. cbn [hd_error]. rewrite !lastp_app. reflexivity.
Qed.





Lemma wrap1_plain o c p s X :
  wrap1 plain o c (MState p s [(1, X)]) = str o ++ X ++ str c.
Proof. unfold wrap1, cap. simpl. now rewrite !lits_plain. Qed.


Ltac exec_none_tac :=
  first [ reflexivity
        | apply exec_none; apply can_match_re_line;
          [reflexivity | first [left; reflexivity | right; reflexivity]] ].

Ltac dead_tac :=
  norm_str; cbn [dead app]; repeat (split; [exec_none_tac|]); exact I.

(** [id_pass r H]: the pattern [r], calm by [H], finds nothing in a
    subject of the shape [U ++ X ++ V] with [U] and [V] known. *)
Ltac id_pass r H :=
  rewrite (replace_id_wrapped r);
  [ | reflexivity | apply H | assumption | dead_tac | left; reflexivity
    | intros; dead_tac ].

Lemma inert_is_dot E :
  Forall (fun c => inert c = true) E -> Forall (fun c => is_dot c = true) E.
Proof.
  apply Forall_impl. intros c H. unfold is_dot. now rewrite inert_not_lt.
Qed.

Lemma escapeHtml_app a b : escapeHtml (a ++ b) = escapeHtml a ++ escapeHtml b.
Proof. rewrite !escapeHtml_flat_map. apply flat_map_app. Qed.

Lemma escapeHtml_inert X :
  Forall (fun c => markup_free c = true) X ->
  Forall (fun c => inert c = true) (escapeHtml X).
Proof.
  intros HX. rewrite escapeHtml_flat_map.
  induction HX as [|c X Hc HX IH]; simpl; [constructor|].
  apply Forall_app. split; [now apply escape_char_inert|exact IH].
Qed.

Lemma m_tag_h_open p d s cs :
  is_123 d = true ->
  m plain tag_h_open (MState p (60 :: 104 :: d :: 62 :: s)%N cs)
  = [MState (Some 62%N) s cs].
Proof.
  intros H. unfold tag_h_open, L. norm_str. cbn. unfold plain. rewrite H. reflexivity.
Qed.

Lemma replace_id_pre r tpl U X :
  never_empty r = true -> calm r ->
  Forall (fun c => inert c = true) X ->
  dead r None U X ->
  mid_line (lastp None U) \/ head_ordinary X ->
  replace plain r tpl (U ++ X) = U ++ X.
Proof.
  intros. rewrite <- (app_nil_r X).
  apply replace_id_wrapped; auto; [now rewrite app_nil_r|intros; exact I].
Qed.

Ltac id_pre r H :=
  rewrite (replace_id_pre r);
  [ | reflexivity | apply H | assumption | dead_tac | left; reflexivity ].

Lemma matches_tag_lit t : matches_tag (Lit t) t.
Proof. intros p s cs. apply m_Lit_app. Qed.


Lemma m_tag_h_close p d s cs :
  is_123 d = true ->
  m plain tag_h_close (MState p (60 :: 47 :: 104 :: d :: 62 :: s)%N cs)
  = [MState (Some 62%N) s cs].
Proof.
  intros H. unfold tag_h_close, L. norm_str. cbn. unfold plain. rewrite H. reflexivity.
Qed.


(** [<p>] in front of a block tag is dropped. *)
Lemma exec_p_before tagre t p s :
  matches_tag tagre t -> head_not_space plain t -> t <> [] ->
  exec plain (re_p_before tagre) p (str "<p>" ++ t ++ s)
  = Some (MState (lastp (Some 62%N) t) s [(1, t)]).
Proof.
  intros Ht Hh Hn. unfold exec, re_p_before, L.
  rewrite m_Seq, m_Lit_app. cbn [flat_map]. rewrite app_nil_r.
  rewrite m_Seq. unfold re_spaces. rewrite m_star_chr_stop.
  2:{ destruct t as [|c t]; [contradiction|]. simpl in *. now rewrite Hh. }
  cbn [flat_map]. rewrite app_nil_r.
  rewrite m_Group, Ht. cbn [map]. rewrite set_cap_app. reflexivity.
Qed.

Lemma replace_p_before_strip tagre t U E V :
  matches_tag tagre t -> head_not_space plain t -> t <> [] ->
  dead (re_p_before tagre) (lastp (Some 62%N) t) U (E ++ V) ->
  mid_line (lastp (lastp (Some 62%N) t) U) ->
  Forall (fun c => inert c = true) E ->
  (forall p, dead (re_p_before tagre) p V []) ->
  replace plain (re_p_before tagre) (only1 (A:=cu)) (str "<p>" ++ t ++ U ++ E ++ V)
  = t ++ U ++ E ++ V.
Proof.
  intros Ht Hh Hn HU Hl HE HV. unfold replace.
  rewrite (replace_from_match plain (re_p_before tagre) _ _ _ _ eq_refl
             (exec_p_before tagre t None (U ++ E ++ V) Ht Hh Hn)).
  cbn [prev rest]. unfold only1 at 1, cap. cbn [caps get_cap Nat.eqb].
  f_equal.
  rewrite replace_dead by exact HU. f_equal.
  rewrite replace_dead by (apply dead_inert; auto using calm_p_before).
  f_equal. rewrite <- (app_nil_r V) at 1.
  rewrite replace_dead by apply HV.
  rewrite replace_from_nil by reflexivity. apply app_nil_r.
Qed.

(** [</p>] behind a closing block tag is dropped. *)
Lemma exec_p_after tagre t p s :
  matches_tag tagre t ->
  exec plain (re_p_after tagre) p (t ++ str "</p>" ++ s)
  = Some (MState (Some 62%N) s [(1, t)]).
Proof.
  intros Ht. unfold exec, re_p_after, L.
  rewrite m_Seq, m_Group, Ht. cbn [map flat_map]. rewrite app_nil_r.
  rewrite set_cap_app.
  rewrite m_Seq. unfold re_spaces. rewrite m_star_chr_stop by reflexivity.
  cbn [flat_map]. rewrite app_nil_r.
  rewrite m_Lit_app. reflexivity.
Qed.

Lemma replace_p_after_strip tagre t U E V :
  matches_tag tagre t ->
  never_empty (re_p_after tagre) = true ->
  calm (re_p_after tagre) ->
  Forall (fun c => inert c = true) E ->
  dead (re_p_after tagre) None U (E ++ V ++ t ++ str "</p>") ->
  mid_line (lastp None U) ->
  (forall p, dead (re_p_after tagre) p V (t ++ str "</p>")) ->
  replace plain (re_p_after tagre) (only1 (A:=cu)) (U ++ E ++ V ++ t ++ str "</p>")
  = U ++ E ++ V ++ t.
Proof.
  intros Ht Hz Hc HE HU Hl HV. unfold replace.
  rewrite replace_dead by exact HU. f_equal.
  rewrite replace_dead by (apply dead_inert; auto). f_equal.
  rewrite replace_dead by apply HV. f_equal.
  rewrite <- (app_nil_r (str "</p>")).
  rewrite (replace_from_match plain _ _ _ _ _ Hz
             (exec_p_after tagre t _ [] Ht)).
  cbn [prev rest]. rewrite replace_from_nil by exact Hz.
  unfold only1, cap. cbn [caps get_cap Nat.eqb]. now rewrite !app_nil_r.
Qed.


Lemma trim_start_spaces {A} (code : A -> cu) l s :
  spaces code l -> trim_start code (l ++ s) = trim_start code s.
Proof. induction 1 as [|c l Hc Hl IH]; simpl; [reflexivity|]. now rewrite Hc. Qed.

Lemma trim_core {A} (code : A -> cu) E W :
  head_not_space code E -> head_not_space code (rev E) -> E <> [] ->
  spaces code W -> trim code (E ++ W) = E.
Proof.
  intros H1 H2 HE HW. unfold trim.
  rewrite (trim_start_fixed code (E ++ W)).
  2:{ destruct E; [contradiction|exact H1]. }
  rewrite rev_app_distr, trim_start_spaces by (now apply Forall_rev).
  rewrite trim_start_fixed by exact H2. apply rev_involutive.
Qed.

Lemma escape_char_word c : is_word c = true -> escape_char c = [c].
Proof.
  intros H. unfold escape_char, AMP, LTC, GTC, NBSP.
  destruct (N.eqb_spec c 38); [subst; discriminate|].
  destruct (N.eqb_spec c 60); [subst; discriminate|].
  destruct (N.eqb_spec c 62); [subst; discriminate|].
  destruct (N.eqb_spec c 160); [subst; discriminate|].
  reflexivity.
Qed.

Lemma escapeHtml_word s :
  Forall (fun c => is_word c = true) s -> escapeHtml s = s.
Proof.
  rewrite escapeHtml_flat_map. induction 1 as [|c s Hc Hs IH]; [reflexivity|].
  simpl. now rewrite escape_char_word, IH.
Qed.

Lemma escape_char_ends c :
  is_space c = false ->
  head_not_space plain (escape_char c) /\ head_not_space plain (rev (escape_char c)).
Proof.
  intros H. unfold escape_char, AMP, LTC, GTC, NBSP.
  destruct (N.eqb_spec c 38); [split; reflexivity|].
  destruct (N.eqb_spec c 60); [split; reflexivity|].
  destruct (N.eqb_spec c 62); [split; reflexivity|].
  destruct (N.eqb_spec c 160); [split; reflexivity|].
  split; exact H.
Qed.

Lemma escapeHtml_head B :
  head_not_space plain B -> head_not_space plain (escapeHtml B).
Proof.
  rewrite escapeHtml_flat_map. destruct B as [|c B]; [trivial|]. simpl.
  intros H. destruct (escape_char_ends c H) as [H1 _].
  pose proof (escape_char_nonempty c).
  destruct (escape_char c); [contradiction|exact H1].
Qed.

Lemma escapeHtml_last B :
  head_not_space plain (rev B) -> head_not_space plain (rev (escapeHtml B)).
Proof.
  rewrite escapeHtml_flat_map.
  destruct (rev B) as [|c B'] eqn:E; intros H.
  - apply (f_equal (@rev _)) in E. rewrite rev_involutive in E. now subst.
  - apply (f_equal (@rev _)) in E. rewrite rev_involutive in E. subst B.
    simpl. rewrite flat_map_app, rev_app_distr. simpl. rewrite app_nil_r.
    destruct (escape_char_ends c H) as [_ H2].
    pose proof (escape_char_nonempty c) as Hn.
    destruct (rev (escape_char c)) eqn:E2; [|exact H2].
    apply (f_equal (@rev _)) in E2. rewrite rev_involutive in E2. contradiction.
Qed.

Lemma inert_no_backtick E :
  Forall (fun c => inert c = true) E -> ~ In BACKTICK E.
Proof.
  intros H Hin. rewrite Forall_forall in H. specialize (H _ Hin). discriminate.
Qed.

Lemma render_fence_text lang B :
  Forall (fun c => is_word c = true) lang ->
  B <> [] -> Forall (fun c => markup_free c = true) B ->
  head_not_space plain B -> head_not_space plain (rev B) ->
  renderMarkdown (str "```" ++ lang ++ NL :: B ++ NL :: str "```")
  = str "<pre><code>" ++ escapeHtml B ++ str "</code></pre>".
Proof.
  intros Hl HB Hm Hh Hr. unfold renderMarkdown, markup.
  change (NL :: B ++ NL :: str "```") with ([NL] ++ B ++ NL :: str "```").
  rewrite !escapeHtml_app. change (NL :: str "```") with ([NL] ++ str "```").
  rewrite escapeHtml_app, (escapeHtml_word lang Hl).
  change (escapeHtml (str "```")) with (str "```").
  change (escapeHtml [NL]) with [NL].
  pose proof (escapeHtml_inert B Hm) as HE.
  pose proof (escapeHtml_nonempty B HB) as HN.
  pose proof (escapeHtml_head B Hh) as HH.
  pose proof (escapeHtml_last B Hr) as HR.
  set (E := escapeHtml B) in *.
  replace (str "```" ++ lang ++ [NL] ++ E ++ [NL] ++ str "```")
    with (str "```" ++ lang ++ NL :: (E ++ [NL]) ++ str "```")
    by (now rewrite <- app_assoc).
  change (code_blocks plain plain) with stage_code_blocks.
  rewrite code_blocks_fence; auto.
  2:{ intros Hin. apply in_app_or in Hin. destruct Hin as [Hin|[Hin|[]]].
      - now apply (inert_no_backtick E HE).
      - discriminate. }
  rewrite trim_core; auto; [|repeat constructor].
  unfold inline_code, headers, bold, italic, unordered_lists, ordered_lists, paragraphs.
  id_pass re_inline calm_inline.
  id_pass re_h3 calm_h3.
  id_pass re_h2 calm_h2.
  id_pass re_h1 calm_h1.
  id_pass re_bold calm_bold.
  id_pass re_italic calm_italic.
  id_pass re_item calm_item.
  id_pass re_items calm_items.
  id_pass re_numbered calm_numbered.
  id_pass re_blank calm_blank.
  rewrite !lits_plain, <- !app_assoc.
  change (str "<p>" ++ str "<pre><code>" ++ E ++ str "</code></pre>" ++ str "</p>")
    with (str "<p><pre><code>" ++ E ++ str "</code></pre></p>").
  unfold cleanup.
  id_pass re_empty_p calm_empty_p.
  id_pass (re_p_before tag_h_open) (calm_p_before tag_h_open).
  id_pass (re_p_after tag_h_close) calm_p_after_h.
  change (str "<p><pre><code>" ++ E ++ str "</code></pre></p>")
    with (str "<p>" ++ str "<pre>" ++ str "<code>" ++ E ++ str "</code></pre></p>").
  rewrite (replace_p_before_strip (L "<pre>") (str "<pre>"));
    [|apply matches_tag_lit|reflexivity|discriminate|dead_tac|reflexivity
     |assumption|intros; dead_tac].
  change (str "<pre>" ++ str "<code>" ++ E ++ str "</code></pre></p>")
    with (str "<pre><code>" ++ E ++ str "</code>" ++ str "</pre>" ++ str "</p>").
  rewrite (replace_p_after_strip (L "</pre>") (str "</pre>"));
    [|apply matches_tag_lit|reflexivity|apply calm_p_after_pre|assumption
     |dead_tac|reflexivity|intros; dead_tac].
  change (str "<pre><code>" ++ E ++ str "</code>" ++ str "</pre>")
    with (str "<pre><code>" ++ E ++ str "</code></pre>").
  id_pass (re_p_before (L "<ul>")) (calm_p_before (L "<ul>")).
  id_pass (re_p_after (L "</ul>")) calm_p_after_ul.
  reflexivity.
Qed.

Lemma inert_not_backtick E :
  Forall (fun c => inert c = true) E ->
  Forall (fun c => is_not_char BACKTICK c = true) E.
Proof.
  apply Forall_impl. intros c H. destruct (inert_facts c H) as (I1 & _).
  unfold is_not_char, BACKTICK. now rewrite I1.
Qed.

Lemma render_inline_code_text B :
  B <> [] -> Forall (fun c => markup_free c = true) B ->
  renderMarkdown (str "`" ++ B ++ str "`")
  = str "<p><code>" ++ escapeHtml B ++ str "</code></p>".
Proof.
  intros HB Hm. unfold renderMarkdown, markup.
  rewrite !escapeHtml_app. change (escapeHtml (str "`")) with (str "`").
  pose proof (escapeHtml_inert B Hm) as HE.
  pose proof (escapeHtml_nonempty B HB) as HN.
  set (E := escapeHtml B) in *.
  unfold code_blocks.
  rewrite (replace_id_wrapped re_fence);
    [|reflexivity|apply calm_fence|assumption| |left; reflexivity
     |intros; dead_tac].
  2:{ destruct E as [|e0 E']; [contradiction|].
      destruct (inert_facts e0 (Forall_inv HE)) as (I1 & _).
      norm_str. cbn [dead app]. split; [|exact I].
      unfold exec, re_fence, L. norm_str. rewrite m_Seq, m_Lit.
      cbn [map starts_with]. unfold plain. rewrite (N.eqb_sym 96 e0), I1.
      reflexivity. }
  unfold inline_code, re_inline, L.
  replace (str "`" ++ E ++ str "`") with (str "`" ++ E ++ str "`" ++ [])
    by (now rewrite app_nil_r).
  rewrite (replace_span (str "`") (str "`") (is_not_char BACKTICK) _ E []);
    auto using inert_not_backtick; [|reflexivity].
  rewrite replace_from_nil by reflexivity. rewrite wrap1_plain, app_nil_r.
  unfold headers, bold, italic, unordered_lists, ordered_lists, paragraphs.
  id_pass re_h3 calm_h3.
  id_pass re_h2 calm_h2.
  id_pass re_h1 calm_h1.
  id_pass re_bold calm_bold.
  id_pass re_italic calm_italic.
  id_pass re_item calm_item.
  id_pass re_items calm_items.
  id_pass re_numbered calm_numbered.
  id_pass re_blank calm_blank.
  rewrite !lits_plain, <- !app_assoc.
  change (str "<p>" ++ str "<code>" ++ E ++ str "</code>" ++ str "</p>")
    with (str "<p><code>" ++ E ++ str "</code></p>").
  unfold cleanup.
  id_pass re_empty_p calm_empty_p.
  id_pass (re_p_before tag_h_open) (calm_p_before tag_h_open).
  id_pass (re_p_after tag_h_close) calm_p_after_h.
  id_pass (re_p_before (L "<pre>")) (calm_p_before (L "<pre>")).
  id_pass (re_p_after (L "</pre>")) calm_p_after_pre.
  id_pass (re_p_before (L "<ul>")) (calm_p_before (L "<ul>")).
  id_pass (re_p_after (L "</ul>")) calm_p_after_ul.
  reflexivity.
Qed.

(** ** Blocks of list lines (C6) *)

Lemma unlines_cons2 l1 l2 ls :
  unlines (l1 :: l2 :: ls) = l1 ++ NL :: unlines (l2 :: ls).
Proof. reflexivity. Qed.

Lemma dead_cons_iff r p c u s :
  dead r p (c :: u) s <-> exec plain r p (c :: u ++ s) = None /\ dead r (Some c) u s.
Proof. reflexivity. Qed.

Lemma dead_any_s r u p s :
  (forall p s, dead r p u s) -> dead r p u s.
Proof. auto. Qed.

(** A pattern that finds nothing in [pre], in [post], in text and at a
    line feed before [pre] finds nothing in lines [pre ++ E ++ post]. *)
Lemma dead_lines r pre post :
  calm r ->
  (forall p s, dead r p pre s) ->
  mid_line (lastp None pre) ->
  (forall p, lastp p pre = lastp None pre) ->
  (forall p s, dead r p post s) ->
  (forall p s, exec plain r p (NL :: pre ++ s) = None) ->
  forall Es p s, texts Es -> dead r p (framed pre post Es) s.
Proof.
  intros Hc Hpre Hmid Hlast Hpost Hnl Es.
  assert (Line : forall E p s, Forall (fun c => inert c = true) E ->
                               dead r p (pre ++ E ++ post) s).
  { intros E p s HE. apply dead_app; [apply Hpre|].
    apply dead_app; [|apply Hpost].
    apply dead_inert; auto. left. now rewrite Hlast. }
  induction Es as [|E Es IH]; intros p s HEs; [exact I|].
  inversion HEs as [|? ? [_ HE] HEs']; subst.
  destruct Es as [|E2 Es].
  - apply Line, HE.
  - unfold framed in *. cbn [map]. rewrite unlines_cons2.
    apply dead_app; [apply Line, HE|].
    cbn [dead]. split.
    + cbn [map unlines] in *. 
      destruct Es as [|E3 Es]; cbn [map unlines]; rewrite <- ?app_assoc; apply Hnl.
    + apply (IH (Some NL) s HEs').
Qed.




Lemma flat_map_ext_in {X Y : Type} (f g : X -> list Y) l :
  (forall x, In x l -> f x = g x) -> flat_map f l = flat_map g l.
Proof.
  induction l as [|x l IH]; intros H; [reflexivity|]. simpl.
  rewrite (H x) by now left. rewrite IH; [reflexivity|].
  intros y Hy. apply H. now right.
Qed.

(** The bound on the number of iterations does not matter once it
    exceeds the length of the subject. *)
Lemma star_fuel {A : Type} g (step : mstate A -> list (mstate A)) :
  forall n n' st,
    length (rest st) < n -> length (rest st) < n' ->
    star g step n st = star g step n' st.
Proof.
  induction n as [|n IH]; intros n' st Hn Hn'; [lia|].
  destruct n' as [|n']; [lia|]. rewrite !star_S.
  assert (E : flat_map (star g step n) (filter (progress st) (step st))
              = flat_map (star g step n') (filter (progress st) (step st))).
  { apply flat_map_ext_in. intros st' Hin. apply filter_In in Hin.
    destruct Hin as [_ Hp]. unfold progress in Hp. apply Nat.ltb_lt in Hp.
    apply IH; lia. }
  now rewrite E.
Qed.


Lemma li_lines_cons E Es :
  li_lines (E :: Es)
  = str "<li>" ++ E ++ str "</li>"
    ++ match Es with [] => [] | _ :: _ => NL :: li_lines Es end.
Proof.
  unfold li_lines, framed. destruct Es as [|E2 Es].
  - cbn [map unlines]. now rewrite app_nil_r.
  - cbn [map]. rewrite unlines_cons2. now rewrite <- !app_assoc.
Qed.


Lemma hd_error_map {X Y : Type} (f : X -> Y) l :
  hd_error (map f l) = option_map f (hd_error l).
Proof. destruct l; reflexivity. Qed.









Lemma replace_lines_id r tpl pre post Es :
  never_empty r = true ->
  (forall p s, dead r p (framed pre post Es) s) ->
  replace plain r tpl (framed pre post Es) = framed pre post Es.
Proof.
  intros Hz HM. unfold replace.
  rewrite <- (app_nil_r (framed pre post Es)) at 1.
  rewrite replace_dead by apply HM.
  rewrite replace_from_nil by exact Hz. apply app_nil_r.
Qed.

Ltac lines_tac H :=
  intros; apply dead_lines;
  [ apply H | intros; dead_tac | reflexivity | reflexivity | intros; dead_tac
  | intros; norm_str; cbn [app]; exec_none_tac | assumption ].


Lemma escapeHtml_unlines ls :
  escapeHtml (unlines ls) = unlines (map escapeHtml ls).
Proof.
  induction ls as [|l ls IH]; [reflexivity|].
  destruct ls as [|l2 ls]; [reflexivity|].
  rewrite unlines_cons2. cbn [map]. rewrite unlines_cons2.
  change (l ++ NL :: unlines (l2 :: ls)) with (l ++ [NL] ++ unlines (l2 :: ls)).
  now rewrite !escapeHtml_app, IH.
Qed.





(** ** Injection safety (C1) *)

Section Erasure.

Lemma erase_progress st st' :
  progress (erase_state st) (erase_state st') = progress st st'.
Proof. unfold progress, erase_state, erase. cbn [rest]. now rewrite !length_map. Qed.

Lemma erase_set_cap i st st' :
  erase_state (set_cap i st st') = set_cap i (erase_state st) (erase_state st').
Proof.
  unfold set_cap, erase_state, consumed, erase. cbn [prev rest caps map fst snd].
  now rewrite !length_map, firstn_map.
Qed.

Lemma map_flat_map {X Y Z : Type} (f : Y -> Z) (g : X -> list Y) l :
  map f (flat_map g l) = flat_map (fun x => map f (g x)) l.
Proof. induction l; simpl; [reflexivity|]. now rewrite map_app, IHl. Qed.

Lemma filter_map_comm {X Y : Type} (f : X -> Y) (q : Y -> bool) l :
  filter q (map f l) = map f (filter (fun x => q (f x)) l).
Proof.
  induction l as [|x l IH]; simpl; [reflexivity|].
  destruct (q (f x)); simpl; now rewrite IH.
Qed.

Lemma erase_star g (stepT : mstate tagged -> list (mstate tagged))
      (stepP : mstate cu -> list (mstate cu)) :
  (forall st, map erase_state (stepT st) = stepP (erase_state st)) ->
  forall n st,
    map erase_state (star g stepT n st) = star g stepP n (erase_state st).
Proof.
  intros Hstep n. induction n as [|n IH]; intros st; [reflexivity|].
  rewrite !star_S.
  assert (E : map erase_state
                (flat_map (star g stepT n) (filter (progress st) (stepT st)))
              = flat_map (star g stepP n)
                  (filter (progress (erase_state st)) (stepP (erase_state st)))).
  { rewrite map_flat_map, <- Hstep, filter_map_comm, flat_map_map.
    rewrite (filter_ext (fun x => progress (erase_state st) (erase_state x))
               (progress st)) by (intros; apply erase_progress).
    apply flat_map_ext. intros a. apply IH. }
  destruct g; cbn [map]; rewrite ?map_app; cbn [map]; now rewrite E.
Qed.

Lemma erase_m r : forall st,
  map erase_state (m fst r st) = m plain r (erase_state st).
Proof.
  induction r as [|q|a IHa b IHb|a IHa b IHb|g a IHa|i a IHa| |]; intros st.
  - reflexivity.
  - destruct st as [p [|c s] cs]; [reflexivity|].
    cbn [m rest erase_state erase map]. unfold plain.
    destruct (q (fst c)); reflexivity.
  - rewrite !m_Seq, map_flat_map, <- IHa, flat_map_map.
    apply flat_map_ext. intros; apply IHb.
  - cbn [m]. now rewrite map_app, IHa, IHb.
  - rewrite !m_Star. unfold erase_state at 2. cbn [rest]. unfold erase.
    rewrite length_map. now apply erase_star.
  - rewrite !m_Group, <- IHa, !map_map. apply map_ext.
    intros; apply erase_set_cap.
  - destruct st as [[c|] s cs]; [|reflexivity].
    cbn [m]. unfold at_bol, erase_state, plain. cbn [prev option_map].
    destruct (is_line_terminator (fst c)); reflexivity.
  - destruct st as [p [|c s] cs]; [reflexivity|].
    cbn [m]. unfold at_eol, erase_state, erase, plain. cbn [rest map].
    destruct (is_line_terminator (fst c)); reflexivity.
Qed.

End Erasure.

Lemma erase_exec r p s :
  option_map erase_state (exec fst r p s)
  = exec plain r (option_map fst p) (erase s).
Proof.
  unfold exec. rewrite <- hd_error_map, erase_m. reflexivity.
Qed.

Lemma erase_app a b : erase (a ++ b) = erase a ++ erase b.
Proof. apply map_app. Qed.

Lemma erase_replace_from r tplT tplP :
  (forall st, erase (tplT st) = tplP (erase_state st)) ->
  forall s skip p,
    erase (replace_from fst r tplT skip p s)
    = replace_from plain r tplP skip (option_map fst p) (erase s).
Proof.
  intros Ht s. induction s as [|c s IH]; intros skip p.
  - destruct skip as [|k]; [|reflexivity].
    pose proof (erase_exec r p []) as Hx. change (erase []) with (@nil cu) in *.
    rewrite (replace_from_0 fst r tplT p []),
      (replace_from_0 plain r tplP (option_map fst p) []), <- Hx.
    destruct (exec fst r p []) as [st'|]; cbn [option_map]; [|reflexivity].
    rewrite erase_app, Ht.
    destruct (length (@nil tagged) - length (rest st'));
      destruct (length (@nil cu) - length (rest (erase_state st'))); reflexivity.
  - destruct skip as [|k]; [|apply (IH k (Some c))].
    pose proof (erase_exec r p (c :: s)) as Hx.
    change (erase (c :: s)) with (fst c :: erase s) in *.
    rewrite (replace_from_0 fst r tplT p (c :: s)),
      (replace_from_0 plain r tplP (option_map fst p) (fst c :: erase s)), <- Hx.
    destruct (exec fst r p (c :: s)) as [st'|]; cbn [option_map].
    + rewrite erase_app, Ht. f_equal.
      assert (EL : length (fst c :: erase s) - length (rest (erase_state st'))
                   = length (c :: s) - length (rest st')).
      { unfold erase_state, erase. cbn [rest length]. now rewrite !length_map. }
      rewrite EL.
      destruct (length (c :: s) - length (rest st')) as [|k].
      * change (erase (c :: replace_from fst r tplT 0 (Some c) s))
          with (fst c :: erase (replace_from fst r tplT 0 (Some c) s)).
        f_equal. apply (IH 0 (Some c)).
      * apply (IH k (Some c)).
    + change (erase (c :: replace_from fst r tplT 0 (Some c) s))
        with (fst c :: erase (replace_from fst r tplT 0 (Some c) s)).
      f_equal. apply (IH 0 (Some c)).
Qed.

Lemma erase_replace r tplT tplP s :
  (forall st, erase (tplT st) = tplP (erase_state st)) ->
  erase (replace fst r tplT s) = replace plain r tplP (erase s).
Proof. intros H. unfold replace. now rewrite (erase_replace_from r tplT tplP H). Qed.

Lemma erase_lits w : erase (lits from_template w) = lits plain w.
Proof. unfold erase, lits. rewrite map_map. reflexivity. Qed.

Lemma erase_cap i st : erase (cap i st) = cap i (erase_state st).
Proof.
  unfold cap, erase_state. cbn [caps].
  induction (caps st) as [|[j v] cs IH]; [reflexivity|].
  cbn [get_cap map fst snd]. destruct (Nat.eqb i j); [reflexivity|exact IH].
Qed.

Lemma erase_trim_start s : erase (trim_start fst s) = trim_start plain (erase s).
Proof.
  induction s as [|c s IH]; [reflexivity|].
  cbn [trim_start erase map]. unfold plain at 1.
  destruct (is_space (fst c)); [exact IH|reflexivity].
Qed.

Lemma erase_rev s : erase (rev s) = rev (erase s).
Proof. unfold erase. apply map_rev. Qed.

Lemma erase_trim s : erase (trim fst s) = trim plain (erase s).
Proof.
  unfold trim. now rewrite erase_rev, erase_trim_start, erase_rev, erase_trim_start.
Qed.

Lemma erase_wrap1 o c st :
  erase (wrap1 from_template o c st) = wrap1 plain o c (erase_state st).
Proof. unfold wrap1. now rewrite !erase_app, !erase_lits, erase_cap. Qed.

(** The tags do not change what the renderer computes. *)
Lemma erase_markup s :
  erase (markup fst from_template s) = markup plain plain (erase s).
Proof.
  unfold markup, cleanup, paragraphs, ordered_lists, unordered_lists, italic,
    bold, headers, inline_code, code_blocks.
  repeat first
    [ rewrite erase_app
    | rewrite erase_lits
    | rewrite (erase_replace _ _ (wrap1 plain _ _)) by (intros; apply erase_wrap1)
    | rewrite (erase_replace _ _ (only1 (A:=cu))) by (intros; apply erase_cap)
    | rewrite (erase_replace _ _ (fun _ => [])) by reflexivity
    | rewrite (erase_replace _ _ (fun _ => lits plain (str "</p><p>")))
        by (intros; apply erase_lits)
    | rewrite (erase_replace _ _
                 (fun st => lits plain (str "<pre><code>") ++ trim plain (cap 2 st)
                            ++ lits plain (str "</code></pre>")))
        by (intros; now rewrite !erase_app, !erase_lits, erase_trim, erase_cap) ].
  reflexivity.
Qed.

Lemma erase_from_input s : erase (map from_input s) = s.
Proof. unfold erase. rewrite map_map. apply map_id. Qed.

Lemma erase_render s : erase (renderMarkdown_tagged s) = renderMarkdown s.
Proof.
  unfold renderMarkdown_tagged, renderMarkdown.
  now rewrite erase_markup, erase_from_input.
Qed.

Section Provenance.

Context {A : Type} (code : A -> cu) (lit : cu -> A) (Q : A -> Prop).
Hypothesis Q_lit : forall c, Q (lit c).

Lemma Forall_firstn_ n (l : list A) : Forall Q l -> Forall Q (firstn n l).
Proof.
  intros H. rewrite <- (firstn_skipn n l) in H. apply Forall_app in H. tauto.
Qed.

Lemma Matches_all r st st' :
  Matches code r st st' -> st_all Q st -> st_all Q st'.
Proof.
  induction 1; intros Hall; try exact Hall; auto.
  - destruct Hall as [Hr Hc]. split; [now inversion Hr|exact Hc].
  - destruct (IHMatches Hall) as [H3 H4]. split; [exact H3|].
    cbn [set_cap caps]. constructor; [|exact H4].
    cbn [snd]. unfold consumed. apply Forall_firstn_. apply Hall.
Qed.

Lemma exec_all r p s st' :
  exec code r p s = Some st' -> Forall Q s -> st_all Q st'.
Proof.
  intros H Hs. apply exec_sound in H. apply (Matches_all _ _ _ H).
  split; [exact Hs|constructor].
Qed.

Lemma replace_from_all r tpl :
  never_empty r = true ->
  (forall st, st_all Q st -> Forall Q (tpl st)) ->
  forall p s, Forall Q s -> Forall Q (replace_from code r tpl 0 p s).
Proof.
  intros Hz Ht.
  apply (replace_from_ind code r tpl (fun _ s out => Forall Q s -> Forall Q out)).
  - now apply never_empty_zw.
  - auto.
  - intros p c s out _ IH H. inversion H; subst. constructor; auto.
  - intros p c w s st' out Hx Hr IH H. apply Forall_app. split.
    + apply Ht. apply (exec_all _ _ _ _ Hx H).
    + apply IH. change (c :: w ++ s) with ((c :: w) ++ s) in H.
      apply Forall_app in H. tauto.
Qed.

Lemma replace_all r tpl s :
  never_empty r = true ->
  (forall st, st_all Q st -> Forall Q (tpl st)) ->
  Forall Q s -> Forall Q (replace code r tpl s).
Proof. intros. now apply replace_from_all. Qed.

Lemma lits_all w : Forall Q (lits lit w).
Proof. unfold lits. apply Forall_map, Forall_forall. intros; apply Q_lit. Qed.

Lemma cap_all i st : st_all Q st -> Forall Q (cap i st).
Proof.
  intros [_ H]. unfold cap. induction H as [|[j v] cs Hv Hcs IH]; [constructor|].
  cbn [get_cap]. destruct (Nat.eqb i j); [exact Hv|exact IH].
Qed.

Lemma trim_all s : Forall Q s -> Forall Q (trim code s).
Proof.
  intros H. destruct (trim_split code s) as (l & r & E & _).
  rewrite E in H. apply Forall_app in H. destruct H as [_ H].
  apply Forall_app in H. tauto.
Qed.

Lemma wrap1_all o c st : st_all Q st -> Forall Q (wrap1 lit o c st).
Proof.
  intros H. unfold wrap1. repeat (apply Forall_app; split);
    auto using lits_all, cap_all.
Qed.

(** What the renderer emits is made of characters of its subject and of
    characters of its templates. *)
Lemma markup_all s : Forall Q s -> Forall Q (markup code lit s).
Proof.
  intros H. unfold markup, cleanup, paragraphs, ordered_lists, unordered_lists,
    italic, bold, headers, inline_code, code_blocks.
  repeat first
    [ apply Forall_app; split
    | apply lits_all
    | exact H
    | apply replace_all;
      [ reflexivity
      | intros st Hst;
        first [ now apply wrap1_all
              | now apply cap_all
              | apply lits_all
              | solve [ repeat (apply Forall_app; split);
                        auto using lits_all, trim_all, cap_all ]
              | apply Forall_nil ]
      | ] ].
Qed.

End Provenance.

Lemma escape_char_no_angle c :
  Forall (fun x => x <> LTC /\ x <> GTC) (escape_char c).
Proof.
  unfold escape_char, AMP, LTC, GTC, NBSP.
  destruct (N.eqb_spec c 38); [repeat constructor; discriminate|].
  destruct (N.eqb_spec c 60); [repeat constructor; discriminate|].
  destruct (N.eqb_spec c 62); [repeat constructor; discriminate|].
  destruct (N.eqb_spec c 160); [repeat constructor; discriminate|].
  repeat constructor; assumption.
Qed.

Lemma escapeHtml_no_angle s :
  Forall (fun x => x <> LTC /\ x <> GTC) (escapeHtml s).
Proof.
  rewrite escapeHtml_flat_map. induction s as [|c s IH]; [constructor|].
  simpl. apply Forall_app. split; [apply escape_char_no_angle|exact IH].
Qed.

Lemma render_tagged_safe s : Forall input_is_safe (renderMarkdown_tagged s).
Proof.
  unfold renderMarkdown_tagged. apply markup_all.
  - intros c H. discriminate H.
  - apply Forall_map. generalize (escapeHtml_no_angle s).
    apply Forall_impl. intros a H _. exact H.
Qed.

Lemma starts_with_app_l w u v :
  starts_with w u = true -> starts_with w (u ++ v) = true.
Proof.
  revert u. induction w as [|c w IH]; intros u H; [reflexivity|].
  destruct u as [|d u]; [discriminate|]. simpl in *.
  apply andb_true_iff in H. destruct H as [H1 H2]. now rewrite H1, IH.
Qed.

Lemma ent_tail_at_app u v : ent_tail_at u = true -> ent_tail_at (u ++ v) = true.
Proof.
  unfold ent_tail_at. rewrite !existsb_exists. intros (w & Hw & H).
  exists w. split; [exact Hw|now apply starts_with_app_l].
Qed.

Lemma ents_ok_app u v :
  ents_ok u = true -> ents_ok v = true -> ents_ok (u ++ v) = true.
Proof.
  induction u as [|c u IH]; intros Hu Hv; [exact Hv|].
  cbn [app ents_ok] in *. apply andb_true_iff in Hu. destruct Hu as [H1 H2].
  rewrite IH by assumption. rewrite andb_true_r.
  destruct (c =? AMP)%N; [now apply ent_tail_at_app|reflexivity].
Qed.

Lemma ents_ok_suffix u v : ents_ok (u ++ v) = true -> ents_ok v = true.
Proof.
  induction u as [|c u IH]; intros H; [exact H|].
  cbn [app ents_ok] in H. apply andb_true_iff in H. now apply IH.
Qed.

Lemma starts_with_cut_r w : forall u v,
  Forall (fun c => ent_tail_char c = true) w -> safe_r v ->
  starts_with w (u ++ v) = true -> starts_with w u = true.
Proof.
  induction w as [|c w IH]; intros u v Hw Hv H; [reflexivity|].
  inversion Hw as [|? ? Hc Hw']; subst.
  destruct u as [|d u].
  - destruct v as [|e v]; [discriminate|]. simpl in H, Hv.
    apply andb_true_iff in H. destruct H as [H _]. apply N.eqb_eq in H. subst.
    congruence.
  - simpl in *. apply andb_true_iff in H. destruct H as [H1 H2].
    rewrite H1. now apply (IH u v).
Qed.

Lemma entity_tails_chars :
  Forall (Forall (fun c => ent_tail_char c = true)) entity_tails.
Proof. repeat constructor. Qed.

Lemma ent_tail_at_cut_r u v :
  safe_r v -> ent_tail_at (u ++ v) = true -> ent_tail_at u = true.
Proof.
  unfold ent_tail_at. rewrite !existsb_exists. intros Hv (w & Hw & H).
  exists w. split; [exact Hw|]. apply (starts_with_cut_r w u v); auto.
  pose proof entity_tails_chars as T. rewrite Forall_forall in T. now apply T.
Qed.

(** An entity does not reach across a cut in front of a character that
    no entity holds behind its [&]. *)
Lemma ents_ok_cut_r u v :
  safe_r v -> ents_ok (u ++ v) = true -> ents_ok u = true.
Proof.
  intros Hv. induction u as [|c u IH]; intros H; [reflexivity|].
  cbn [app ents_ok] in *. apply andb_true_iff in H. destruct H as [H1 H2].
  rewrite IH by assumption. rewrite andb_true_r.
  destruct (c =? AMP)%N; [now apply (ent_tail_at_cut_r u v)|reflexivity].
Qed.

Lemma last_cons2 {X : Type} (a b : X) l d : last (a :: b :: l) d = last (b :: l) d.
Proof. reflexivity. Qed.

Lemma last_default {X : Type} (b : X) l d d' : last (b :: l) d = last (b :: l) d'.
Proof.
  revert b. induction l as [|c l IH]; intros b; [reflexivity|].
  rewrite !last_cons2. apply IH.
Qed.

Lemma last_cons_default {X : Type} (a : X) l d : last (a :: l) d = last l a.
Proof.
  destruct l as [|b l]; [reflexivity|]. rewrite last_cons2. apply last_default.
Qed.

Lemma starts_with_cut_l w : forall u v d,
  Forall (fun c => ent_head_char c = true) (removelast w) ->
  ent_head_char d = true ->
  ent_head_char (last u d) = false ->
  starts_with w (u ++ v) = true -> starts_with w u = true.
Proof.
  induction w as [|x w IH]; intros u v d Hw Hd Hl H; [reflexivity|].
  destruct u as [|y u].
  - simpl in Hl. congruence.
  - simpl in H. apply andb_true_iff in H. destruct H as [H1 H2].
    simpl. rewrite H1. simpl.
    destruct w as [|x2 w]; [reflexivity|].
    apply (IH u v y).
    + simpl in Hw. now inversion Hw.
    + apply N.eqb_eq in H1. subst y. simpl in Hw. now inversion Hw.
    + now rewrite <- last_cons_default with (d := d).
    + exact H2.
Qed.

Lemma entity_tails_heads :
  Forall (fun w => Forall (fun c => ent_head_char c = true) (removelast w))
         entity_tails.
Proof. repeat constructor. Qed.

Lemma ents_ok_cut_l u v :
  safe_l u -> ents_ok (u ++ v) = true -> ents_ok u = true.
Proof.
  induction u as [|c u IH]; intros Hu H; [reflexivity|].
  destruct Hu as [Hu|Hu]; [discriminate|].
  cbn [app ents_ok] in *. apply andb_true_iff in H. destruct H as [H1 H2].
  rewrite IH; auto.
  2:{ destruct u as [|c2 u]; [now left|right]. intros d. apply (Hu d). }
  rewrite andb_true_r.
  destruct (c =? AMP)%N eqn:Ec; [|reflexivity].
  apply N.eqb_eq in Ec. subst c.
  unfold ent_tail_at in *. rewrite existsb_exists in *.
  destruct H1 as (w & Hw & H). exists w. split; [exact Hw|].
  apply (starts_with_cut_l w u v AMP); auto.
  - pose proof entity_tails_heads as T. rewrite Forall_forall in T. now apply T.
  - rewrite <- last_cons_default with (d := AMP). apply Hu.
Qed.

(** [escapeHtml] only emits entities. *)
Lemma flat_map_ents_ok s : ents_ok (flat_map escape_char s) = true.
Proof.
  induction s as [|c s IH]; [reflexivity|]. simpl.
  apply ents_ok_app; [|exact IH].
  unfold escape_char, AMP, LTC, GTC, NBSP.
  destruct (N.eqb_spec c 38); [reflexivity|].
  destruct (N.eqb_spec c 60); [reflexivity|].
  destruct (N.eqb_spec c 62); [reflexivity|].
  destruct (N.eqb_spec c 160); [reflexivity|].
  simpl. unfold AMP. apply N.eqb_neq in n. now rewrite n.
Qed.

Lemma escapeHtml_ents_ok s : ents_ok (escapeHtml s) = true.
Proof. rewrite escapeHtml_flat_map. apply flat_map_ents_ok. Qed.

Lemma Matches_no_group {A} (code : A -> cu) r st st' :
  Matches code r st st' -> no_group r = true -> caps st' = caps st.
Proof.
  induction 1; simpl; intros Hn; try reflexivity; try discriminate.
  - apply andb_true_iff in Hn. destruct Hn. rewrite IHMatches2, IHMatches1; auto.
  - apply andb_true_iff in Hn. destruct Hn. auto.
  - apply andb_true_iff in Hn. destruct Hn. auto.
  - rewrite IHMatches2, IHMatches1; auto.
Qed.

Lemma exec_starts r p c s st' :
  exec plain r p (c :: s) = Some st' -> can_match r (option_map plain p, Some c) = true.
Proof. intros H. apply exec_sound, can_match_sound in H. exact H. Qed.

Lemma replace_from_ents r tpl :
  never_empty r = true -> ent_safe r ->
  (forall p s st', exec plain r p s = Some st' -> ents_ok s = true ->
                   ents_ok (tpl st') = true) ->
  forall p s,
    (forall w, Forall (fun c => ent_tail_char c = true) w ->
               starts_with w s = true ->
               starts_with w (replace_from plain r tpl 0 p s) = true)
    /\ (ents_ok s = true -> ents_ok (replace_from plain r tpl 0 p s) = true).
Proof.
  intros Hz Hs Ht.
  apply (replace_from_ind plain r tpl
           (fun _ s out =>
              (forall w, Forall (fun c => ent_tail_char c = true) w ->
                         starts_with w s = true -> starts_with w out = true)
              /\ (ents_ok s = true -> ents_ok out = true))).
  - now apply never_empty_zw.
  - intros p. split; auto.
  - intros p c s out _ [IH1 IH2]. split.
    + intros [|d w] Hw H; [reflexivity|]. simpl in *.
      apply andb_true_iff in H. destruct H as [H1 H2]. rewrite H1.
      apply IH1; [now inversion Hw|exact H2].
    + intros H. cbn [ents_ok] in *. apply andb_true_iff in H.
      destruct H as [H1 H2]. rewrite IH2 by exact H2. rewrite andb_true_r.
      destruct (c =? AMP)%N; [|reflexivity].
      unfold ent_tail_at in *. rewrite existsb_exists in *.
      destruct H1 as (w & Hw & H). exists w. split; [exact Hw|].
      apply IH1; [|exact H].
      pose proof entity_tails_chars as T. rewrite Forall_forall in T. now apply T.
  - intros p c w s st' out Hx Hr [IH1 IH2]. split.
    + intros [|d w0] Hw H; [reflexivity|]. exfalso.
      simpl in H. apply andb_true_iff in H. destruct H as [H _].
      apply N.eqb_eq in H. subst d.
      apply exec_starts in Hx. rewrite Hs in Hx; [discriminate|now inversion Hw].
    + intros H. apply ents_ok_app; [now apply (Ht p _ st' Hx)|].
      apply IH2. change (c :: w ++ s) with ((c :: w) ++ s) in H.
      now apply ents_ok_suffix in H.
Qed.

Lemma replace_ents r tpl s :
  never_empty r = true -> ent_safe r ->
  (forall p s st', exec plain r p s = Some st' -> ents_ok s = true ->
                   ents_ok (tpl st') = true) ->
  ents_ok s = true -> ents_ok (replace plain r tpl s) = true.
Proof. intros Hz Hs Ht. apply (replace_from_ents r tpl Hz Hs Ht None s). Qed.

(** The captured text is whole when the pattern goes on with something
    that cannot begin inside an entity. *)
Lemma group_then i R B st st' :
  Matches plain (Seq (Group i R) B) st st' ->
  no_group B = true -> ent_safe B ->
  ents_ok (rest st) = true ->
  ents_ok (get_cap i (caps st')) = true.
Proof.
  intros H HB HS He. inversion H as [| |? ? ? st2 ? HG HBm| | | | | | |]; subst.
  inversion HG as [| | | | | | |? ? ? st0 HR| |]; subst.
  rewrite (Matches_no_group plain B _ _ HBm HB).
  destruct (Matches_suffix plain R _ _ HR) as (w & Ew & _).
  unfold set_cap. cbn [caps get_cap]. rewrite Nat.eqb_refl.
  rewrite (consumed_app w st st0 Ew).
  rewrite Ew in He. apply (ents_ok_cut_r w (rest st0)); [|exact He].
  pose proof (can_match_sound plain B _ _ HBm) as Hc.
  unfold ctx, set_cap in Hc. cbn [prev rest] in Hc.
  destruct (rest st0) as [|x t]; [exact I|]. simpl.
  destruct (ent_tail_char x) eqn:Ex; [|reflexivity].
  cbn [hd_error option_map] in Hc. unfold plain in Hc at 2.
  rewrite (HS _ x Ex) in Hc. discriminate.
Qed.

Lemma Matches_rest_ents r st st' :
  Matches plain r st st' -> ents_ok (rest st) = true -> ents_ok (rest st') = true.
Proof.
  intros H He. destruct (Matches_suffix plain r _ _ H) as (w & Ew & _).
  rewrite Ew in He. now apply ents_ok_suffix in He.
Qed.

Lemma lastp_last (p : option cu) w d :
  w <> [] -> lastp p w = Some (last w d).
Proof.
  revert p. induction w as [|c w IH]; intros p H; [contradiction|].
  rewrite lastp_cons. destruct w as [|c2 w]; [reflexivity|].
  rewrite last_cons2. apply IH. discriminate.
Qed.

(** The captured text is whole when it ends with a character that no
    entity holds before its last one. *)
Lemma group_last i R st st' :
  Matches plain (Group i R) st st' ->
  (forall x, prev st' = Some x -> ent_head_char x = false) ->
  ents_ok (rest st) = true ->
  ents_ok (get_cap i (caps st')) = true.
Proof.
  intros HG Hp He. inversion HG as [| | | | | | |? ? ? st0 HR| |]; subst.
  destruct (Matches_suffix plain R _ _ HR) as (w & Ew & Pw).
  unfold set_cap in *. cbn [caps get_cap prev] in *. rewrite Nat.eqb_refl.
  rewrite (consumed_app w st st0 Ew).
  rewrite Ew in He. apply (ents_ok_cut_l w (rest st0)); [|exact He].
  destruct w as [|c w]; [now left|right]. intros d.
  apply Hp. rewrite Pw. apply lastp_last. discriminate.
Qed.

Lemma chain_rest As r : forall st st',
  Matches plain (chain As r) st st' ->
  exists st1, Matches plain r st1 st'
              /\ (ents_ok (rest st) = true -> ents_ok (rest st1) = true).
Proof.
  induction As as [|a As IH]; intros st st' H.
  - exists st. auto.
  - cbn [chain fold_right] in H.
    inversion H as [| |? ? ? st2 ? Ha Hr| | | | | | |]; subst.
    destruct (IH _ _ Hr) as (st1 & H1 & H2). exists st1. split; [exact H1|].
    intros He. apply H2. now apply (Matches_rest_ents a st st2).
Qed.

(** Group [i] is whole after a match of [As..., (group i), B]. *)
Lemma chain_group_then As i R B p s st' :
  exec plain (chain As (Seq (Group i R) B)) p s = Some st' ->
  no_group B = true -> ent_safe B ->
  ents_ok s = true -> ents_ok (cap i st') = true.
Proof.
  intros Hx HB HS He. apply exec_sound, chain_rest in Hx.
  destruct Hx as (st1 & H1 & H2). unfold cap.
  apply (group_then i R B st1 st' H1 HB HS). now apply H2.
Qed.

Lemma chain_group_last As i R p s st' :
  exec plain (chain As (Group i R)) p s = Some st' ->
  (forall st1, Matches plain (Group i R) st1 st' ->
               forall x, prev st' = Some x -> ent_head_char x = false) ->
  ents_ok s = true -> ents_ok (cap i st') = true.
Proof.
  intros Hx Hp He. apply exec_sound, chain_rest in Hx.
  destruct Hx as (st1 & H1 & H2). unfold cap.
  apply (group_last i R st1 st' H1 (Hp st1 H1)). now apply H2.
Qed.

Lemma space_not_tail c : is_space c = true -> ent_tail_char c = false.
Proof.
  intros H. destruct (ent_tail_char c) eqn:E; [|reflexivity].
  unfold ent_tail_char in E. simpl in E.
  repeat (apply orb_prop in E; destruct E as [E|E]);
    try (apply N.eqb_eq in E; subst c; discriminate H).
  discriminate.
Qed.

Lemma trim_ents w : ents_ok w = true -> ents_ok (trim plain w) = true.
Proof.
  intros H. destruct (trim_split plain w) as (l & r & E & _ & Hr).
  rewrite E in H. apply ents_ok_suffix in H.
  apply (ents_ok_cut_r _ r); [|exact H].
  destruct Hr as [|c r Hc _]; [exact I|]. simpl. now apply space_not_tail.
Qed.

Lemma lits_ents w : ents_ok w = true -> ents_ok (lits plain w) = true.
Proof. now rewrite lits_plain. Qed.

Lemma wrap1_ents o c st :
  ents_ok (str o) = true -> ents_ok (str c) = true ->
  ents_ok (cap 1 st) = true -> ents_ok (wrap1 plain o c st) = true.
Proof.
  intros Ho Hc H. unfold wrap1. rewrite !lits_plain.
  repeat apply ents_ok_app; auto.
Qed.

Ltac ent_safe_tac :=
  let pv := fresh "pv" in let c := fresh "c" in let H := fresh "H" in
  intros pv c H; unfold ent_tail_char in H; simpl in H;
  repeat (apply orb_prop in H; destruct H as [H|H]);
  try discriminate H;
  apply N.eqb_eq in H; subst c;
  first [ reflexivity
        | apply can_match_re_line;
          [reflexivity | right; reflexivity] ].

Lemma ent_safe_fence : ent_safe re_fence. Proof. ent_safe_tac. Qed.
Lemma ent_safe_inline : ent_safe re_inline. Proof. ent_safe_tac. Qed.
Lemma ent_safe_h3 : ent_safe re_h3. Proof. ent_safe_tac. Qed.
Lemma ent_safe_h2 : ent_safe re_h2. Proof. ent_safe_tac. Qed.
Lemma ent_safe_h1 : ent_safe re_h1. Proof. ent_safe_tac. Qed.
Lemma ent_safe_bold : ent_safe re_bold. Proof. ent_safe_tac. Qed.
Lemma ent_safe_italic : ent_safe re_italic. Proof. ent_safe_tac. Qed.
Lemma ent_safe_item : ent_safe re_item. Proof. ent_safe_tac. Qed.
Lemma ent_safe_items : ent_safe re_items. Proof. ent_safe_tac. Qed.
Lemma ent_safe_numbered : ent_safe re_numbered. Proof. ent_safe_tac. Qed.
Lemma ent_safe_blank : ent_safe re_blank. Proof. ent_safe_tac. Qed.
Lemma ent_safe_empty_p : ent_safe re_empty_p. Proof. ent_safe_tac. Qed.
Lemma ent_safe_p_before tag : ent_safe (re_p_before tag). Proof. ent_safe_tac. Qed.
Lemma ent_safe_p_after_h : ent_safe (re_p_after tag_h_close). Proof. ent_safe_tac. Qed.
Lemma ent_safe_p_after_pre : ent_safe (re_p_after (L "</pre>")). Proof. ent_safe_tac. Qed.
Lemma ent_safe_p_after_ul : ent_safe (re_p_after (L "</ul>")). Proof. ent_safe_tac. Qed.
Lemma ent_safe_backticks : ent_safe (L "```"). Proof. ent_safe_tac. Qed.
Lemma ent_safe_backtick : ent_safe (L "`"). Proof. ent_safe_tac. Qed.
Lemma ent_safe_stars : ent_safe (L "**"). Proof. ent_safe_tac. Qed.
Lemma ent_safe_star : ent_safe (L "*"). Proof. ent_safe_tac. Qed.
Lemma ent_safe_eol : ent_safe Eol. Proof. ent_safe_tac. Qed.
Lemma ent_safe_spaces_p : ent_safe (re_spaces ;; L "</p>")%re. Proof. ent_safe_tac. Qed.

Lemma Matches_Lit w : forall st st',
  Matches plain (Lit w) st st' ->
  rest st = w ++ rest st' /\ prev st' = lastp (prev st) w /\ caps st' = caps st.
Proof.
  induction w as [|c w IH]; intros st st' H.
  - inversion H; subst. auto.
  - cbn [Lit] in H. inversion H as [| |? ? ? st2 ? Hc Hw| | | | | | |]; subst.
    inversion Hc as [|q pv x s cs Hq| | | | | | | |]; subst.
    destruct (IH _ _ Hw) as (E1 & E2 & E3). cbn [rest prev caps] in *.
    unfold is_char, plain in Hq. apply N.eqb_eq in Hq. subst x.
    rewrite E1, E2, E3. auto.
Qed.

Lemma Matches_Lit_prev w st st' :
  w <> [] -> Matches plain (Lit w) st st' -> prev st' = Some (last w 0%N).
Proof.
  intros Hw H. destruct (Matches_Lit w _ _ H) as (_ & E & _).
  rewrite E. now apply lastp_last.
Qed.

Lemma Matches_Seq_prev a b st st' x :
  Matches plain (Seq a b) st st' ->
  (forall st2, Matches plain b st2 st' -> prev st' = Some x) ->
  prev st' = Some x.
Proof.
  intros H Hb. inversion H as [| |? ? ? st2 ? Ha Hbm| | | | | | |]; subst.
  now apply (Hb st2).
Qed.

Lemma tag_h_open_prev st st' :
  Matches plain tag_h_open st st' -> prev st' = Some 62%N.
Proof.
  intros H. unfold tag_h_open in H.
  apply (Matches_Seq_prev _ _ _ _ _ H). intros st2 H2.
  apply (Matches_Seq_prev _ _ _ _ _ H2). intros st3 H3.
  now apply (Matches_Lit_prev (str ">")) in H3.
Qed.

Lemma group_prev i R st st' x :
  Matches plain (Group i R) st st' ->
  (forall st0, Matches plain R st st0 -> prev st0 = Some x) ->
  prev st' = Some x.
Proof.
  intros H HR. inversion H as [| | | | | | |? ? ? st0 Hm| |]; subst.
  unfold set_cap. cbn [prev]. now apply HR.
Qed.

Lemma group_prev_or i R st st' x y :
  Matches plain (Group i R) st st' ->
  (forall st0, Matches plain R st st0 -> prev st0 = Some x \/ prev st0 = Some y) ->
  prev st' = Some x \/ prev st' = Some y.
Proof.
  intros H HR. inversion H as [| | | | | | |? ? ? st0 Hm| |]; subst.
  unfold set_cap. cbn [prev]. now apply HR.
Qed.

Lemma not_head_62 : ent_head_char 62%N = false.  Proof. reflexivity. Qed.
Lemma not_head_nl : ent_head_char NL = false.  Proof. reflexivity. Qed.

(** A match of the item pattern ends with [>] or a line feed. *)
Lemma li_body_prev st st' :
  Matches plain li_body st st' -> prev st' = Some 62%N \/ prev st' = Some NL.
Proof.
  intros H. unfold li_body in H.
  inversion H as [| |? ? ? s1 ? _ H1| | | | | | |]; subst.
  inversion H1 as [| |? ? ? s2 ? _ H2| | | | | | |]; subst.
  inversion H2 as [| |? ? ? s3 ? H3 H4| | | | | | |]; subst.
  apply (Matches_Lit_prev (str "</li>")) in H3; [|discriminate].
  unfold Opt in H4. inversion H4 as [| | |? ? ? ? Hl|? ? ? ? Hr| | | | |]; subst.
  - inversion Hl as [|q pv x s cs Hq| | | | | | | |]; subst.
    right. cbn [prev]. unfold is_char, plain in Hq. apply N.eqb_eq in Hq. now subst.
  - inversion Hr; subst. left. exact H3.
Qed.

Lemma star_prev g a (S : option cu -> Prop) st st' :
  Matches plain (Star g a) st st' ->
  (forall s1 s2, Matches plain a s1 s2 -> S (prev s2)) ->
  S (prev st) -> S (prev st').
Proof.
  intros H Ha. remember (Star g a) as r eqn:Er. revert Er.
  induction H; intros Er Hs; try discriminate; [exact Hs|].
  injection Er as -> ->. apply IHMatches2; [reflexivity|]. now apply (Ha st1 st2).
Qed.

Lemma items_prev st st' :
  Matches plain (Plus li_body) st st' ->
  prev st' = Some 62%N \/ prev st' = Some NL.
Proof.
  intros H. unfold Plus in H.
  inversion H as [| |? ? ? s1 ? H1 H2| | | | | | |]; subst.
  apply (star_prev _ _ (fun p => p = Some 62%N \/ p = Some NL) _ _ H2).
  - intros s2 s3. apply li_body_prev.
  - now apply li_body_prev in H1.
Qed.

(** The renderer keeps every entity whole. *)
Lemma markup_ents s : ents_ok s = true -> ents_ok (markup plain plain s) = true.
Proof.
  intros H. unfold markup, cleanup, paragraphs, ordered_lists, unordered_lists,
    italic, bold, headers, inline_code, code_blocks.
  assert (P_before : forall tag,
             (forall st st', Matches plain tag st st' -> prev st' = Some 62%N) ->
             forall p s st',
               exec plain (re_p_before tag) p s = Some st' ->
               ents_ok s = true -> ents_ok (only1 st') = true).
  { intros tag Ht p s0 st' Hx He.
    apply (chain_group_last [L "<p>"; re_spaces] 1 tag p s0 st' Hx); auto.
    intros st1 H1 x Hp. rewrite (group_prev _ _ _ _ _ H1 (Ht st1)) in Hp.
    injection Hp as <-. reflexivity. }
  assert (P_after : forall tag p s st',
             exec plain (re_p_after tag) p s = Some st' ->
             ents_ok s = true -> ents_ok (only1 st') = true).
  { intros tag p s0 st' Hx He.
    apply (chain_group_then [] 1 tag (re_spaces ;; L "</p>")%re p s0 st' Hx);
      auto using ent_safe_spaces_p. }
  assert (Line : forall mk o c p s st',
             ents_ok (str o) = true -> ents_ok (str c) = true ->
             exec plain (re_line mk) p s = Some st' ->
             ents_ok s = true -> ents_ok (wrap1 plain o c st') = true).
  { intros mk o c p s0 st' Ho Hc Hx He. apply wrap1_ents; auto.
    apply (chain_group_then [Bol; mk] 1 (Plus (Chr is_dot)) Eol p s0 st' Hx);
      auto using ent_safe_eol. }
  assert (Span : forall d c R o' c' p s st',
             ents_ok (str o') = true -> ents_ok (str c') = true ->
             ent_safe (L c) ->
             exec plain (L d ;; Group 1 R ;; L c)%re p s = Some st' ->
             ents_ok s = true -> ents_ok (wrap1 plain o' c' st') = true).
  { intros d c R o' c' p s0 st' Ho Hc Hs Hx He. apply wrap1_ents; auto.
    apply (chain_group_then [L d] 1 R (L c) p s0 st' Hx); auto.
    unfold L. clear. induction (str c); simpl; auto. }
  rewrite !lits_plain.
  apply replace_ents; [reflexivity|apply ent_safe_p_after_ul|apply P_after|].
  apply replace_ents; [reflexivity|apply ent_safe_p_before| |].
  { apply P_before. intros st st'. apply (Matches_Lit_prev (str "<ul>")). discriminate. }
  apply replace_ents; [reflexivity|apply ent_safe_p_after_pre|apply P_after|].
  apply replace_ents; [reflexivity|apply ent_safe_p_before| |].
  { apply P_before. intros st st'. apply (Matches_Lit_prev (str "<pre>")). discriminate. }
  apply replace_ents; [reflexivity|apply ent_safe_p_after_h|apply P_after|].
  apply replace_ents; [reflexivity|apply ent_safe_p_before| |].
  { apply P_before. apply tag_h_open_prev. }
  apply replace_ents; [reflexivity|apply ent_safe_empty_p|reflexivity|].
  apply ents_ok_app; [reflexivity|]. apply ents_ok_app; [|reflexivity].
  apply replace_ents; [reflexivity|apply ent_safe_blank|reflexivity|].
  apply replace_ents; [reflexivity|apply ent_safe_numbered| |].
  { intros p s0 st'. now apply Line. }
  apply replace_ents; [reflexivity|apply ent_safe_items| |].
  { intros p s0 st' Hx He. apply wrap1_ents; [reflexivity|reflexivity|].
    apply (chain_group_last [] 1 (Plus li_body) p s0 st' Hx); auto.
    intros st1 H1 x Hp.
    destruct (group_prev_or _ _ _ _ _ _ H1 (items_prev st1)) as [E|E];
      rewrite E in Hp; injection Hp as <-; reflexivity. }
  apply replace_ents; [reflexivity|apply ent_safe_item| |].
  { intros p s0 st'. now apply Line. }
  apply replace_ents; [reflexivity|apply ent_safe_italic| |].
  { intros p s0 st'. apply Span; [reflexivity|reflexivity|apply ent_safe_star]. }
  apply replace_ents; [reflexivity|apply ent_safe_bold| |].
  { intros p s0 st'. apply Span; [reflexivity|reflexivity|apply ent_safe_stars]. }
  apply replace_ents; [reflexivity|apply ent_safe_h1| |].
  { intros p s0 st'. now apply Line. }
  apply replace_ents; [reflexivity|apply ent_safe_h2| |].
  { intros p s0 st'. now apply Line. }
  apply replace_ents; [reflexivity|apply ent_safe_h3| |].
  { intros p s0 st'. now apply Line. }
  apply replace_ents; [reflexivity|apply ent_safe_inline| |].
  { intros p s0 st'. apply Span; [reflexivity|reflexivity|apply ent_safe_backtick]. }
  apply replace_ents; [reflexivity|apply ent_safe_fence| |exact H].
  intros p s0 st' Hx He.
  apply ents_ok_app; [reflexivity|]. apply ents_ok_app; [|reflexivity].
  apply trim_ents.
  apply (chain_group_then
           [L "```"; Group 1 (Star true (Chr is_word)); Chr (is_char NL)]
           2 (Star false (Chr is_any)) (L "```") p s0 st' Hx);
    auto using ent_safe_backticks.
Qed.

Lemma render_ents s : ents_ok (renderMarkdown s) = true.
Proof. apply markup_ents, escapeHtml_ents_ok. Qed.

(** C1, as the specification states it, fails: a double quote of the
    input reaches the output as it is, not as an entity reference. *)
Lemma render_keeps_quote_raw :
  renderMarkdown [QUOT] = str "<p>" ++ [QUOT] ++ str "</p>"
  /\ In QUOT (renderMarkdown [QUOT])
  /\ occurs (str "&quot;") (renderMarkdown [QUOT]) = false.
Proof. repeat split; vm_compute; auto. Qed.

(** C1, amended.  For every input string, no [<] or [>] of the output
    originates from the input: with every character tagged by its
    origin, the characters that come from the (escaped) input are never
    angle brackets, so every angle bracket of the output was inserted by
    one of the renderer's own templates; and every [&] of the output
    begins one of the entity references [&amp;], [&lt;], [&gt;],
    [&nbsp;] that the escaping stage emits for [&], [<], [>] and the
    no-break space.  A double quote is not escaped. *)
Theorem render_injection_safe :
  forall s,
    erase (renderMarkdown_tagged s) = renderMarkdown s
    /\ Forall input_is_safe (renderMarkdown_tagged s)
    /\ ents_ok (renderMarkdown s) = true.
Proof.
  intros s. split; [apply erase_render|].
  split; [apply render_tagged_safe|apply render_ents].
Qed.

(** ** Totality and malformed markup (C3) *)

(** A span that is opened and never closed is no match. *)
Lemma exec_span_unclosed o c q p X :
  Forall (fun x => q x = true) X ->
  match c with d :: _ => q d = false | [] => False end ->
  exec plain (Lit o ;; Group 1 (Plus (Chr q)) ;; Lit c)%re p (o ++ X) = None.
Proof.
  intros Hq Hc. unfold exec.
  rewrite m_Seq, m_Lit_app. cbn [flat_map]. rewrite app_nil_r.
  rewrite m_Seq, m_Group, flat_map_map. unfold Plus. rewrite m_Seq.
  destruct X as [|x X]; [reflexivity|].
  inversion Hq as [|? ? Hx HX']; subst.
  rewrite m_Chr. change (plain x) with x. rewrite Hx.
  cbn [flat_map]. rewrite app_nil_r.
  rewrite <- (app_nil_r X) at 1.
  rewrite star_skip_run; [|exact HX'|].
  2:{ intros u1 d u2 E. unfold set_cap. cbn [prev rest caps].
      rewrite m_Lit. cbn [map]. rewrite starts_with_head; [reflexivity|].
      destruct c as [|e c]; [contradiction|]. unfold plain. intros ->.
      rewrite Forall_forall in HX'. rewrite HX' in Hc; [discriminate|].
      rewrite E. apply in_elt. }
  rewrite m_star_chr_nil. cbn [flat_map]. rewrite app_nil_r.
  unfold set_cap. cbn [prev rest caps]. rewrite m_Lit.
  destruct c as [|e c]; [contradiction|]. reflexivity.
Qed.

Lemma inert_not_star E :
  Forall (fun c => inert c = true) E ->
  Forall (fun c => is_not_char STAR c = true) E.
Proof.
  apply Forall_impl. intros c H. destruct (inert_facts c H) as (_ & I2 & _).
  unfold is_not_char, STAR. now rewrite I2.
Qed.

Lemma render_unclosed_bold X :
  X <> [] -> Forall (fun c => markup_free c = true) X ->
  renderMarkdown (str "**" ++ X) = str "<p>**" ++ escapeHtml X ++ str "</p>".
Proof.
  intros HX Hm. unfold renderMarkdown, markup.
  rewrite escapeHtml_app. change (escapeHtml (str "**")) with (str "**").
  pose proof (escapeHtml_inert X Hm) as HE.
  pose proof (escapeHtml_nonempty X HX) as HN.
  set (E := escapeHtml X) in *.
  destruct E as [|e0 E'] eqn:EE; [contradiction|]. rewrite <- EE in *.
  assert (I2 : (e0 =? 42)%N = false).
  { rewrite EE in HE. now destruct (inert_facts e0 (Forall_inv HE)) as (_ & I2 & _). }
  unfold code_blocks, inline_code, headers, bold, italic, unordered_lists,
    ordered_lists, paragraphs.
  id_pre re_fence calm_fence.
  id_pre re_inline calm_inline.
  id_pre re_h3 calm_h3.
  id_pre re_h2 calm_h2.
  id_pre re_h1 calm_h1.
  rewrite (replace_id_pre re_bold);
    [|reflexivity|apply calm_bold|assumption| |left; reflexivity].
  2:{ norm_str. cbn [dead app]. split; [|split; [|exact I]].
      - apply (exec_span_unclosed (str "**") (str "**") (is_not_char STAR) None E);
          [now apply inert_not_star|reflexivity].
      - rewrite EE. unfold exec, re_bold, L. norm_str. rewrite m_Seq, m_Lit.
        cbn [map starts_with]. unfold plain. rewrite (N.eqb_sym 42 e0), I2.
        reflexivity. }
  rewrite (replace_id_pre re_italic);
    [|reflexivity|apply calm_italic|assumption| |left; reflexivity].
  2:{ norm_str. cbn [dead app]. split; [reflexivity|split; [|exact I]].
      apply (exec_span_unclosed (str "*") (str "*") (is_not_char STAR) (Some 42%N) E);
        [now apply inert_not_star|reflexivity]. }
  id_pre re_item calm_item.
  id_pre re_items calm_items.
  id_pre re_numbered calm_numbered.
  id_pre re_blank calm_blank.
  rewrite !lits_plain, <- !app_assoc.
  change (str "<p>" ++ str "**" ++ E ++ str "</p>")
    with (str "<p>**" ++ E ++ str "</p>").
  unfold cleanup.
  id_pass re_empty_p calm_empty_p.
  id_pass (re_p_before tag_h_open) (calm_p_before tag_h_open).
  id_pass (re_p_after tag_h_close) calm_p_after_h.
  id_pass (re_p_before (L "<pre>")) (calm_p_before (L "<pre>")).
  id_pass (re_p_after (L "</pre>")) calm_p_after_pre.
  id_pass (re_p_before (L "<ul>")) (calm_p_before (L "<ul>")).
  id_pass (re_p_after (L "</ul>")) calm_p_after_ul.
  reflexivity.
Qed.

(** A fence that is opened and never closed is no match. *)
Lemma exec_fence_unclosed p E :
  ~ In BACKTICK E ->
  exec plain re_fence p (str "```" ++ NL :: E) = None.
Proof.
  intros Hb. unfold exec, re_fence, L. norm_str.
  rewrite m_Seq, m_Lit_app. cbn [flat_map]. rewrite app_nil_r.
  rewrite m_Seq, m_Group, flat_map_map.
  rewrite m_star_chr_stop by reflexivity. cbn [flat_map]. rewrite app_nil_r.
  unfold set_cap at 1. cbn [prev rest caps].
  rewrite m_Seq, m_Chr. change (is_char NL (plain NL)) with true.
  cbn [flat_map]. rewrite app_nil_r.
  rewrite m_Seq, m_Group, flat_map_map.
  rewrite <- (app_nil_r E) at 1.
  rewrite star_skip_run.
  2:{ apply Forall_forall. intros c _. unfold is_any. apply orb_negb_r. }
  2:{ intros u1 c u2 Eq. unfold set_cap. cbn [prev rest caps].
      rewrite m_Lit. cbn [map starts_with]. unfold plain.
      destruct (N.eqb_spec 96 c) as [<-|]; [|reflexivity].
      exfalso. apply Hb. rewrite Eq. apply in_elt. }
  rewrite m_star_chr_nil. cbn [flat_map]. rewrite app_nil_r.
  unfold set_cap. cbn [prev rest caps]. rewrite m_Lit. reflexivity.
Qed.

Lemma render_unclosed_fence X :
  X <> [] -> Forall (fun c => markup_free c = true) X -> head_ordinary X ->
  renderMarkdown (str "```" ++ NL :: X)
  = str "<p>```" ++ NL :: escapeHtml X ++ str "</p>".
Proof.
  intros HX Hm H0. unfold renderMarkdown, markup.
  change (str "```" ++ NL :: X) with ((str "```" ++ [NL]) ++ X).
  rewrite escapeHtml_app.
  change (escapeHtml (str "```" ++ [NL])) with (str "```" ++ [NL]).
  destruct (escapeHtml_texty X Hm H0) as [HE HO].
  pose proof (escapeHtml_nonempty X HX) as HN.
  set (E := escapeHtml X) in *.
  destruct E as [|e0 E'] eqn:EE; [contradiction|]. rewrite <- EE in *.
  assert (I4 : (e0 =? 10)%N = false).
  { rewrite EE in HE. now destruct (inert_facts e0 (Forall_inv HE)) as (_ & _ & _ & I4 & _). }
  assert (R : forall r tpl,
             never_empty r = true -> calm r ->
             dead r None (str "```" ++ [NL]) E ->
             replace plain r tpl ((str "```" ++ [NL]) ++ E) = (str "```" ++ [NL]) ++ E).
  { intros r tpl Hz Hc Hd. apply replace_id_pre; auto. }
  unfold code_blocks, inline_code, headers, bold, italic, unordered_lists,
    ordered_lists, paragraphs.
  rewrite (R re_fence); [|reflexivity|apply calm_fence|].
  2:{ norm_str. cbn [dead app]. split; [|dead_tac].
      apply (exec_fence_unclosed None E). now apply inert_no_backtick. }
  rewrite (R re_inline); [|reflexivity|apply calm_inline|].
  2:{ norm_str. cbn [dead app].
      split; [reflexivity|]. split; [reflexivity|]. split; [|dead_tac].
      apply (exec_span_unclosed (str "`") (str "`") (is_not_char BACKTICK)
               (Some 96%N) (NL :: E)); [|reflexivity].
      constructor; [reflexivity|now apply inert_not_backtick]. }
  rewrite (R re_h3); [|reflexivity|apply calm_h3|dead_tac].
  rewrite (R re_h2); [|reflexivity|apply calm_h2|dead_tac].
  rewrite (R re_h1); [|reflexivity|apply calm_h1|dead_tac].
  rewrite (R re_bold); [|reflexivity|apply calm_bold|dead_tac].
  rewrite (R re_italic); [|reflexivity|apply calm_italic|dead_tac].
  rewrite (R re_item); [|reflexivity|apply calm_item|dead_tac].
  rewrite (R re_items); [|reflexivity|apply calm_items|dead_tac].
  rewrite (R re_numbered); [|reflexivity|apply calm_numbered|dead_tac].
  rewrite (R re_blank); [|reflexivity|apply calm_blank|].
  2:{ norm_str. cbn [dead app]. do 3 (split; [reflexivity|]). split; [|exact I].
      rewrite EE. unfold exec, re_blank. rewrite m_Lit. cbn [map starts_with].
      unfold plain. rewrite (N.eqb_sym _ e0). unfold NL. rewrite I4. reflexivity. }
  rewrite !lits_plain, <- !app_assoc.
  change (str "<p>" ++ str "```" ++ [NL] ++ E ++ str "</p>")
    with ((str "<p>```" ++ [NL]) ++ E ++ str "</p>").
  assert (C : forall r tpl,
             never_empty r = true -> calm r ->
             dead r None (str "<p>```" ++ [NL]) (E ++ str "</p>") ->
             (forall p, dead r p (str "</p>") []) ->
             replace plain r tpl ((str "<p>```" ++ [NL]) ++ E ++ str "</p>")
             = (str "<p>```" ++ [NL]) ++ E ++ str "</p>").
  { intros r tpl Hz Hc Hd Hv. apply replace_id_wrapped; auto. }
  unfold cleanup.
  rewrite (C re_empty_p); [|reflexivity|apply calm_empty_p|dead_tac|intros; dead_tac].
  rewrite (C (re_p_before tag_h_open));
    [|reflexivity|apply calm_p_before|dead_tac|intros; dead_tac].
  rewrite (C (re_p_after tag_h_close));
    [|reflexivity|apply calm_p_after_h|dead_tac|intros; dead_tac].
  rewrite (C (re_p_before (L "<pre>")));
    [|reflexivity|apply calm_p_before|dead_tac|intros; dead_tac].
  rewrite (C (re_p_after (L "</pre>")));
    [|reflexivity|apply calm_p_after_pre|dead_tac|intros; dead_tac].
  rewrite (C (re_p_before (L "<ul>")));
    [|reflexivity|apply calm_p_before|dead_tac|intros; dead_tac].
  rewrite (C (re_p_after (L "</ul>")));
    [|reflexivity|apply calm_p_after_ul|dead_tac|intros; dead_tac].
  reflexivity.
Qed.

(** ** Patterns *)

Lemma tails_self {X} (l : list X) : In l (tails l).
Proof. destruct l; simpl; auto. Qed.

Lemma tails_tl {X} (x : X) q : forall l, In (x :: q) (tails l) -> In q (tails l).
Proof.
  induction l as [|y l IH]; intros H.
  - simpl in H. destruct H as [H|[]]. discriminate.
  - cbn [tails] in H. destruct H as [H|H].
    + injection H as -> ->. cbn [tails]. right. apply tails_self.
    + cbn [tails]. right. now apply IH.
Qed.

Lemma spaces_then_now (k : jsstring -> bool) s : k s = true -> spaces_then k s = true.
Proof. intros H. destruct s; simpl; now rewrite H. Qed.

Lemma spaces_then_cons (k : jsstring -> bool) c s :
  spaces_then k (c :: s) = k (c :: s) || (is_space c && spaces_then k s).
Proof. reflexivity. Qed.

Lemma pmatch_word w s : pmatch (word w) s = starts_with w s.
Proof.
  revert s. induction w as [|c w IH]; intros s; [reflexivity|].
  destruct s as [|d s]; [reflexivity|]. simpl. now rewrite IH.
Qed.

Lemma poccurs_word w s : poccurs (word w) s = occurs w s.
Proof.
  induction s as [|d s IH]; simpl; rewrite pmatch_word; [reflexivity|].
  now rewrite IH.
Qed.

Lemma space_not_lt c : is_space c = true -> (60 =? c)%N = false.
Proof.
  intros H. destruct (N.eqb_spec 60 c) as [<-|]; [discriminate H|reflexivity].
Qed.

Lemma spaces_then_trim w s :
  match w with c :: _ => is_space c = false | [] => False end ->
  spaces_then (pmatch (word w)) s = starts_with w (trim_start plain s).
Proof.
  intros Hw. induction s as [|d s IH].
  - simpl. rewrite pmatch_word. destruct w; [contradiction|reflexivity].
  - rewrite spaces_then_cons. cbn [trim_start]. unfold plain at 1.
    destruct (is_space d) eqn:Hd.
    + rewrite IH, pmatch_word.
      destruct w as [|c w]; [contradiction|]. simpl.
      destruct (N.eqb_spec c d) as [->|]; [congruence|reflexivity].
    + rewrite pmatch_word. simpl. apply orb_false_r.
Qed.

Lemma pmatch_word_app w q : forall s,
  pmatch (word w ++ q) s = starts_with w s && pmatch q (skipn (length w) s).
Proof.
  induction w as [|c w IH]; intros s; [reflexivity|].
  destruct s as [|d s]; [reflexivity|].
  cbn [word map app pmatch starts_with length skipn].
  fold (word w). now rewrite IH, andb_assoc.
Qed.

Lemma empty_p_at_pmatch s : empty_p_at s = pmatch empty_p_pat s.
Proof.
  unfold empty_p_at, strip_prefix, empty_p_pat. rewrite pmatch_word_app.
  destruct (starts_with (str "<p>") s); [|reflexivity].
  cbn [andb pmatch]. now rewrite (spaces_then_trim (str "</p>")).
Qed.

Lemma has_empty_p_poccurs s : has_empty_p s = poccurs empty_p_pat s.
Proof.
  induction s as [|c s IH]; cbn [has_empty_p poccurs];
    rewrite empty_p_at_pmatch; [reflexivity|]. now rewrite IH.
Qed.

Lemma keeps_cons pt out s c : keeps pt out s -> keeps pt (c :: out) (c :: s).
Proof.
  intros K q. induction q as [|[d|] q IH]; intros Hq Hne Hm; [contradiction| |].
  - simpl in *. apply andb_true_iff in Hm. destruct Hm as [H1 H2]. rewrite H1.
    destruct q as [|x q]; [reflexivity|].
    apply K; [now apply tails_tl in Hq|discriminate|exact H2].
  - cbn [pmatch] in *. rewrite spaces_then_cons in *.
    apply orb_true_iff in Hm. destruct Hm as [Hm|Hm].
    + destruct q as [|x q]; [reflexivity|].
      rewrite IH; [reflexivity|now apply tails_tl in Hq|discriminate|exact Hm].
    + apply andb_true_iff in Hm. destruct Hm as [H1 H2]. rewrite H1.
      change (spaces_then (pmatch q) out) with (pmatch (None :: q) out) in H2.
      apply (K _ Hq Hne) in H2. cbn [pmatch] in H2. rewrite H2.
      apply orb_true_r.
Qed.

Lemma poccurs_suffix pt u s : poccurs pt (u ++ s) = false -> poccurs pt s = false.
Proof.
  induction u as [|c u IH]; intros H; [exact H|].
  simpl in H. apply orb_false_iff in H. destruct H as [_ H]. now apply IH.
Qed.

Lemma pmatch_app_l q : forall X Y, pmatch q X = true -> pmatch q (X ++ Y) = true.
Proof.
  induction q as [|[d|] q IH]; intros X Y H; [reflexivity| |].
  - destruct X as [|x X]; [discriminate|]. simpl in *.
    apply andb_true_iff in H. destruct H as [H1 H2]. rewrite H1. now apply IH.
  - cbn [pmatch] in *. induction X as [|x X IHX].
    + simpl in H. rewrite orb_false_r in H. apply spaces_then_now.
      now apply (IH [] Y).
    + rewrite spaces_then_cons in H. cbn [app]. rewrite spaces_then_cons.
      apply orb_true_iff in H. destruct H as [H|H].
      * apply (IH (x :: X) Y) in H. cbn [app] in H. now rewrite H.
      * apply andb_true_iff in H. destruct H as [H1 H2].
        rewrite H1, (IHX H2). apply orb_true_r.
Qed.

Lemma pmatch_app_inv q : forall X Y,
  pmatch q (X ++ Y) = true ->
  pmatch q X = true
  \/ exists q', In q' (tails q) /\ q' <> [] /\ pmatch q' Y = true.
Proof.
  induction q as [|[d|] q IH]; intros X Y H; [now left| |].
  - destruct X as [|x X].
    + right. exists (Some d :: q). repeat split; [apply tails_self|discriminate|exact H].
    + simpl in *. apply andb_true_iff in H. destruct H as [H1 H2]. rewrite H1.
      destruct (IH _ _ H2) as [E|(q' & I & N & E)]; [now left|right].
      exists q'. repeat split; auto.
  - cbn [pmatch] in *. induction X as [|x X IHX].
    + right. exists (None :: q). repeat split; [apply tails_self|discriminate|exact H].
    + cbn [app] in H. rewrite spaces_then_cons in *.
      apply orb_true_iff in H. destruct H as [H|H].
      * destruct (IH (x :: X) Y H) as [E|(q' & I & N & E)].
        -- left. now rewrite E.
        -- right. exists q'. repeat split; auto. cbn [tails]. now right.
      * apply andb_true_iff in H. destruct H as [H1 H2]. rewrite H1.
        destruct (IHX H2) as [E|E]; [left|now right].
        rewrite E. apply orb_true_r.
Qed.

Lemma poccurs_prefix pt X Y : poccurs pt (X ++ Y) = false -> poccurs pt X = false.
Proof.
  induction X as [|x X IH]; intros H.
  - simpl in *. rewrite orb_false_r. apply poccurs_suffix with (u := []) in H.
    destruct (pmatch pt []) eqn:E; [|reflexivity].
    apply (pmatch_app_l pt [] Y) in E. simpl in E.
    destruct Y; simpl in H; rewrite E in H; discriminate.
  - simpl in *. apply orb_false_iff in H. destruct H as [H1 H2].
    rewrite (IH H2), orb_false_r.
    destruct (pmatch pt (x :: X)) eqn:E; [|reflexivity].
    apply (pmatch_app_l pt (x :: X) Y) in E. simpl in E. congruence.
Qed.

Lemma poccurs_app pt X Y :
  poccurs pt X = false -> poccurs pt Y = false ->
  (forall q, In q (tails pt) -> q <> [] -> pmatch q Y = false) ->
  poccurs pt (X ++ Y) = false.
Proof.
  intros HX HY HQ. induction X as [|x X IH]; [exact HY|].
  simpl in HX. apply orb_false_iff in HX. destruct HX as [H1 H2].
  cbn [app poccurs]. rewrite (IH H2), orb_false_r.
  destruct (pmatch pt (x :: X ++ Y)) eqn:E; [|reflexivity].
  destruct (pmatch_app_inv pt (x :: X) Y E) as [E'|(q' & I & N & E')].
  - congruence.
  - rewrite (HQ q' I N) in E'. discriminate.
Qed.

(** ** A pattern that is absent stays absent *)

Lemma replace_from_absent pt r tpl :
  never_empty r = true ->
  (forall p s st', exec plain r p s = Some st' -> poccurs pt s = false ->
       (forall q, In q (tails pt) -> q <> [] ->
                  forall out, pmatch q (tpl st' ++ out) = false)
       /\ (forall out, poccurs pt out = false -> poccurs pt (tpl st' ++ out) = false)) ->
  forall p s,
    poccurs pt s = false ->
    keeps pt (replace_from plain r tpl 0 p s) s
    /\ poccurs pt (replace_from plain r tpl 0 p s) = false.
Proof.
  intros Hz Ht.
  apply (replace_from_ind plain r tpl
           (fun _ s out => poccurs pt s = false ->
                           keeps pt out s /\ poccurs pt out = false)).
  - now apply never_empty_zw.
  - intros p H. split; [intros q _ _ E; exact E|exact H].
  - intros p c s out _ IH H.
    pose proof H as H'. simpl in H'. apply orb_false_iff in H'.
    destruct H' as [H1 H2]. destruct (IH H2) as [K O]. split.
    + now apply keeps_cons.
    + cbn [poccurs]. rewrite O, orb_false_r.
      destruct (pmatch pt (c :: out)) eqn:E; [|reflexivity].
      destruct pt as [|x pt]; [discriminate H1|].
      apply (keeps_cons _ _ _ c K) in E; [congruence|apply tails_self|discriminate].
  - intros p c w s st' out Hx Hr IH H.
    destruct (Ht _ _ _ Hx H) as [T1 T2].
    change (c :: w ++ s) with ((c :: w) ++ s) in H.
    destruct (IH (poccurs_suffix _ _ _ H)) as [K O]. split.
    + intros q Hq Hne E. rewrite (T1 q Hq Hne) in E. discriminate.
    + now apply T2.
Qed.

Lemma replace_absent pt r tpl s :
  never_empty r = true ->
  (forall p s st', exec plain r p s = Some st' -> poccurs pt s = false ->
       (forall q, In q (tails pt) -> q <> [] ->
                  forall out, pmatch q (tpl st' ++ out) = false)
       /\ (forall out, poccurs pt out = false -> poccurs pt (tpl st' ++ out) = false)) ->
  poccurs pt s = false -> poccurs pt (replace plain r tpl s) = false.
Proof. intros Hz Ht H. now apply (replace_from_absent pt r tpl Hz Ht None s). Qed.

Lemma replace_tag_absent pt r tpl s :
  never_empty r = true ->
  (forall p s st', exec plain r p s = Some st' -> tag_ok pt (tpl st')) ->
  poccurs pt s = false -> poccurs pt (replace plain r tpl s) = false.
Proof.
  intros Hz Ht. apply replace_absent; [exact Hz|].
  intros p s0 st' Hx _. destruct (Ht _ _ _ Hx) as [T1 T2]. split.
  - intros q Hq Hne out. now apply T2.
  - intros out Ho. now rewrite T1.
Qed.

Lemma replace_wrap_absent pt r tpl o c (f : mstate cu -> jsstring) s :
  never_empty r = true -> tag_ok pt o -> tag_ok pt c ->
  (forall st, tpl st = o ++ f st ++ c) ->
  (forall p s st', exec plain r p s = Some st' -> poccurs pt s = false ->
                   poccurs pt (f st') = false) ->
  poccurs pt s = false -> poccurs pt (replace plain r tpl s) = false.
Proof.
  intros Hz [O1 O2] [C1 C2] Et Hf. apply replace_absent; [exact Hz|].
  intros p s0 st' Hx Hs. rewrite Et. split.
  - intros q Hq Hne out. rewrite <- app_assoc. now apply O2.
  - intros out Ho. rewrite <- !app_assoc, O1. apply poccurs_app.
    + now apply (Hf p s0).
    + now rewrite C1.
    + intros q Hq Hne. now apply C2.
Qed.

(** ** What a group can capture *)

Lemma Matches_caps r st st' :
  Matches plain r st st' ->
  forall i, get_cap i (caps st') = get_cap i (caps st)
            \/ exists a b, rest st = a ++ get_cap i (caps st') ++ b.
Proof.
  induction 1 as [ | | a b st1 st2 st3 H1 IH1 H2 IH2 | | | | g a st1 st2 st3 H1 IH1 Hl H2 IH2
                 | j a st st' H IH | | ]; intros i; try (now left); auto.
  - destruct (IH2 i) as [E|(x & y & E)].
    + rewrite E. apply IH1.
    + right. destruct (Matches_suffix plain _ _ _ H1) as (w & Ew & _).
      exists (w ++ x), y. now rewrite Ew, E, app_assoc.
  - destruct (IH2 i) as [E|(x & y & E)].
    + rewrite E. apply IH1.
    + right. destruct (Matches_suffix plain _ _ _ H1) as (w & Ew & _).
      exists (w ++ x), y. now rewrite Ew, E, app_assoc.
  - unfold set_cap. cbn [caps get_cap].
    destruct (Nat.eqb i j); [|apply IH].
    right. destruct (Matches_suffix plain _ _ _ H) as (w & Ew & _).
    exists [], (rest st'). now rewrite (consumed_app w st st' Ew).
Qed.

Lemma exec_cap_absent pt r p s st' i :
  pmatch pt [] = false ->
  exec plain r p s = Some st' -> poccurs pt s = false ->
  poccurs pt (cap i st') = false.
Proof.
  intros Hn Hx Hs. apply exec_sound in Hx.
  destruct (Matches_caps _ _ _ Hx i) as [E|(a & b & E)]; unfold cap.
  - rewrite E. simpl. now rewrite Hn.
  - cbn [rest] in E. rewrite E in Hs.
    now apply poccurs_suffix, poccurs_prefix in Hs.
Qed.

Lemma trim_absent pt w : poccurs pt w = false -> poccurs pt (trim plain w) = false.
Proof.
  intros H. destruct (trim_split plain w) as (l & r & E & _).
  rewrite E in H. now apply poccurs_suffix, poccurs_prefix in H.
Qed.

Ltac tag_ok_tac :=
  split;
  [ intros Z; reflexivity
  | let q := fresh "q" in let Hq := fresh "Hq" in let Hne := fresh "Hne" in
    intros q Hq Hne Z; vm_compute in Hq;
    repeat (destruct Hq as [Hq|Hq]; [subst q; try reflexivity; now elim Hne|]);
    contradiction ].

(** ** No [</p>] before the paragraphs *)

Lemma no_lt_absent w s :
  match w with c :: _ => c = 60%N | [] => False end ->
  ~ In 60%N s -> poccurs (word w) s = false.
Proof.
  intros Hw. destruct w as [|c w]; [contradiction|]. subst c.
  induction s as [|d s IH]; intros H; [reflexivity|].
  cbn [poccurs]. rewrite IH by (intros I; apply H; now right).
  rewrite orb_false_r. cbn [word map pmatch].
  destruct (N.eqb_spec 60 d) as [<-|]; [|reflexivity].
  exfalso. apply H. now left.
Qed.

Lemma escapeHtml_no_lt s : ~ In 60%N (escapeHtml s).
Proof.
  intros H. pose proof (escapeHtml_no_angle s) as F. rewrite Forall_forall in F.
  destruct (F _ H) as [E _]. now apply E.
Qed.

Lemma block_stages_absent pt s :
  pt = close_p_pat \/ pt = open_p_pat ->
  poccurs pt s = false ->
  poccurs pt
    (ordered_lists plain plain (unordered_lists plain plain
      (italic plain plain (bold plain plain (headers plain plain
        (inline_code plain plain (code_blocks plain plain s)))))))
  = false.
Proof.
  intros Hpt H.
  assert (N : pmatch pt [] = false) by (destruct Hpt as [-> | ->]; reflexivity).
  assert (W : forall r o c s,
             never_empty r = true ->
             tag_ok pt (str o) -> tag_ok pt (str c) ->
             poccurs pt s = false ->
             poccurs pt (replace plain r (wrap1 plain o c) s) = false).
  { intros r o c s0 Hz Ho Hc Hs.
    apply (replace_wrap_absent pt r _ (str o) (str c) (cap 1)); auto.
    - intros st. unfold wrap1. now rewrite !lits_plain.
    - intros p s1 st'. now apply exec_cap_absent. }
  unfold ordered_lists, unordered_lists, italic, bold, headers, inline_code,
    code_blocks.
  assert (F : poccurs pt
                (replace plain re_fence
                   (fun st => lits plain (str "<pre><code>")
                              ++ trim plain (cap 2 st)
                              ++ lits plain (str "</code></pre>")) s) = false).
  { apply (replace_wrap_absent pt re_fence _
             (str "<pre><code>") (str "</code></pre>")
             (fun st => trim plain (cap 2 st)));
      [reflexivity
      |destruct Hpt as [-> | ->]; tag_ok_tac
      |destruct Hpt as [-> | ->]; tag_ok_tac
      | | |exact H].
    - intros st. now rewrite !lits_plain.
    - intros p s1 st' Hx Hs. apply trim_absent.
      now apply (exec_cap_absent _ re_fence p s1). }
  revert F. generalize (replace plain re_fence
                   (fun st => lits plain (str "<pre><code>")
                              ++ trim plain (cap 2 st)
                              ++ lits plain (str "</code></pre>")) s).
  intros s0 F.
  destruct Hpt as [-> | ->];
    do 9 (apply W; [reflexivity|tag_ok_tac|tag_ok_tac|]); exact F.
Qed.

(** ** The paragraphs *)

Lemma starts_with_inv w : forall s,
  starts_with w s = true -> s = w ++ skipn (length w) s.
Proof.
  induction w as [|c w IH]; intros s H; [reflexivity|].
  destruct s as [|d s]; [discriminate|]. simpl in H.
  apply andb_true_iff in H. destruct H as [H1 H2].
  apply N.eqb_eq in H1. subst d. cbn [length skipn app]. f_equal. now apply IH.
Qed.

Lemma p_alternate_suffix u s : p_alternate (u ++ s) = true -> p_alternate s = true.
Proof.
  induction u as [|c u IH]; intros H; [exact H|].
  cbn [app p_alternate] in H. apply andb_true_iff in H. now apply IH.
Qed.

Lemma p_alternate_at u s :
  p_alternate (u ++ str "</p>" ++ s) = true ->
  s = [] \/ starts_with (str "<p>") s = true.
Proof.
  intros H. apply p_alternate_suffix in H.
  change (str "</p>" ++ s) with (60 :: 47 :: 112 :: 62 :: s)%N in H.
  cbn [p_alternate] in H. apply andb_true_iff in H. destruct H as [H _].
  change (starts_with (str "</p>") (60 :: 47 :: 112 :: 62 :: s)%N) with true in H.
  cbn [skipn] in H. destruct s; [now left|now right].
Qed.

Lemma paragraphs_alternate T :
  poccurs close_p_pat T = false ->
  p_alternate (paragraphs plain plain T) = true.
Proof.
  intros H. unfold paragraphs. rewrite !lits_plain.
  change (p_alternate (str "<p>" ++ ?Z)) with (p_alternate Z).
  revert H. unfold replace.
  apply (replace_from_ind plain re_blank (fun _ => str "</p><p>")
           (fun _ s out =>
              poccurs close_p_pat s = false ->
              keeps (word (str "/p>")) (out ++ str "</p>") s
              /\ p_alternate (out ++ str "</p>") = true)).
  - now apply never_empty_zw.
  - intros _ _. split; [|reflexivity].
    intros q Hq Hne E. vm_compute in Hq.
    repeat (destruct Hq as [Hq|Hq]; [subst q; try discriminate E; now elim Hne|]).
    contradiction.
  - intros p c s out _ IH H.
    pose proof H as H'. cbn [poccurs] in H'. apply orb_false_iff in H'.
    destruct H' as [H1 H2]. destruct (IH H2) as [K O]. split.
    + now apply keeps_cons.
    + cbn [app p_alternate]. rewrite O, andb_true_r.
      destruct (starts_with (str "</p>") (c :: out ++ str "</p>")) eqn:E;
        [exfalso|reflexivity].
      change (starts_with (str "</p>") (c :: out ++ str "</p>"))
        with ((60 =? c)%N && pmatch (word (str "/p>")) (out ++ str "</p>")) in E.
      apply andb_true_iff in E. destruct E as [E1 E2].
      apply K in E2; [|apply tails_self|discriminate].
      change (pmatch close_p_pat (c :: s))
        with ((60 =? c)%N && pmatch (word (str "/p>")) s) in H1.
      rewrite E1, E2 in H1. discriminate.
  - intros p c w s st' out Hx Hr IH H.
    change (c :: w ++ s) with ((c :: w) ++ s) in H.
    destruct (IH (poccurs_suffix _ _ _ H)) as [K O]. split.
    + intros q Hq Hne E. vm_compute in Hq.
      repeat (destruct Hq as [Hq|Hq]; [subst q; try discriminate E; now elim Hne|]).
      contradiction.
    + rewrite <- app_assoc.
      change (p_alternate (str "</p><p>" ++ ?Z)) with (p_alternate Z). exact O.
Qed.

(** ** The empty paragraphs *)

Lemma Matches_spaces g st st' :
  Matches plain (Star g (Chr is_space)) st st' ->
  exists ws, rest st = ws ++ rest st' /\ spaces plain ws.
Proof.
  intros H. remember (Star g (Chr is_space)) as r eqn:Er. revert Er.
  induction H as [ | | | | | ? ? st | ? ? st1 st2 st3 H1 _ Hl H2 IH2 | | | ];
    intros Er; try discriminate.
  - exists []. split; [reflexivity|constructor].
  - injection Er as -> ->. destruct (IH2 eq_refl) as (ws & E & Hs).
    inversion H1 as [|q pv x s cs Hq| | | | | | | |]; subst.
    exists (x :: ws). cbn [rest] in *. rewrite E. split; [reflexivity|].
    constructor; auto.
Qed.

Lemma pmatch_empty_p ws t :
  spaces plain ws ->
  pmatch empty_p_pat (str "<p>" ++ ws ++ str "</p>" ++ t) = true.
Proof.
  intros H. unfold empty_p_pat.
  rewrite pmatch_word_app, starts_with_app, skipn_exact. cbn [andb pmatch].
  induction H as [|c ws Hc _ IH].
  - apply spaces_then_now. rewrite pmatch_word.
    apply (starts_with_app (str "</p>") t).
  - cbn [app]. rewrite spaces_then_cons. unfold plain in Hc.
    rewrite Hc, IH. apply orb_true_r.
Qed.

Lemma spaces_then_inv (k : jsstring -> bool) s :
  spaces_then k s = true ->
  exists ws t, s = ws ++ t /\ spaces plain ws /\ k t = true.
Proof.
  induction s as [|c s IH]; intros H.
  - simpl in H. rewrite orb_false_r in H. exists [], []. repeat split; auto. constructor.
  - rewrite spaces_then_cons in H. apply orb_true_iff in H. destruct H as [H|H].
    + exists [], (c :: s). repeat split; auto. constructor.
    + apply andb_true_iff in H. destruct H as [H1 H2].
      destruct (IH H2) as (ws & t & E & Hs & Hk).
      exists (c :: ws), t. rewrite E. repeat split; auto. constructor; auto.
Qed.

Lemma pmatch_empty_p_inv s :
  pmatch empty_p_pat s = true ->
  exists ws t, s = str "<p>" ++ ws ++ str "</p>" ++ t /\ spaces plain ws.
Proof.
  unfold empty_p_pat. rewrite pmatch_word_app. intros H.
  apply andb_true_iff in H. destruct H as [H1 H2].
  apply starts_with_inv in H1. cbn [pmatch] in H2.
  apply spaces_then_inv in H2. destruct H2 as (ws & t & E & Hs & Hk).
  rewrite pmatch_word in Hk. apply starts_with_inv in Hk.
  exists ws, (skipn (length (str "</p>")) t). split; [|exact Hs].
  rewrite <- Hk, <- E. exact H1.
Qed.

Lemma exec_empty_p p s st' :
  exec plain re_empty_p p s = Some st' ->
  exists ws, s = str "<p>" ++ ws ++ str "</p>" ++ rest st' /\ spaces plain ws.
Proof.
  intros H. apply exec_sound in H. unfold re_empty_p in H.
  inversion H as [| |? ? ? s1 ? H1 H2| | | | | | |]; subst.
  inversion H2 as [| |? ? ? s2 ? H3 H4| | | | | | |]; subst.
  apply Matches_Lit in H1. destruct H1 as (E1 & _).
  apply Matches_spaces in H3. destruct H3 as (ws & E2 & Hs).
  apply Matches_Lit in H4. destruct H4 as (E3 & _).
  exists ws. cbn [rest] in E1. now rewrite E1, E2, E3.
Qed.

Lemma exec_empty_p_complete p s :
  exec plain re_empty_p p s = None -> pmatch empty_p_pat s = false.
Proof.
  intros H. destruct (pmatch empty_p_pat s) eqn:E; [exfalso|reflexivity].
  apply pmatch_empty_p_inv in E. destruct E as (ws & t & -> & Hs).
  revert H. unfold exec, re_empty_p, L.
  rewrite m_Seq, m_Lit_app. cbn [flat_map]. rewrite app_nil_r.
  rewrite m_Seq. unfold re_spaces.
  rewrite (star_skip_run plain true is_space (m plain (Lit (str "</p>"))) ws).
  - rewrite m_star_chr_stop by reflexivity. cbn [flat_map].
    rewrite m_Lit_app. discriminate.
  - exact Hs.
  - intros u1 c u2 Eu. rewrite m_Lit, map_plain.
    rewrite starts_with_head; [reflexivity|].
    intros <-. rewrite Eu in Hs. apply Forall_app in Hs. destruct Hs as [_ Hs].
    inversion Hs as [|? ? Hc _]. discriminate Hc.
Qed.

Lemma empty_p_removed s :
  p_alternate s = true ->
  poccurs empty_p_pat (replace plain re_empty_p (fun _ => []) s) = false.
Proof.
  unfold replace.
  apply (replace_from_ind plain re_empty_p (fun _ => [])
           (fun _ s out => p_alternate s = true ->
                          keeps empty_p_pat out s /\ poccurs empty_p_pat out = false)).
  - now apply never_empty_zw.
  - intros _ _. split; [intros q _ _ E; exact E|reflexivity].
  - intros p c s0 out Hx IH H.
    apply exec_empty_p_complete in Hx.
    cbn [p_alternate] in H. apply andb_true_iff in H. destruct H as [_ H].
    destruct (IH H) as [K O]. split; [now apply keeps_cons|].
    cbn [poccurs]. rewrite O, orb_false_r.
    destruct (pmatch empty_p_pat (c :: out)) eqn:E; [|reflexivity].
    apply (keeps_cons _ _ _ c K) in E; [congruence|apply tails_self|discriminate].
  - intros p c w s0 st' out Hx Hr IH H.
    destruct (exec_empty_p _ _ _ Hx) as (ws & E & Hs). rewrite Hr in E.
    rewrite E in H. rewrite app_assoc in H.
    pose proof (p_alternate_at _ _ H) as Hn.
    rewrite <- app_assoc in H. rewrite !app_assoc in H.
    apply p_alternate_suffix in H. destruct (IH H) as [K O].
    cbn [app]. split; [|exact O].
    intros q Hq Hne Eq. pose proof (K q Hq Hne Eq) as Es.
    destruct Hn as [->|Hn].
    + exfalso. vm_compute in Hq.
      repeat (destruct Hq as [Hq|Hq]; [subst q; try discriminate Es; now elim Hne|]).
      contradiction.
    + apply starts_with_inv in Hn. rewrite Hn in Es.
      change (str "<p>" ++ ?Z) with (60 :: 112 :: 62 :: Z)%N in Es.
      vm_compute in Hq.
      destruct Hq as [Hq|Hq].
      { subst q. rewrite E. now apply pmatch_empty_p. }
      exfalso.
      repeat (destruct Hq as [Hq|Hq]; [subst q; try discriminate Es; now elim Hne|]).
      contradiction.
Qed.

(** ** The wrappers next to a block element *)

Lemma p_before_cap tag p s st' :
  exec plain (re_p_before tag) p s = Some st' ->
  exists ws st1 st0,
    s = str "<p>" ++ ws ++ consumed st1 st0 ++ rest st'
    /\ spaces plain ws
    /\ Matches plain tag st1 st0 /\ only1 st' = consumed st1 st0.
Proof.
  intros H. apply exec_sound in H. unfold re_p_before in H.
  inversion H as [| |? ? ? s1 ? H1 H2| | | | | | |]; subst.
  inversion H2 as [| |? ? ? s2 ? H3 H4| | | | | | |]; subst.
  inversion H4 as [| | | | | | |? ? ? st0 HR| |]; subst.
  apply Matches_Lit in H1. destruct H1 as (E1 & _).
  apply Matches_spaces in H3. destruct H3 as (ws & E2 & Hs).
  destruct (Matches_suffix plain _ _ _ HR) as (w & E3 & _).
  exists ws, s2, st0. repeat split; auto.
  cbn [rest] in E1. rewrite E1, E2, (consumed_app w s2 st0 E3), E3. reflexivity.
Qed.

Lemma p_after_cap tag p s st' :
  exec plain (re_p_after tag) p s = Some st' ->
  exists ws st1 st0,
    s = consumed st1 st0 ++ ws ++ str "</p>" ++ rest st'
    /\ spaces plain ws
    /\ Matches plain tag st1 st0 /\ only1 st' = consumed st1 st0.
Proof.
  intros H. apply exec_sound in H. unfold re_p_after in H.
  inversion H as [| |? ? ? s1 ? H1 H2| | | | | | |]; subst.
  inversion H1 as [| | | | | | |? ? ? st0 HR| |]; subst.
  pose proof (Matches_no_group plain _ _ _ H2 eq_refl) as Ec.
  inversion H2 as [| |? ? ? s2 ? H3 H4| | | | | | |]; subst.
  apply Matches_spaces in H3. destruct H3 as (ws & E2 & Hs).
  apply Matches_Lit in H4. destruct H4 as (E4 & _).
  destruct (Matches_suffix plain _ _ _ HR) as (w & E3 & _).
  exists ws, (MState p s []), st0. repeat split; auto.
  - rewrite (consumed_app w _ st0 E3). cbn [rest] in E3. rewrite E3.
    unfold set_cap in E2. cbn [rest] in E2. now rewrite E2, E4.
  - unfold only1, cap. rewrite Ec. unfold set_cap.
    cbn [caps get_cap Nat.eqb]. reflexivity.
Qed.

Lemma Matches_Lit_consumed w st st' :
  Matches plain (Lit w) st st' -> consumed st st' = w.
Proof.
  intros H. apply Matches_Lit in H. destruct H as (E & _).
  now apply consumed_app.
Qed.

Lemma Matches_h o st st' :
  Matches plain (L o ;; Chr is_123 ;; L ">")%re st st' ->
  exists d, (d = 49 \/ d = 50 \/ d = 51)%N /\ consumed st st' = str o ++ [d; 62%N].
Proof.
  intros H.
  inversion H as [| |? ? ? s1 ? H1 H2| | | | | | |]; subst.
  inversion H2 as [| |? ? ? s2 ? H3 H4| | | | | | |]; subst.
  apply Matches_Lit in H1. destruct H1 as (E1 & _).
  apply Matches_Lit in H4. destruct H4 as (E4 & _).
  inversion H3 as [|q pv x s cs Hq| | | | | | | |]; subst.
  exists x. split.
  - unfold plain, is_123 in Hq.
    repeat (apply orb_prop in Hq; destruct Hq as [Hq|Hq]);
      apply N.eqb_eq in Hq; auto.
  - apply consumed_app. cbn [rest] in *. rewrite E1, E4, <- app_assoc. reflexivity.
Qed.

Lemma cleanup_keeps_no_empty_p s :
  poccurs empty_p_pat s = false ->
  poccurs empty_p_pat
    (replace plain (re_p_after (L "</ul>")) only1
      (replace plain (re_p_before (L "<ul>")) only1
        (replace plain (re_p_after (L "</pre>")) only1
          (replace plain (re_p_before (L "<pre>")) only1
            (replace plain (re_p_after tag_h_close) only1
              (replace plain (re_p_before tag_h_open) only1 s))))))
  = false.
Proof.
  intros H.
  assert (B : forall w s,
             tag_ok empty_p_pat (str w) ->
             poccurs empty_p_pat s = false ->
             poccurs empty_p_pat (replace plain (re_p_before (L w)) only1 s) = false).
  { intros w s0 Hw. apply replace_tag_absent; [reflexivity|].
    intros p s1 st' Hx. destruct (p_before_cap _ _ _ _ Hx) as (ws & st1 & st0 & _ & _ & HM & ->).
    now rewrite (Matches_Lit_consumed _ _ _ HM). }
  assert (A : forall w s,
             tag_ok empty_p_pat (str w) ->
             poccurs empty_p_pat s = false ->
             poccurs empty_p_pat (replace plain (re_p_after (L w)) only1 s) = false).
  { intros w s0 Hw. apply replace_tag_absent; [apply orb_true_r|].
    intros p s1 st' Hx. destruct (p_after_cap _ _ _ _ Hx) as (ws & st1 & st0 & _ & _ & HM & ->).
    now rewrite (Matches_Lit_consumed _ _ _ HM). }
  apply A; [tag_ok_tac|]. apply B; [tag_ok_tac|].
  apply A; [tag_ok_tac|]. apply B; [tag_ok_tac|].
  apply replace_tag_absent; [reflexivity| |].
  { intros p s1 st' Hx. destruct (p_after_cap _ _ _ _ Hx) as (ws & st1 & st0 & _ & _ & HM & ->).
    destruct (Matches_h _ _ _ HM) as (d & [->|[->| ->]] & ->); tag_ok_tac. }
  apply replace_tag_absent; [reflexivity| |exact H].
  intros p s1 st' Hx. destruct (p_before_cap _ _ _ _ Hx) as (ws & st1 & st0 & _ & _ & HM & ->).
  destruct (Matches_h _ _ _ HM) as (d & [->|[->| ->]] & ->); tag_ok_tac.
Qed.

(** No output holds an empty paragraph. *)
Lemma render_no_empty_p s : has_empty_p (renderMarkdown s) = false.
Proof.
  rewrite has_empty_p_poccurs. unfold renderMarkdown, markup, cleanup.
  apply cleanup_keeps_no_empty_p, empty_p_removed, paragraphs_alternate.
  apply block_stages_absent; [now left|].
  apply (no_lt_absent (str "</p>")); [reflexivity|apply escapeHtml_no_lt].
Qed.

Lemma occurs_empty_p s :
  occurs (str "<p></p>") s = true -> has_empty_p s = true.
Proof.
  induction s as [|c s IH]; intros H.
  - discriminate.
  - cbn [occurs] in H. cbn [has_empty_p].
    apply orb_true_iff in H. destruct H as [H|H].
    + apply starts_with_inv in H. rewrite H. reflexivity.
    + rewrite (IH H). apply orb_true_r.
Qed.

(** ** More on patterns *)

Lemma spaces_then_mono (k k' : jsstring -> bool) s :
  (forall t, k t = true -> k' t = true) ->
  spaces_then k s = true -> spaces_then k' s = true.
Proof.
  intros H. induction s as [|c s IH]; intros E.
  - simpl in *. rewrite orb_false_r in *. auto.
  - rewrite spaces_then_cons in *. apply orb_true_iff in E. destruct E as [E|E].
    + now rewrite (H _ E).
    + apply andb_true_iff in E. destruct E as [E1 E2].
      rewrite E1, (IH E2). apply orb_true_r.
Qed.

Lemma pmatch_prefix q1 q2 : forall s,
  pmatch (q1 ++ q2) s = true -> pmatch q1 s = true.
Proof.
  induction q1 as [|[d|] q1 IH]; intros s H; [reflexivity| |].
  - destruct s as [|c s]; [discriminate|]. simpl in *.
    apply andb_true_iff in H. destruct H as [H1 H2]. rewrite H1. now apply IH.
  - cbn [app pmatch] in *. revert H. apply spaces_then_mono. exact IH.
Qed.

Lemma spaces_then_poccurs pt s :
  spaces_then (pmatch pt) s = true -> poccurs pt s = true.
Proof.
  induction s as [|c s IH]; intros H.
  - simpl in *. now rewrite orb_false_r in *.
  - rewrite spaces_then_cons in H. cbn [poccurs].
    apply orb_true_iff in H. destruct H as [H|H]; [now rewrite H|].
    apply andb_true_iff in H. destruct H as [_ H].
    rewrite (IH H). apply orb_true_r.
Qed.

Lemma tails_app_r {X} (a b q : list X) : In q (tails b) -> In q (tails (a ++ b)).
Proof.
  induction a as [|x a IH]; intros H; [exact H|].
  cbn [app tails]. right. now apply IH.
Qed.

Lemma tails_app_l {X} (b : list X) : forall a x,
  In x (tails a) -> In (x ++ b) (tails (a ++ b)).
Proof.
  induction a as [|y a IH]; intros x H.
  - simpl in H. destruct H as [<-|[]]. apply tails_self.
  - cbn [tails] in H. destruct H as [<-|H]; [apply tails_self|].
    cbn [app tails]. right. now apply IH.
Qed.

Lemma pmatch_two a b ws t :
  spaces plain ws ->
  pmatch (word a ++ None :: word b) (a ++ ws ++ b ++ t) = true.
Proof.
  intros H. rewrite pmatch_word_app, starts_with_app, skipn_exact. cbn [andb pmatch].
  induction H as [|c ws Hc _ IH].
  - apply spaces_then_now. rewrite pmatch_word. apply (starts_with_app b t).
  - cbn [app]. rewrite spaces_then_cons. unfold plain in Hc.
    rewrite Hc, IH. apply orb_true_r.
Qed.

Lemma pmatch_two_inv a b s :
  pmatch (word a ++ None :: word b) s = true ->
  exists ws t, s = a ++ ws ++ b ++ t /\ spaces plain ws.
Proof.
  rewrite pmatch_word_app. intros H.
  apply andb_true_iff in H. destruct H as [H1 H2].
  apply starts_with_inv in H1. cbn [pmatch] in H2.
  apply spaces_then_inv in H2. destruct H2 as (ws & t & E & Hs & Hk).
  rewrite pmatch_word in Hk. apply starts_with_inv in Hk.
  exists ws, (skipn (length b) t). split; [|exact Hs].
  rewrite <- Hk, <- E. exact H1.
Qed.

(** ** The paragraph tags before the clean-up *)

Ltac tails_false Hq Hne E :=
  vm_compute in Hq;
  repeat (destruct Hq as [Hq|Hq];
          [subst; try discriminate E; try reflexivity; now elim Hne|]);
  contradiction.

Lemma paragraphs_no_open_open T :
  poccurs open_p_pat T = false ->
  poccurs (open_pat (str "<p>")) (paragraphs plain plain T) = false.
Proof.
  intros H. unfold paragraphs. rewrite !lits_plain.
  cut (keeps (open_pat (str "<p>"))
         (replace plain re_blank (fun _ => str "</p><p>") T ++ str "</p>") T
       /\ poccurs (open_pat (str "<p>"))
            (replace plain re_blank (fun _ => str "</p><p>") T ++ str "</p>") = false).
  { intros [K O].
    change (poccurs (open_pat (str "<p>")) (str "<p>" ++ ?Z))
      with (pmatch (None :: open_p_pat) Z || poccurs (open_pat (str "<p>")) Z).
    rewrite O, orb_false_r.
    match goal with |- ?b = false => destruct b eqn:E; [|reflexivity] end.
    apply K in E; [|vm_compute; tauto|discriminate].
    apply spaces_then_poccurs in E. congruence. }
  revert H. unfold replace.
  apply (replace_from_ind plain re_blank (fun _ => str "</p><p>")
           (fun _ s out =>
              poccurs open_p_pat s = false ->
              keeps (open_pat (str "<p>")) (out ++ str "</p>") s
              /\ poccurs (open_pat (str "<p>")) (out ++ str "</p>") = false)).
  - now apply never_empty_zw.
  - intros _ _. split; [|reflexivity].
    intros q Hq Hne E. tails_false Hq Hne E.
  - intros p c s out _ IH H.
    pose proof H as H'. cbn [poccurs] in H'. apply orb_false_iff in H'.
    destruct H' as [H1 H2]. destruct (IH H2) as [K O]. split.
    + now apply keeps_cons.
    + cbn [app poccurs]. rewrite O, orb_false_r.
      match goal with |- ?b = false => destruct b eqn:E; [|reflexivity] end.
      apply (keeps_cons _ _ _ c K) in E; [|apply tails_self|discriminate].
      apply (pmatch_prefix open_p_pat) in E. congruence.
  - intros p c w s st' out Hx Hr IH H.
    change (c :: w ++ s) with ((c :: w) ++ s) in H.
    destruct (IH (poccurs_suffix _ _ _ H)) as [K O]. split.
    + intros q Hq Hne E. rewrite <- app_assoc in E. tails_false Hq Hne E.
    + rewrite <- app_assoc.
      change (poccurs (open_pat (str "<p>")) (str "</p><p>" ++ ?Z))
        with (pmatch (None :: open_p_pat) Z || poccurs (open_pat (str "<p>")) Z).
      rewrite O, orb_false_r.
      match goal with |- ?b = false => destruct b eqn:E; [|reflexivity] end.
      apply K in E; [|vm_compute; tauto|discriminate].
      apply spaces_then_poccurs in E.
      apply poccurs_suffix in H. congruence.
Qed.

Lemma alternate_no_close_close s :
  p_alternate s = true -> poccurs (close_pat (str "</p>")) s = false.
Proof.
  induction s as [|c s IH]; intros H; [reflexivity|].
  cbn [p_alternate] in H. apply andb_true_iff in H. destruct H as [H1 H2].
  cbn [poccurs]. rewrite (IH H2), orb_false_r.
  unfold close_pat. rewrite pmatch_word_app.
  destruct (starts_with (str "</p>") (c :: s)) eqn:E; [|reflexivity].
  cbn [andb]. change (length (str "</p>")) with 4.
  destruct (skipn 4 (c :: s)) as [|d t]; [reflexivity|].
  apply starts_with_inv in H1. rewrite H1. reflexivity.
Qed.

(** ** The first clean-up pattern keeps a pattern out *)

Lemma empty_p_pass_absent pt s :
  (forall q, In q (tails pt) -> q <> [] -> pmatch q [] = false) ->
  (forall q, In q (tails pt) -> q <> [] ->
             forall Z, pmatch q (str "<p>" ++ Z) = true ->
                       q = pt \/ forall Z', pmatch q (str "<p>" ++ Z') = true) ->
  p_alternate s = true -> poccurs pt s = false ->
  poccurs pt (replace plain re_empty_p (fun _ => []) s) = false.
Proof.
  intros Hn Hp. unfold replace.
  cut (p_alternate s = true -> poccurs pt s = false ->
       keeps pt (replace_from plain re_empty_p (fun _ => []) 0 None s) s
       /\ poccurs pt (replace_from plain re_empty_p (fun _ => []) 0 None s) = false).
  { intros C H1 H2. now apply C. }
  apply (replace_from_ind plain re_empty_p (fun _ => [])
           (fun _ s out => p_alternate s = true -> poccurs pt s = false ->
                          keeps pt out s /\ poccurs pt out = false)).
  - now apply never_empty_zw.
  - intros _ _ H. split; [intros q _ _ E; exact E|exact H].
  - intros p c s0 out Hx IH Ha H.
    cbn [p_alternate] in Ha. apply andb_true_iff in Ha. destruct Ha as [_ Ha].
    pose proof H as H'. cbn [poccurs] in H'. apply orb_false_iff in H'.
    destruct H' as [H1 H2].
    destruct (IH Ha H2) as [K O]. split; [now apply keeps_cons|].
    cbn [poccurs]. rewrite O, orb_false_r.
    destruct (pmatch pt (c :: out)) eqn:E; [|reflexivity].
    destruct pt as [|x pt]; [discriminate H1|].
    apply (keeps_cons _ _ _ c K) in E; [congruence|apply tails_self|discriminate].
  - intros p c w s0 st' out Hx Hr IH Ha H.
    destruct (exec_empty_p _ _ _ Hx) as (ws & E & Hs). rewrite Hr in E.
    rewrite E in Ha. rewrite app_assoc in Ha.
    pose proof (p_alternate_at _ _ Ha) as Hh.
    rewrite <- app_assoc in Ha. rewrite !app_assoc in Ha.
    apply p_alternate_suffix in Ha.
    change (c :: w ++ s0) with ((c :: w) ++ s0) in H.
    pose proof (poccurs_suffix _ _ _ H) as H0.
    destruct (IH Ha H0) as [K O].
    cbn [app]. split; [|exact O].
    intros q Hq Hne Eq. pose proof (K q Hq Hne Eq) as Es.
    destruct Hh as [->|Hh].
    + rewrite (Hn q Hq Hne) in Es. discriminate.
    + apply starts_with_inv in Hh. rewrite Hh in Es.
      destruct (Hp q Hq Hne _ Es) as [->|Hq'].
      * rewrite <- Hh in Es. apply poccurs_suffix with (u := []) in H0.
        destruct s0; simpl in H0; rewrite Es in H0; discriminate.
      * rewrite E. apply Hq'.
Qed.

(** ** The tags that a clean-up pattern leaves *)

Lemma only1_lit_before w p s st' :
  exec plain (re_p_before (L w)) p s = Some st' ->
  exists ws, s = str "<p>" ++ ws ++ only1 st' ++ rest st'
             /\ spaces plain ws /\ In (only1 st') [str w].
Proof.
  intros Hx. destruct (p_before_cap _ _ _ _ Hx) as (ws & st1 & st0 & E & Hs & HM & ->).
  exists ws. repeat split; auto.
  rewrite (Matches_Lit_consumed _ _ _ HM). now left.
Qed.

Lemma only1_lit_after w p s st' :
  exec plain (re_p_after (L w)) p s = Some st' ->
  exists ws, s = only1 st' ++ ws ++ str "</p>" ++ rest st'
             /\ spaces plain ws /\ In (only1 st') [str w].
Proof.
  intros Hx. destruct (p_after_cap _ _ _ _ Hx) as (ws & st1 & st0 & E & Hs & HM & ->).
  exists ws. repeat split; auto.
  rewrite (Matches_Lit_consumed _ _ _ HM). now left.
Qed.

Lemma only1_h_before p s st' :
  exec plain (re_p_before tag_h_open) p s = Some st' ->
  exists ws, s = str "<p>" ++ ws ++ only1 st' ++ rest st'
             /\ spaces plain ws /\ In (only1 st') h_open_tags.
Proof.
  intros Hx. destruct (p_before_cap _ _ _ _ Hx) as (ws & st1 & st0 & E & Hs & HM & ->).
  exists ws. repeat split; auto.
  destruct (Matches_h _ _ _ HM) as (d & [->|[->| ->]] & ->); vm_compute; tauto.
Qed.

Lemma only1_h_after p s st' :
  exec plain (re_p_after tag_h_close) p s = Some st' ->
  exists ws, s = only1 st' ++ ws ++ str "</p>" ++ rest st'
             /\ spaces plain ws /\ In (only1 st') h_close_tags.
Proof.
  intros Hx. destruct (p_after_cap _ _ _ _ Hx) as (ws & st1 & st0 & E & Hs & HM & ->).
  exists ws. repeat split; auto.
  destruct (Matches_h _ _ _ HM) as (d & [->|[->| ->]] & ->); vm_compute; tauto.
Qed.

Lemma pass_absent pt r tags s :
  never_empty r = true ->
  (forall p s st', exec plain r p s = Some st' -> In (only1 st') tags) ->
  Forall (tag_ok pt) tags ->
  poccurs pt s = false -> poccurs pt (replace plain r only1 s) = false.
Proof.
  intros Hz Hi Ht. apply replace_tag_absent; [exact Hz|].
  intros p s0 st' Hx. rewrite Forall_forall in Ht. apply Ht. now apply (Hi p s0).
Qed.

Lemma never_empty_after tag : never_empty (re_p_after tag) = true.
Proof. apply orb_true_r. Qed.

Lemma h_before_absent pt s :
  Forall (tag_ok pt) h_open_tags ->
  poccurs pt s = false ->
  poccurs pt (replace plain (re_p_before tag_h_open) only1 s) = false.
Proof.
  apply pass_absent; [reflexivity|]. intros p s0 st' Hx.
  now destruct (only1_h_before _ _ _ Hx) as (ws & _ & _ & H).
Qed.

Lemma h_after_absent pt s :
  Forall (tag_ok pt) h_close_tags ->
  poccurs pt s = false ->
  poccurs pt (replace plain (re_p_after tag_h_close) only1 s) = false.
Proof.
  apply pass_absent; [apply never_empty_after|]. intros p s0 st' Hx.
  now destruct (only1_h_after _ _ _ Hx) as (ws & _ & _ & H).
Qed.

Lemma lit_before_absent w pt s :
  Forall (tag_ok pt) [str w] ->
  poccurs pt s = false ->
  poccurs pt (replace plain (re_p_before (L w)) only1 s) = false.
Proof.
  apply pass_absent; [reflexivity|]. intros p s0 st' Hx.
  now destruct (only1_lit_before _ _ _ _ Hx) as (ws & _ & _ & H).
Qed.

Lemma lit_after_absent w pt s :
  Forall (tag_ok pt) [str w] ->
  poccurs pt s = false ->
  poccurs pt (replace plain (re_p_after (L w)) only1 s) = false.
Proof.
  apply pass_absent; [apply never_empty_after|]. intros p s0 st' Hx.
  now destruct (only1_lit_after _ _ _ _ Hx) as (ws & _ & _ & H).
Qed.

(** ** A clean-up pattern finds every wrapper next to its tag *)

Lemma before_complete tag T p s :
  match T with c :: _ => is_space c = false | [] => False end ->
  (forall p Z cs, m plain tag (MState p (T ++ Z) cs) <> []) ->
  (forall p c Z cs, is_space c = true -> m plain tag (MState p (c :: Z) cs) = []) ->
  pmatch (open_pat T) s = true ->
  exec plain (re_p_before tag) p s <> None.
Proof.
  intros HT Hm Hs H. apply pmatch_two_inv in H. destruct H as (ws & t & -> & Hw).
  unfold exec, re_p_before, L.
  rewrite m_Seq, m_Lit_app. cbn [flat_map]. rewrite app_nil_r.
  rewrite m_Seq. unfold re_spaces.
  rewrite (star_skip_run plain true is_space (m plain (Group 1 tag)) ws).
  - rewrite m_star_chr_stop.
    + cbn [flat_map]. rewrite app_nil_r, m_Group.
      specialize (Hm (lastp (lastp p (str "<p>")) ws) t []).
      destruct (m plain tag _); [contradiction|discriminate].
    + destruct T as [|c T]; [contradiction|]. cbn [app]. unfold plain.
      now rewrite HT.
  - exact Hw.
  - intros u1 c u2 Eu. rewrite m_Group, Hs; [reflexivity|].
    rewrite Eu in Hw. apply Forall_app in Hw. destruct Hw as [_ Hw].
    now inversion Hw.
Qed.

Lemma after_complete tag T p s :
  (forall p Z cs, exists p', m plain tag (MState p (T ++ Z) cs) = [MState p' Z cs]) ->
  pmatch (close_pat T) s = true ->
  exec plain (re_p_after tag) p s <> None.
Proof.
  intros Hm H. apply pmatch_two_inv in H. destruct H as (ws & t & -> & Hw).
  unfold exec, re_p_after, L.
  rewrite m_Seq, m_Group. destruct (Hm p (ws ++ str "</p>" ++ t) []) as (p' & ->).
  cbn [map flat_map]. rewrite app_nil_r, set_cap_app.
  rewrite m_Seq. unfold re_spaces.
  rewrite (star_skip_run plain true is_space (m plain (Lit (str "</p>"))) ws).
  - rewrite m_star_chr_stop by reflexivity. cbn [flat_map].
    rewrite m_Lit_app. discriminate.
  - exact Hw.
  - intros u1 c u2 Eu. rewrite m_Lit, map_plain.
    rewrite starts_with_head; [reflexivity|].
    intros <-. rewrite Eu in Hw. apply Forall_app in Hw. destruct Hw as [_ Hw].
    inversion Hw as [|? ? Hc _]. discriminate Hc.
Qed.

Lemma m_lit_tag w p Z cs :
  exists p', m plain (L w) (MState p (str w ++ Z) cs) = [MState p' Z cs].
Proof. unfold L. rewrite m_Lit_app. now eexists. Qed.

Lemma m_lit_space w p c Z cs :
  match str w with d :: _ => is_space d = false | [] => False end ->
  is_space c = true -> m plain (L w) (MState p (c :: Z) cs) = [].
Proof.
  intros Hw Hc. unfold L. rewrite m_Lit, map_plain.
  rewrite starts_with_head; [reflexivity|].
  destruct (str w) as [|d t]; [contradiction|]. intros ->. congruence.
Qed.

Lemma m_h_tag o d p Z cs :
  is_123 d = true ->
  exists p', m plain (L o ;; Chr is_123 ;; L ">")%re
               (MState p (str o ++ [d; 62%N] ++ Z) cs) = [MState p' Z cs].
Proof.
  intros Hd. unfold L. rewrite m_Seq, m_Lit_app. cbn [flat_map app].
  rewrite m_Seq, m_Chr. change (plain d) with d. rewrite Hd. cbn [flat_map].
  rewrite (m_Lit_app (str ">") _ Z). now eexists.
Qed.

Lemma m_h_space o p c Z cs :
  match str o with d :: _ => is_space d = false | [] => False end ->
  is_space c = true ->
  m plain (L o ;; Chr is_123 ;; L ">")%re (MState p (c :: Z) cs) = [].
Proof.
  intros Ho Hc. rewrite m_Seq, (m_lit_space o p c Z cs Ho Hc). reflexivity.
Qed.

(** ** A [<p>] directly before a block tag *)

Lemma keeps_open_nil t : keeps_open t [] [].
Proof. repeat split; auto. intros q _ _ E. exact E. Qed.

Lemma keeps_open_cons t out s c :
  keeps_open t out s -> keeps_open t (c :: out) (c :: s).
Proof.
  intros (K1 & K2 & K3).
  assert (II : pmatch (word t) (c :: out) = true -> pmatch (word t) (c :: s) = true).
  { destruct t as [|t0 T0]; [reflexivity|]. cbn [word map pmatch]. intros H.
    apply andb_true_iff in H. destruct H as [H1 H2]. rewrite H1.
    destruct T0 as [|t1 T1]; [reflexivity|].
    apply K1; [apply tails_self|discriminate|exact H2]. }
  split; [now apply keeps_cons|]. split; [auto|].
  intros x. induction x as [|[d|] x IHx]; intros Hx H.
  - cbn [app pmatch] in *. rewrite !spaces_then_cons in *.
    apply orb_true_iff in H. destruct H as [H|H].
    + left. now rewrite (II H).
    + apply andb_true_iff in H. destruct H as [H1 H2]. rewrite H1.
      destruct (K3 [] Hx H2) as [E|E]; cbn [app pmatch] in E; rewrite E;
        [left|right]; apply orb_true_r.
  - cbn [app pmatch] in *. apply andb_true_iff in H. destruct H as [H1 H2].
    rewrite H1. apply (K3 x); [now apply tails_tl in Hx|exact H2].
  - exfalso. vm_compute in Hx. intuition discriminate.
Qed.

Lemma open_established r tags t0 T0 s :
  never_empty r = true ->
  (forall p s st', exec plain r p s = Some st' ->
       exists ws, s = str "<p>" ++ ws ++ only1 st' ++ rest st'
                  /\ spaces plain ws /\ In (only1 st') tags) ->
  (forall p s, pmatch (open_pat (t0 :: T0)) s = true -> exec plain r p s <> None) ->
  (forall t, In t tags -> t = t0 :: T0 \/ tag_ok (open_pat (t0 :: T0)) t) ->
  (forall q, In q (tails (word T0)) -> q <> [] ->
             forall Z, pmatch q (t0 :: T0 ++ Z) = false) ->
  (forall x, In x (tails (word (str "<p>"))) -> x <> [] ->
             forall Z, pmatch (x ++ None :: word (t0 :: T0)) (t0 :: T0 ++ Z) = false) ->
  (forall Z, poccurs (open_pat (t0 :: T0)) (t0 :: T0 ++ Z)
             = poccurs (open_pat (t0 :: T0)) Z) ->
  poccurs (open_pat (str "<p>")) s = false ->
  poccurs (open_pat (t0 :: T0)) (replace plain r only1 s) = false.
Proof.
  intros Hz Hshape Hcomp Htags HT1 HT2 HT3 H.
  cut (keeps_open (t0 :: T0) (replace plain r only1 s) s
       /\ poccurs (open_pat (t0 :: T0)) (replace plain r only1 s) = false);
    [now intros [_ O]|].
  revert H. unfold replace.
  apply (replace_from_ind plain r only1
           (fun _ s out =>
              poccurs (open_pat (str "<p>")) s = false ->
              keeps_open (t0 :: T0) out s
              /\ poccurs (open_pat (t0 :: T0)) out = false)).
  - now apply never_empty_zw.
  - intros _ _. split; [apply keeps_open_nil|reflexivity].
  - intros p c s0 out Hx IH H.
    pose proof H as H'. cbn [poccurs] in H'. apply orb_false_iff in H'.
    destruct H' as [H1 H2]. destruct (IH H2) as [K O].
    pose proof (keeps_open_cons _ _ _ c K) as Kc. split; [exact Kc|].
    cbn [poccurs]. rewrite O, orb_false_r.
    match goal with |- ?b = false => destruct b eqn:E; [exfalso|reflexivity] end.
    destruct Kc as (_ & _ & K3).
    destruct (K3 (word (str "<p>")) (tails_self _) E) as [E'|E'].
    + now apply (Hcomp p) in E'.
    + change (word (str "<p>") ++ None :: open_pat (t0 :: T0))
        with (open_pat (str "<p>") ++ None :: word (t0 :: T0)) in E'.
      apply pmatch_prefix in E'. congruence.
  - intros p c w s0 st' out Hx Hr IH H.
    destruct (Hshape _ _ _ Hx) as (ws & E & Hs & Hin). rewrite Hr in E.
    change (c :: w ++ s0) with ((c :: w) ++ s0) in H.
    destruct (IH (poccurs_suffix _ _ _ H)) as [K O].
    destruct (Htags _ Hin) as [Et|[O1 O2]].
    + rewrite Et in *. split.
      * split; [|split].
        -- intros q Hq Hne Eq. cbn [app] in Eq. rewrite (HT1 q Hq Hne) in Eq. discriminate.
        -- intros _. right. rewrite E. now apply pmatch_two.
        -- intros [|y x] Hx' Ex.
           ++ right. cbn [app pmatch]. apply spaces_then_now.
              rewrite E. now apply pmatch_two.
           ++ exfalso.
              exact (eq_true_false_abs _ Ex
                       (HT2 (y :: x) Hx' ltac:(discriminate) out)).
      * cbn [app]. now rewrite HT3.
    + split.
      * split; [|split].
        -- intros q Hq Hne Eq. rewrite O2 in Eq; [discriminate| |exact Hne].
           apply tails_app_r. cbn [word map tails]. right. now right.
        -- intros Eq. rewrite O2 in Eq; [discriminate| |discriminate].
           apply tails_app_r. cbn [tails]. right. apply tails_self.
        -- intros x Hx' Ex. rewrite O2 in Ex; [discriminate| |].
           ++ now apply tails_app_l.
           ++ destruct x; discriminate.
      * now rewrite O1.
Qed.

(** ** A [</p>] directly behind a block tag *)

Lemma close_established r tags t0 T0 s :
  never_empty r = true ->
  (forall p s st', exec plain r p s = Some st' ->
       exists ws, s = only1 st' ++ ws ++ str "</p>" ++ rest st'
                  /\ spaces plain ws /\ In (only1 st') tags) ->
  (forall p s, pmatch (close_pat (t0 :: T0)) s = true -> exec plain r p s <> None) ->
  (forall t, In t tags -> t = t0 :: T0 \/ tag_ok (close_pat (t0 :: T0)) t) ->
  (forall q, In q (tails (word T0 ++ None :: word (str "</p>"))) -> q <> [] ->
             forall Z, pmatch q (t0 :: T0 ++ Z) = false) ->
  (forall Z, poccurs (close_pat (t0 :: T0)) (t0 :: T0 ++ Z)
             = pmatch (None :: word (str "</p>")) Z
               || poccurs (close_pat (t0 :: T0)) Z) ->
  poccurs (close_pat (str "</p>")) s = false ->
  poccurs (close_pat (t0 :: T0)) (replace plain r only1 s) = false.
Proof.
  intros Hz Hshape Hcomp Htags HT4 HT5 H.
  cut (keeps (close_pat (t0 :: T0)) (replace plain r only1 s) s
       /\ poccurs (close_pat (t0 :: T0)) (replace plain r only1 s) = false);
    [now intros [_ O]|].
  revert H. unfold replace.
  apply (replace_from_ind plain r only1
           (fun _ s out =>
              poccurs (close_pat (str "</p>")) s = false ->
              keeps (close_pat (t0 :: T0)) out s
              /\ poccurs (close_pat (t0 :: T0)) out = false)).
  - now apply never_empty_zw.
  - intros _ _. split; [intros q _ _ E; exact E|reflexivity].
  - intros p c s0 out Hx IH H.
    pose proof H as H'. cbn [poccurs] in H'. apply orb_false_iff in H'.
    destruct H' as [H1 H2]. destruct (IH H2) as [K O].
    split; [now apply keeps_cons|].
    cbn [poccurs]. rewrite O, orb_false_r.
    match goal with |- ?b = false => destruct b eqn:E; [exfalso|reflexivity] end.
    apply (keeps_cons _ _ _ c K) in E; [|apply tails_self|discriminate].
    now apply (Hcomp p) in E.
  - intros p c w s0 st' out Hx Hr IH H.
    destruct (Hshape _ _ _ Hx) as (ws & E & Hs & Hin). rewrite Hr in E.
    pose proof H as H0.
    change (c :: w ++ s0) with ((c :: w) ++ s0) in H0.
    destruct (IH (poccurs_suffix _ _ _ H0)) as [K O].
    destruct (Htags _ Hin) as [Et|[O1 O2]].
    + rewrite Et in *. split.
      * intros q Hq Hne Eq. cbn [close_pat word map app tails] in Hq.
        destruct Hq as [<-|Hq].
        -- rewrite E. now apply (pmatch_two (t0 :: T0) (str "</p>")).
        -- cbn [app] in Eq. rewrite (HT4 q Hq Hne) in Eq. discriminate.
      * cbn [app]. rewrite HT5, O, orb_false_r.
        match goal with |- ?b = false => destruct b eqn:Eq; [exfalso|reflexivity] end.
        apply K in Eq; [|apply tails_app_r, tails_self|discriminate].
        rewrite E in H. rewrite !app_assoc in H. rewrite <- app_assoc in H.
        apply poccurs_suffix in H.
        change (str "</p>" ++ s0) with (60 :: 47 :: 112 :: 62 :: s0)%N in H.
        cbn [poccurs] in H. apply orb_false_iff in H. destruct H as [H _].
        change (pmatch (close_pat (str "</p>")) (60 :: 47 :: 112 :: 62 :: s0)%N)
          with (pmatch (None :: word (str "</p>")) s0) in H.
        congruence.
    + split.
      * intros q Hq Hne Eq. now rewrite O2 in Eq.
      * now rewrite O1.
Qed.

(** ** The six patterns around the block tags *)

Ltac tails_tac :=
  let q := fresh "q" in let Hq := fresh "Hq" in let Hne := fresh "Hne" in
  intros q Hq Hne; vm_compute in Hq;
  repeat (destruct Hq as [Hq|Hq]; [subst q; try (intros; reflexivity); now elim Hne|]);
  contradiction.

Ltac tags_ok :=
  unfold h_open_tags, h_close_tags; cbn [map];
  repeat (apply Forall_cons; [tag_ok_tac|]); apply Forall_nil.

Ltac own_or_ok :=
  let t := fresh "t" in let Ht := fresh "Ht" in
  intros t Ht; vm_compute in Ht;
  repeat (destruct Ht as [Ht|Ht];
          [subst t; first [left; reflexivity|right; tag_ok_tac]|]);
  contradiction.

Lemma open_h_established d s :
  (d = 49 \/ d = 50 \/ d = 51)%N ->
  poccurs (open_pat (str "<p>")) s = false ->
  poccurs (open_pat (str "<h" ++ [d; 62%N]))
    (replace plain (re_p_before tag_h_open) only1 s) = false.
Proof.
  intros Hd.
  assert (C : forall p s, pmatch (open_pat (str "<h" ++ [d; 62%N])) s = true ->
                          exec plain (re_p_before tag_h_open) p s <> None).
  { intros p s0. apply before_complete; [reflexivity| |].
    - intros p0 Z cs F.
      assert (I : is_123 d = true) by (destruct Hd as [->|[->| ->]]; reflexivity).
      destruct (m_h_tag "<h" d p0 Z cs I) as (p' & E).
      exact (nil_cons (eq_trans (eq_sym F) E)).
    - intros p0 c Z cs Hc. now apply (m_h_space "<h"). }
  revert C. destruct Hd as [->|[->| ->]]; intros C;
    (apply (open_established (re_p_before tag_h_open) h_open_tags 60%N);
     [reflexivity
     |intros p s0 st'; apply only1_h_before
     |exact C
     |own_or_ok
     |tails_tac
     |tails_tac
     |intros Z; reflexivity]).
Qed.

Lemma open_lit_established w s :
  w = "<pre>"%string \/ w = "<ul>"%string ->
  poccurs (open_pat (str "<p>")) s = false ->
  poccurs (open_pat (str w)) (replace plain (re_p_before (L w)) only1 s) = false.
Proof.
  intros Hw.
  assert (C : forall p s, pmatch (open_pat (str w)) s = true ->
                          exec plain (re_p_before (L w)) p s <> None).
  { intros p s0. apply before_complete.
    - destruct Hw as [-> | ->]; reflexivity.
    - intros p0 Z cs F. destruct (m_lit_tag w p0 Z cs) as (p' & E).
      exact (nil_cons (eq_trans (eq_sym F) E)).
    - intros p0 c Z cs Hc. apply m_lit_space; [|exact Hc].
      destruct Hw as [-> | ->]; reflexivity. }
  revert C. destruct Hw as [-> | ->]; intros C.
  - apply (open_established (re_p_before (L "<pre>")) [str "<pre>"] 60%N);
     [reflexivity
     |intros p s0 st'; apply only1_lit_before
     |exact C
     |own_or_ok
     |tails_tac
     |tails_tac
     |intros Z; reflexivity].
  - apply (open_established (re_p_before (L "<ul>")) [str "<ul>"] 60%N);
     [reflexivity
     |intros p s0 st'; apply only1_lit_before
     |exact C
     |own_or_ok
     |tails_tac
     |tails_tac
     |intros Z; reflexivity].
Qed.

Lemma close_h_established d s :
  (d = 49 \/ d = 50 \/ d = 51)%N ->
  poccurs (close_pat (str "</p>")) s = false ->
  poccurs (close_pat (str "</h" ++ [d; 62%N]))
    (replace plain (re_p_after tag_h_close) only1 s) = false.
Proof.
  intros Hd.
  assert (C : forall p s, pmatch (close_pat (str "</h" ++ [d; 62%N])) s = true ->
                          exec plain (re_p_after tag_h_close) p s <> None).
  { intros p s0. apply after_complete. intros p0 Z cs.
    assert (I : is_123 d = true) by (destruct Hd as [->|[->| ->]]; reflexivity).
    destruct (m_h_tag "</h" d p0 Z cs I) as (p' & E). exists p'.
    rewrite <- E. now rewrite <- app_assoc. }
  revert C. destruct Hd as [->|[->| ->]]; intros C;
    (apply (close_established (re_p_after tag_h_close) h_close_tags 60%N);
     [apply never_empty_after
     |intros p s0 st'; apply only1_h_after
     |exact C
     |own_or_ok
     |tails_tac
     |intros Z; reflexivity]).
Qed.

Lemma close_lit_established w s :
  w = "</pre>"%string \/ w = "</ul>"%string ->
  poccurs (close_pat (str "</p>")) s = false ->
  poccurs (close_pat (str w)) (replace plain (re_p_after (L w)) only1 s) = false.
Proof.
  intros Hw.
  assert (C : forall p s, pmatch (close_pat (str w)) s = true ->
                          exec plain (re_p_after (L w)) p s <> None).
  { intros p s0. apply after_complete. intros p0 Z cs. apply m_lit_tag. }
  revert C. destruct Hw as [-> | ->]; intros C.
  - apply (close_established (re_p_after (L "</pre>")) [str "</pre>"] 60%N);
     [apply never_empty_after
     |intros p s0 st'; apply only1_lit_after
     |exact C
     |own_or_ok
     |tails_tac
     |intros Z; reflexivity].
  - apply (close_established (re_p_after (L "</ul>")) [str "</ul>"] 60%N);
     [apply never_empty_after
     |intros p s0 st'; apply only1_lit_after
     |exact C
     |own_or_ok
     |tails_tac
     |intros Z; reflexivity].
Qed.

Ltac keep_pass :=
  first [apply h_before_absent | apply h_after_absent
        | apply lit_before_absent | apply lit_after_absent];
  [tags_ok|].

Lemma empty_p_pass_open_open s :
  p_alternate s = true ->
  poccurs (open_pat (str "<p>")) s = false ->
  poccurs (open_pat (str "<p>")) (replace plain re_empty_p (fun _ => []) s) = false.
Proof.
  apply empty_p_pass_absent.
  - tails_tac.
  - intros q Hq Hne Z E. vm_compute in Hq.
    repeat (destruct Hq as [Hq|Hq];
            [subst q;
             first [left; reflexivity|right; intros; reflexivity|discriminate E]|]).
    contradiction.
Qed.

Lemma empty_p_pass_close_close s :
  p_alternate s = true ->
  poccurs (close_pat (str "</p>")) s = false ->
  poccurs (close_pat (str "</p>")) (replace plain re_empty_p (fun _ => []) s) = false.
Proof.
  apply empty_p_pass_absent.
  - tails_tac.
  - intros q Hq Hne Z E. vm_compute in Hq.
    repeat (destruct Hq as [Hq|Hq];
            [subst q;
             first [left; reflexivity|right; intros; reflexivity|discriminate E]|]).
    contradiction.
Qed.

(** After the clean-up no [<p>] stands directly before a block tag, and
    no [</p>] directly behind the end of a block. *)
Lemma cleanup_adjacent s :
  p_alternate s = true ->
  poccurs (open_pat (str "<p>")) s = false ->
  (forall t, In t block_tags -> poccurs (open_pat t) (cleanup plain s) = false)
  /\ (forall t, In t block_close_tags ->
                poccurs (close_pat t) (cleanup plain s) = false).
Proof.
  intros Ha Hpp. pose proof (alternate_no_close_close _ Ha) as Hqq.
  pose proof (empty_p_pass_open_open _ Ha Hpp) as P1.
  pose proof (empty_p_pass_close_close _ Ha Hqq) as Q1.
  unfold cleanup. revert P1 Q1.
  generalize (replace plain re_empty_p (fun _ => []) s). intros s1 P1 Q1.
  split; intros t Ht; unfold block_tags, block_close_tags in Ht; cbn [map In] in Ht.
  - destruct Ht as [<-|[<-|[<-|[<-|[<-|[]]]]]].
    + do 5 keep_pass. apply (open_h_established 49%N); [tauto|exact P1].
    + do 5 keep_pass. apply (open_h_established 50%N); [tauto|exact P1].
    + do 5 keep_pass. apply (open_h_established 51%N); [tauto|exact P1].
    + do 3 keep_pass. apply (open_lit_established "<pre>"); [tauto|].
      do 2 keep_pass. exact P1.
    + do 1 keep_pass. apply (open_lit_established "<ul>"); [tauto|].
      do 4 keep_pass. exact P1.
  - destruct Ht as [<-|[<-|[<-|[<-|[<-|[]]]]]].
    + do 4 keep_pass. apply (close_h_established 49%N); [tauto|].
      do 1 keep_pass. exact Q1.
    + do 4 keep_pass. apply (close_h_established 50%N); [tauto|].
      do 1 keep_pass. exact Q1.
    + do 4 keep_pass. apply (close_h_established 51%N); [tauto|].
      do 1 keep_pass. exact Q1.
    + do 2 keep_pass. apply (close_lit_established "</pre>"); [tauto|].
      do 3 keep_pass. exact Q1.
    + apply (close_lit_established "</ul>"); [tauto|].
      do 5 keep_pass. exact Q1.
Qed.

(** No output holds a [<p>] directly before a block tag or a [</p>]
    directly behind the end of a block. *)
Lemma render_adjacent s :
  (forall t, In t block_tags -> poccurs (open_pat t) (renderMarkdown s) = false)
  /\ (forall t, In t block_close_tags ->
                poccurs (close_pat t) (renderMarkdown s) = false).
Proof.
  unfold renderMarkdown, markup.
  assert (N : forall pt, pt = close_p_pat \/ pt = open_p_pat ->
                         poccurs pt (escapeHtml s) = false).
  { intros pt [-> | ->].
    - apply (no_lt_absent (str "</p>")); [reflexivity|apply escapeHtml_no_lt].
    - apply (no_lt_absent (str "<p>")); [reflexivity|apply escapeHtml_no_lt]. }
  apply cleanup_adjacent.
  - apply paragraphs_alternate, block_stages_absent; auto.
  - apply paragraphs_no_open_open, block_stages_absent; auto.
Qed.

(** ** The clean-up of the paragraphs (C5) *)

(** C5, as the specification states it, fails: a block element in the
    middle of a paragraph's text stays inside the [<p>].  The input is
    the three lines [a], [# T], [b]. *)
Lemma block_stays_inside_paragraph :
  renderMarkdown (unlines [str "a"; str "# T"; str "b"])
  = unlines [str "<p>a"; str "<h1>T</h1>"; str "b</p>"]
  /\ block_in_p false (renderMarkdown (unlines [str "a"; str "# T"; str "b"])) = true.
Proof. split; vm_compute; reflexivity. Qed.

(** C5, amended: for any input string, the output of the renderer never
    contains an empty paragraph, that is [<p>], white space or nothing,
    [</p>] (and so never the text [<p></p>]); it never contains a [<p>]
    that stands directly, or after white space only, before one of the
    block tags [<h1>], [<h2>], [<h3>], [<pre>], [<ul>], and never a
    [</p>] that stands directly, or after white space only, behind one
    of [</h1>], [</h2>], [</h3>], [</pre>], [</ul>].  A block element
    that has other text between it and the paragraph tags stays inside
    the [<p>]. *)
Theorem paragraph_cleanup :
  (forall s, has_empty_p (renderMarkdown s) = false)
  /\ (forall s, occurs (str "<p></p>") (renderMarkdown s) = false)
  /\ (forall s, Forall (fun t => poccurs (open_pat t) (renderMarkdown s) = false)
                  block_tags)
  /\ (forall s, Forall (fun t => poccurs (close_pat t) (renderMarkdown s) = false)
                  block_close_tags).
Proof.
  split; [exact render_no_empty_p|]. split; [|split].
  - intros s. destruct (occurs (str "<p></p>") (renderMarkdown s)) eqn:E; [|reflexivity].
    apply occurs_empty_p in E. now rewrite render_no_empty_p in E.
  - intros s. apply Forall_forall. apply (proj1 (render_adjacent s)).
  - intros s. apply Forall_forall. apply (proj2 (render_adjacent s)).
Qed.

(** ** The header stage, line by line *)

Lemma is_dot_mid c : is_dot c = true -> mid_line (Some c).
Proof. intros H. unfold is_dot in H. now apply negb_true_iff in H. Qed.

Lemma lastp_mid (p : option cu) l :
  line l -> l <> [] -> mid_line (lastp p l).
Proof.
  intros Hl. revert p. induction Hl as [|c l Hc Hl IH]; intros p Hn; [contradiction|].
  rewrite lastp_cons. destruct l as [|d l]; [now apply is_dot_mid|].
  apply IH. discriminate.
Qed.
















(** ** The lines of the input under the header stage *)

(** A pattern finds nothing in a subject none of whose characters can
    begin a match. *)
Lemma replace_no_start r tpl :
  never_empty r = true ->
  forall s p, (forall pv c, In c s -> can_match r (pv, Some c) = false) ->
              replace_from plain r tpl 0 p s = s.
Proof.
  intros Hz. induction s as [|c s IH]; intros p H.
  - now apply replace_from_nil.
  - rewrite replace_from_none.
    + f_equal. apply IH. intros pv d Hd. apply H. now right.
    + apply exec_none. apply H. now left.
Qed.







(** ** Objects as look-up tables *)

Lemma jsstring_eqb_eq a : forall b, jsstring_eqb a b = true <-> a = b.
Proof.
  induction a as [|x a IH]; intros [|y b]; simpl; split; intros H;
    try discriminate; try reflexivity.
  - apply andb_true_iff in H. destruct H as [H1 H2].
    apply N.eqb_eq in H1. apply IH in H2. congruence.
  - injection H as -> ->. rewrite N.eqb_refl. now apply IH.
Qed.

Lemma jsstring_eqb_refl a : jsstring_eqb a a = true.
Proof. now apply jsstring_eqb_eq. Qed.

Lemma jsstring_eqb_neq a b : a <> b -> jsstring_eqb a b = false.
Proof.
  intros H. destruct (jsstring_eqb a b) eqn:E; [|reflexivity].
  apply jsstring_eqb_eq in E. contradiction.
Qed.

Lemma own_set_own_same o k v : own_property (set_own o k v) k = Some v.
Proof.
  induction o as [|[k' v'] o IH]; simpl.
  - now rewrite jsstring_eqb_refl.
  - destruct (jsstring_eqb k k') eqn:E; simpl; rewrite E; [reflexivity|exact IH].
Qed.

Lemma own_set_own_other o k v w :
  w <> k -> own_property (set_own o k v) w = own_property o w.
Proof.
  intros H. induction o as [|[k' v'] o IH]; simpl.
  - now rewrite (jsstring_eqb_neq w k).
  - destruct (jsstring_eqb k k') eqn:E; simpl.
    + apply jsstring_eqb_eq in E. subst k'. now rewrite (jsstring_eqb_neq w k).
    + now rewrite IH.
Qed.

Lemma get_set_other o k v w :
  w <> k -> get_property (set_property o k v) w = get_property o w.
Proof.
  intros H. unfold get_property, set_property.
  destruct (jsstring_eqb k (str "__proto__")); [reflexivity|].
  now rewrite own_set_own_other.
Qed.

Lemma inherited_in k : inherited k = true <-> In k object_prototype_keys.
Proof.
  unfold inherited. rewrite existsb_exists. split.
  - intros (x & Hx & E). apply jsstring_eqb_eq in E. now subst.
  - intros H. exists k. split; [exact H|apply jsstring_eqb_refl].
Qed.

Lemma nth_color_in n : In (nth (n mod length USER_COLORS) USER_COLORS []) USER_COLORS.
Proof. apply nth_In. apply Nat.mod_upper_bound. discriminate. Qed.

Lemma color_nonempty c : In c USER_COLORS -> c <> [].
Proof.
  intros H. vm_compute in H.
  repeat (destruct H as [<-|H]; [discriminate|]). contradiction.
Qed.

(** ** [colorForUser] *)

(** Once a name has a truthy entry, a call for any name leaves it. *)
Lemma colorForUser_keeps m u w :
  to_boolean (get_property m w) = true ->
  get_property (snd (colorForUser m u)) w = get_property m w.
Proof.
  intros H. unfold colorForUser. cbn [snd].
  destruct (to_boolean (get_property m u)) eqn:E; [reflexivity|]. cbn [negb].
  apply get_set_other. intros ->. congruence.
Qed.

(** No own property is named [__proto__]: true of [{}] and kept by
    every assignment. *)
Lemma set_property_no_proto o k v :
  own_property o (str "__proto__") = None ->
  own_property (set_property o k v) (str "__proto__") = None.
Proof.
  intros H. unfold set_property.
  destruct (jsstring_eqb k (str "__proto__")) eqn:P; [exact H|].
  rewrite own_set_own_other; [exact H|].
  intros E. rewrite <- E, jsstring_eqb_refl in P. discriminate.
Qed.

Lemma colorForUser_no_proto m u :
  own_property m (str "__proto__") = None ->
  own_property (snd (colorForUser m u)) (str "__proto__") = None.
Proof.
  intros H. unfold colorForUser. cbn [snd].
  destruct (negb (to_boolean (get_property m u))); [|exact H].
  now apply set_property_no_proto.
Qed.

Lemma color_calls_no_proto us : forall m,
  own_property m (str "__proto__") = None ->
  own_property (color_calls m us) (str "__proto__") = None.
Proof.
  induction us as [|u us IH]; intros m H; [exact H|].
  cbn [color_calls fold_left]. fold (color_calls (snd (colorForUser m u)) us).
  now apply IH, colorForUser_no_proto.
Qed.

(** After the call the name has a truthy entry, the value returned. *)
Lemma colorForUser_truthy m u :
  own_property m (str "__proto__") = None ->
  to_boolean (fst (colorForUser m u)) = true
  /\ get_property (snd (colorForUser m u)) u = fst (colorForUser m u).
Proof.
  intros W. unfold colorForUser. cbn [fst snd]. split; [|reflexivity].
  destruct (to_boolean (get_property m u)) eqn:E; [exact E|]. cbn [negb].
  unfold get_property, set_property in *.
  destruct (jsstring_eqb u (str "__proto__")) eqn:P.
  - apply jsstring_eqb_eq in P. subst u. rewrite W in E. discriminate E.
  - rewrite own_set_own_same.
    pose proof (color_nonempty _ (nth_color_in (length (keys m)))) as N.
    destruct (nth _ USER_COLORS []); [contradiction|reflexivity].
Qed.

Lemma color_calls_keeps us : forall m w,
  to_boolean (get_property m w) = true ->
  get_property (color_calls m us) w = get_property m w.
Proof.
  induction us as [|u us IH]; intros m w H; [reflexivity|].
  cbn [color_calls fold_left]. fold (color_calls (snd (colorForUser m u)) us).
  rewrite IH; rewrite colorForUser_keeps; auto.
Qed.

Lemma colorForUser_fst m u :
  to_boolean (get_property m u) = true -> fst (colorForUser m u) = get_property m u.
Proof. intros H. unfold colorForUser. cbn [fst]. now rewrite H. Qed.

Lemma colorForUser_sticky m u ws :
  own_property m (str "__proto__") = None ->
  fst (colorForUser (color_calls (snd (colorForUser m u)) ws) u)
  = fst (colorForUser m u).
Proof.
  intros W. destruct (colorForUser_truthy m u W) as [T E].
  rewrite colorForUser_fst; rewrite color_calls_keeps; rewrite E; auto.
Qed.

Lemma colorForUser_other m u w :
  w <> u -> get_property (snd (colorForUser m u)) w = get_property m w.
Proof.
  intros H. unfold colorForUser. cbn [snd].
  destruct (negb (to_boolean (get_property m u))); [|reflexivity].
  now apply get_set_other.
Qed.

(** The names of [Object.prototype] never become own properties. *)
Lemma colorForUser_no_inherited m u :
  (forall k, inherited k = true -> own_property m k = None) ->
  forall k, inherited k = true -> own_property (snd (colorForUser m u)) k = None.
Proof.
  intros I k Hk. unfold colorForUser. cbn [snd].
  destruct (to_boolean (get_property m u)) eqn:E; [now apply I|]. cbn [negb].
  assert (Hu : inherited u = false).
  { destruct (inherited u) eqn:Hu; [|reflexivity].
    unfold get_property in E. rewrite (I u Hu), Hu in E. discriminate. }
  unfold set_property. destruct (jsstring_eqb u (str "__proto__")); [now apply I|].
  rewrite own_set_own_other; [now apply I|]. intros ->. congruence.
Qed.

Lemma color_calls_no_inherited us : forall m,
  (forall k, inherited k = true -> own_property m k = None) ->
  forall k, inherited k = true -> own_property (color_calls m us) k = None.
Proof.
  induction us as [|u us IH]; intros m I; [exact I|].
  cbn [color_calls fold_left]. fold (color_calls (snd (colorForUser m u)) us).
  apply IH. now apply colorForUser_no_inherited.
Qed.

Lemma set_own_values (Q : jsstring -> Prop) o k v :
  Forall (fun kv => Q (snd kv)) o -> Q v ->
  Forall (fun kv => Q (snd kv)) (set_own o k v).
Proof.
  intros H Hv. induction H as [|[k' v'] o Hkv Ho IH]; simpl.
  - repeat constructor. exact Hv.
  - destruct (jsstring_eqb k k'); constructor; auto.
Qed.

Lemma colorForUser_values m u :
  Forall (fun kv => In (snd kv) USER_COLORS) m ->
  Forall (fun kv => In (snd kv) USER_COLORS) (snd (colorForUser m u)).
Proof.
  intros H. unfold colorForUser. cbn [snd].
  destruct (negb (to_boolean (get_property m u))); [|exact H].
  unfold set_property. destruct (jsstring_eqb u (str "__proto__")); [exact H|].
  apply (set_own_values (fun v => In v USER_COLORS)); [exact H|apply nth_color_in].
Qed.

Lemma color_calls_values us : forall m,
  Forall (fun kv => In (snd kv) USER_COLORS) m ->
  Forall (fun kv => In (snd kv) USER_COLORS) (color_calls m us).
Proof.
  induction us as [|u us IH]; intros m H; [exact H|].
  cbn [color_calls fold_left]. fold (color_calls (snd (colorForUser m u)) us).
  now apply IH, colorForUser_values.
Qed.

Lemma own_property_value (Q : jsstring -> Prop) o k v :
  Forall (fun kv => Q (snd kv)) o -> own_property o k = Some v -> Q v.
Proof.
  induction 1 as [|[k' v'] o Hkv Ho IH]; simpl; [discriminate|].
  destruct (jsstring_eqb k k'); [|exact IH]. intros E. injection E as <-. exact Hkv.
Qed.

(** ** The colours in turn *)

Lemma own_property_fresh o k : ~ In k (keys o) -> own_property o k = None.
Proof.
  induction o as [|[k' v'] o IH]; intros H; [reflexivity|]. simpl in *.
  rewrite jsstring_eqb_neq by (intros ->; tauto). apply IH. tauto.
Qed.

Lemma set_own_fresh o k v : ~ In k (keys o) -> set_own o k v = o ++ [(k, v)].
Proof.
  induction o as [|[k' v'] o IH]; intros H; [reflexivity|]. simpl in *.
  rewrite jsstring_eqb_neq by (intros ->; tauto). rewrite IH; tauto.
Qed.

Lemma inherited_proto : inherited (str "__proto__") = true.
Proof. reflexivity. Qed.

Lemma colorForUser_fresh m u :
  ~ In u (keys m) -> inherited u = false ->
  snd (colorForUser m u)
  = m ++ [(u, nth (length m mod length USER_COLORS) USER_COLORS [])].
Proof.
  intros Hk Hu. unfold colorForUser. cbn [snd].
  unfold get_property. rewrite (own_property_fresh _ _ Hk), Hu. cbn [to_boolean negb].
  unfold set_property.
  rewrite jsstring_eqb_neq by (intros ->; rewrite inherited_proto in Hu; discriminate).
  unfold keys. rewrite length_map. now apply set_own_fresh.
Qed.

Lemma color_calls_fresh us : forall m,
  NoDup (keys m ++ us) -> Forall (fun u => inherited u = false) us ->
  color_calls m us = m ++ in_turn (length m) us.
Proof.
  induction us as [|u us IH]; intros m Hn Hu.
  - simpl. now rewrite app_nil_r.
  - inversion Hu as [|? ? Hu1 Hu2]; subst.
    cbn [color_calls fold_left]. fold (color_calls (snd (colorForUser m u)) us).
    rewrite colorForUser_fresh; [|intros Hin|exact Hu1].
    + rewrite IH; [|unfold keys in *; rewrite map_app, <- app_assoc; exact Hn|exact Hu2].
      rewrite length_app, Nat.add_1_r, <- app_assoc. reflexivity.
    + apply NoDup_remove_2 in Hn. apply Hn. apply in_or_app. now left.
Qed.

Lemma own_property_in_turn us : forall n i,
  NoDup us -> i < length us ->
  own_property (in_turn n us) (nth i us [])
  = Some (nth ((n + i) mod length USER_COLORS) USER_COLORS []).
Proof.
  induction us as [|u us IH]; intros n i Hn Hi; [simpl in Hi; lia|].
  inversion Hn as [|? ? Hu Hn']; subst. cbn [in_turn own_property].
  destruct i as [|i].
  - cbn [nth]. now rewrite jsstring_eqb_refl, Nat.add_0_r.
  - cbn [nth]. rewrite jsstring_eqb_neq.
    + rewrite IH; [|exact Hn'|simpl in Hi; lia]. now rewrite Nat.add_succ_r.
    + intros E. apply Hu. rewrite <- E. apply nth_In. simpl in Hi. lia.
Qed.

(** The [i]-th new user gets the colour number [i mod 8]. *)
Lemma colorForUser_in_turn us i :
  NoDup us -> Forall (fun u => inherited u = false) us -> i < length us ->
  fst (colorForUser (color_calls [] us) (nth i us []))
  = VString (nth (i mod length USER_COLORS) USER_COLORS []).
Proof.
  intros Hn Hu Hi. rewrite color_calls_fresh by assumption. cbn [app length].
  assert (G : get_property (in_turn 0 us) (nth i us [])
              = VString (nth (i mod length USER_COLORS) USER_COLORS [])).
  { unfold get_property. now rewrite own_property_in_turn. }
  rewrite colorForUser_fst; rewrite G; [reflexivity|].
  pose proof (color_nonempty _ (nth_color_in i)) as N.
  cbn [to_boolean]. destruct (nth _ USER_COLORS []); [contradiction|reflexivity].
Qed.

Lemma USER_COLORS_NoDup : NoDup USER_COLORS.
Proof.
  vm_compute. repeat (constructor; [simpl; intuition discriminate|]). constructor.
Qed.

(** ** [fileIcon] *)

Lemma split_no_sep c e : ~ In c e -> split c e = [e].
Proof.
  induction e as [|x e IH]; intros H; [reflexivity|]. simpl in *.
  rewrite (proj2 (N.eqb_neq x c)) by (intros ->; tauto).
  rewrite IH; tauto.
Qed.

Lemma split_nonempty c s : split c s <> [].
Proof.
  destruct s as [|x s]; simpl; [discriminate|].
  destruct (x =? c)%N; [discriminate|]. destruct (split c s); discriminate.
Qed.

Lemma split_two c s : In c s -> exists h h2 t, split c s = h :: h2 :: t.
Proof.
  induction s as [|x s IH]; intros H; [contradiction|]. simpl.
  destruct (N.eqb_spec x c) as [->|Hx].
  - destruct (split c s) as [|h t] eqn:E.
    + now apply split_nonempty in E.
    + now exists [], h, t.
  - destruct H as [H|H]; [congruence|].
    destruct (IH H) as (h & h2 & t & ->). now exists (x :: h), h2, t.
Qed.

Lemma pop_split_cons c x s : In c s -> pop (split c (x :: s)) = pop (split c s).
Proof.
  intros H. destruct (split_two c s H) as (h & h2 & t & E). unfold pop. simpl.
  rewrite E. destruct (x =? c)%N; reflexivity.
Qed.

Lemma pop_split_app c a e : ~ In c e -> pop (split c (a ++ c :: e)) = e.
Proof.
  intros H. induction a as [|x a IH].
  - unfold pop. simpl. rewrite N.eqb_refl, (split_no_sep c e H). reflexivity.
  - cbn [app]. rewrite pop_split_cons; [exact IH|].
    apply in_or_app. right. now left.
Qed.

Lemma pop_split_no_sep c e : ~ In c e -> pop (split c e) = e.
Proof. intros H. now rewrite split_no_sep. Qed.

Lemma fileIcon_ext lc a e :
  ~ In 46%N e -> fileIcon lc (a ++ 46%N :: e) = fileIcon lc e.
Proof.
  intros H. unfold fileIcon. now rewrite pop_split_app, pop_split_no_sep.
Qed.

Lemma get_icons_cases k :
  (exists i, In i (map snd icons) /\ get_property icons k = VString i)
  \/ (In k object_prototype_keys /\ get_property icons k = VInherited k)
  \/ get_property icons k = VUndefined.
Proof.
  unfold get_property. destruct (own_property icons k) as [v|] eqn:E.
  - left. exists v. split; [|reflexivity].
    revert E. unfold icons. cbn [own_property].
    repeat (match goal with |- context [jsstring_eqb k ?x] =>
              destruct (jsstring_eqb k x); [intros E; injection E as <-; vm_compute; tauto|]
            end).
    discriminate.
  - destruct (inherited k) eqn:I; [|now right; right].
    right; left. split; [now apply inherited_in|reflexivity].
Qed.

Lemma fileIcon_cases lc f :
  (exists i, In i (paperclip :: map snd icons) /\ fileIcon lc f = VString i)
  \/ (exists k, In k object_prototype_keys /\ fileIcon lc f = VInherited k).
Proof.
  unfold fileIcon.
  destruct (get_icons_cases (lc (pop (split 46%N f)))) as [(i & Hi & ->)|[[Hk ->]| ->]].
  - left. cbn [to_boolean]. destruct i as [|x i].
    + exists paperclip. split; [now left|reflexivity].
    + exists (x :: i). split; [now right|reflexivity].
  - right. eexists. split; [exact Hk|reflexivity].
  - left. exists paperclip. split; [now left|reflexivity].
Qed.

(** ** The request of [sendMessage] *)

Lemma trim_nil_iff s : trim plain s = [] <-> spaces plain s.
Proof.
  split.
  - intros E. destruct (trim_split plain s) as (l & r & Es & Hl & Hr).
    rewrite E in Es. rewrite Es. apply Forall_app. now split.
  - intros H. unfold trim.
    rewrite <- (app_nil_r s), (trim_start_spaces plain s [] H). reflexivity.
Qed.

Lemma is_empty_iff s : is_empty s = true <-> s = [].
Proof. destruct s; simpl; split; intros; congruence. Qed.

(** ** The colour of a user ([colorForUser]) *)

(** X1.  [colorForUser] is stable: in a map that started empty, the
    value a call returns for a user is the value every later call
    returns for that user, whatever calls for other users come in
    between; and a call for one user never changes what the map holds
    for another. *)
Theorem colorForUser_stable :
  (forall us u ws,
      fst (colorForUser (color_calls (snd (colorForUser (color_calls [] us) u)) ws) u)
      = fst (colorForUser (color_calls [] us) u))
  /\ (forall m u w, w <> u ->
                    get_property (snd (colorForUser m u)) w = get_property m w).
Proof.
  split.
  - intros us u ws. apply colorForUser_sticky.
    now apply color_calls_no_proto.
  - exact colorForUser_other.
Qed.

Lemma colorForUser_stable_witness :
  str "bob" <> str "alice"
  /\ get_property (snd (colorForUser [(str "bob", str "#e94560")] (str "alice")))
                  (str "bob")
     = get_property [(str "bob", str "#e94560")] (str "bob").
Proof.
  assert (H : str "bob" <> str "alice") by discriminate.
  split; [exact H|].
  exact (proj2 colorForUser_stable [(str "bob", str "#e94560")] (str "alice")
               (str "bob") H).
Defined.

(** X2.  The colours are handed out in turn: when the users [us], all
    different and none of them a property name of [Object.prototype],
    have been seen in this order, user number [i] (from 0) has the
    colour [USER_COLORS[i mod 8]]; so two of them share a colour exactly
    if their numbers are equal modulo 8: the first eight users get eight
    different colours and the ninth gets the colour of the first. *)
Theorem colorForUser_round_robin :
  forall us i j,
    NoDup us -> Forall (fun u => inherited u = false) us ->
    i < length us -> j < length us ->
    fst (colorForUser (color_calls [] us) (nth i us []))
    = VString (nth (i mod length USER_COLORS) USER_COLORS [])
    /\ (fst (colorForUser (color_calls [] us) (nth i us []))
        = fst (colorForUser (color_calls [] us) (nth j us []))
        <-> i mod 8 = j mod 8).
Proof.
  intros us i j Hn Hu Hi Hj.
  rewrite !colorForUser_in_turn by assumption. split; [reflexivity|].
  change (length USER_COLORS) with 8. split.
  - intros E.
    apply (f_equal (fun v => match v with VString c => c | _ => [] end)) in E.
    cbv beta iota in E.
    apply (proj1 (NoDup_nth USER_COLORS []) USER_COLORS_NoDup) in E; auto;
      change (length USER_COLORS) with 8; apply Nat.mod_upper_bound; discriminate.
  - now intros ->.
Qed.

Lemma colorForUser_round_robin_witness :
  fst (colorForUser
         (color_calls [] (map str ["a"; "b"; "c"; "d"; "e"; "f"; "g"; "h"; "i"]%string))
         (str "i"))
  = VString (str "#e94560")
  /\ fst (colorForUser
            (color_calls [] (map str ["a"; "b"; "c"; "d"; "e"; "f"; "g"; "h"; "i"]%string))
            (str "b"))
     = VString (str "#53a8e2").
Proof.
  assert (N : NoDup (map str ["a"; "b"; "c"; "d"; "e"; "f"; "g"; "h"; "i"]%string)).
  { vm_compute. repeat (constructor; [simpl; intuition discriminate|]). constructor. }
  assert (O : Forall (fun u => inherited u = false)
                     (map str ["a"; "b"; "c"; "d"; "e"; "f"; "g"; "h"; "i"]%string)).
  { repeat constructor. }
  split.
  - exact (proj1 (colorForUser_round_robin _ 8 0 N O ltac:(simpl; lia) ltac:(simpl; lia))).
  - exact (proj1 (colorForUser_round_robin _ 1 0 N O ltac:(simpl; lia) ltac:(simpl; lia))).
Defined.

(** X3.  What [colorForUser] returns, in a map that started empty: for
    a name that is no property name of [Object.prototype], one of the
    eight colours; for a name such as [constructor], [toString] or
    [__proto__], the member that the map inherits under that name, not
    a colour, and the map is left as it was. *)
Theorem colorForUser_result :
  forall us u,
    (inherited u = false ->
     exists c, In c USER_COLORS
               /\ fst (colorForUser (color_calls [] us) u) = VString c)
    /\ (inherited u = true ->
        colorForUser (color_calls [] us) u = (VInherited u, color_calls [] us)).
Proof.
  intros us u.
  assert (I : forall k, inherited k = true -> own_property (color_calls [] us) k = None).
  { now apply color_calls_no_inherited. }
  assert (V : Forall (fun kv => In (snd kv) USER_COLORS) (color_calls [] us)).
  { apply color_calls_values. constructor. }
  generalize dependent (color_calls [] us). intros m I V. split; intros Hu.
  - destruct (own_property m u) as [v|] eqn:E.
    + pose proof (own_property_value (fun c => In c USER_COLORS) _ _ _ V E) as Hv.
      exists v. split; [exact Hv|].
      assert (G : get_property m u = VString v).
      { unfold get_property. now rewrite E. }
      pose proof (color_nonempty _ Hv) as N.
      rewrite colorForUser_fst; rewrite G; [reflexivity|].
      destruct v; [contradiction|reflexivity].
    + exists (nth (length (keys m) mod length USER_COLORS) USER_COLORS []).
      split; [apply nth_color_in|].
      assert (G : get_property m u = VUndefined).
      { unfold get_property. now rewrite E, Hu. }
      unfold colorForUser. cbn [fst]. rewrite G. cbn [to_boolean negb].
      unfold get_property, set_property.
      rewrite jsstring_eqb_neq
        by (intros ->; rewrite inherited_proto in Hu; discriminate).
      now rewrite own_set_own_same.
  - assert (G : get_property m u = VInherited u).
    { unfold get_property. now rewrite (I u Hu), Hu. }
    unfold colorForUser. rewrite G. cbn [to_boolean negb]. now rewrite G.
Qed.

Lemma colorForUser_result_witness :
  (exists c, In c USER_COLORS
             /\ fst (colorForUser (color_calls [] [str "ann"]) (str "bob")) = VString c)
  /\ colorForUser (color_calls [] [str "ann"]) (str "constructor")
     = (VInherited (str "constructor"), color_calls [] [str "ann"]).
Proof.
  split.
  - exact (proj1 (colorForUser_result [str "ann"] (str "bob")) eq_refl).
  - exact (proj2 (colorForUser_result [str "ann"] (str "constructor")) eq_refl).
Defined.

(** ** The icon of a file ([fileIcon]) *)

(** X4.  [fileIcon] looks at nothing but the text behind the last dot
    of the file name, and a name without a dot is its own extension: the
    file name [pdf] gets the icon of a PDF file. *)
Theorem fileIcon_last_extension :
  (forall lc a e, ~ In 46%N e -> fileIcon lc (a ++ 46%N :: e) = fileIcon lc e)
  /\ (forall lc e, ~ In 46%N e ->
                   fileIcon lc e
                   = (if to_boolean (get_property icons (lc e))
                      then get_property icons (lc e) else VString paperclip)).
Proof.
  split; [exact fileIcon_ext|].
  intros lc e H. unfold fileIcon. now rewrite pop_split_no_sep.
Qed.

Lemma fileIcon_last_extension_witness :
  fileIcon (map ascii_lower) (str "archive.tar" ++ 46%N :: str "txt")
  = fileIcon (map ascii_lower) (str "txt")
  /\ fileIcon (map ascii_lower) (str "pdf") = VString [55357; 56533]%N.
Proof.
  assert (H1 : ~ In 46%N (str "txt")) by (vm_compute; intuition discriminate).
  assert (H2 : ~ In 46%N (str "pdf")) by (vm_compute; intuition discriminate).
  split.
  - exact (proj1 fileIcon_last_extension (map ascii_lower) (str "archive.tar")
                 (str "txt") H1).
  - exact (proj2 fileIcon_last_extension (map ascii_lower) (str "pdf") H2).
Defined.

(** X5.  The letter case of the extension does not matter: two file
    names whose extensions, made of ASCII characters, are equal up to
    the case of their letters get the same icon, whatever stands before
    the last dot. *)
Theorem fileIcon_case_insensitive :
  forall lc a a' e e',
    (forall s, Forall (fun c => is_ascii c = true) s -> lc s = map ascii_lower s) ->
    ~ In 46%N e -> ~ In 46%N e' ->
    Forall (fun c => is_ascii c = true) e -> Forall (fun c => is_ascii c = true) e' ->
    map ascii_lower e = map ascii_lower e' ->
    fileIcon lc (a ++ 46%N :: e) = fileIcon lc (a' ++ 46%N :: e').
Proof.
  intros lc a a' e e' L H H' A A' E.
  rewrite !fileIcon_ext by assumption.
  unfold fileIcon. rewrite !pop_split_no_sep by assumption.
  now rewrite (L e A), (L e' A'), E.
Qed.

Lemma fileIcon_case_insensitive_witness :
  fileIcon (map ascii_lower) (str "Report" ++ 46%N :: str "PDF")
  = fileIcon (map ascii_lower) (str "notes" ++ 46%N :: str "pdf").
Proof.
  refine (fileIcon_case_insensitive (map ascii_lower) (str "Report") (str "notes")
            (str "PDF") (str "pdf") _ _ _ _ _ _).
  - reflexivity.
  - vm_compute. intuition discriminate.
  - vm_compute. intuition discriminate.
  - repeat constructor.
  - repeat constructor.
  - reflexivity.
Defined.

(** X6.  What [fileIcon] returns, for every file name, by the extension
    [e] in lower case, the text behind the last dot: when [e] is no
    property name of [Object.prototype], the icon that the table holds
    for [e], or the paper clip when it holds none; when [e] is such a
    name, as for a file name that ends in [.constructor], the member
    that the table inherits under that name, and no icon. *)
Theorem fileIcon_result :
  (forall lc f e,
      e = lc (pop (split 46%N f)) ->
      (inherited e = false ->
       fileIcon lc f
       = VString (match own_property icons e with
                  | Some i => i
                  | None => paperclip
                  end))
      /\ (inherited e = true -> fileIcon lc f = VInherited e))
  /\ (forall lc a,
         lc (str "constructor") = str "constructor" ->
         fileIcon lc (a ++ str ".constructor") = VInherited (str "constructor")).
Proof.
  split.
  - intros lc f e ->. unfold fileIcon, get_property.
    set (e := lc (pop (split 46%N f))).
    split; intros I.
    + rewrite I. destruct (own_property icons e) as [v|] eqn:E; [|reflexivity].
      revert E. unfold icons. cbn [own_property].
      repeat (match goal with
              | |- context [jsstring_eqb e ?x] =>
                  destruct (jsstring_eqb e x);
                  [intros E; injection E as <-; reflexivity|]
              end).
      discriminate.
    + assert (O : own_property icons e = None).
      { apply inherited_in in I. unfold object_prototype_keys in I.
        cbn [In map] in I.
        repeat (destruct I as [<-|I]; [reflexivity|]). contradiction. }
      rewrite O, I. reflexivity.
  - intros lc a H.
    change (str ".constructor") with (46%N :: str "constructor").
    rewrite fileIcon_ext by (vm_compute; intuition discriminate).
    unfold fileIcon.
    rewrite pop_split_no_sep by (vm_compute; intuition discriminate).
    rewrite H. reflexivity.
Qed.

Lemma fileIcon_result_witness :
  fileIcon (map ascii_lower) (str "") = VString paperclip
  /\ fileIcon (map ascii_lower) (str "a.b.PDF") = VString [55357; 56533]%N
  /\ fileIcon (map ascii_lower) (str "x.toString") = VString paperclip
  /\ fileIcon (map ascii_lower) (str "x.valueOf") = VString paperclip
  /\ fileIcon (map ascii_lower) (str "x" ++ str ".constructor")
     = VInherited (str "constructor").
Proof.
  split; [|split; [|split; [|split]]].
  - exact (proj1 (proj1 fileIcon_result (map ascii_lower) (str "") _ eq_refl)
                 eq_refl).
  - exact (proj1 (proj1 fileIcon_result (map ascii_lower) (str "a.b.PDF") _ eq_refl)
                 eq_refl).
  - exact (proj1 (proj1 fileIcon_result (map ascii_lower) (str "x.toString") _ eq_refl)
                 eq_refl).
  - exact (proj1 (proj1 fileIcon_result (map ascii_lower) (str "x.valueOf") _ eq_refl)
                 eq_refl).
  - exact (proj2 fileIcon_result (map ascii_lower) (str "x") eq_refl).
Defined.

(** ** The request of [sendMessage], chat with user names *)

(** X7.  Every request that [sendMessage] issues carries the user name
    of the form without the white space around it, and that name is not
    empty; its content is not empty either: it is the message without
    the white space around it, or the text [(file shared)] when a file
    goes with a blank message. *)
Theorem sendMessage_plan_request :
  forall (F : Type) username_value message_value (files : list F),
    match sendMessage_plan username_value message_value files with
    | ShowError _ => True
    | PostUpload _ username content =>
        username = trim plain username_value /\ username <> [] /\ content <> []
        /\ (content = trim plain message_value
            \/ (trim plain message_value = [] /\ content = str "(file shared)"))
    | PostMessage username content =>
        username = trim plain username_value /\ username <> []
        /\ content = trim plain message_value /\ content <> [] /\ files = []
    end.
Proof.
  intros F u msg files. unfold sendMessage_plan.
  destruct (trim plain u) as [|x un] eqn:Eu; [exact I|]. cbn [is_empty].
  destruct (trim plain msg) as [|y c] eqn:Em; cbn [is_empty andb].
  - destruct files as [|f files]; [exact I|]. cbn [length Nat.eqb].
    repeat split; try discriminate. right. now split.
  - destruct files as [|f files]; repeat split; try discriminate. now left.
Qed.

(** X8.  [sendMessage] shows an error and sends nothing exactly if the
    user name is blank (white space only), or the message is blank and
    no file is attached; a blank user name is reported first. *)
Theorem sendMessage_plan_rejects :
  forall (F : Type) username_value message_value (files : list F),
    ((exists msg, sendMessage_plan username_value message_value files = ShowError msg)
     <-> spaces plain username_value
         \/ (spaces plain message_value /\ files = []))
    /\ (spaces plain username_value ->
        sendMessage_plan username_value message_value files
        = ShowError "Please enter a username.").
Proof.
  intros F u msg files. unfold sendMessage_plan.
  rewrite <- !trim_nil_iff.
  destruct (trim plain u) as [|x un] eqn:Eu; cbn [is_empty].
  - split; [|reflexivity]. split; [now left|]. intros _. now eexists.
  - split; [|discriminate].
    destruct (trim plain msg) as [|y c] eqn:Em; cbn [is_empty andb].
    + destruct files as [|f files]; cbn [length Nat.eqb].
      * split; [now right|]. intros _. now eexists.
      * split; [intros [m H]; discriminate|].
        intros [H|[_ H]]; discriminate.
    + split.
      * destruct files; intros [m H]; discriminate.
      * intros [H|[H _]]; discriminate.
Qed.

Lemma sendMessage_plan_rejects_witness :
  sendMessage_plan (str "  ") (str "hello") [tt] = ShowError "Please enter a username.".
Proof.
  refine (proj2 (sendMessage_plan_rejects unit (str "  ") (str "hello") [tt]) _).
  repeat constructor.
Defined.

(** ** [escapeHtml] as a code *)

Lemma escape_char_plain c : escaped c = false -> escape_char c = [c].
Proof.
  unfold escaped, escape_char. intros H.
  repeat (apply orb_false_iff in H; destruct H as [H ?]).
  now rewrite H, H0, H1, H2.
Qed.

Lemma escape_char_escaped c :
  escaped c = true -> exists w, escape_char c = AMP :: w /\ w <> [].
Proof.
  unfold escaped, escape_char. intros H.
  destruct (c =? AMP)%N; [eexists; split; [reflexivity|discriminate]|].
  destruct (c =? LTC)%N; [eexists; split; [reflexivity|discriminate]|].
  destruct (c =? GTC)%N; [eexists; split; [reflexivity|discriminate]|].
  destruct (c =? NBSP)%N; [eexists; split; [reflexivity|discriminate]|].
  discriminate.
Qed.

(** No code word is the beginning of another. *)
Lemma escape_char_prefix_free c d X Y :
  escape_char c ++ X = escape_char d ++ Y -> c = d /\ X = Y.
Proof.
  unfold escape_char, AMP, LTC, GTC, NBSP.
  destruct (N.eqb_spec c 38); destruct (N.eqb_spec d 38);
    [subst; intros H; injection H as <-; auto | | |];
  (destruct (N.eqb_spec c 60); destruct (N.eqb_spec d 60);
    [subst; intros H; try discriminate H; try (injection H as <-; auto) | | |]);
  try (destruct (N.eqb_spec c 62); destruct (N.eqb_spec d 62);
    [subst; intros H; try discriminate H; try (injection H as <-; auto) | | |]);
  try (destruct (N.eqb_spec c 160); destruct (N.eqb_spec d 160);
    [subst; intros H; try discriminate H; try (injection H as <-; auto) | | |]);
  subst; intros H; try discriminate H;
    try (injection H; intros; subst; congruence);
    try (injection H; intros; subst; auto).
Qed.

Lemma escapeHtml_inj s : forall t, escapeHtml s = escapeHtml t -> s = t.
Proof.
  rewrite escapeHtml_flat_map.
  induction s as [|c s IH]; intros t; rewrite escapeHtml_flat_map; intros H.
  - destruct t as [|d t]; [reflexivity|]. simpl in H.
    pose proof (escape_char_nonempty d).
    destruct (escape_char d); [contradiction|discriminate].
  - destruct t as [|d t].
    + simpl in H. pose proof (escape_char_nonempty c).
      destruct (escape_char c); [contradiction|discriminate].
    + cbn [flat_map] in H. apply escape_char_prefix_free in H. destruct H as [-> H].
      f_equal. apply IH. now rewrite escapeHtml_flat_map.
Qed.

Lemma escape_char_length c : 1 <= length (escape_char c).
Proof.
  pose proof (escape_char_nonempty c). destruct (escape_char c); [contradiction|simpl; lia].
Qed.

Lemma escapeHtml_length s : length s <= length (escapeHtml s).
Proof.
  rewrite escapeHtml_flat_map. induction s as [|c s IH]; [reflexivity|].
  cbn [flat_map length]. rewrite length_app. pose proof (escape_char_length c). lia.
Qed.

Lemma escapeHtml_plain s :
  Forall (fun c => escaped c = false) s -> escapeHtml s = s.
Proof.
  rewrite escapeHtml_flat_map. induction 1 as [|c s Hc _ IH]; [reflexivity|].
  cbn [flat_map]. now rewrite (escape_char_plain c Hc), IH.
Qed.

Lemma escapeHtml_fixed s :
  escapeHtml s = s -> Forall (fun c => escaped c = false) s.
Proof.
  induction s as [|c s IH]; intros H; [constructor|].
  destruct (escaped c) eqn:E.
  - exfalso. rewrite escapeHtml_flat_map in H. cbn [flat_map] in H.
    destruct (escape_char_escaped c E) as (w & Ew & Hw). rewrite Ew in H.
    injection H as _ H. apply (f_equal (@length cu)) in H.
    rewrite length_app, <- escapeHtml_flat_map in H.
    pose proof (escapeHtml_length s). destruct w; [contradiction|simpl in H; lia].
  - constructor; [exact E|]. apply IH.
    rewrite escapeHtml_flat_map in *. cbn [flat_map] in H.
    rewrite (escape_char_plain c E) in H. now injection H.
Qed.

Lemma no_angle_not_in s :
  Forall (fun x => x <> LTC /\ x <> GTC) s -> ~ In LTC s /\ ~ In GTC s.
Proof.
  intros H. rewrite Forall_forall in H. split; intros I; destruct (H _ I); congruence.
Qed.

(** ** More on [escapeHtml] *)

(** X9.  [escapeHtml] keeps different texts apart: two different texts
    never have the same escaped form; so the text [<] and the text
    [&lt;] are shown differently. *)
Theorem escapeHtml_injective :
  forall s t, s <> t -> escapeHtml s <> escapeHtml t.
Proof. intros s t H E. apply H. now apply escapeHtml_inj. Qed.

Lemma escapeHtml_injective_witness :
  str "<" <> str "&lt;" /\ escapeHtml (str "<") <> escapeHtml (str "&lt;").
Proof.
  assert (H : str "<" <> str "&lt;") by discriminate.
  split; [exact H|exact (escapeHtml_injective (str "<") (str "&lt;") H)].
Defined.

(** X10.  [escapeHtml] leaves a text as it is exactly if the text holds
    none of [&], [<], [>] and the no-break space; and only on such a
    text does escaping twice give what escaping once gives: any other
    text is escaped again by a second call. *)
Theorem escapeHtml_fixed_points :
  forall s,
    (escapeHtml s = s <-> Forall (fun c => escaped c = false) s)
    /\ (escapeHtml (escapeHtml s) = escapeHtml s
        <-> Forall (fun c => escaped c = false) s).
Proof.
  intros s. split; split.
  - apply escapeHtml_fixed.
  - apply escapeHtml_plain.
  - intros H. apply escapeHtml_fixed. now apply escapeHtml_inj.
  - intros H. now rewrite !(escapeHtml_plain s H).
Qed.

Lemma escapeHtml_fixed_points_witness :
  escapeHtml (str "say " ++ QUOT :: str "hi" ++ [QUOT])
  = str "say " ++ QUOT :: str "hi" ++ [QUOT]
  /\ ~ Forall (fun c => escaped c = false) (str "a&b")
  /\ escapeHtml (escapeHtml (str "a&b")) <> escapeHtml (str "a&b").
Proof.
  split; [|split].
  - apply (proj2 (proj1 (escapeHtml_fixed_points
                            (str "say " ++ QUOT :: str "hi" ++ [QUOT])))).
    repeat constructor.
  - intros H. inversion H as [|? ? _ K1]. inversion K1 as [|? ? K2 _]. discriminate K2.
  - intros E. apply (proj1 (proj2 (escapeHtml_fixed_points (str "a&b")))) in E.
    inversion E as [|? ? _ K1]. inversion K1 as [|? ? K2 _]. discriminate K2.
Defined.

(** X11.  The escaped form of any text holds no [<] and no [>], every
    [&] in it begins one of the entities [&amp;], [&lt;], [&gt;],
    [&nbsp;], and it is at least as long as the text; escaping a
    concatenation is the concatenation of the escaped parts. *)
Theorem escapeHtml_text_safe :
  (forall s, ~ In LTC (escapeHtml s) /\ ~ In GTC (escapeHtml s)
             /\ ents_ok (escapeHtml s) = true
             /\ length s <= length (escapeHtml s))
  /\ (forall a b, escapeHtml (a ++ b) = escapeHtml a ++ escapeHtml b).
Proof.
  split; [|exact escapeHtml_app].
  intros s. destruct (no_angle_not_in _ (escapeHtml_no_angle s)) as [H1 H2].
  repeat split; auto using escapeHtml_ents_ok, escapeHtml_length.
Qed.

(** ** A blank input *)

Lemma blank_facts c :
  blank c = true ->
  is_space c = true /\ escaped c = false
  /\ (c =? 96)%N = false /\ (c =? 35)%N = false /\ (c =? 42)%N = false
  /\ (c =? 45)%N = false /\ (c =? 60)%N = false /\ is_digit c = false.
Proof.
  unfold blank. intros H. apply andb_true_iff in H. destruct H as [H1 H2].
  apply negb_true_iff in H2. split; [exact H1|].
  assert (E : forall d, is_space d = false -> (c =? d)%N = false).
  { intros d Hd. destruct (N.eqb_spec c d) as [->|]; [congruence|reflexivity]. }
  split.
  { unfold escaped, AMP, LTC, GTC. rewrite H2, !E; reflexivity. }
  repeat (split; [apply E; reflexivity|]).
  unfold is_digit. destruct (48 <=? c)%N eqn:L1; [|reflexivity].
  destruct (c <=? 57)%N eqn:L2; [|reflexivity]. exfalso.
  apply N.leb_le in L1, L2.
  assert (D : (c = 48 \/ c = 49 \/ c = 50 \/ c = 51 \/ c = 52 \/ c = 53 \/ c = 54
               \/ c = 55 \/ c = 56 \/ c = 57)%N) by lia.
  repeat (destruct D as [->|D]; [discriminate H1|]). subst c. discriminate H1.
Qed.

Ltac blank_quiet :=
  let pv := fresh "pv" in let c := fresh "c" in let Hc := fresh "Hc" in
  intros pv c Hc;
  destruct (blank_facts c Hc) as (_ & _ & B1 & B2 & B3 & B4 & B5 & B6);
  unfold can_match; cbn; unfold is_char, is_not_char, plain;
  rewrite ?B1, ?B2, ?B3, ?B4, ?B5, ?B6, ?andb_false_r; reflexivity.

Lemma blank_pre_paragraph s :
  Forall (fun c => blank c = true) s ->
  ordered_lists plain plain
    (unordered_lists plain plain
       (italic plain plain (bold plain plain (headers plain plain
          (inline_code plain plain (code_blocks plain plain s)))))) = s.
Proof.
  intros H.
  assert (Q : forall r tpl,
             never_empty r = true ->
             (forall pv c, blank c = true -> can_match r (pv, Some c) = false) ->
             replace plain r tpl s = s).
  { intros r tpl Hz Hr. apply replace_no_start; [exact Hz|].
    intros pv c Hc. apply Hr. rewrite Forall_forall in H. now apply H. }
  unfold code_blocks, inline_code, headers, bold, italic, unordered_lists,
    ordered_lists.
  rewrite (Q re_fence) by (reflexivity || blank_quiet).
  rewrite (Q re_inline) by (reflexivity || blank_quiet).
  rewrite (Q re_h3) by (reflexivity || blank_quiet).
  rewrite (Q re_h2) by (reflexivity || blank_quiet).
  rewrite (Q re_h1) by (reflexivity || blank_quiet).
  rewrite (Q re_bold) by (reflexivity || blank_quiet).
  rewrite (Q re_italic) by (reflexivity || blank_quiet).
  rewrite (Q re_item) by (reflexivity || blank_quiet).
  rewrite (Q re_items) by (reflexivity || blank_quiet).
  rewrite (Q re_numbered) by (reflexivity || blank_quiet).
  reflexivity.
Qed.

(** The paragraph stage on white space: paragraphs of white space. *)
Lemma paragraphs_blank s :
  spaces plain s ->
  exists ws, Forall (spaces plain) ws
             /\ paragraphs plain plain s = concat (map paragraph ws).
Proof.
  intros H. unfold paragraphs, replace. rewrite !lits_plain.
  cut (exists w ws, spaces plain w /\ Forall (spaces plain) ws
                    /\ replace_from plain re_blank (fun _ => str "</p><p>") 0 None s
                       ++ str "</p>"
                       = w ++ str "</p>" ++ concat (map paragraph ws)).
  { intros (w & ws & Hw & Hws & E). exists (w :: ws). split; [now constructor|].
    cbn [map concat]. unfold paragraph at 1. rewrite E, <- !app_assoc. reflexivity. }
  revert H.
  apply (replace_from_ind plain re_blank (fun _ => str "</p><p>")
           (fun _ s out =>
              spaces plain s ->
              exists w ws, spaces plain w /\ Forall (spaces plain) ws
                           /\ out ++ str "</p>"
                              = w ++ str "</p>" ++ concat (map paragraph ws))).
  - now apply never_empty_zw.
  - intros _ _. exists [], []. repeat split; constructor.
  - intros p c s0 out _ IH H. inversion H as [|? ? Hc Hs]; subst.
    destruct (IH Hs) as (w & ws & Hw & Hws & E).
    exists (c :: w), ws. repeat split; auto; [now constructor|].
    cbn [app]. now rewrite E.
  - intros p c w s0 st' out _ _ IH H.
    change (c :: w ++ s0) with ((c :: w) ++ s0) in H.
    apply Forall_app in H. destruct H as [_ Hs].
    destruct (IH Hs) as (w0 & ws & Hw & Hws & E).
    exists [], (w0 :: ws). repeat split; [constructor|now constructor|].
    cbn [map concat]. unfold paragraph at 1. rewrite <- !app_assoc, E.
    reflexivity.
Qed.

Lemma exec_empty_p_exact p ws t :
  spaces plain ws ->
  exists p', exec plain re_empty_p p (str "<p>" ++ ws ++ str "</p>" ++ t)
             = Some (MState p' t []).
Proof.
  intros Hs. unfold exec, re_empty_p, L.
  rewrite m_Seq, m_Lit_app. cbn [flat_map]. rewrite app_nil_r.
  rewrite m_Seq. unfold re_spaces.
  rewrite (star_skip_run plain true is_space (m plain (Lit (str "</p>"))) ws).
  - rewrite m_star_chr_stop by reflexivity. cbn [flat_map].
    rewrite m_Lit_app. now eexists.
  - exact Hs.
  - intros u1 c u2 Eu. rewrite m_Lit, map_plain.
    rewrite starts_with_head; [reflexivity|].
    intros <-. rewrite Eu in Hs. apply Forall_app in Hs. destruct Hs as [_ Hs].
    inversion Hs as [|? ? Hc _]. discriminate Hc.
Qed.

(** The first clean-up pattern removes paragraphs of white space. *)
Lemma empty_paragraphs_removed ws : forall p,
  Forall (spaces plain) ws ->
  replace_from plain re_empty_p (fun _ => []) 0 p (concat (map paragraph ws)) = [].
Proof.
  induction ws as [|w ws IH]; intros p H.
  - now apply replace_from_nil.
  - inversion H as [|? ? Hw Hws]; subst. cbn [map concat]. unfold paragraph at 1.
    rewrite <- !app_assoc.
    destruct (exec_empty_p_exact p w (concat (map paragraph ws)) Hw) as (p' & E).
    rewrite (replace_from_match plain re_empty_p _ _ _ _ eq_refl E).
    cbn [prev rest app]. now apply IH.
Qed.

Lemma render_blank s :
  Forall (fun c => blank c = true) s -> renderMarkdown s = [].
Proof.
  intros H. unfold renderMarkdown, markup.
  assert (Hs : spaces plain s).
  { revert H. apply Forall_impl. intros c Hc. now apply blank_facts. }
  rewrite escapeHtml_plain.
  2:{ revert H. apply Forall_impl. intros c Hc. now apply blank_facts. }
  rewrite (blank_pre_paragraph s H).
  destruct (paragraphs_blank s Hs) as (ws & Hws & ->).
  unfold cleanup. unfold replace at 7.
  rewrite (empty_paragraphs_removed ws None Hws). reflexivity.
Qed.

(** ** Texts separated by blank lines *)

Ltac nl_quiet :=
  let pv := fresh "pv" in
  intros pv; unfold can_match; cbn; unfold is_char, is_not_char, plain;
  cbn; rewrite ?andb_false_r; reflexivity.

Lemma dead_blank_separated r :
  calm r -> (forall pv, can_match r (pv, Some NL) = false) ->
  forall Es p s, Forall texty Es -> dead r p (blank_separated Es) s.
Proof.
  intros Hc Hn. induction Es as [|E Es IH]; intros p s H; [exact I|].
  inversion H as [|? ? [Hi Ho] HEs]; subst.
  destruct Es as [|E' Es'].
  - cbn [blank_separated]. apply dead_inert; auto.
  - change (blank_separated (E :: E' :: Es'))
      with (E ++ NL :: NL :: blank_separated (E' :: Es')).
    apply dead_app; [apply dead_inert; auto|].
    cbn [dead]. split; [apply exec_none, Hn|].
    split; [apply exec_none, Hn|]. now apply IH.
Qed.

Lemma replace_blank_separated r tpl Es :
  never_empty r = true -> calm r ->
  (forall pv, can_match r (pv, Some NL) = false) ->
  Forall texty Es ->
  replace plain r tpl (blank_separated Es) = blank_separated Es.
Proof.
  intros Hz Hc Hn H. unfold replace.
  rewrite <- (app_nil_r (blank_separated Es)) at 1.
  rewrite replace_dead by (now apply dead_blank_separated).
  rewrite replace_from_nil by assumption. apply app_nil_r.
Qed.

Lemma pre_paragraph_blank_separated Es :
  Forall texty Es ->
  ordered_lists plain plain
    (unordered_lists plain plain
       (italic plain plain (bold plain plain (headers plain plain
          (inline_code plain plain (code_blocks plain plain
             (blank_separated Es))))))) = blank_separated Es.
Proof.
  intros H.
  unfold code_blocks, inline_code, headers, bold, italic, unordered_lists,
    ordered_lists.
  rewrite (replace_blank_separated re_fence)
    by (reflexivity || apply calm_fence || nl_quiet || exact H).
  rewrite (replace_blank_separated re_inline)
    by (reflexivity || apply calm_inline || nl_quiet || exact H).
  rewrite (replace_blank_separated re_h3)
    by (reflexivity || apply calm_h3 || nl_quiet || exact H).
  rewrite (replace_blank_separated re_h2)
    by (reflexivity || apply calm_h2 || nl_quiet || exact H).
  rewrite (replace_blank_separated re_h1)
    by (reflexivity || apply calm_h1 || nl_quiet || exact H).
  rewrite (replace_blank_separated re_bold)
    by (reflexivity || apply calm_bold || nl_quiet || exact H).
  rewrite (replace_blank_separated re_italic)
    by (reflexivity || apply calm_italic || nl_quiet || exact H).
  rewrite (replace_blank_separated re_item)
    by (reflexivity || apply calm_item || nl_quiet || exact H).
  rewrite (replace_blank_separated re_items)
    by (reflexivity || apply calm_items || nl_quiet || exact H).
  rewrite (replace_blank_separated re_numbered)
    by (reflexivity || apply calm_numbered || nl_quiet || exact H).
  reflexivity.
Qed.

(** The paragraph stage turns each blank line into a paragraph break. *)
Lemma paragraphs_blank_separated Es :
  Es <> [] -> Forall texty Es ->
  paragraphs plain plain (blank_separated Es) = concat (map paragraph Es).
Proof.
  intros Hne H. unfold paragraphs, replace. rewrite !lits_plain.
  generalize (@None cu) as p. revert Hne H.
  induction Es as [|E Es IH]; intros Hne H p; [contradiction|].
  inversion H as [|? ? [Hi Ho] HEs]; subst.
  destruct Es as [|E' Es'].
  - cbn [blank_separated map concat]. rewrite app_nil_r.
    rewrite (replace_calm re_blank);
      [reflexivity|reflexivity|apply calm_blank|exact Hi|now right].
  - change (blank_separated (E :: E' :: Es'))
      with (E ++ NL :: NL :: blank_separated (E' :: Es')).
    rewrite replace_dead by (apply dead_inert; auto using calm_blank).
    assert (X : exec plain re_blank (lastp p E)
                  (NL :: NL :: blank_separated (E' :: Es'))
                = Some (MState (Some NL) (blank_separated (E' :: Es')) [])).
    { unfold exec, re_blank.
      change (NL :: NL :: blank_separated (E' :: Es'))
        with ([NL; NL] ++ blank_separated (E' :: Es')).
      now rewrite m_Lit_app. }
    rewrite (replace_from_match plain re_blank _ _ _ _ eq_refl X).
    cbn [prev rest].
    change (map paragraph (E :: E' :: Es'))
      with (paragraph E :: map paragraph (E' :: Es')).
    cbn [concat]. rewrite <- (IH ltac:(discriminate) HEs (Some NL)).
    unfold paragraph. rewrite <- !app_assoc. reflexivity.
Qed.

(** A paragraph of text holds nothing for a clean-up pattern. *)
Lemma dead_paragraph r E p s :
  calm r -> Forall (fun c => inert c = true) E ->
  (forall p s', dead r p (str "<p>") (E ++ s')) ->
  (forall p s', dead r p (str "</p>") s') ->
  dead r p (paragraph E) s.
Proof.
  intros Hc Hi HU HV. unfold paragraph.
  apply dead_app; [rewrite <- app_assoc; apply HU|].
  apply dead_app; [|apply HV].
  apply dead_inert; auto. left. reflexivity.
Qed.

Lemma dead_paragraphs r Es :
  calm r ->
  (forall E, In E Es ->
     Forall (fun c => inert c = true) E
     /\ (forall p s', dead r p (str "<p>") (E ++ s'))) ->
  (forall p s', dead r p (str "</p>") s') ->
  forall p, dead r p (concat (map paragraph Es)) [].
Proof.
  intros Hc HE HV. induction Es as [|E Es IH]; intros p; [exact I|].
  cbn [map concat]. apply dead_app.
  - destruct (HE E (or_introl eq_refl)) as [Hi HU].
    apply dead_paragraph; auto.
  - apply IH. intros E' HIn. apply HE. now right.
Qed.

Lemma replace_paragraphs r tpl Es :
  never_empty r = true -> calm r ->
  (forall E, In E Es ->
     Forall (fun c => inert c = true) E
     /\ (forall p s', dead r p (str "<p>") (E ++ s'))) ->
  (forall p s', dead r p (str "</p>") s') ->
  replace plain r tpl (concat (map paragraph Es)) = concat (map paragraph Es).
Proof.
  intros Hz Hc HE HV. unfold replace.
  rewrite <- (app_nil_r (concat (map paragraph Es))) at 1.
  rewrite replace_dead by (now apply dead_paragraphs).
  rewrite replace_from_nil by assumption. apply app_nil_r.
Qed.

Lemma dead_open_p_text R E :
  E <> [] -> texty E ->
  (forall c, (c =? 60)%N = false -> can_match R (Some 62%N, Some c) = false) ->
  forall p s', dead (L "<p>" ;; re_spaces ;; R)%re p (str "<p>") (E ++ s').
Proof.
  intros HE [Hi Ho] HR p s'. destruct E as [|e0 E]; [contradiction|].
  destruct (inert_facts e0 (Forall_inv Hi)) as (I1 & I2 & I3 & I4 & I5).
  destruct (ordinary_facts e0 Ho) as (O1 & O2 & O3 & O4).
  cbn [dead app str map list_ascii_of_string N_of_ascii].
  split; [|repeat (split; [reflexivity|]); exact I].
  apply (exec_p_spaces_none R p e0 _ O4). now apply HR.
Qed.

Ltac head_not_lt :=
  let c := fresh "c" in let Hc := fresh "Hc" in
  intros c Hc; unfold can_match; cbn; unfold is_char; now rewrite Hc.

Ltac tail_dead :=
  let p := fresh "p" in let s' := fresh "s" in
  intros p s'; cbn [dead app str map list_ascii_of_string N_of_ascii];
  repeat (split; [reflexivity|]); exact I.

(** The clean-up leaves paragraphs of text alone. *)
Lemma cleanup_paragraphs Es :
  Forall (fun E => E <> [] /\ texty E) Es ->
  cleanup plain (concat (map paragraph Es)) = concat (map paragraph Es).
Proof.
  intros H. rewrite Forall_forall in H.
  assert (B : forall R,
             (forall c, (c =? 60)%N = false ->
                        can_match R (Some 62%N, Some c) = false) ->
             forall E, In E Es ->
               Forall (fun c => inert c = true) E
               /\ (forall p s', dead (L "<p>" ;; re_spaces ;; R)%re p
                                     (str "<p>") (E ++ s'))).
  { intros R HR E HIn. destruct (H E HIn) as [HE HT]. split; [apply HT|].
    now apply dead_open_p_text. }
  assert (C : forall tag,
             (forall E, In E Es ->
                Forall (fun c => inert c = true) E
                /\ (forall p s', dead (re_p_after tag) p (str "<p>") (E ++ s'))) ->
             forall E, In E Es ->
                Forall (fun c => inert c = true) E
                /\ (forall p s', dead (re_p_after tag) p (str "<p>") (E ++ s'))).
  { auto. }
  assert (D : forall E, In E Es -> Forall (fun c => inert c = true) E).
  { intros E HIn. apply (H E HIn). }
  unfold cleanup.
  rewrite (replace_paragraphs re_empty_p);
    [|reflexivity|apply calm_empty_p|apply B; head_not_lt|tail_dead].
  rewrite (replace_paragraphs (re_p_before tag_h_open));
    [|reflexivity|apply calm_p_before|apply B; head_not_lt|tail_dead].
  rewrite (replace_paragraphs (re_p_after tag_h_close));
    [|reflexivity|apply calm_p_after_h
     |intros E HIn; split; [now apply D|tail_dead]|tail_dead].
  rewrite (replace_paragraphs (re_p_before (L "<pre>")));
    [|reflexivity|apply calm_p_before|apply B; head_not_lt|tail_dead].
  rewrite (replace_paragraphs (re_p_after (L "</pre>")));
    [|reflexivity|apply calm_p_after_pre
     |intros E HIn; split; [now apply D|tail_dead]|tail_dead].
  rewrite (replace_paragraphs (re_p_before (L "<ul>")));
    [|reflexivity|apply calm_p_before|apply B; head_not_lt|tail_dead].
  rewrite (replace_paragraphs (re_p_after (L "</ul>")));
    [|reflexivity|apply calm_p_after_ul
     |intros E HIn; split; [now apply D|tail_dead]|tail_dead].
  reflexivity.
Qed.

Lemma escapeHtml_blank_separated Xs :
  escapeHtml (blank_separated Xs) = blank_separated (map escapeHtml Xs).
Proof.
  induction Xs as [|X Xs IH]; [reflexivity|].
  destruct Xs as [|X' Xs']; [reflexivity|].
  change (blank_separated (X :: X' :: Xs'))
    with (X ++ [NL; NL] ++ blank_separated (X' :: Xs')).
  rewrite !escapeHtml_app, IH. reflexivity.
Qed.

Lemma render_blank_separated Xs :
  Xs <> [] ->
  Forall (fun X => X <> [] /\ Forall (fun c => markup_free c = true) X
                   /\ head_ordinary X) Xs ->
  renderMarkdown (blank_separated Xs)
  = concat (map (fun X => str "<p>" ++ escapeHtml X ++ str "</p>") Xs).
Proof.
  intros Hne H. unfold renderMarkdown, markup.
  rewrite escapeHtml_blank_separated.
  assert (HT : Forall (fun E => E <> [] /\ texty E) (map escapeHtml Xs)).
  { apply Forall_map. revert H. apply Forall_impl. intros X (H1 & H2 & H3).
    split; [now apply escapeHtml_nonempty|now apply escapeHtml_texty]. }
  assert (HT' : Forall texty (map escapeHtml Xs)).
  { revert HT. apply Forall_impl. now intros E [_ HE]. }
  rewrite (pre_paragraph_blank_separated _ HT').
  rewrite paragraphs_blank_separated;
    [|destruct Xs; [contradiction|discriminate]|exact HT'].
  rewrite (cleanup_paragraphs _ HT). rewrite map_map. reflexivity.
Qed.

(** ** Emphasis inside a paragraph *)

Lemma replace_all_dead r tpl S :
  never_empty r = true -> dead r None S [] -> replace plain r tpl S = S.
Proof.
  intros Hz H. unfold replace. rewrite <- (app_nil_r S) at 1.
  rewrite replace_dead by exact H.
  rewrite replace_from_nil by assumption. apply app_nil_r.
Qed.

Lemma dead_open_p R A t s :
  Forall (fun c => inert c = true) A -> head_ordinary A ->
  (forall c, (c =? 60)%N = false -> can_match R (Some 62%N, Some c) = false) ->
  (forall p s', exec plain (L "<p>" ;; re_spaces ;; R)%re p (str "<p>" ++ t ++ s')
                = None) ->
  forall p, dead (L "<p>" ;; re_spaces ;; R)%re p (str "<p>") (A ++ t ++ s).
Proof.
  intros Hi Ho HR Ht p. destruct A as [|e0 A].
  - cbn [dead app str map list_ascii_of_string N_of_ascii].
    split; [apply (Ht p s)|]. repeat (split; [reflexivity|]). exact I.
  - destruct (inert_facts e0 (Forall_inv Hi)) as (I1 & I2 & I3 & I4 & I5).
    destruct (ordinary_facts e0 Ho) as (O1 & O2 & O3 & O4).
    cbn [dead app str map list_ascii_of_string N_of_ascii].
    split; [|repeat (split; [reflexivity|]); exact I].
    apply (exec_p_spaces_none R p e0 _ O4). now apply HR.
Qed.

Create HintDb calm_db.
#[local] Hint Resolve calm_fence calm_inline calm_bold calm_italic calm_items
  calm_blank calm_empty_p calm_p_before calm_p_after_h calm_p_after_pre
  calm_p_after_ul calm_h3 calm_h2 calm_h1 calm_item calm_numbered : calm_db.

Ltac piece :=
  first
    [ apply dead_inert;
      [ solve [auto with calm_db] | assumption
      | first [left; reflexivity | right; assumption] ]
    | cbn [dead app str map list_ascii_of_string N_of_ascii];
      repeat (split; [exec_none_tac|]); exact I
    | rewrite <- app_assoc;
      first
        [ apply dead_open_p_text; [assumption|split; assumption|head_not_lt]
        | apply dead_open_p;
          [assumption|assumption|head_not_lt|intros; reflexivity] ] ].

Ltac segs := repeat (apply dead_app; [piece|]); piece.

Ltac quiet_pass r :=
  rewrite (replace_all_dead r); [|reflexivity|segs].

Lemma star_head_fails X s p :
  X <> [] -> Forall (fun c => inert c = true) X ->
  exec plain re_bold p (42%N :: X ++ s) = None.
Proof.
  intros HX Hi. destruct X as [|x0 X]; [contradiction|].
  destruct (inert_facts x0 (Forall_inv Hi)) as (I1 & I2 & I3 & I4 & I5).
  unfold exec, re_bold, L. norm_str. rewrite m_Seq, m_Lit.
  cbn [map starts_with app]. unfold plain. rewrite (N.eqb_sym 42 x0), I2.
  rewrite andb_false_r. reflexivity.
Qed.

Lemma star_tail_fails B p :
  Forall (fun c => inert c = true) B ->
  exec plain re_bold p (42%N :: B) = None.
Proof.
  intros Hi. destruct B as [|b0 B]; [reflexivity|].
  rewrite <- (app_nil_r (b0 :: B)).
  apply star_head_fails; [discriminate|exact Hi].
Qed.

Lemma cleanup_element o c A X B :
  Forall (fun c => inert c = true) A -> head_ordinary A ->
  Forall (fun c => inert c = true) X ->
  Forall (fun c => inert c = true) B ->
  In (o, c) [("<strong>", "</strong>"); ("<em>", "</em>")]%string ->
  cleanup plain (str "<p>" ++ A ++ str o ++ X ++ str c ++ B ++ str "</p>")
  = str "<p>" ++ A ++ str o ++ X ++ str c ++ B ++ str "</p>".
Proof.
  intros HA H0 HX HB Hoc. unfold cleanup.
  destruct Hoc as [E|[E|[]]]; inversion E; subst o c.
  - quiet_pass re_empty_p.
    quiet_pass (re_p_before tag_h_open).
    quiet_pass (re_p_after tag_h_close).
    quiet_pass (re_p_before (L "<pre>")).
    quiet_pass (re_p_after (L "</pre>")).
    quiet_pass (re_p_before (L "<ul>")).
    quiet_pass (re_p_after (L "</ul>")).
    reflexivity.
  - quiet_pass re_empty_p.
    quiet_pass (re_p_before tag_h_open).
    quiet_pass (re_p_after tag_h_close).
    quiet_pass (re_p_before (L "<pre>")).
    quiet_pass (re_p_after (L "</pre>")).
    quiet_pass (re_p_before (L "<ul>")).
    quiet_pass (re_p_after (L "</ul>")).
    reflexivity.
Qed.

Lemma markup_bold A X B :
  Forall (fun c => inert c = true) A -> head_ordinary A ->
  X <> [] -> Forall (fun c => inert c = true) X ->
  Forall (fun c => inert c = true) B ->
  markup plain plain (A ++ str "**" ++ X ++ str "**" ++ B)
  = str "<p>" ++ A ++ str "<strong>" ++ X ++ str "</strong>" ++ B ++ str "</p>".
Proof.
  intros HA H0 HN HX HB. unfold markup.
  unfold code_blocks, inline_code, headers.
  quiet_pass re_fence. quiet_pass re_inline.
  quiet_pass re_h3. quiet_pass re_h2. quiet_pass re_h1.
  unfold bold at 1. unfold replace at 1.
  rewrite replace_dead by (apply dead_inert; auto using calm_bold).
  rewrite (replace_from_match plain re_bold _ _ _ _ eq_refl
             (exec_span (str "**") (str "**") (is_not_char STAR) _ X B HN
                (inert_not_star X HX) eq_refl)).
  cbn [prev rest]. rewrite wrap1_plain.
  rewrite (replace_calm re_bold);
    [|reflexivity|apply calm_bold|exact HB|left; rewrite !lastp_app; reflexivity].
  unfold italic, unordered_lists, ordered_lists, paragraphs.
  rewrite <- !app_assoc.
  quiet_pass re_italic. quiet_pass re_item. quiet_pass re_items.
  quiet_pass re_numbered. quiet_pass re_blank.
  rewrite !lits_plain, <- !app_assoc.
  apply cleanup_element; auto. now left.
Qed.

Lemma markup_italic A X B :
  Forall (fun c => inert c = true) A -> head_ordinary A ->
  X <> [] -> Forall (fun c => inert c = true) X ->
  Forall (fun c => inert c = true) B ->
  markup plain plain (A ++ str "*" ++ X ++ str "*" ++ B)
  = str "<p>" ++ A ++ str "<em>" ++ X ++ str "</em>" ++ B ++ str "</p>".
Proof.
  intros HA H0 HN HX HB. unfold markup.
  unfold code_blocks, inline_code, headers, bold.
  quiet_pass re_fence. quiet_pass re_inline.
  quiet_pass re_h3. quiet_pass re_h2. quiet_pass re_h1.
  rewrite (replace_all_dead re_bold); [|reflexivity|].
  2:{ apply dead_app; [piece|].
      apply dead_app.
      { cbn [dead app str map list_ascii_of_string N_of_ascii].
        split; [|exact I]. rewrite <- app_assoc. now apply star_head_fails. }
      apply dead_app; [piece|].
      apply dead_app; [|piece].
      cbn [dead app str map list_ascii_of_string N_of_ascii].
      split; [|exact I]. rewrite app_nil_r. now apply star_tail_fails. }
  unfold italic at 1. unfold replace at 1.
  rewrite replace_dead by (apply dead_inert; auto using calm_italic).
  rewrite (replace_from_match plain re_italic _ _ _ _ eq_refl
             (exec_span (str "*") (str "*") (is_not_char STAR) _ X B HN
                (inert_not_star X HX) eq_refl)).
  cbn [prev rest]. rewrite wrap1_plain.
  rewrite (replace_calm re_italic);
    [|reflexivity|apply calm_italic|exact HB|left; rewrite !lastp_app; reflexivity].
  unfold unordered_lists, ordered_lists, paragraphs.
  rewrite <- !app_assoc.
  quiet_pass re_item. quiet_pass re_items.
  quiet_pass re_numbered. quiet_pass re_blank.
  rewrite !lits_plain, <- !app_assoc.
  apply cleanup_element; auto. right; now left.
Qed.

Lemma render_emphasis A X B :
  Forall (fun c => markup_free c = true) A -> head_ordinary A ->
  X <> [] -> Forall (fun c => markup_free c = true) X ->
  Forall (fun c => markup_free c = true) B ->
  renderMarkdown (A ++ str "**" ++ X ++ str "**" ++ B)
  = str "<p>" ++ escapeHtml A ++ str "<strong>" ++ escapeHtml X
    ++ str "</strong>" ++ escapeHtml B ++ str "</p>"
  /\ renderMarkdown (A ++ str "*" ++ X ++ str "*" ++ B)
     = str "<p>" ++ escapeHtml A ++ str "<em>" ++ escapeHtml X
       ++ str "</em>" ++ escapeHtml B ++ str "</p>".
Proof.
  intros HA H0 HN HX HB. unfold renderMarkdown.
  rewrite !escapeHtml_app.
  change (escapeHtml (str "**")) with (str "**").
  change (escapeHtml (str "*")) with (str "*").
  destruct (escapeHtml_texty A HA H0) as [HA' H0'].
  pose proof (escapeHtml_inert X HX) as HX'.
  pose proof (escapeHtml_inert B HB) as HB'.
  pose proof (escapeHtml_nonempty X HN) as HN'.
  split; [now apply markup_bold|now apply markup_italic].
Qed.

(** ** A header, a blank line and a paragraph *)

(** One match of [r] in the subject, after a part [U] without any. *)
Lemma replace_one r tpl U S st' :
  never_empty r = true ->
  dead r None U S ->
  exec plain r (lastp None U) S = Some st' ->
  dead r (prev st') (rest st') [] ->
  replace plain r tpl (U ++ S) = U ++ tpl st' ++ rest st'.
Proof.
  intros Hz HU HE HR. unfold replace.
  rewrite replace_dead by exact HU.
  rewrite (replace_from_match plain r tpl _ _ _ Hz HE).
  rewrite <- (app_nil_r (rest st')) at 1.
  rewrite replace_dead by exact HR.
  rewrite replace_from_nil by exact Hz. now rewrite app_nil_r.
Qed.

Lemma replace_one0 r tpl S st' :
  never_empty r = true ->
  exec plain r None S = Some st' ->
  dead r (prev st') (rest st') [] ->
  replace plain r tpl S = tpl st' ++ rest st'.
Proof.
  intros Hz HE HR.
  exact (replace_one r tpl [] S st' Hz I HE HR).
Qed.

Lemma matches_tag_h_open_d d :
  is_123 d = true -> matches_tag tag_h_open (60 :: 104 :: d :: [62])%N.
Proof. intros H p s cs. exact (m_tag_h_open p d s cs H). Qed.

Lemma matches_tag_h_close_d d :
  is_123 d = true -> matches_tag tag_h_close (60 :: 47 :: 104 :: d :: [62])%N.
Proof. intros H p s cs. exact (m_tag_h_close p d s cs H). Qed.

Ltac hit_line r w T S :=
  rewrite (replace_one0 r _ (str w ++ T ++ S)
             (MState (lastp None (str w ++ T)) S [(1, T)]));
  [ | reflexivity
    | apply exec_line_lit;
      [exact I|assumption|apply inert_is_dot; assumption|reflexivity]
    | cbn [prev rest]; segs ];
  cbn [prev rest]; rewrite wrap1_plain.

Lemma cleanup_header d T B :
  is_123 d = true ->
  Forall (fun c => inert c = true) T ->
  B <> [] -> Forall (fun c => inert c = true) B -> head_ordinary B ->
  cleanup plain
    (str "<p>" ++ (60 :: 104 :: d :: [62])%N ++ T ++ (60 :: 47 :: 104 :: d :: [62])%N
     ++ str "</p>" ++ str "<p>" ++ B ++ str "</p>")
  = (60 :: 104 :: d :: [62])%N ++ T ++ (60 :: 47 :: 104 :: d :: [62])%N
    ++ str "<p>" ++ B ++ str "</p>".
Proof.
  intros Hd HT HN HB H0.
  assert (D : (d = 49 \/ d = 50 \/ d = 51)%N).
  { unfold is_123 in Hd.
    destruct (N.eqb_spec d 49); [now left|].
    destruct (N.eqb_spec d 50); [now right; left|].
    destruct (N.eqb_spec d 51); [now right; right|discriminate]. }
  unfold cleanup.
  destruct D as [->|[->| ->]].
  all: quiet_pass re_empty_p.
  all: match goal with
       | |- context [replace plain (re_p_before tag_h_open) _
                       (_ ++ (60 :: 104 :: ?dd :: ?e)%N ++ ?S)] =>
           rewrite (replace_one0 (re_p_before tag_h_open) _ _ _ eq_refl
                      (exec_p_before tag_h_open (60 :: 104 :: dd :: e)%N None S
                         (matches_tag_h_open_d dd eq_refl) eq_refl
                         ltac:(discriminate)));
           [|cbn [prev rest]; segs]
       end.
  all: cbn [prev rest]; unfold only1 at 1, cap; cbn [caps get_cap Nat.eqb].
  all: match goal with
       | |- context [replace plain (re_p_after tag_h_close) _
                       (?o ++ ?T' ++ (60 :: 47 :: 104 :: ?dd :: ?e)%N ++ _ ++ ?S)] =>
           replace (o ++ T' ++ (60 :: 47 :: 104 :: dd :: e)%N ++ str "</p>" ++ S)
             with ((o ++ T') ++ (60 :: 47 :: 104 :: dd :: e)%N ++ str "</p>" ++ S)
             by (now rewrite <- app_assoc);
           rewrite (replace_one (re_p_after tag_h_close) _ (o ++ T') _ _ eq_refl
                      ltac:(segs)
                      (exec_p_after tag_h_close (60 :: 47 :: 104 :: dd :: e)%N _ S
                         (matches_tag_h_close_d dd eq_refl)));
           [|cbn [prev rest]; segs]
       end.
  all: cbn [prev rest]; unfold only1 at 1, cap; cbn [caps get_cap Nat.eqb].
  all: rewrite <- !app_assoc.
  all: quiet_pass (re_p_before (L "<pre>")).
  all: quiet_pass (re_p_after (L "</pre>")).
  all: quiet_pass (re_p_before (L "<ul>")).
  all: quiet_pass (re_p_after (L "</ul>")).
  all: reflexivity.
Qed.

Ltac hit_blank :=
  match goal with
  | |- context [replace plain re_blank ?tpl (?o ++ ?T' ++ ?c ++ [NL; NL] ++ ?S)] =>
      replace (o ++ T' ++ c ++ [NL; NL] ++ S)
        with ((o ++ T' ++ c) ++ [NL; NL] ++ S)
        by (now rewrite <- !app_assoc);
      rewrite (replace_one re_blank tpl (o ++ T' ++ c) ([NL; NL] ++ S)
                 (MState (Some NL) S []) eq_refl);
      [ | segs | unfold exec, re_blank; now rewrite m_Lit_app
        | cbn [prev rest]; segs ]
  end;
  cbn [prev rest]; rewrite lits_plain, <- ?app_assoc.

Lemma markup_header mark o c T B :
  In (mark, o, c) [("# ", "<h1>", "</h1>"); ("## ", "<h2>", "</h2>");
                   ("### ", "<h3>", "</h3>")]%string ->
  T <> [] -> Forall (fun c => inert c = true) T ->
  B <> [] -> Forall (fun c => inert c = true) B -> head_ordinary B ->
  markup plain plain (str mark ++ T ++ [NL; NL] ++ B)
  = str o ++ T ++ str c ++ str "<p>" ++ B ++ str "</p>".
Proof.
  intros Hin HNT HT HN HB H0. unfold markup.
  unfold code_blocks, inline_code, headers.
  destruct Hin as [E|[E|[E|[]]]]; inversion E; subst mark o c.
  all: quiet_pass re_fence; quiet_pass re_inline.
  - quiet_pass re_h3. quiet_pass re_h2.
    hit_line re_h1 "# "%string T ([NL; NL] ++ B).
    unfold bold, italic, unordered_lists, ordered_lists, paragraphs.
    rewrite <- ?app_assoc.
    quiet_pass re_bold. quiet_pass re_italic. quiet_pass re_item.
    quiet_pass re_items. quiet_pass re_numbered.
    hit_blank. rewrite !lits_plain, <- ?app_assoc.
    exact (cleanup_header 49%N T B eq_refl HT HN HB H0).
  - quiet_pass re_h3.
    hit_line re_h2 "## "%string T ([NL; NL] ++ B).
    rewrite <- ?app_assoc. quiet_pass re_h1.
    unfold bold, italic, unordered_lists, ordered_lists, paragraphs.
    quiet_pass re_bold. quiet_pass re_italic. quiet_pass re_item.
    quiet_pass re_items. quiet_pass re_numbered.
    hit_blank. rewrite !lits_plain, <- ?app_assoc.
    exact (cleanup_header 50%N T B eq_refl HT HN HB H0).
  - hit_line re_h3 "### "%string T ([NL; NL] ++ B).
    rewrite <- ?app_assoc. quiet_pass re_h2. quiet_pass re_h1.
    unfold bold, italic, unordered_lists, ordered_lists, paragraphs.
    quiet_pass re_bold. quiet_pass re_italic. quiet_pass re_item.
    quiet_pass re_items. quiet_pass re_numbered.
    hit_blank. rewrite !lits_plain, <- ?app_assoc.
    exact (cleanup_header 51%N T B eq_refl HT HN HB H0).
Qed.

(** ** Ordered lists *)

Lemma digit_facts c :
  is_digit c = true ->
  inert c = true /\ escaped c = false
  /\ (c =? 96)%N = false /\ (c =? 35)%N = false /\ (c =? 42)%N = false
  /\ (c =? 45)%N = false /\ (c =? 60)%N = false /\ (c =? 46)%N = false.
Proof.
  unfold is_digit. intros H. apply andb_true_iff in H. destruct H as [H1 H2].
  apply N.leb_le in H1, H2.
  assert (E : forall d, (d < 48 \/ 57 < d)%N -> (c =? d)%N = false).
  { intros d Hd. apply N.eqb_neq. lia. }
  unfold inert, escaped, is_line_terminator, BACKTICK, STAR, LTC, AMP, GTC, NBSP.
  rewrite !E by lia. repeat split; reflexivity.
Qed.

Ltac digit_quiet :=
  let pv := fresh "pv" in let c := fresh "c" in let Hc := fresh "Hc" in
  intros pv c Hc;
  destruct (digit_facts c Hc) as (_ & _ & B1 & B2 & B3 & B4 & B5 & B6);
  unfold can_match; cbn; unfold is_char, is_not_char, plain;
  rewrite ?B1, ?B2, ?B3, ?B4, ?B5, ?B6, ?andb_false_r; reflexivity.

Lemma m_numbered_marker n :
  n <> [] -> Forall (fun c => is_digit c = true) n ->
  matches_tag (Plus (Chr is_digit) ;; L ". ")%re (n ++ str ". ").
Proof.
  intros Hn Hd p s cs. destruct n as [|n0 n]; [contradiction|].
  inversion Hd as [|? ? H0 Hd']; subst.
  unfold Plus, L. rewrite <- app_assoc.
  rewrite m_Seq, m_Seq. cbn [app]. rewrite m_Chr. change (plain n0) with n0.
  rewrite H0. cbn [flat_map]. rewrite app_nil_r.
  rewrite star_skip_run; [|exact Hd'|].
  2:{ intros u1 d u2 E. rewrite m_Lit. cbn [map].
      rewrite starts_with_head; [reflexivity|].
      cbn. unfold plain. intros <-.
      rewrite Forall_forall in Hd'. specialize (Hd' 46%N).
      rewrite E in Hd'. discriminate Hd'. apply in_elt. }
  rewrite m_star_chr_stop by reflexivity.
  cbn [flat_map]. rewrite app_nil_r, m_Lit_app.
  rewrite lastp_cons, lastp_app. reflexivity.
Qed.

(** A whole line [w ++ X] under the pattern [^mk(.+)$], for a marker
    [mk] that matches [w]. *)
Lemma exec_line_tag mk w p X s :
  matches_tag mk w ->
  line_start p -> X <> [] -> Forall (fun c => is_dot c = true) X -> line_end s ->
  exec plain (re_line mk) p (w ++ X ++ s)
  = Some (MState (lastp p (w ++ X)) s [(1, X)]).
Proof.
  intros Hmk Hp HX Hd Hs. destruct X as [|x X]; [contradiction|].
  inversion Hd as [|? ? Hx Hd']; subst.
  unfold exec, re_line. rewrite m_Seq.
  assert (Hb : m plain Bol (MState p (w ++ (x :: X) ++ s) [])
               = [MState p (w ++ (x :: X) ++ s) []]).
  { simpl. unfold at_bol. cbn [prev]. destruct p as [c|]; [|reflexivity].
    simpl in Hp. unfold plain. now rewrite Hp. }
  rewrite Hb. cbn [flat_map]. rewrite app_nil_r.
  rewrite m_Seq, Hmk. cbn [flat_map]. rewrite app_nil_r.
  rewrite m_Seq, m_Group, flat_map_map. unfold Plus.
  rewrite m_Seq. cbn [app]. rewrite m_Chr. change (plain x) with x. rewrite Hx.
  cbn [flat_map]. rewrite app_nil_r.
  rewrite star_skip_run; [|exact Hd'|].
  2:{ intros u1 d u2 E. unfold set_cap. cbn [prev rest caps m at_eol].
      assert (Hdd : is_dot d = true).
      { rewrite Forall_forall in Hd'. apply Hd'. rewrite E. apply in_elt. }
      unfold is_dot in Hdd. apply negb_true_iff in Hdd. unfold plain.
      now rewrite Hdd. }
  rewrite m_star_chr_stop.
  2:{ destruct s as [|c s]; [reflexivity|]. simpl in Hs. unfold is_dot, plain.
      now rewrite Hs. }
  cbn [flat_map]. rewrite app_nil_r.
  change (x :: X ++ s) with ((x :: X) ++ s).
  rewrite set_cap_app. cbn [m at_eol rest].
  assert (He : at_eol plain (MState (lastp (Some x) X) s [(1, x :: X)]) = true).
  { unfold at_eol. cbn [rest]. destruct s as [|c s]; [reflexivity|]. exact Hs. }
  rewrite He. cbn [hd_error]. rewrite !lastp_app. reflexivity.
Qed.

Lemma numbered_lines_cons it its :
  numbered_lines (it :: its)
  = (fst it ++ str ". ") ++ snd it
    ++ match its with [] => [] | _ :: _ => NL :: numbered_lines its end.
Proof.
  unfold numbered_lines. destruct its as [|it2 its].
  - cbn [map unlines]. now rewrite app_nil_r, <- app_assoc.
  - cbn [map]. rewrite unlines_cons2. now rewrite <- !app_assoc.
Qed.

(** A pattern that starts neither at a digit nor at a line feed, nor in
    text, finds nothing in the lines of an ordered list. *)
Lemma dead_numbered_lines r :
  calm r ->
  (forall pv c, is_digit c = true -> can_match r (pv, Some c) = false) ->
  (forall pv, can_match r (pv, Some NL) = false) ->
  forall its p s,
    Forall (fun it => fst it <> [] /\ Forall (fun c => is_digit c = true) (fst it)
                      /\ Forall (fun c => inert c = true) (snd it)) its ->
    dead r p (numbered_lines its) s.
Proof.
  intros Hc Hd Hn. induction its as [|[n E] its IH]; intros p s H; [exact I|].
  inversion H as [|? ? (H1 & H2 & H3) H']; subst. cbn [fst snd] in *.
  rewrite numbered_lines_cons. cbn [fst snd].
  destruct n as [|n0 n]; [contradiction|].
  inversion H2 as [|? ? D0 D']; subst.
  assert (HI : Forall (fun c => inert c = true) ((n ++ str ". ") ++ E)).
  { apply Forall_app. split; [apply Forall_app; split|exact H3].
    - revert D'. apply Forall_impl. intros c Hc'. now apply digit_facts.
    - repeat constructor. }
  apply Forall_app in HI. destruct HI as [HI1 HI2].
  apply dead_app; [|apply dead_app].
  - cbn [app dead]. split.
    + apply exec_none. simpl. now apply Hd.
    + apply dead_inert; auto.
      left. simpl. destruct (digit_facts n0 D0) as (Hi & _).
      now apply inert_not_lt.
  - apply dead_inert; auto. left. rewrite lastp_app. reflexivity.
  - destruct its as [|it2 its]; [exact I|].
    cbn [dead]. split; [apply exec_none, Hn|]. now apply IH.
Qed.

Lemma replace_numbered_id r tpl its :
  never_empty r = true -> calm r ->
  (forall pv c, is_digit c = true -> can_match r (pv, Some c) = false) ->
  (forall pv, can_match r (pv, Some NL) = false) ->
  Forall (fun it => fst it <> [] /\ Forall (fun c => is_digit c = true) (fst it)
                    /\ Forall (fun c => inert c = true) (snd it)) its ->
  replace plain r tpl (numbered_lines its) = numbered_lines its.
Proof.
  intros Hz Hc Hd Hn H. apply replace_all_dead; [exact Hz|].
  now apply dead_numbered_lines.
Qed.

(** The ordered-list pattern rewrites every numbered line. *)
Lemma replace_numbered_lines its :
  Forall (fun it => fst it <> [] /\ Forall (fun c => is_digit c = true) (fst it)
                    /\ snd it <> []
                    /\ Forall (fun c => inert c = true) (snd it)) its ->
  forall p, line_start p ->
  replace_from plain re_numbered (wrap1 plain "<li>" "</li>") 0 p (numbered_lines its)
  = li_lines (map snd its).
Proof.
  induction its as [|[n E] its IH]; intros H p Hp.
  - apply replace_from_nil. reflexivity.
  - inversion H as [|? ? (H1 & H2 & H3 & H4) H']; subst. cbn [fst snd] in *.
    rewrite numbered_lines_cons. cbn [map fst snd]. rewrite li_lines_cons.
    assert (Hs : line_end (match its with
                           | [] => []
                           | _ :: _ => NL :: numbered_lines its
                           end))
      by (destruct its; [exact I|reflexivity]).
    pose proof (exec_line_tag _ _ p E _ (m_numbered_marker n H1 H2) Hp H3
                  (inert_is_dot E H4) Hs) as Hx.
    unfold re_numbered.
    rewrite (replace_from_match plain
               (re_line (Plus (Chr is_digit) ;; L ". ")%re) _ _ _ _ eq_refl Hx).
    cbn [prev rest]. rewrite wrap1_plain. rewrite <- !app_assoc. do 3 f_equal.
    destruct its as [|it2 its].
    + apply replace_from_nil. reflexivity.
    + cbn [map]. rewrite replace_from_none.
      2:{ apply exec_none. apply can_match_re_line; [reflexivity|]. right. reflexivity. }
      f_equal. apply (IH H'). reflexivity.
Qed.

Lemma replace_in_paragraph r tpl Es :
  Es <> [] ->
  never_empty r = true ->
  (forall p s, dead r p (str "<p>") (str "<li>" ++ s)) ->
  (forall p s, dead r p (li_lines Es) s) ->
  (forall p, dead r p (str "</p>") []) ->
  replace plain r tpl (str "<p>" ++ li_lines Es ++ str "</p>")
  = str "<p>" ++ li_lines Es ++ str "</p>".
Proof.
  intros HN Hz H1 H2 H3. apply replace_all_dead; [exact Hz|].
  apply dead_app.
  - destruct Es as [|E Es]; [contradiction|].
    rewrite li_lines_cons, <- !app_assoc. apply H1.
  - apply dead_app; [apply H2|apply H3].
Qed.

Ltac in_paragraph r H :=
  rewrite (replace_in_paragraph r);
  [ | assumption | reflexivity | intros; dead_tac | unfold li_lines; lines_tac H
    | intros; dead_tac ].

Lemma markup_numbered its :
  its <> [] ->
  Forall (fun it => fst it <> [] /\ Forall (fun c => is_digit c = true) (fst it)
                    /\ snd it <> []
                    /\ Forall (fun c => inert c = true) (snd it)) its ->
  markup plain plain (numbered_lines its)
  = str "<p>" ++ li_lines (map snd its) ++ str "</p>".
Proof.
  intros HN H.
  assert (H' : Forall (fun it => fst it <> []
                                 /\ Forall (fun c => is_digit c = true) (fst it)
                                 /\ Forall (fun c => inert c = true) (snd it)) its).
  { revert H. apply Forall_impl. intros it (H1 & H2 & H3 & H4). auto. }
  assert (HT : texts (map snd its)).
  { unfold texts. rewrite Forall_map. revert H. apply Forall_impl.
    intros it (H1 & H2 & H3 & H4). auto. }
  assert (HN' : map snd its <> []) by (destruct its; [contradiction|discriminate]).
  unfold markup, code_blocks, inline_code, headers, bold, italic,
    unordered_lists, ordered_lists, paragraphs.
  rewrite (replace_numbered_id re_fence)
    by (reflexivity || apply calm_fence || digit_quiet || nl_quiet || exact H').
  rewrite (replace_numbered_id re_inline)
    by (reflexivity || apply calm_inline || digit_quiet || nl_quiet || exact H').
  rewrite (replace_numbered_id re_h3)
    by (reflexivity || apply calm_h3 || digit_quiet || nl_quiet || exact H').
  rewrite (replace_numbered_id re_h2)
    by (reflexivity || apply calm_h2 || digit_quiet || nl_quiet || exact H').
  rewrite (replace_numbered_id re_h1)
    by (reflexivity || apply calm_h1 || digit_quiet || nl_quiet || exact H').
  rewrite (replace_numbered_id re_bold)
    by (reflexivity || apply calm_bold || digit_quiet || nl_quiet || exact H').
  rewrite (replace_numbered_id re_italic)
    by (reflexivity || apply calm_italic || digit_quiet || nl_quiet || exact H').
  rewrite (replace_numbered_id re_item)
    by (reflexivity || apply calm_item || digit_quiet || nl_quiet || exact H').
  rewrite (replace_numbered_id re_items)
    by (reflexivity || apply calm_items || digit_quiet || nl_quiet || exact H').
  unfold replace at 2. rewrite (replace_numbered_lines its H None I).
  unfold li_lines at 1.
  rewrite (replace_lines_id re_blank); [|reflexivity|lines_tac calm_blank].
  rewrite !lits_plain. fold (li_lines (map snd its)).
  unfold cleanup.
  in_paragraph re_empty_p calm_empty_p.
  in_paragraph (re_p_before tag_h_open) (calm_p_before tag_h_open).
  in_paragraph (re_p_after tag_h_close) calm_p_after_h.
  in_paragraph (re_p_before (L "<pre>")) (calm_p_before (L "<pre>")).
  in_paragraph (re_p_after (L "</pre>")) calm_p_after_pre.
  in_paragraph (re_p_before (L "<ul>")) (calm_p_before (L "<ul>")).
  in_paragraph (re_p_after (L "</ul>")) calm_p_after_ul.
  reflexivity.
Qed.

(** ** The renderer on whole messages *)

(** X12.  A message that holds only white space (spaces, tabs, line
    feeds and the like, the no-break space apart) renders to the empty
    string: no empty paragraph is left in the output, however many blank
    lines the message has.  The no-break space is escaped first and so
    stays, in a paragraph. *)
Theorem render_blank_message :
  (forall s, Forall (fun c => blank c = true) s -> renderMarkdown s = [])
  /\ renderMarkdown [NBSP] = str "<p>&nbsp;</p>".
Proof. split; [exact render_blank|vm_compute; reflexivity]. Qed.

Lemma render_blank_message_witness :
  renderMarkdown (str "  " ++ NL :: NL :: 9%N :: NL :: NL :: NL :: str " ") = [].
Proof.
  refine (proj1 render_blank_message _ _). repeat constructor.
Defined.

(** X13.  Texts separated by blank lines become paragraphs: for one or
    more non-empty texts without markup characters, each beginning with
    an ordinary character, the message that joins them with one blank
    line between each two renders to one [<p>..</p>] per text, in order,
    each holding the escaped text, with nothing between the paragraphs. *)
Theorem blank_lines_separate_paragraphs :
  forall Xs,
    Xs <> [] ->
    Forall (fun X => X <> [] /\ Forall (fun c => markup_free c = true) X
                     /\ head_ordinary X) Xs ->
    renderMarkdown (blank_separated Xs)
    = concat (map (fun X => str "<p>" ++ escapeHtml X ++ str "</p>") Xs).
Proof. exact render_blank_separated. Qed.

Lemma blank_lines_separate_paragraphs_witness :
  renderMarkdown (str "a < b" ++ NL :: NL :: str "c & d" ++ NL :: NL :: str "e")
  = str "<p>a &lt; b</p><p>c &amp; d</p><p>e</p>".
Proof.
  refine (blank_lines_separate_paragraphs [str "a < b"; str "c & d"; str "e"] _ _).
  - discriminate.
  - repeat constructor; discriminate.
Defined.

(** X14.  Emphasis inside a line of text: for texts [A], [X], [B]
    without markup characters, [X] non-empty and [A] beginning with an
    ordinary character (or empty), the message [A**X**B] renders to
    [<p>A<strong>X</strong>B</p>] and the message [A*X*B] to
    [<p>A<em>X</em>B</p>], the three texts escaped. *)
Theorem emphasis_in_paragraph :
  forall A X B,
    Forall (fun c => markup_free c = true) A -> head_ordinary A ->
    X <> [] -> Forall (fun c => markup_free c = true) X ->
    Forall (fun c => markup_free c = true) B ->
    renderMarkdown (A ++ str "**" ++ X ++ str "**" ++ B)
    = str "<p>" ++ escapeHtml A ++ str "<strong>" ++ escapeHtml X
      ++ str "</strong>" ++ escapeHtml B ++ str "</p>"
    /\ renderMarkdown (A ++ str "*" ++ X ++ str "*" ++ B)
       = str "<p>" ++ escapeHtml A ++ str "<em>" ++ escapeHtml X
         ++ str "</em>" ++ escapeHtml B ++ str "</p>".
Proof. exact render_emphasis. Qed.

Lemma emphasis_in_paragraph_witness :
  renderMarkdown (str "a **b & c** d")
  = str "<p>a <strong>b &amp; c</strong> d</p>"
  /\ renderMarkdown (str "*x* > y") = str "<p><em>x</em> &gt; y</p>".
Proof.
  split.
  - refine (proj1 (emphasis_in_paragraph (str "a ") (str "b & c") (str " d")
                     _ _ _ _ _)).
    + repeat constructor.
    + reflexivity.
    + discriminate.
    + repeat constructor.
    + repeat constructor.
  - refine (proj2 (emphasis_in_paragraph [] (str "x") (str " > y") _ _ _ _ _)).
    + constructor.
    + exact I.
    + discriminate.
    + repeat constructor.
    + repeat constructor.
Defined.

(** X15.  A header line, a blank line and a text: the header comes out
    as a block of its own, outside of any paragraph, and the text as a
    paragraph right behind it.  For [# T], [## T] and [### T], with [T]
    and [B] non-empty texts without markup characters and [B] beginning
    with an ordinary character, the output is [<hN>T</hN><p>B</p>]. *)
Theorem header_then_paragraph :
  forall mark o c T B,
    In (mark, o, c) [("# ", "<h1>", "</h1>"); ("## ", "<h2>", "</h2>");
                     ("### ", "<h3>", "</h3>")]%string ->
    T <> [] -> Forall (fun c => markup_free c = true) T ->
    B <> [] -> Forall (fun c => markup_free c = true) B -> head_ordinary B ->
    renderMarkdown (blank_separated [str mark ++ T; B])
    = str o ++ escapeHtml T ++ str c ++ str "<p>" ++ escapeHtml B ++ str "</p>".
Proof.
  intros mark o c T B Hin HNT HT HNB HB H0. unfold renderMarkdown.
  cbn [blank_separated].
  change ((str mark ++ T) ++ NL :: NL :: B) with ((str mark ++ T) ++ [NL; NL] ++ B).
  rewrite !escapeHtml_app.
  assert (Em : escapeHtml (str mark) = str mark).
  { destruct Hin as [E|[E|[E|[]]]]; inversion E; reflexivity. }
  rewrite Em. change (escapeHtml [NL; NL]) with [NL; NL].
  rewrite <- app_assoc.
  destruct (escapeHtml_texty B HB H0) as [HB' H0'].
  apply markup_header; auto using escapeHtml_nonempty, escapeHtml_inert.
Qed.

Lemma header_then_paragraph_witness :
  renderMarkdown (str "## Plan" ++ NL :: NL :: str "a < b")
  = str "<h2>Plan</h2><p>a &lt; b</p>".
Proof.
  refine (header_then_paragraph "## " "<h2>" "</h2>" (str "Plan") (str "a < b")
            _ _ _ _ _ _).
  - right; left; reflexivity.
  - discriminate.
  - repeat constructor.
  - discriminate.
  - repeat constructor.
  - reflexivity.
Defined.

(** X16.  Lines of an ordered list, [N. text] with [N] one or more
    digits, lose their numbers and become [<li>text</li>] items, one per
    line and still separated by the line feeds of the input; no list
    element is put around them, and the items stay inside the paragraph
    [<p>..</p>] of the message. *)
Theorem ordered_list_items :
  forall items,
    items <> [] ->
    Forall (fun it => fst it <> []
                      /\ Forall (fun c => is_digit c = true) (fst it)
                      /\ snd it <> []
                      /\ Forall (fun c => markup_free c = true) (snd it)) items ->
    renderMarkdown (numbered_lines items)
    = str "<p>"
      ++ unlines (map (fun it => str "<li>" ++ escapeHtml (snd it) ++ str "</li>")
                      items)
      ++ str "</p>".
Proof.
  intros items HN H. unfold renderMarkdown.
  set (its := map (fun it => (fst it, escapeHtml (snd it))) items).
  assert (E : escapeHtml (numbered_lines items) = numbered_lines its).
  { unfold numbered_lines, its. rewrite escapeHtml_unlines, !map_map.
    f_equal. apply map_ext_in. intros [n X] HIn. cbn [fst snd].
    rewrite Forall_forall in H. destruct (H _ HIn) as (_ & H2 & _).
    cbn [fst] in H2. rewrite !escapeHtml_app.
    change (escapeHtml (str ". ")) with (str ". ").
    rewrite (escapeHtml_plain n); [reflexivity|].
    revert H2. apply Forall_impl. intros c Hc. now apply digit_facts. }
  rewrite E, markup_numbered.
  - unfold li_lines, framed, its. now rewrite !map_map.
  - unfold its. destruct items; [contradiction|discriminate].
  - unfold its. rewrite Forall_map. revert H. apply Forall_impl.
    intros [n X] (H1 & H2 & H3 & H4). cbn [fst snd] in *.
    auto using escapeHtml_nonempty, escapeHtml_inert.
Qed.

Lemma ordered_list_items_witness :
  renderMarkdown (str "1. a" ++ NL :: str "2. b < c" ++ NL :: str "10. d")
  = str "<p><li>a</li>" ++ NL :: str "<li>b &lt; c</li>" ++ NL :: str "<li>d</li></p>".
Proof.
  refine (ordered_list_items
            [(str "1", str "a"); (str "2", str "b < c"); (str "10", str "d")] _ _).
  - discriminate.
  - repeat constructor; discriminate.
Defined.

(** ** The lock of the assistant chat *)

Section ChatbotFacts.

Context {file id : Type} (name : file -> jsstring) (truthy : id -> bool).

Lemma sendMessage_cases text (st : Chatbot.app file id) :
  Chatbot.isWaiting st = false ->
  (Chatbot.sendMessage name truthy text st
   = Chatbot.emit
       (Chatbot.showError (str "Please enter a message or attach a file.")) st
   /\ Chatbot.message_of text st = [] /\ Chatbot.fileInput_files st = [])
  \/ (Chatbot.isWaiting (Chatbot.sendMessage name truthy text st) = true
      /\ Chatbot.sendBtn_disabled (Chatbot.sendMessage name truthy text st) = true
      /\ Chatbot.typingIndicator_hidden (Chatbot.sendMessage name truthy text st) = false
      /\ (exists h, Chatbot.awaiting (Chatbot.sendMessage name truthy text st)
                    = Chatbot.awaiting st ++ [h])
      /\ Chatbot.requests (Chatbot.sendMessage name truthy text st)
         = S (Chatbot.requests st)
      /\ exists pre q,
           Chatbot.effects (Chatbot.sendMessage name truthy text st)
           = Chatbot.effects st ++ pre ++ [q]
           /\ Forall (fun e => Chatbot.is_request e = false) pre
           /\ (q = Chatbot.fetch_chat (Chatbot.message_of text st)
                     (Chatbot.conversation truthy st)
               /\ Chatbot.message_of text st <> []
               /\ Chatbot.fileInput_files st = []
               \/ exists f fs,
                    Chatbot.fileInput_files st = f :: fs
                    /\ q = Chatbot.fetch_upload f
                             (if is_empty (Chatbot.message_of text st) then None
                              else Some (Chatbot.message_of text st))
                             (Chatbot.conversation truthy st))).
Proof.
  intros W. unfold Chatbot.sendMessage. rewrite W.
  destruct (Chatbot.message_of text st) as [|m0 m] eqn:M;
    destruct st as [w c v fs ph sd th aw ef]; cbn in W; subst w;
    destruct fs as [|f fs]; cbn.
  - left. auto.
  - right. repeat split; eauto.
    + unfold Chatbot.requests. cbn. rewrite <- !app_assoc, !filter_app, !length_app.
      cbn. lia.
    + eexists [_], _. rewrite <- !app_assoc. cbn. split; [reflexivity|].
      split; [repeat constructor|]. right. eauto.
  - right. repeat split; eauto.
    + unfold Chatbot.requests. cbn. rewrite <- !app_assoc, !filter_app, !length_app.
      cbn. lia.
    + eexists [_], _. rewrite <- !app_assoc. cbn. split; [reflexivity|].
      split; [repeat constructor|]. left. repeat split. discriminate.
  - right. repeat split; eauto.
    + unfold Chatbot.requests. cbn. rewrite <- !app_assoc, !filter_app, !length_app.
      cbn. lia.
    + eexists [_; _], _. rewrite <- !app_assoc. cbn. split; [reflexivity|].
      split; [repeat constructor|]. right. eauto.
Qed.

Lemma sendMessage_waiting text (st : Chatbot.app file id) :
  Chatbot.isWaiting st = true -> Chatbot.sendMessage name truthy text st = st.
Proof. intros W. unfold Chatbot.sendMessage. now rewrite W. Qed.

Lemma resumed_facts h r (st : Chatbot.app file id) :
  Chatbot.isWaiting (Chatbot.sendMessage_resumed truthy h r st) = false
  /\ Chatbot.sendBtn_disabled (Chatbot.sendMessage_resumed truthy h r st) = false
  /\ Chatbot.typingIndicator_hidden (Chatbot.sendMessage_resumed truthy h r st) = true
  /\ Chatbot.awaiting (Chatbot.sendMessage_resumed truthy h r st) = Chatbot.awaiting st
  /\ exists l, Chatbot.effects (Chatbot.sendMessage_resumed truthy h r st)
               = Chatbot.effects st ++ l
               /\ Forall (fun e => Chatbot.is_request e = false) l.
Proof.
  destruct st as [w c v fs ph sd th aw ef].
  destruct r as [m|[|] m|[|] [e ci am sg]]; destruct h; cbn;
    repeat split;
    try (destruct ci as [i|]; [destruct (truthy i)|]);
    try (destruct am as [a|]); cbn; try reflexivity;
    try (eexists; split; [reflexivity|repeat constructor]);
    try (eexists; split; [rewrite <- app_assoc; reflexivity|repeat constructor]).
Qed.

Lemma requests_app (st st' : Chatbot.app file id) l :
  Chatbot.effects st' = Chatbot.effects st ++ l ->
  Forall (fun e => Chatbot.is_request e = false) l ->
  Chatbot.requests st' = Chatbot.requests st.
Proof.
  intros E H. unfold Chatbot.requests. rewrite E, filter_app, length_app.
  assert (Z : filter (@Chatbot.is_request file id) l = []).
  { clear E. induction l as [|e l IH]; [reflexivity|].
    inversion H as [|? ? He Hl]; subst. cbn [filter]. rewrite He. now apply IH. }
  rewrite Z. cbn. lia.
Qed.

Lemma step_locked (st : Chatbot.app file id) e :
  Chatbot.locked st -> Chatbot.locked (Chatbot.step name truthy st e).
Proof.
  intros L. destruct e as [text|v fs ph|r|c]; cbn.
  - destruct L as [[W A]|[W A]].
    + destruct (sendMessage_cases text st W)
        as [(E & _)|(W' & _ & _ & (h & A') & _)].
      * rewrite E. left. cbn. auto.
      * right. split; [exact W'|]. exists h. now rewrite A', A.
    + rewrite sendMessage_waiting by exact W. right. auto.
  - destruct st; exact L.
  - destruct L as [[W A]|[W (h & A)]]; rewrite A; [left; auto|].
    destruct (resumed_facts h r (Chatbot.set_awaiting [] st))
      as (W' & _ & _ & A' & _).
    left. split; [exact W'|]. rewrite A'. now destruct st.
  - destruct st; exact L.
Qed.

Lemma step_shown (st : Chatbot.app file id) e :
  Chatbot.locked st -> Chatbot.shown st ->
  Chatbot.shown (Chatbot.step name truthy st e).
Proof.
  intros L [S1 S2]. destruct e as [text|v fs ph|r|c]; cbn.
  - destruct (Chatbot.isWaiting st) eqn:W.
    + rewrite sendMessage_waiting by exact W. split; [now rewrite W in *|].
      now rewrite W.
    + destruct (sendMessage_cases text st W) as [(E & _)|(W' & B & T & _)].
      * rewrite E. destruct st; unfold Chatbot.shown; cbn in *.
        split; rewrite W; cbn; assumption.
      * split; [now rewrite W', B|now rewrite W', T].
  - destruct st; split; [exact S1|exact S2].
  - destruct (Chatbot.awaiting st) as [|h aw]; [split; assumption|].
    destruct (resumed_facts h r (Chatbot.set_awaiting aw st))
      as (W' & B & T & _).
    split; [now rewrite W', B|now rewrite W', T].
  - destruct st; split; [exact S1|exact S2].
Qed.

Lemma step_requests (st : Chatbot.app file id) e :
  Chatbot.locked st ->
  Chatbot.requests (Chatbot.step name truthy st e) + length (Chatbot.awaiting st)
  <= Chatbot.requests st + (if Chatbot.is_answer e then 1 else 0)
     + length (Chatbot.awaiting (Chatbot.step name truthy st e)).
Proof.
  intros L. destruct e as [text|v fs ph|r|c]; cbn.
  - destruct (Chatbot.isWaiting st) eqn:W.
    + rewrite sendMessage_waiting by exact W. lia.
    + destruct (sendMessage_cases text st W)
        as [(E & _)|(_ & _ & _ & (h & A') & R & _)].
      * rewrite E. unfold Chatbot.requests. cbn.
        rewrite filter_app, length_app. cbn. lia.
      * rewrite R, A', length_app. cbn. lia.
  - destruct st; cbn. lia.
  - destruct (Chatbot.awaiting st) as [|h aw] eqn:A; [cbn; lia|].
    destruct (resumed_facts h r (Chatbot.set_awaiting aw st))
      as (_ & _ & _ & A' & l & E & H).
    rewrite (requests_app (Chatbot.set_awaiting aw st) _ l E H), A'.
    destruct st; cbn in *. unfold Chatbot.requests. cbn. lia.
  - destruct st; cbn. lia.
Qed.

Lemma run_locked es : forall st : Chatbot.app file id,
  Chatbot.locked st -> Chatbot.locked (Chatbot.run name truthy st es).
Proof.
  induction es as [|e es IH]; intros st L; [exact L|].
  cbn. apply IH. now apply step_locked.
Qed.

Lemma run_shown es : forall st : Chatbot.app file id,
  Chatbot.locked st -> Chatbot.shown st ->
  Chatbot.shown (Chatbot.run name truthy st es).
Proof.
  induction es as [|e es IH]; intros st L S; [exact S|].
  cbn. apply IH; [now apply step_locked|now apply step_shown].
Qed.

Lemma run_requests es : forall st : Chatbot.app file id,
  Chatbot.locked st ->
  Chatbot.requests (Chatbot.run name truthy st es) + length (Chatbot.awaiting st)
  <= Chatbot.requests st + Chatbot.answers es
     + length (Chatbot.awaiting (Chatbot.run name truthy st es)).
Proof.
  induction es as [|e es IH]; intros st L; [cbn; lia|].
  cbn [Chatbot.run fold_left].
  pose proof (IH (Chatbot.step name truthy st e) (step_locked st e L)) as H1.
  pose proof (step_requests st e L) as H2.
  unfold Chatbot.run in H1.
  assert (A : Chatbot.answers (e :: es)
              = (if Chatbot.is_answer e then 1 else 0) + Chatbot.answers es).
  { unfold Chatbot.answers. cbn. destruct (Chatbot.is_answer e); reflexivity. }
  rewrite A. lia.
Qed.

Lemma conversation_sound (st : Chatbot.app file id) :
  Chatbot.sound_conversation truthy (Chatbot.conversation truthy st).
Proof.
  unfold Chatbot.conversation, Chatbot.sound_conversation.
  destruct (Chatbot.currentConversationId st) as [i|]; [|exact I].
  destruct (truthy i) eqn:T; [exact T|exact I].
Qed.

Lemma not_request_sound l :
  Forall (fun e => @Chatbot.is_request file id e = false) l ->
  Forall (Chatbot.sound truthy) l.
Proof.
  apply Forall_impl. intros e H. destruct e; try exact I; discriminate H.
Qed.

Lemma step_sound (st : Chatbot.app file id) e :
  Forall (Chatbot.sound truthy) (Chatbot.effects st) ->
  Forall (Chatbot.sound truthy) (Chatbot.effects (Chatbot.step name truthy st e)).
Proof.
  intros H. destruct e as [text|v fs ph|r|c]; cbn.
  - destruct (Chatbot.isWaiting st) eqn:W.
    + now rewrite sendMessage_waiting.
    + destruct (sendMessage_cases text st W)
        as [(E & _)|(_ & _ & _ & _ & _ & pre & q & E & Hp & Hq)].
      * rewrite E. cbn. apply Forall_app. split; [exact H|]. repeat constructor.
      * rewrite E. apply Forall_app. split; [exact H|].
        apply Forall_app. split; [now apply not_request_sound|].
        constructor; [|constructor].
        destruct Hq as [(-> & M & _)|(f & fs & _ & ->)]; cbn.
        -- split; [exact M|apply conversation_sound].
        -- split; [|apply conversation_sound].
           destruct (Chatbot.message_of text st); cbn; discriminate.
  - now destruct st.
  - destruct (Chatbot.awaiting st) as [|h aw]; [exact H|].
    destruct (resumed_facts h r (Chatbot.set_awaiting aw st))
      as (_ & _ & _ & _ & l & E & Hl).
    rewrite E. apply Forall_app. split; [now destruct st|].
    now apply not_request_sound.
  - now destruct st.
Qed.

Lemma run_sound es : forall st : Chatbot.app file id,
  Forall (Chatbot.sound truthy) (Chatbot.effects st) ->
  Forall (Chatbot.sound truthy) (Chatbot.effects (Chatbot.run name truthy st es)).
Proof.
  induction es as [|e es IH]; intros st H; [exact H|].
  cbn. apply IH. now apply step_sound.
Qed.

End ChatbotFacts.

(** X17.  The assistant chat sends one message at a time.  From a page
    that is not waiting, whatever the user does (sending by button, key
    or suggestion, editing the message, choosing files, opening another
    conversation) and whatever responses arrive: at most one call of
    [sendMessage] is suspended at its request; [isWaiting] is set
    exactly while one is (so every response, good or bad, and every
    failure of the connection releases the lock); the number of
    requests sent never exceeds the number of responses received by
    more than one; and a call of [sendMessage] while waiting, as by a
    second click, changes nothing at all: nothing is shown, nothing is
    sent and the text typed meanwhile stays in the box. *)
Theorem sendMessage_one_at_a_time :
  forall (file id : Type) (name : file -> jsstring) (truthy : id -> bool)
         (st0 : Chatbot.app file id) (es : list (Chatbot.event file id)),
    Chatbot.isWaiting st0 = false -> Chatbot.awaiting st0 = [] ->
    length (Chatbot.awaiting (Chatbot.run name truthy st0 es)) <= 1
    /\ (Chatbot.isWaiting (Chatbot.run name truthy st0 es) = true
        <-> Chatbot.awaiting (Chatbot.run name truthy st0 es) <> [])
    /\ Chatbot.requests (Chatbot.run name truthy st0 es)
       <= Chatbot.requests st0 + Chatbot.answers es + 1
    /\ (forall text,
           Chatbot.isWaiting (Chatbot.run name truthy st0 es) = true ->
           Chatbot.sendMessage name truthy text (Chatbot.run name truthy st0 es)
           = Chatbot.run name truthy st0 es).
Proof.
  intros file id name truthy st0 es W A.
  assert (L0 : Chatbot.locked st0) by (left; auto).
  pose proof (run_locked name truthy es st0 L0) as L.
  pose proof (run_requests name truthy es st0 L0) as R.
  rewrite A in R. cbn [length] in R.
  assert (B : length (Chatbot.awaiting (Chatbot.run name truthy st0 es)) <= 1).
  { destruct L as [[_ E]|[_ (h & E)]]; rewrite E; cbn; lia. }
  split; [exact B|]. split; [|split].
  - destruct L as [[W' E]|[W' (h & E)]]; rewrite W', E; split; intros H;
      try discriminate; try reflexivity. now contradiction H.
  - lia.
  - intros text. apply sendMessage_waiting.
Qed.

Lemma sendMessage_one_at_a_time_witness :
  Chatbot.requests
    (Chatbot.run (fun f : jsstring => f) (fun n : nat => negb (n =? 0))
       (Chatbot.App false None (str " hi ") [] true false true [] [])
       [Chatbot.Send None; Chatbot.Send None; Chatbot.Send (Some (str "again"));
        Chatbot.Answer (Chatbot.Thrown (str "Failed to fetch"));
        Chatbot.Send (Some (str "again"))])
  <= 0 + 1 + 1.
Proof.
  exact (proj1 (proj2 (proj2
           (sendMessage_one_at_a_time jsstring nat (fun f => f)
              (fun n => negb (n =? 0))
              (Chatbot.App false None (str " hi ") [] true false true [] [])
              [Chatbot.Send None; Chatbot.Send None;
               Chatbot.Send (Some (str "again"));
               Chatbot.Answer (Chatbot.Thrown (str "Failed to fetch"));
               Chatbot.Send (Some (str "again"))]
              eq_refl eq_refl)))).
Defined.

(** X18.  The page shows the lock.  When the send button starts enabled
    and the typing indicator hidden, then after any events the button
    is disabled exactly while [isWaiting] is set, and the typing
    indicator is shown exactly then: they are never left disabled or
    shown after a response or a failure. *)
Theorem sendMessage_lock_shown :
  forall (file id : Type) (name : file -> jsstring) (truthy : id -> bool)
         (st0 : Chatbot.app file id) (es : list (Chatbot.event file id)),
    Chatbot.isWaiting st0 = false -> Chatbot.awaiting st0 = [] ->
    Chatbot.sendBtn_disabled st0 = false ->
    Chatbot.typingIndicator_hidden st0 = true ->
    Chatbot.sendBtn_disabled (Chatbot.run name truthy st0 es)
    = Chatbot.isWaiting (Chatbot.run name truthy st0 es)
    /\ Chatbot.typingIndicator_hidden (Chatbot.run name truthy st0 es)
       = negb (Chatbot.isWaiting (Chatbot.run name truthy st0 es)).
Proof.
  intros file id name truthy st0 es W A B T.
  apply (run_shown name truthy es st0).
  - left. auto.
  - split; [now rewrite W, B|now rewrite W, T].
Qed.

Lemma sendMessage_lock_shown_witness :
  Chatbot.sendBtn_disabled
    (Chatbot.run (fun f : jsstring => f) (fun n : nat => negb (n =? 0))
       (Chatbot.App false None (str "hi") [str "a.pdf"] false false true [] [])
       [Chatbot.Send None;
        Chatbot.Answer (Chatbot.Replied false (Chatbot.Reply None None None None))])
  = Chatbot.isWaiting
      (Chatbot.run (fun f : jsstring => f) (fun n : nat => negb (n =? 0))
         (Chatbot.App false None (str "hi") [str "a.pdf"] false false true [] [])
         [Chatbot.Send None;
          Chatbot.Answer (Chatbot.Replied false (Chatbot.Reply None None None None))]).
Proof.
  exact (proj1
           (sendMessage_lock_shown jsstring nat (fun f => f)
              (fun n => negb (n =? 0))
              (Chatbot.App false None (str "hi") [str "a.pdf"] false false true [] [])
              [Chatbot.Send None;
               Chatbot.Answer
                 (Chatbot.Replied false (Chatbot.Reply None None None None))]
              eq_refl eq_refl eq_refl eq_refl)).
Defined.

(** X19.  What the assistant chat never sends.  In every run that
    starts without recorded calls, each text-only request carries a
    message that is not empty, no upload carries an empty message (a
    file without text is sent without a message member), and a
    conversation identifier that goes with a request is truthy. *)
Theorem sendMessage_requests_sound :
  forall (file id : Type) (name : file -> jsstring) (truthy : id -> bool)
         (st0 : Chatbot.app file id) (es : list (Chatbot.event file id)),
    Chatbot.effects st0 = [] ->
    Forall (Chatbot.sound truthy)
           (Chatbot.effects (Chatbot.run name truthy st0 es)).
Proof.
  intros file id name truthy st0 es E.
  apply run_sound. rewrite E. constructor.
Qed.

Lemma sendMessage_requests_sound_witness :
  Forall (Chatbot.sound (fun n : nat => negb (n =? 0)))
    (Chatbot.effects
       (Chatbot.run (fun f : jsstring => f) (fun n : nat => negb (n =? 0))
          (Chatbot.App false (Some 0) (str "  ") [str "a.pdf"] false false true [] [])
          [Chatbot.Send None;
           Chatbot.Answer
             (Chatbot.Replied true
                (Chatbot.Reply None (Some 7) (Some (str "**ok**")) None));
           Chatbot.Send (Some (str "more"))])).
Proof.
  exact (sendMessage_requests_sound jsstring nat (fun f => f)
           (fun n => negb (n =? 0))
           (Chatbot.App false (Some 0) (str "  ") [str "a.pdf"] false false true [] [])
           [Chatbot.Send None;
            Chatbot.Answer
              (Chatbot.Replied true
                 (Chatbot.Reply None (Some 7) (Some (str "**ok**")) None));
            Chatbot.Send (Some (str "more"))]
           eq_refl).
Defined.

(** ** Polling for messages *)

Section PollFacts.

Context {message other : Type} (same : other -> other -> bool).

Lemma changing_app_last (l : list (SecureChat.count other)) b d :
  l <> [] -> SecureChat.changing same l ->
  SecureChat.count_eqb same b (last l d) = false ->
  SecureChat.changing same (l ++ [b]).
Proof.
  induction l as [|a l IH]; intros Hn H Hb; [contradiction|].
  destruct l as [|a' l].
  - cbn in *. auto.
  - cbn [app] in *. destruct H as [H1 H2]. split; [exact H1|].
    apply IH; [discriminate|exact H2|exact Hb].
Qed.

(** What a run of polls keeps: the count is the length of the argument
    of the latest call of [renderMessages]; the lengths of the
    arguments change from each call to the next, beginning from the
    count at the start; and each argument is a body that came back. *)
Lemma polls_inv rs : forall (st : SecureChat.page message other) n0,
  SecureChat.lastMessageCount st
  = last (map (@SecureChat.length_of message other)
              (SecureChat.renderMessages_calls st)) n0 ->
  SecureChat.changing same
    (n0 :: map (@SecureChat.length_of message other)
               (SecureChat.renderMessages_calls st)) ->
  SecureChat.lastMessageCount (SecureChat.polls same st rs)
  = last (map (@SecureChat.length_of message other)
              (SecureChat.renderMessages_calls (SecureChat.polls same st rs))) n0
  /\ SecureChat.changing same
       (n0 :: map (@SecureChat.length_of message other)
                  (SecureChat.renderMessages_calls (SecureChat.polls same st rs)))
  /\ exists calls,
       SecureChat.renderMessages_calls (SecureChat.polls same st rs)
       = SecureChat.renderMessages_calls st ++ calls
       /\ Forall (fun b => In (Some b) rs) calls.
Proof.
  induction rs as [|r rs IH]; intros st n0 H1 H2.
  - cbn. repeat split; auto. exists []. now rewrite app_nil_r.
  - cbn [SecureChat.polls fold_left].
    destruct r as [b|]; cbn [SecureChat.fetchMessages_resumed].
    + destruct (SecureChat.count_eqb same (SecureChat.length_of b)
                  (SecureChat.lastMessageCount st)) eqn:E; cbn [negb].
      * destruct (IH st n0 H1 H2) as (A & B & calls & D1 & D2).
        unfold SecureChat.polls in *.
        repeat split; auto. exists calls. split; [exact D1|].
        revert D2. apply Forall_impl. intros; now right.
      * set (st' := SecureChat.Page (SecureChat.length_of b)
                      (SecureChat.renderMessages_calls st ++ [b])).
        assert (H1' : SecureChat.lastMessageCount st'
                      = last (map (@SecureChat.length_of message other)
                                  (SecureChat.renderMessages_calls st')) n0).
        { unfold st'.
          cbn [SecureChat.lastMessageCount SecureChat.renderMessages_calls].
          rewrite map_app. cbn [map]. now rewrite last_last. }
        assert (H2' : SecureChat.changing same
                        (n0 :: map (@SecureChat.length_of message other)
                                   (SecureChat.renderMessages_calls st'))).
        { unfold st'. cbn [SecureChat.renderMessages_calls].
          rewrite map_app. cbn [map]. rewrite app_comm_cons.
          apply changing_app_last with (d := n0);
            [discriminate|exact H2|].
          rewrite last_cons_default, <- H1. exact E. }
        destruct (IH st' n0 H1' H2') as (A & B & calls & D1 & D2).
        unfold SecureChat.polls in *.
        repeat split; auto. exists (b :: calls). split.
        -- rewrite D1. unfold st'. cbn [SecureChat.renderMessages_calls].
           now rewrite <- app_assoc.
        -- constructor; [now left|]. revert D2. apply Forall_impl. intros; now right.
    + destruct (IH st n0 H1 H2) as (A & B & calls & D1 & D2).
      unfold SecureChat.polls in *.
      repeat split; auto. exists calls. split; [exact D1|].
      revert D2. apply Forall_impl. intros; now right.
Qed.

End PollFacts.

(** X20.  [fetchMessages] calls [renderMessages] only when the number of
    messages changes.  After any sequence of responses from the start of
    the page, whatever their bodies are: every call of [renderMessages]
    has for argument a body that came back; [lastMessageCount] is the
    [length] of the argument of the latest call (0 before the first);
    the [length] of each argument differs, by [!==], from that of the
    call before, and that of the first call from 0.  So a body with as
    many messages as the latest one drawn is not drawn, whatever
    messages it holds; and a body with another [length] is handed to
    [renderMessages] even when it is no array of messages. *)
Theorem fetchMessages_redraws_on_count_change :
  forall (message other : Type) (same : other -> other -> bool)
         (rs : list (option (SecureChat.body message other))),
    Forall (fun b => In (Some b) rs)
           (SecureChat.renderMessages_calls
              (SecureChat.polls same (SecureChat.Page (SecureChat.Num 0) []) rs))
    /\ SecureChat.lastMessageCount
         (SecureChat.polls same (SecureChat.Page (SecureChat.Num 0) []) rs)
       = last (map (@SecureChat.length_of message other)
                 (SecureChat.renderMessages_calls
                    (SecureChat.polls same (SecureChat.Page (SecureChat.Num 0) []) rs)))
              (SecureChat.Num 0)
    /\ SecureChat.changing same
         (SecureChat.Num 0
          :: map (@SecureChat.length_of message other)
               (SecureChat.renderMessages_calls
                  (SecureChat.polls same (SecureChat.Page (SecureChat.Num 0) []) rs)))
    /\ (forall b,
           SecureChat.count_eqb same (SecureChat.length_of b)
             (SecureChat.lastMessageCount
                (SecureChat.polls same (SecureChat.Page (SecureChat.Num 0) []) rs))
           = true ->
           SecureChat.fetchMessages_resumed same (Some b)
             (SecureChat.polls same (SecureChat.Page (SecureChat.Num 0) []) rs)
           = SecureChat.polls same (SecureChat.Page (SecureChat.Num 0) []) rs)
    /\ (forall b,
           SecureChat.count_eqb same (SecureChat.length_of b)
             (SecureChat.lastMessageCount
                (SecureChat.polls same (SecureChat.Page (SecureChat.Num 0) []) rs))
           = false ->
           SecureChat.fetchMessages_resumed same (Some b)
             (SecureChat.polls same (SecureChat.Page (SecureChat.Num 0) []) rs)
           = SecureChat.Page (SecureChat.length_of b)
               (SecureChat.renderMessages_calls
                  (SecureChat.polls same (SecureChat.Page (SecureChat.Num 0) []) rs)
                ++ [b])).
Proof.
  intros message other same rs.
  destruct (polls_inv same rs (SecureChat.Page (SecureChat.Num 0) [])
              (SecureChat.Num 0) eq_refl I)
    as (A & B & calls & D1 & D2).
  split; [rewrite D1; exact D2|].
  split; [exact A|]. split; [exact B|].
  split; intros b E; unfold SecureChat.fetchMessages_resumed; now rewrite E.
Qed.

Lemma fetchMessages_redraws_on_count_change_witness :
  SecureChat.fetchMessages_resumed (fun _ _ : unit => true)
    (Some (SecureChat.Messages [str "c"; str "d"]))
    (SecureChat.polls (fun _ _ : unit => true) (SecureChat.Page (SecureChat.Num 0) [])
       [Some (SecureChat.Messages [str "a"]); None;
        Some (SecureChat.Messages [str "a"; str "b"])])
  = SecureChat.polls (fun _ _ : unit => true) (SecureChat.Page (SecureChat.Num 0) [])
      [Some (SecureChat.Messages [str "a"]); None;
       Some (SecureChat.Messages [str "a"; str "b"])]
  /\ SecureChat.fetchMessages_resumed (fun _ _ : unit => true)
       (Some (SecureChat.NotArray (SecureChat.Other tt)))
       (SecureChat.polls (fun _ _ : unit => true)
          (SecureChat.Page (SecureChat.Num 0) [])
          [Some (SecureChat.Messages [str "a"])])
     = SecureChat.Page (SecureChat.Other tt)
         [SecureChat.Messages [str "a"]; SecureChat.NotArray (SecureChat.Other tt)].
Proof.
  split.
  - exact (proj1 (proj2 (proj2 (proj2
             (fetchMessages_redraws_on_count_change jsstring unit (fun _ _ => true)
                [Some (SecureChat.Messages [str "a"]); None;
                 Some (SecureChat.Messages [str "a"; str "b"])]))))
             (SecureChat.Messages [str "c"; str "d"]) eq_refl).
  - exact (proj2 (proj2 (proj2 (proj2
             (fetchMessages_redraws_on_count_change jsstring unit (fun _ _ => true)
                [Some (SecureChat.Messages [str "a"])]))))
             (SecureChat.NotArray (SecureChat.Other tt)) eq_refl).
Defined.

(** ** Words that a replacement keeps *)

Lemma factor_refl w : factor w w.
Proof. exists [], []. now rewrite app_nil_r. Qed.

Lemma factor_app_l x w s : factor w s -> factor w (x ++ s).
Proof. intros (a & b & ->). exists (x ++ a), b. now rewrite <- app_assoc. Qed.

Lemma factor_app_r y w s : factor w s -> factor w (s ++ y).
Proof. intros (a & b & ->). exists a, (b ++ y). now rewrite <- !app_assoc. Qed.

Lemma factor_cons c w s : factor w s -> factor w (c :: s).
Proof. apply (factor_app_l [c]). Qed.

Lemma factor_trans u w s : factor u w -> factor w s -> factor u s.
Proof.
  intros (a & b & ->) (a' & b' & ->).
  exists (a' ++ a), (b ++ b'). now rewrite <- !app_assoc.
Qed.

Lemma factor_unlines l ls : In l ls -> factor l (unlines ls).
Proof.
  induction ls as [|x ls IH]; intros H; [contradiction|].
  destruct ls as [|y ls].
  - destruct H as [->|[]]. apply factor_refl.
  - rewrite unlines_cons2. destruct H as [->|H].
    + exists [], (NL :: unlines (y :: ls)). reflexivity.
    + apply factor_app_l. apply factor_cons. now apply IH.
Qed.

Lemma lastp_nonempty (p q : option cu) u : u <> [] -> lastp p u = lastp q u.
Proof.
  intros H. destruct u as [|c u]; [contradiction|]. now rewrite !lastp_cons.
Qed.

(** The two ways in which a match that begins before [w] reaches into
    it: it goes through [w], or it ends inside. *)
Lemma overlap_cases (a w b m r : jsstring) :
  a ++ w ++ b = m ++ r -> length r < length (w ++ b) ->
  (exists m3, m = a ++ w ++ m3 /\ b = m3 ++ r)
  \/ (exists u v, u <> [] /\ v <> [] /\ w = u ++ v /\ m = a ++ u /\ r = v ++ b).
Proof.
  intros E L.
  destruct (app_eq_app _ _ _ _ E) as (l & [[E1 E2]|[E1 E2]]).
  - exfalso. rewrite E2, length_app in L. lia.
  - subst m. destruct (app_eq_app _ _ _ _ E2) as (l' & [[E3 E4]|[E3 E4]]).
    + destruct l as [|x l].
      * exfalso. cbn in E3. subst l'. rewrite E4 in L. lia.
      * destruct l' as [|x' l'].
        -- left. exists []. rewrite app_nil_r in E3. cbn in E4. subst.
           now rewrite app_nil_r.
        -- right. exists (x :: l), (x' :: l').
           repeat split; try discriminate; auto.
    + left. exists l'. subst l. split; [reflexivity|exact E4].
Qed.

Section Keeps.

Variables (r : regex) (tpl : mstate cu -> jsstring) (w : jsstring).

Hypothesis Hz : never_empty r = true.

(** A match that begins in [w] puts the rest of [w] first. *)
Hypothesis Hin :
  forall u v b p st',
    w = u ++ v -> v <> [] -> (u <> [] -> p = lastp None u) ->
    exec plain r p (v ++ b) = Some st' ->
    exists y, tpl st' = v ++ y.

(** A match that begins before [w] and reaches into it puts [w] out
    again, or ends in [w] and puts out what it took of [w] last. *)
Hypothesis Hover :
  forall p a b st',
    a <> [] -> exec plain r p (a ++ w ++ b) = Some st' ->
    length (rest st') < length (w ++ b) ->
    factor w (tpl st')
    \/ exists x u v, w = u ++ v /\ u <> [] /\ v <> []
                     /\ tpl st' = x ++ u /\ rest st' = v ++ b.

Lemma replace_from_keeps : forall p s,
  factor w s -> factor w (replace_from plain r tpl 0 p s).
Proof.
  intros p s.
  cut ((forall a b, s = a ++ w ++ b -> factor w (replace_from plain r tpl 0 p s))
       /\ (forall u v b, w = u ++ v -> (u <> [] -> p = lastp None u) ->
                         s = v ++ b ->
                         exists y, replace_from plain r tpl 0 p s = v ++ y)).
  { intros [H _] (a & b & E). now apply (H a b). }
  apply (replace_from_ind plain r tpl
           (fun p s out =>
              (forall a b, s = a ++ w ++ b -> factor w out)
              /\ (forall u v b, w = u ++ v -> (u <> [] -> p = lastp None u) ->
                                s = v ++ b -> exists y, out = v ++ y))).
  - now apply never_empty_zw.
  - intros p0. split.
    + intros a b E. symmetry in E. apply app_eq_nil in E. destruct E as [-> E].
      apply app_eq_nil in E. destruct E as [-> ->]. apply factor_refl.
    + intros u v b _ _ E. symmetry in E. apply app_eq_nil in E.
      destruct E as [-> _]. now exists [].
  - intros p0 c s0 out Ex [IH1 IH2].
    assert (Aux : forall u v b, w = u ++ v -> (u <> [] -> p0 = lastp None u) ->
                                c :: s0 = v ++ b -> exists y, c :: out = v ++ y).
    { intros u v b Ew Hp E. destruct v as [|c' v]; [now exists (c :: out)|].
      injection E as <- E.
      destruct (IH2 (u ++ [c]) v b) as (y & ->); auto.
      - now rewrite Ew, <- app_assoc.
      - intros _. now rewrite lastp_app.
      - now exists y. }
    split; [|exact Aux].
    intros a b E. destruct a as [|c' a].
    + destruct (Aux [] w b eq_refl ltac:(intros H; now contradiction H) E)
        as (y & ->).
      exists [], y. reflexivity.
    + injection E as <- E. apply factor_cons. now apply (IH1 a b).
  - intros p0 c w0 s0 st' out Ex Er [IH1 IH2].
    assert (Aux : forall u v b, w = u ++ v -> (u <> [] -> p0 = lastp None u) ->
                                c :: w0 ++ s0 = v ++ b ->
                                exists y, tpl st' ++ out = v ++ y).
    { intros u v b Ew Hp E. destruct v as [|c' v]; [now eexists|].
      rewrite E in Ex.
      destruct (Hin u (c' :: v) b p0 st' Ew ltac:(discriminate) Hp Ex) as (y & ->).
      exists (y ++ out). now rewrite <- app_assoc. }
    split; [|exact Aux].
    intros a b E. destruct a as [|c' a].
    + destruct (Aux [] w b eq_refl ltac:(intros H; now contradiction H) E)
        as (y & ->).
      exists [], y. reflexivity.
    + destruct (Nat.lt_ge_cases (length s0) (length (w ++ b))) as [L|L].
      * rewrite E in Ex. rewrite <- Er in L.
        destruct (Hover p0 (c' :: a) b st' ltac:(discriminate) Ex L)
          as [F|(x & u & v & Ew & Hu & Hv & Et & Ev)].
        -- now apply factor_app_r.
        -- rewrite Er in Ev.
           assert (Ec : c :: w0 = (c' :: a) ++ u).
           { apply (app_inv_tail (v ++ b)). rewrite <- Ev.
             change ((c :: w0) ++ s0) with (c :: w0 ++ s0). rewrite E, Ev, Ew.
             now rewrite <- !app_assoc. }
           destruct (IH2 u v b Ew) as (y & ->); auto.
           ++ intros _. rewrite <- (lastp_cons None c w0), Ec, lastp_app.
              now apply lastp_nonempty.
           ++ rewrite Et, Ew. exists x, y. now rewrite <- !app_assoc.
      * change (c :: w0 ++ s0) with ((c :: w0) ++ s0) in E.
        destruct (app_eq_app _ _ _ _ E) as (l & [[E1 E2]|[E1 E2]]).
        -- assert (l = []).
           { apply (f_equal (@length cu)) in E2. rewrite !length_app in E2, L.
             destruct l; [reflexivity|cbn in E2; rewrite length_app in E2; lia]. }
           subst l. cbn in E2. apply factor_app_l. apply (IH1 [] b).
           now rewrite <- E2.
        -- apply factor_app_l. apply (IH1 l b). exact E2.
Qed.

End Keeps.

(** ** What the matches of the patterns look like *)

Lemma exec_rest r p s st' :
  exec plain r p s = Some st' -> s = consumed (MState p s []) st' ++ rest st'.
Proof.
  intros H. destruct (exec_suffix plain _ _ _ _ H) as (w & E & _).
  now rewrite (consumed_app w (MState p s []) st' E).
Qed.

(** A delimited span [o X c], with [X] in group 1. *)
Lemma span_inv o R c p s st' :
  exec plain (Lit o ;; Group 1 R ;; Lit c)%re p s = Some st' ->
  exists X, s = o ++ X ++ c ++ rest st' /\ cap 1 st' = X
            /\ prev st' = lastp p (o ++ X ++ c).
Proof.
  intros H. apply exec_sound in H.
  inversion H as [| |? ? ? s1 ? H1 H2| | | | | | |]; subst.
  inversion H2 as [| |? ? ? s2 ? H3 H4| | | | | | |]; subst.
  inversion H3 as [| | | | | | |? ? ? st0 HR| |]; subst.
  apply Matches_Lit in H1. destruct H1 as (E1 & P1 & C1).
  apply Matches_Lit in H4. destruct H4 as (E4 & P4 & C4).
  destruct (Matches_suffix plain _ _ _ HR) as (X & E3 & P3).
  exists X. cbn [rest prev caps] in *. unfold set_cap in *.
  cbn [rest prev caps] in *. repeat split.
  - now rewrite E1, E3, E4.
  - unfold cap. rewrite C4. cbn [get_cap Nat.eqb].
    now apply consumed_app.
  - now rewrite P4, P3, P1, !lastp_app.
Qed.

(** A line [M X] under [^mk(.+)$]: the marker, then group 1 up to the
    end of the line. *)
Lemma line_inv mk p s st' :
  exec plain (re_line mk) p s = Some st' ->
  exists st1 X,
    Matches plain mk (MState p s []) st1
    /\ s = consumed (MState p s []) st1 ++ X ++ rest st'
    /\ cap 1 st' = X /\ at_eol plain st' = true.
Proof.
  intros H. apply exec_sound in H. unfold re_line in H.
  inversion H as [| |? ? ? s1 ? H1 H2| | | | | | |]; subst.
  inversion H1 as [| | | | | | | |? HB|]; subst.
  inversion H2 as [| |? ? ? s2 ? H3 H4| | | | | | |]; subst.
  inversion H4 as [| |? ? ? s3 ? H5 H6| | | | | | |]; subst.
  inversion H6 as [| | | | | | | | |? HE]; subst.
  inversion H5 as [| | | | | | |? ? ? st0 HR| |]; subst.
  destruct (Matches_suffix plain _ _ _ H3) as (M & E3 & _).
  destruct (Matches_suffix plain _ _ _ HR) as (X & E5 & _).
  exists s2, X. cbn [rest] in *. repeat split; auto.
  - rewrite (consumed_app M (MState p s []) s2 E3). unfold set_cap. cbn [rest].
    rewrite E3 at 1. now rewrite E5.
  - unfold cap, set_cap. cbn [caps get_cap Nat.eqb]. now apply consumed_app.
Qed.

(** The last round of [a+]. *)
Lemma plus_last a st st' :
  Matches plain (Plus a) st st' ->
  exists st1 m1, rest st = m1 ++ rest st1 /\ Matches plain a st1 st'.
Proof.
  unfold Plus. intros H.
  inversion H as [| |? ? ? s1 ? H1 H2| | | | | | |]; subst.
  assert (G : forall r x y, Matches plain r x y -> forall b, r = Star true b ->
              forall o x0 m0, rest o = m0 ++ rest x0 -> Matches plain b x0 x ->
              exists st1 m1, rest o = m1 ++ rest st1 /\ Matches plain b st1 y).
  { clear. intros r x y HM.
    induction HM as [| | | | |g0 a0 z|g0 a0 z1 z2 z3 Ha _ Hlt Hs IHs| | |];
      intros b0 Eb o x0 m0 Ex Hx; try discriminate.
    - exists x0, m0. split; [exact Ex|exact Hx].
    - injection Eb as -> ->.
      destruct (Matches_suffix plain _ _ _ Hx) as (mx & Emx & _).
      apply (IHs _ eq_refl o z1 (m0 ++ mx)); [|exact Ha].
      now rewrite Ex, Emx, <- app_assoc. }
  destruct (G _ _ _ H2 a eq_refl st st [] eq_refl H1) as (st1 & m1 & E & H3).
  now exists st1, m1.
Qed.

Lemma li_body_inv st st' :
  Matches plain li_body st st' ->
  exists Y t, rest st = str "<li>" ++ Y ++ str "</li>" ++ t ++ rest st'
              /\ (t = [] \/ t = [NL]).
Proof.
  unfold li_body. intros H.
  inversion H as [| |? ? ? s1 ? H1 H2| | | | | | |]; subst.
  inversion H2 as [| |? ? ? s2 ? H3 H4| | | | | | |]; subst.
  inversion H4 as [| |? ? ? s3 ? H5 H6| | | | | | |]; subst.
  apply Matches_Lit in H1. destruct H1 as (E1 & _).
  apply Matches_Lit in H5. destruct H5 as (E5 & _).
  destruct (Matches_suffix plain _ _ _ H3) as (Y & E3 & _).
  unfold Opt in H6.
  inversion H6 as [| | |? ? ? ? HA|? ? ? ? HA| | | | |]; subst.
  - inversion HA as [|q pv x s cs Hq| | | | | | | |]; subst.
    unfold is_char, plain in Hq. apply N.eqb_eq in Hq. subst x.
    exists Y, [NL]. cbn [rest] in *. split; [|now right].
    now rewrite E1, E3, E5.
  - inversion HA; subst. exists Y, []. split; [|now left].
    now rewrite E1, E3, E5.
Qed.

(** A block of items ends with [</li>], or with the line feed behind
    it; all of it is group 1. *)
Lemma items_inv p s st' :
  exec plain re_items p s = Some st' ->
  exists m0 t, s = m0 ++ str "</li>" ++ t ++ rest st'
               /\ (t = [] \/ t = [NL])
               /\ cap 1 st' = m0 ++ str "</li>" ++ t.
Proof.
  intros H. apply exec_sound in H. unfold re_items in H.
  inversion H as [| | | | | | |? ? ? st0 HR| |]; subst.
  destruct (plus_last _ _ _ HR) as (st1 & m1 & E1 & H1).
  destruct (li_body_inv _ _ H1) as (Y & t & E2 & Ht).
  cbn [rest] in *.
  exists (m1 ++ str "<li>" ++ Y), t. unfold set_cap. cbn [rest].
  assert (E : s = (m1 ++ str "<li>" ++ Y) ++ str "</li>" ++ t ++ rest st0).
  { rewrite E1, E2. now rewrite <- !app_assoc. }
  repeat split; auto.
  unfold cap. cbn [caps get_cap Nat.eqb].
  apply consumed_app. cbn [rest]. rewrite E at 1. now rewrite <- !app_assoc.
Qed.

Lemma empty_p_inv p s st' :
  exec plain re_empty_p p s = Some st' ->
  exists ws, s = str "<p>" ++ ws ++ str "</p>" ++ rest st' /\ spaces plain ws.
Proof.
  intros H. apply exec_sound in H. unfold re_empty_p, L in H.
  inversion H as [| |? ? ? s1 ? H1 H2| | | | | | |]; subst.
  inversion H2 as [| |? ? ? s2 ? H3 H4| | | | | | |]; subst.
  apply (Matches_Lit (str "<p>")) in H1. destruct H1 as (E1 & _).
  apply (Matches_Lit (str "</p>")) in H4. destruct H4 as (E4 & _).
  apply Matches_spaces in H3. destruct H3 as (ws & E3 & Hs).
  exists ws. cbn [rest] in *. split; [|exact Hs]. now rewrite E1, E3, E4.
Qed.

Lemma replace_keeps r tpl w s :
  never_empty r = true -> starts_keep r tpl w -> reaches_keep r tpl w ->
  factor w s -> factor w (replace plain r tpl s).
Proof.
  intros Hz Hin Hover. unfold replace. now apply replace_from_keeps.
Qed.

(** ** Where a word meets a match *)

Lemma dead_suffix r l : forall u p b,
  dead r p (u ++ l) b -> l <> [] -> exec plain r (lastp p u) (l ++ b) = None.
Proof.
  intros u. induction u as [|c u IH]; intros p b H Hl.
  - destruct l as [|c l]; [contradiction|]. destruct H as [H _]. exact H.
  - destruct H as [_ H]. rewrite lastp_cons. now apply IH.
Qed.

Lemma starts_keep_dead r tpl w :
  (forall p b, dead r p w b) -> starts_keep r tpl w.
Proof.
  intros H u v b p st' Ew Hv Hp Ex. exfalso.
  specialize (H (match u with [] => p | _ => None end) b).
  rewrite Ew in H. apply dead_suffix in H; [|exact Hv].
  assert (Ep : lastp (match u with [] => p | _ => None end) u = p).
  { destruct u as [|c u]; [reflexivity|]. symmetry. apply Hp. discriminate. }
  rewrite Ep in H. congruence.
Qed.

(** A word in two parts: nothing begins in the first, and what begins
    in the second keeps it. *)
Lemma starts_keep_app r tpl w1 w2 :
  (forall p b, dead r p w1 b) -> starts_keep r tpl w2 ->
  starts_keep r tpl (w1 ++ w2).
Proof.
  intros H1 H2 u v b p st' Ew Hv Hp Ex.
  destruct (app_eq_app _ _ _ _ Ew) as (l & [[E1 E2]|[E1 E2]]).
  - destruct l as [|x l].
    + cbn in E2. subst v. rewrite app_nil_r in E1. subst u.
      apply (H2 [] w2 b p st' eq_refl Hv); [intros H; now contradiction H|exact Ex].
    + exfalso. subst v.
      specialize (H1 (match u with [] => p | _ => None end) (w2 ++ b)).
      rewrite E1 in H1. apply dead_suffix in H1; [|discriminate].
      assert (Ep : lastp (match u with [] => p | _ => None end) u = p).
      { destruct u as [|c u]; [reflexivity|]. symmetry. apply Hp. discriminate. }
      rewrite Ep in H1. rewrite <- app_assoc in Ex. congruence.
  - apply (H2 l v b p st' E2 Hv); [|exact Ex].
    intros Hl. rewrite Hp, E1, lastp_app.
    + now apply lastp_nonempty.
    + subst u. destruct w1; [assumption|discriminate].
Qed.

Lemma split_unique (c : cu) a : forall t l r,
  ~ In c l -> ~ In c r -> a ++ c :: t = l ++ c :: r -> a = l /\ t = r.
Proof.
  induction a as [|y a IH]; intros t l r Hl Hr E.
  - destruct l as [|x l].
    + injection E as ->. auto.
    + injection E as <- _. exfalso. apply Hl. now left.
  - destruct l as [|x l].
    + injection E as E1 E2. exfalso. apply Hr. rewrite <- E2. apply in_elt.
    + injection E as <- E. destruct (IH t l r) as [-> ->]; auto.
      intros H. apply Hl. now right.
Qed.

(** The [<] of a text between two tags: that of the first tag and that
    of the last. *)
Lemma lt_in_tagged O E C a t :
  ~ In 60%N O -> ~ In 60%N E -> ~ In 60%N C ->
  a ++ 60%N :: t = (60%N :: O) ++ E ++ 60%N :: C ->
  (a = [] /\ t = O ++ E ++ 60%N :: C) \/ (a = 60%N :: O ++ E /\ t = C).
Proof.
  intros HO HE HC Eq. destruct a as [|x a].
  - left. injection Eq as ->. auto.
  - right. injection Eq as -> Eq. rewrite app_assoc in Eq.
    destruct (split_unique 60%N a t (O ++ E) C) as [-> ->]; auto.
    intros H. apply in_app_or in H. tauto.
Qed.

Lemma factor_after_prefix (M X a w m3 : jsstring) h w' :
  w = h :: w' -> ~ In h M -> M ++ X = a ++ w ++ m3 -> factor w X.
Proof.
  intros -> Hh E.
  destruct (app_eq_app _ _ _ _ E) as (l & [[E1 E2]|[E1 E2]]).
  - destruct l as [|x l].
    + cbn in E2. exists [], m3. now rewrite <- E2.
    + exfalso. injection E2 as <- _. apply Hh. rewrite E1. apply in_elt.
  - exists l, m3. exact E2.
Qed.

Lemma last_in (u : jsstring) d : u <> [] -> In (last u d) u.
Proof.
  intros H. destruct (exists_last H) as (l & x & ->).
  rewrite last_last. apply in_elt.
Qed.

Lemma factor_before_suffix (X c w : jsstring) :
  w <> [] -> ~ In (last w 0%N) c -> factor w (X ++ c) -> factor w X.
Proof.
  intros Hw Hl (a & b & E). rewrite app_assoc in E.
  destruct (app_eq_app _ _ _ _ E) as (l & [[E1 E2]|[E1 E2]]).
  - exists a, l. now rewrite app_assoc.
  - destruct l as [|x l].
    + rewrite app_nil_r in E1. exists a, []. now rewrite app_nil_r.
    + exfalso. apply Hl.
      assert (L : last (a ++ w) 0%N = last (X ++ x :: l) 0%N) by now rewrite E1.
      destruct (exists_last Hw) as (w0 & y & Ew). rewrite Ew in *.
      rewrite app_assoc, last_last in L. rewrite last_last, L.
      destruct (exists_last (l := x :: l) ltac:(discriminate)) as (l0 & z & El).
      rewrite El, app_assoc, last_last. rewrite E2, El. apply in_or_app. left.
      apply in_elt.
Qed.

(** ** A match that begins before a word and reaches into it *)

Lemma last_app_r (u v : jsstring) d : v <> [] -> last (u ++ v) d = last v d.
Proof.
  intros Hv. destruct (exists_last Hv) as (l & x & ->).
  now rewrite app_assoc, !last_last.
Qed.

(** A delimited span takes the whole word into its group. *)
Lemma reaches_span (o : jsstring) R (c : jsstring) O C (w : jsstring) (h : cu) (w' : jsstring) :
  w = h :: w' -> ~ In h o -> ~ In (last w 0%N) c ->
  c <> [] -> ~ In (last c 0%N) w ->
  reaches_keep (Lit o ;; Group 1 R ;; Lit c)%re (wrap1 plain O C) w.
Proof.
  intros Ew Hh Hl Hc Hlc p a b st' Ha Ex Hlen.
  destruct (span_inv _ _ _ _ _ _ Ex) as (X & Es & Ec & _).
  assert (E : a ++ w ++ b = (o ++ X ++ c) ++ rest st')
    by (rewrite Es; now rewrite <- !app_assoc).
  destruct (overlap_cases _ _ _ _ _ E Hlen)
    as [(m3 & Em & _)|(u & v & Hu & Hv & Ew' & Em & _)].
  - left.
    assert (F1 : factor w (X ++ c))
      by exact (factor_after_prefix o (X ++ c) a w m3 h w' Ew Hh Em).
    assert (F2 : factor w X).
    { apply (factor_before_suffix X c w); [subst w; discriminate|exact Hl|exact F1]. }
    unfold wrap1. rewrite !lits_plain, Ec. apply factor_app_l, factor_app_r, F2.
  - exfalso. apply Hlc.
    assert (L : last (o ++ X ++ c) 0%N = last (a ++ u) 0%N) by now rewrite Em.
    rewrite app_assoc, !last_app_r in L by assumption.
    rewrite L, Ew'. apply in_or_app. left. now apply last_in.
Qed.

(** A line pattern takes the whole word into its group. *)
Lemma reaches_line mk O C (w : jsstring) (h : cu) (w' : jsstring) :
  w = h :: w' -> Forall (fun c => is_dot c = true) w ->
  (forall st0 st1, Matches plain mk st0 st1 -> ~ In h (consumed st0 st1)) ->
  reaches_keep (re_line mk) (wrap1 plain O C) w.
Proof.
  intros Ew Hd Hm p a b st' Ha Ex Hlen.
  destruct (line_inv _ _ _ _ Ex) as (st1 & X & Hmk & Es & Ec & Heol).
  assert (E : a ++ w ++ b
              = (consumed (MState p (a ++ w ++ b) []) st1 ++ X) ++ rest st')
    by (rewrite <- app_assoc; exact Es).
  destruct (overlap_cases _ _ _ _ _ E Hlen)
    as [(m3 & Em & _)|(u & v & Hu & Hv & Ew' & _ & Er)].
  - left.
    assert (F : factor w X).
    { apply (factor_after_prefix _ X a w m3 h w' Ew (Hm _ _ Hmk) Em). }
    unfold wrap1. rewrite !lits_plain, Ec. apply factor_app_l, factor_app_r, F.
  - exfalso. unfold at_eol in Heol. rewrite Er in Heol.
    destruct v as [|v0 v]; [now apply Hv|]. cbn in Heol.
    rewrite Ew' in Hd. apply Forall_app in Hd. destruct Hd as [_ Hd].
    apply Forall_inv in Hd. unfold is_dot, plain in *.
    rewrite Heol in Hd. discriminate.
Qed.

(** The grouping pattern takes the whole word. *)
Lemma reaches_items (w : jsstring) (c2 : cu) (w' : jsstring) :
  w = 60%N :: c2 :: w' -> c2 <> 47%N -> ~ factor (str "</li>") w ->
  reaches_keep re_items (wrap1 plain "<ul>" "</ul>") w.
Proof.
  intros Ew Hc Hf p a b st' Ha Ex Hlen.
  destruct (items_inv _ _ _ Ex) as (m0 & t & Es & Ht & Ec).
  assert (E : a ++ w ++ b = (m0 ++ str "</li>" ++ t) ++ rest st')
    by (rewrite Es; now rewrite <- !app_assoc).
  destruct (overlap_cases _ _ _ _ _ E Hlen)
    as [(m3 & Em & _)|(u & v & Hu & Hv & Ew' & Em & _)].
  - left. unfold wrap1. rewrite !lits_plain, Ec, Em.
    apply factor_app_l, factor_app_r. exists a, m3. reflexivity.
  - exfalso.
    destruct (app_eq_app _ _ _ _ Em) as (l & [[E1 E2]|[E1 E2]]).
    + apply Hf. rewrite Ew', E2. exists l, (t ++ v). now rewrite <- !app_assoc.
    + destruct u as [|u0 u]; [now apply Hu|].
      rewrite Ew' in Ew. injection Ew as -> Ew.
      destruct l as [|x l].
      * cbn in E2. injection E2 as E2. rewrite <- E2 in Ew.
        cbn in Ew. injection Ew as Ew _. now apply Hc.
      * pose proof (in_elt (60%N : cu) l u) as H.
        cbn in E2. injection E2 as _ E2. rewrite <- E2 in H.
        destruct Ht as [-> | ->]; cbn in H;
          repeat (destruct H as [H|H]; [discriminate H|]); exact H.
Qed.

Lemma reaches_blank tpl (w : jsstring) (h : cu) (w' : jsstring) :
  w = h :: w' -> h <> NL -> reaches_keep re_blank tpl w.
Proof.
  intros Ew Hh p a b st' Ha Ex Hlen.
  apply exec_sound in Ex. apply (Matches_Lit [NL; NL]) in Ex.
  destruct Ex as (Es & _). cbn [rest] in Es.
  destruct (overlap_cases a w b [NL; NL] (rest st') Es Hlen)
    as [(m3 & Em & _)|(u & v & Hu & Hv & Ew' & Em & _)].
  - exfalso. rewrite Ew in Em.
    destruct a as [|x [|y a]]; [now apply Ha| |]; cbn in Em.
    + injection Em as _ Em _. now apply Hh.
    + destruct a; discriminate Em.
  - exfalso. rewrite Ew' in Ew.
    destruct u as [|u0 u]; [now apply Hu|]. injection Ew as -> _.
    destruct a as [|x [|y a]]; [now apply Ha| |]; cbn in Em.
    + injection Em as _ Em _. now apply Hh.
    + destruct a; discriminate Em.
Qed.

(** Two tags with white space between them, and a word that begins
    with [<]: the word begins where the second tag does. *)
Lemma tags_overlap (t1 ws t2 a w' b r : jsstring) :
  ~ In 60%N t1 -> ~ In 60%N ws -> ~ In 60%N t2 ->
  a <> [] ->
  a ++ (60%N :: w') ++ b = ((60%N :: t1) ++ ws ++ 60%N :: t2) ++ r ->
  length r < length ((60%N :: w') ++ b) ->
  (exists m3, 60%N :: t2 = (60%N :: w') ++ m3)
  \/ (exists v, v <> [] /\ 60%N :: w' = (60%N :: t2) ++ v /\ r = v ++ b).
Proof.
  intros H1 Hs H2 Ha E Hlen.
  assert (H12 : ~ In 60%N (t1 ++ ws)).
  { intros H. apply in_app_or in H. tauto. }
  destruct (overlap_cases _ _ _ _ _ E Hlen)
    as [(m3 & Em & _)|(u & v & Hu & Hv & Ew' & Em & Er)].
  - left. exists m3.
    destruct a as [|x a]; [now contradiction Ha|].
    cbn in Em. injection Em as _ Em. rewrite app_assoc in Em.
    symmetry in Em.
    destruct (split_unique 60%N a (w' ++ m3) (t1 ++ ws) t2 H12 H2 Em) as [_ <-].
    reflexivity.
  - right. exists v.
    destruct u as [|u0 u]; [now contradiction Hu|].
    injection Ew' as <- Ew'.
    destruct a as [|x a]; [now contradiction Ha|].
    cbn in Em. injection Em as _ Em. rewrite app_assoc in Em.
    symmetry in Em.
    destruct (split_unique 60%N a u (t1 ++ ws) t2 H12 H2 Em) as [_ ->].
    repeat split; [exact Hv| |exact Er]. now rewrite Ew'.
Qed.

Lemma spaces_no_lt ws : spaces plain ws -> ~ In 60%N ws.
Proof.
  unfold spaces. intros H Hin. rewrite Forall_forall in H.
  specialize (H _ Hin). discriminate H.
Qed.

Lemma reaches_empty_p tpl (w : jsstring) (c2 : cu) (w' : jsstring) :
  w = 60%N :: c2 :: w' -> c2 <> 47%N -> reaches_keep re_empty_p tpl w.
Proof.
  intros Ew Hc p a b st' Ha Ex Hlen. exfalso.
  destruct (empty_p_inv _ _ _ Ex) as (ws & Es & Hws).
  rewrite Ew in Es, Hlen.
  destruct (tags_overlap (str "p>") ws (str "/p>") a (c2 :: w') b (rest st'))
    as [(m3 & E)|(v & _ & E & _)]; try assumption.
  - cbn. intuition discriminate.
  - now apply spaces_no_lt.
  - cbn. intuition discriminate.
  - etransitivity; [exact Es|]. cbn. now rewrite <- ?app_assoc.
  - cbn in E. injection E as E _. now apply Hc.
  - cbn in E. injection E as E _. now apply Hc.
Qed.

Lemma reaches_p_after tag (w : jsstring) (c2 : cu) (w' : jsstring) :
  one_tag tag ->
  w = 60%N :: c2 :: w' -> c2 <> 47%N ->
  reaches_keep (re_p_after tag) only1 w.
Proof.
  intros Ht Ew Hc p a b st' Ha Ex Hlen. exfalso.
  destruct (p_after_cap _ _ _ _ Ex) as (ws & st1 & st0 & Es & Hws & Hm & _).
  destruct (Ht _ _ Hm) as (t & Et & Hn). rewrite Et in Es.
  rewrite Ew in Es, Hlen.
  destruct (tags_overlap t ws (str "/p>") a (c2 :: w') b (rest st'))
    as [(m3 & E)|(v & _ & E & _)]; try assumption.
  - now apply spaces_no_lt.
  - cbn. intuition discriminate.
  - etransitivity; [exact Es|]. cbn. now rewrite <- ?app_assoc.
  - cbn in E. injection E as E _. now apply Hc.
  - cbn in E. injection E as E _. now apply Hc.
Qed.

Lemma reaches_p_before tag (w w' : jsstring) :
  one_tag tag -> w = 60%N :: w' -> reaches_keep (re_p_before tag) only1 w.
Proof.
  intros Ht Ew p a b st' Ha Ex Hlen.
  destruct (p_before_cap _ _ _ _ Ex) as (ws & st1 & st0 & Es & Hws & Hm & Ec).
  destruct (Ht _ _ Hm) as (t & Et & Hn). rewrite Et in Es.
  rewrite Ew in Es, Hlen.
  destruct (tags_overlap (str "p>") ws t a w' b (rest st'))
    as [(m3 & E)|(v & Hv & E & Er)]; try assumption.
  - cbn. intuition discriminate.
  - now apply spaces_no_lt.
  - etransitivity; [exact Es|]. cbn. now rewrite <- ?app_assoc.
  - left. rewrite Ec, Et, E, Ew. exists [], m3. reflexivity.
  - right. exists [], (60%N :: t), v. rewrite Ec, Et, Ew.
    repeat split; try assumption. discriminate.
Qed.

(** ** The characters a pattern can consume *)

Lemma consumed_same (st : mstate cu) : consumed st st = [].
Proof. unfold consumed. now rewrite Nat.sub_diag. Qed.

Lemma consumed_seq r1 r2 (st1 st2 st3 : mstate cu) :
  Matches plain r1 st1 st2 -> Matches plain r2 st2 st3 ->
  consumed st1 st3 = consumed st1 st2 ++ consumed st2 st3.
Proof.
  intros H1 H2.
  destruct (Matches_suffix _ _ _ _ H1) as (w1 & E1 & _).
  destruct (Matches_suffix _ _ _ _ H2) as (w2 & E2 & _).
  rewrite (consumed_app w1 st1 st2 E1), (consumed_app w2 st2 st3 E2).
  apply consumed_app. now rewrite E1, E2, app_assoc.
Qed.

Lemma Matches_chr_all Q r st st' :
  Matches plain r st st' -> chr_all Q r ->
  Forall (fun c => Q c = true) (consumed st st').
Proof.
  induction 1 as [st|q pv c s cs Hq|a b st1 st2 st3 Ha IHa Hb IHb
                 |a b st st' Ha IHa|a b st st' Hb IHb
                 |g a st|g a st1 st2 st3 Ha IHa Hlt Hs IHs
                 |i a st st' Ha IHa|st Hb|st He]; intros HQ; cbn in HQ.
  - rewrite consumed_same. constructor.
  - rewrite (consumed_app [c]); [|reflexivity]. constructor; [|constructor].
    apply HQ. exact Hq.
  - rewrite (consumed_seq _ _ _ _ _ Ha Hb). apply Forall_app. split; tauto.
  - apply IHa. tauto.
  - apply IHb. tauto.
  - rewrite consumed_same. constructor.
  - rewrite (consumed_seq _ _ _ _ _ Ha Hs). apply Forall_app. split; auto.
  - unfold consumed, set_cap in *. cbn [rest]. auto.
  - rewrite consumed_same. constructor.
  - rewrite consumed_same. constructor.
Qed.

Lemma exec_chr_all Q r p s st' :
  exec plain r p s = Some st' -> chr_all Q r ->
  exists w, s = w ++ rest st' /\ Forall (fun c => Q c = true) w.
Proof.
  intros Ex HQ. exists (consumed (MState p s []) st'). split.
  - now apply (exec_rest r).
  - apply exec_sound in Ex. now apply (Matches_chr_all Q r).
Qed.

(** A line pattern does not reach over a line terminator. *)
Lemma reaches_line_nl mk tpl (w : jsstring) (t : cu) (w' : jsstring) :
  w = t :: w' -> is_line_terminator t = true ->
  chr_all is_dot mk ->
  reaches_keep (re_line mk) tpl w.
Proof.
  intros Ew Ht Hmk p a b st' Ha Ex Hlen. exfalso.
  destruct (exec_chr_all is_dot _ _ _ _ Ex) as (mw & Es & Hd).
  { cbn. repeat split; auto. }
  assert (Hin : In t mw).
  { destruct (overlap_cases _ _ _ _ _ Es Hlen)
      as [(m3 & Em & _)|(u & v & Hu & Hv & Ew' & Em & _)].
    - rewrite Em, Ew. apply in_or_app. right. now left.
    - rewrite Em. apply in_or_app. right.
      destruct u as [|u0 u]; [now contradiction Hu|].
      rewrite Ew in Ew'. injection Ew' as -> _. now left. }
  rewrite Forall_forall in Hd. specialize (Hd _ Hin).
  unfold is_dot in Hd. rewrite Ht in Hd. discriminate.
Qed.

(** ** A prefix that no match leaves *)

Lemma replace_from_cut r tpl :
  never_empty r = true ->
  forall n a p s,
    length a <= n ->
    (forall a1 a2 st',
        a = a1 ++ a2 -> a2 <> [] ->
        exec plain r (lastp p a1) (a2 ++ s) = Some st' ->
        length s <= length (rest st')) ->
    exists a',
      replace_from plain r tpl 0 p (a ++ s)
      = a' ++ replace_from plain r tpl 0 (lastp p a) s
      /\ (a = [] -> a' = [])
      /\ (forall t a0, a = a0 ++ [t] ->
            (exists a'', a' = a'' ++ [t])
            \/ (exists a'' a1 a2 st',
                   a = a1 ++ a2 /\ a2 <> []
                   /\ exec plain r (lastp p a1) (a2 ++ s) = Some st'
                   /\ rest st' = s /\ a' = a'' ++ tpl st')).
Proof.
  intros Hz. induction n as [|n IH]; intros a p s Hn H.
  - destruct a; [|cbn in Hn; lia]. exists []. repeat split; auto.
    intros t a0 E. now destruct a0.
  - destruct a as [|c a].
    { exists []. repeat split; auto. intros t a0 E. now destruct a0. }
    cbn in Hn.
    destruct (exec plain r p (c :: a ++ s)) as [st'|] eqn:Ex.
    + pose proof (H [] (c :: a) st' eq_refl ltac:(discriminate) Ex) as Hl.
      destruct (exec_nonempty plain r p _ st' (never_empty_zw r Hz) Ex)
        as (c' & w & Es & Ep).
      injection Es as <- Es.
      assert (Ea : exists a3, a = w ++ a3 /\ rest st' = a3 ++ s).
      { destruct (app_eq_app _ _ _ _ Es) as (l & [[E1 E2]|[E1 E2]]).
        - exists l. split; [exact E1|]. now rewrite E2.
        - assert (l = []).
          { apply (f_equal (@length _)) in E2. rewrite length_app in E2.
            destruct l; [reflexivity|cbn in E2; lia]. }
          subst l. exists []. cbn in E2. rewrite app_nil_r in E1.
          split; [now rewrite app_nil_r|]. now rewrite E2. }
      destruct Ea as (a3 & Ea & Er).
      destruct (IH a3 (lastp (Some c) w) s) as (a3' & E3 & N3 & T3).
      { rewrite Ea, length_app in Hn. lia. }
      { intros a1 a2 st2 E12 H2 Ex2.
        apply (H (c :: w ++ a1) a2 st2); [|exact H2|].
        - rewrite Ea, E12. cbn. now rewrite <- app_assoc.
        - now rewrite lastp_cons, lastp_app. }
      exists (tpl st' ++ a3'). split; [|split].
      * change ((c :: a) ++ s) with (c :: a ++ s).
        rewrite Es. rewrite Es in Ex.
        rewrite (replace_from_some plain r tpl p c w (rest st') st' Ex eq_refl).
        rewrite Er, E3, <- app_assoc.
        do 2 f_equal. now rewrite lastp_cons, Ea, lastp_app.
      * discriminate.
      * intros t a0 E.
        destruct a3 as [|x3 a3].
        -- right. exists [], [], (c :: a), st'.
           rewrite (N3 eq_refl), app_nil_r.
           repeat split; auto; discriminate.
        -- destruct (exists_last (l := x3 :: a3) ltac:(discriminate))
             as (a03 & t3 & E03).
           assert (t3 = t).
           { assert (L : last (c :: a) t = last (a0 ++ [t]) t) by now rewrite E.
             rewrite last_last, Ea, E03 in L.
             change (c :: w ++ a03 ++ [t3]) with ((c :: w) ++ a03 ++ [t3]) in L.
             now rewrite !app_assoc, last_last in L. }
           subst t3.
           destruct (T3 t a03 E03)
             as [(a'' & ->)|(a'' & a1 & a2 & st2 & E12 & H2 & Ex2 & Er2 & ->)].
           ++ left. exists (tpl st' ++ a''). now rewrite app_assoc.
           ++ right. exists (tpl st' ++ a''), (c :: w ++ a1), a2, st2.
              repeat split; auto.
              ** rewrite Ea, E12. cbn. now rewrite <- app_assoc.
              ** now rewrite lastp_cons, lastp_app.
              ** now rewrite app_assoc.
    + destruct (IH a (Some c) s) as (a' & E' & N' & T').
      { lia. }
      { intros a1 a2 st2 E12 H2 Ex2.
        apply (H (c :: a1) a2 st2); [|exact H2|].
        - now rewrite E12.
        - now rewrite lastp_cons. }
      exists (c :: a'). split; [|split].
      * change ((c :: a) ++ s) with (c :: a ++ s).
        rewrite (replace_from_none plain r tpl p c (a ++ s) Ex), E'.
        now rewrite lastp_cons.
      * discriminate.
      * intros t a0 E. destruct a0 as [|x a0].
        -- injection E as -> ->. left. exists []. now rewrite (N' eq_refl).
        -- injection E as <- E.
           destruct (T' t a0 E)
             as [(a'' & ->)|(a'' & a1 & a2 & st2 & E12 & H2 & Ex2 & Er2 & ->)].
           ++ left. exists (c :: a''). reflexivity.
           ++ right. exists (c :: a''), (c :: a1), a2, st2.
              repeat split; auto.
              ** now rewrite E12.
Qed.

(** ** Words between two tags *)

Lemma occurs_factor w s : occurs w s = true <-> factor w s.
Proof.
  split.
  - induction s as [|c s IH]; cbn [occurs]; intros H.
    + rewrite orb_false_r in H. apply starts_with_inv in H.
      exists [], (skipn (length w) []). exact H.
    + apply orb_prop in H. destruct H as [H|H].
      * apply starts_with_inv in H. exists [], (skipn (length w) (c :: s)).
        exact H.
      * now apply factor_cons, IH.
  - intros (a & b & ->). induction a as [|c a IH].
    + cbn [app]. destruct (w ++ b) eqn:E; cbn [occurs].
      * rewrite <- E, starts_with_app. reflexivity.
      * rewrite <- E, starts_with_app. reflexivity.
    + cbn [app occurs]. rewrite IH. apply orb_true_r.
Qed.

Lemma occurs_lt_inert w1 E s :
  ~ In 60%N E -> occurs (60%N :: w1) (E ++ s) = occurs (60%N :: w1) s.
Proof.
  induction E as [|c E IH]; intros H; [reflexivity|].
  cbn [app occurs starts_with].
  replace (60 =? c)%N with false.
  - cbn [andb orb]. apply IH. intros Hin. apply H. now right.
  - symmetry. apply N.eqb_neq. intros <-. apply H. now left.
Qed.

Lemma inert_no_lt E : Forall (fun c => inert c = true) E -> ~ In 60%N E.
Proof.
  intros H Hin. rewrite Forall_forall in H. specialize (H _ Hin).
  destruct (inert_facts _ H) as (_ & _ & H3 & _). discriminate H3.
Qed.

Lemma inert_no_star E : Forall (fun c => inert c = true) E -> ~ In 42%N E.
Proof.
  intros H Hin. rewrite Forall_forall in H. specialize (H _ Hin).
  destruct (inert_facts _ H) as (_ & H2 & _). discriminate H2.
Qed.

Lemma inert_no_nl E : Forall (fun c => inert c = true) E -> ~ In NL E.
Proof.
  intros H Hin. rewrite Forall_forall in H. specialize (H _ Hin).
  destruct (inert_facts _ H) as (_ & _ & _ & H4 & _). discriminate H4.
Qed.

Lemma dead_wrapped r U E V :
  calm r -> Forall (fun c => inert c = true) E ->
  mid_line (lastp None U) -> (forall p, lastp p U = lastp None U) ->
  (forall p s, dead r p U s) -> (forall p s, dead r p V s) ->
  forall p s, dead r p (U ++ E ++ V) s.
Proof.
  intros Hc HE Hm Hl HU HV p s.
  apply dead_app; [apply HU|]. apply dead_app; [|apply HV].
  apply dead_inert; auto. left. now rewrite Hl.
Qed.

Lemma not_in_wrapped (c : cu) (U E V : jsstring) :
  ~ In c U -> ~ In c E -> ~ In c V -> ~ In c (U ++ E ++ V).
Proof.
  intros HU HE HV H. apply in_app_or in H. destruct H as [H|H]; [tauto|].
  apply in_app_or in H. tauto.
Qed.

Lemma last_wrapped (U E V : jsstring) d :
  V <> [] -> last (U ++ E ++ V) d = last V d.
Proof.
  intros H. rewrite last_app_r, last_app_r; auto.
  destruct E; [exact H|discriminate].
Qed.

Lemma dots_wrapped (U E V : jsstring) :
  Forall (fun c => is_dot c = true) U ->
  Forall (fun c => inert c = true) E ->
  Forall (fun c => is_dot c = true) V ->
  Forall (fun c => is_dot c = true) (U ++ E ++ V).
Proof.
  intros HU HE HV. apply Forall_app. split; [exact HU|].
  apply Forall_app. split; [now apply inert_is_dot|exact HV].
Qed.

(** The tags of the clean-up patterns. *)
Lemma one_tag_lit (t : jsstring) : ~ In 60%N t -> one_tag (Lit (60%N :: t)).
Proof.
  intros H st1 st0 Hm. apply Matches_Lit_consumed in Hm. now exists t.
Qed.

Lemma one_tag_h_open : one_tag tag_h_open.
Proof.
  intros st1 st0 Hm. apply (Matches_h "<h") in Hm.
  destruct Hm as (d & Hd & ->). exists [104%N; d; 62%N]. split; [reflexivity|].
  cbn. intros [H|[H|[H|[]]]]; try discriminate H.
  destruct Hd as [->|[->| ->]]; discriminate H.
Qed.

Lemma one_tag_h_close : one_tag tag_h_close.
Proof.
  intros st1 st0 Hm. apply (Matches_h "</h") in Hm.
  destruct Hm as (d & Hd & ->). exists [47%N; 104%N; d; 62%N].
  split; [reflexivity|].
  cbn. intros [H|[H|[H|[H|[]]]]]; try discriminate H.
  destruct Hd as [->|[->| ->]]; discriminate H.
Qed.

Lemma marker_char_dot c : marker_char c = true -> is_dot c = true.
Proof. unfold marker_char. intros H. now apply andb_true_iff in H. Qed.

Lemma chr_all_impl (Q Q' : cu -> bool) r :
  (forall c, Q c = true -> Q' c = true) -> chr_all Q r -> chr_all Q' r.
Proof.
  intros HQ. induction r; cbn; intros H; try tauto.
  intros c Hc. auto.
Qed.

Ltac marker_tac :=
  cbn; repeat split; intros c Hc;
  try (unfold is_char in Hc; apply N.eqb_eq in Hc; subst c; reflexivity).

Lemma marker_h3 : chr_all marker_char (L "### ").  Proof. marker_tac. Qed.
Lemma marker_h2 : chr_all marker_char (L "## ").  Proof. marker_tac. Qed.
Lemma marker_h1 : chr_all marker_char (L "# ").  Proof. marker_tac. Qed.
Lemma marker_item : chr_all marker_char (L "- ").  Proof. marker_tac. Qed.

Lemma marker_numbered : chr_all marker_char (Plus (Chr is_digit) ;; L ". ")%re.
Proof.
  marker_tac; unfold is_digit in Hc; apply andb_true_iff in Hc;
    destruct Hc as [H1 H2]; apply N.leb_le in H1, H2;
    unfold marker_char, is_dot, is_line_terminator;
    repeat match goal with
           | |- context [(?x =? ?k)%N] =>
               replace (x =? k)%N with false by (symmetry; apply N.eqb_neq; lia)
           end; reflexivity.
Qed.

Lemma marker_no_lt mk :
  chr_all marker_char mk ->
  forall st0 st1, Matches plain mk st0 st1 -> ~ In 60%N (consumed st0 st1).
Proof.
  intros H st0 st1 Hm Hin.
  apply (Matches_chr_all marker_char) in Hm; [|exact H].
  rewrite Forall_forall in Hm. specialize (Hm _ Hin). discriminate Hm.
Qed.

(** ** What each kind of pattern keeps *)

Lemma never_empty_line mk : never_empty (re_line mk) = true.
Proof. unfold re_line. cbn. now rewrite !orb_true_r. Qed.

Lemma keep_line_from mk O C (W : jsstring) (h : cu) (w' : jsstring) :
  (forall st0 st1, Matches plain mk st0 st1 -> ~ In h (consumed st0 st1)) ->
  W = h :: w' -> Forall (fun c => is_dot c = true) W ->
  (forall p b, dead (re_line mk) p W b) ->
  forall s, factor W s -> factor W (replace plain (re_line mk) (wrap1 plain O C) s).
Proof.
  intros Hmk EW Hd Hdead s. apply replace_keeps.
  - apply never_empty_line.
  - now apply starts_keep_dead.
  - now apply (reaches_line mk O C W h w' EW Hd).
Qed.

Lemma keep_line mk O C (W w' : jsstring) :
  chr_all marker_char mk ->
  W = 60%N :: w' -> Forall (fun c => is_dot c = true) W ->
  (forall p b, dead (re_line mk) p W b) ->
  forall s, factor W s -> factor W (replace plain (re_line mk) (wrap1 plain O C) s).
Proof.
  intros Hmk. apply keep_line_from. now apply marker_no_lt.
Qed.

Lemma keep_span (o : jsstring) R (c : jsstring) O C (W : jsstring) (h : cu) (w' : jsstring) :
  never_empty (Lit o ;; Group 1 R ;; Lit c)%re = true ->
  W = h :: w' -> ~ In h o -> ~ In (last W 0%N) c ->
  c <> [] -> ~ In (last c 0%N) W ->
  (forall p b, dead (Lit o ;; Group 1 R ;; Lit c)%re p W b) ->
  forall s, factor W s ->
            factor W (replace plain (Lit o ;; Group 1 R ;; Lit c)%re
                        (wrap1 plain O C) s).
Proof.
  intros Hz EW H1 H2 H3 H4 Hdead s. apply replace_keeps.
  - exact Hz.
  - now apply starts_keep_dead.
  - now apply (reaches_span o R c O C W h w').
Qed.

Lemma keep_items (W : jsstring) (c2 : cu) (w' : jsstring) :
  W = 60%N :: c2 :: w' -> c2 <> 47%N -> occurs (str "</li>") W = false ->
  (forall p b, dead re_items p W b) ->
  forall s, factor W s ->
            factor W (replace plain re_items (wrap1 plain "<ul>" "</ul>") s).
Proof.
  intros EW Hc Ho Hdead s. apply replace_keeps.
  - reflexivity.
  - now apply starts_keep_dead.
  - apply (reaches_items W c2 w' EW Hc). intros F.
    apply occurs_factor in F. congruence.
Qed.

Lemma keep_blank tpl (W : jsstring) (h : cu) (w' : jsstring) :
  W = h :: w' -> h <> NL ->
  (forall p b, dead re_blank p W b) ->
  forall s, factor W s -> factor W (replace plain re_blank tpl s).
Proof.
  intros EW Hh Hdead s. apply replace_keeps.
  - reflexivity.
  - now apply starts_keep_dead.
  - now apply (reaches_blank tpl W h w').
Qed.

Lemma keep_empty_p tpl (W : jsstring) (c2 : cu) (w' : jsstring) :
  W = 60%N :: c2 :: w' -> c2 <> 47%N ->
  (forall p b, dead re_empty_p p W b) ->
  forall s, factor W s -> factor W (replace plain re_empty_p tpl s).
Proof.
  intros EW Hc Hdead s. apply replace_keeps.
  - reflexivity.
  - now apply starts_keep_dead.
  - now apply (reaches_empty_p tpl W c2 w').
Qed.

Lemma keep_p_before tag (W w' : jsstring) :
  one_tag tag -> never_empty (re_p_before tag) = true -> W = 60%N :: w' ->
  (forall p b, dead (re_p_before tag) p W b) ->
  forall s, factor W s -> factor W (replace plain (re_p_before tag) only1 s).
Proof.
  intros Ht Hz EW Hdead s. apply replace_keeps.
  - exact Hz.
  - now apply starts_keep_dead.
  - now apply (reaches_p_before tag W w').
Qed.

Lemma keep_p_after tag (W : jsstring) (c2 : cu) (w' : jsstring) :
  one_tag tag -> W = 60%N :: c2 :: w' -> c2 <> 47%N ->
  starts_keep (re_p_after tag) only1 W ->
  forall s, factor W s -> factor W (replace plain (re_p_after tag) only1 s).
Proof.
  intros Ht EW Hc Hst s. apply replace_keeps.
  - apply never_empty_after.
  - exact Hst.
  - now apply (reaches_p_after tag W c2 w').
Qed.

(** The closing tag of a block, where the pattern that takes the
    [</p>] after it begins. *)
Lemma starts_keep_close tag (T : jsstring) :
  (forall st1 st0 x y, Matches plain tag st1 st0 ->
                       T ++ y = consumed st1 st0 ++ x -> consumed st1 st0 = T) ->
  (forall u v b p, T = u ++ v -> u <> [] -> v <> [] ->
                   exec plain (re_p_after tag) p (v ++ b) = None) ->
  starts_keep (re_p_after tag) only1 T.
Proof.
  intros Hc Hn u v b p st' ET Hv Hp Ex.
  destruct u as [|u0 u].
  - cbn in ET. subst v. exists [].
    destruct (p_after_cap _ _ _ _ Ex) as (ws & st1 & st0 & Es & _ & Hm & ->).
    rewrite app_nil_r. exact (Hc st1 st0 _ _ Hm Es).
  - rewrite (Hn (u0 :: u) v b p ET) in Ex; [discriminate|discriminate|exact Hv].
Qed.

(** The proper suffixes of a known word, one by one. *)
Ltac suffixes_tac :=
  intros u v b p ET Hu Hv;
  repeat (destruct u as [|? u];
          [ try (now contradiction Hu);
            cbn in ET; subst v; try reflexivity; try (now contradiction Hv)
          | cbn in ET; try discriminate ET;
            injection ET as ? ET; subst ]);
  try (destruct v; [now contradiction Hv|discriminate ET]).


Lemma starts_keep_lit_close (T : jsstring) :
  (forall u v b p, T = u ++ v -> u <> [] -> v <> [] ->
                   exec plain (re_p_after (Lit T)) p (v ++ b) = None) ->
  starts_keep (re_p_after (Lit T)) only1 T.
Proof.
  intros H. apply starts_keep_close; [|exact H].
  intros st1 st0 x y Hm _. now apply Matches_Lit_consumed.
Qed.

Lemma starts_keep_pre_close :
  starts_keep (re_p_after (L "</pre>")) only1 (str "</pre>").
Proof. apply starts_keep_lit_close. suffixes_tac. Qed.

Lemma starts_keep_ul_close :
  starts_keep (re_p_after (L "</ul>")) only1 (str "</ul>").
Proof. apply starts_keep_lit_close. suffixes_tac. Qed.

(** ** A header stays a header *)

Ltac word_dead calm_lemma :=
  apply dead_wrapped;
  [ apply calm_lemma | assumption | reflexivity | reflexivity
  | intros; dead_tac | intros; dead_tac ].

Ltac word_notin H :=
  apply not_in_wrapped;
  [ cbn; intuition discriminate | apply H; assumption | cbn; intuition discriminate ].

Ltac word_dots :=
  apply dots_wrapped; [repeat constructor | assumption | repeat constructor].

Ltac word_no_li HE :=
  cbn [app str]; norm_str; cbn [occurs starts_with app N.eqb Pos.eqb andb orb];
  rewrite occurs_lt_inert by (apply inert_no_lt; exact HE);
  reflexivity.





(** ** A line pattern works line by line *)

Lemma chr_all_line mk : chr_all is_dot mk -> chr_all is_dot (re_line mk).
Proof. intros H. cbn. repeat split; auto. Qed.


Lemma exec_line_at_terminator mk p (t : cu) s :
  chr_all is_dot mk -> is_line_terminator t = true ->
  exec plain (re_line mk) p (t :: s) = None.
Proof.
  intros Hmk Ht. destruct (exec plain (re_line mk) p (t :: s)) as [st'|] eqn:Ex;
    [exfalso|reflexivity].
  destruct (exec_nonempty plain _ _ _ _ (never_empty_zw _ (never_empty_line mk)) Ex)
    as (c & w & Es & _).
  destruct (exec_chr_all is_dot _ _ _ _ Ex (chr_all_line mk Hmk)) as (w2 & Es2 & Hd).
  destruct w2 as [|x w2].
  - cbn in Es2. rewrite <- Es2 in Es.
    apply (f_equal (@length _)) in Es. cbn in Es. rewrite length_app in Es.
    cbn in Es. lia.
  - injection Es2 as <- _. apply Forall_inv in Hd.
    unfold is_dot in Hd. rewrite Ht in Hd. discriminate.
Qed.


Lemma marker_dots mk : chr_all marker_char mk -> chr_all is_dot mk.
Proof. apply chr_all_impl. exact marker_char_dot. Qed.

(** A text that begins a line: nothing before it, or a line
    terminator. *)
Lemma line_start_cases (a : jsstring) :
  line_start (lastp None a) ->
  a = [] \/ exists a0 t, a = a0 ++ [t] /\ is_line_terminator t = true.
Proof.
  intros H. destruct a as [|x a]; [now left|right].
  destruct (exists_last (l := x :: a) ltac:(discriminate)) as (a0 & t & E).
  exists a0, t. split; [exact E|].
  rewrite E, lastp_app in H. exact H.
Qed.


(** ** The escaping and the code stage around a text without backticks *)

Lemma escape_char_other c :
  (c =? 38)%N = false -> (c =? 60)%N = false -> (c =? 62)%N = false ->
  (c =? 160)%N = false -> escape_char c = [c].
Proof.
  unfold escape_char, AMP, LTC, GTC, NBSP. now intros -> -> -> ->.
Qed.

Lemma escape_char_terminator t :
  is_line_terminator t = true -> escape_char t = [t].
Proof.
  unfold is_line_terminator. intros H.
  apply escape_char_other;
    repeat (apply orb_prop in H; destruct H as [H|H]);
    apply N.eqb_eq in H; subst t; reflexivity.
Qed.

Lemma escape_char_no_backtick c : c <> BACKTICK -> ~ In BACKTICK (escape_char c).
Proof.
  unfold escape_char, AMP, LTC, GTC, NBSP, BACKTICK. intros Hc.
  destruct (c =? 38)%N; [cbn; intuition discriminate|].
  destruct (c =? 60)%N; [cbn; intuition discriminate|].
  destruct (c =? 62)%N; [cbn; intuition discriminate|].
  destruct (c =? 160)%N; [cbn; intuition discriminate|].
  cbn. intros [H|[]]. now apply Hc.
Qed.

Lemma escapeHtml_cons c s : escapeHtml (c :: s) = escape_char c ++ escapeHtml s.
Proof. now rewrite !escapeHtml_flat_map. Qed.

Lemma escapeHtml_no_backtick a : ~ In BACKTICK a -> ~ In BACKTICK (escapeHtml a).
Proof.
  induction a as [|c a IH]; intros H.
  - rewrite escapeHtml_flat_map. cbn. tauto.
  - rewrite escapeHtml_cons. intros Hin. apply in_app_or in Hin.
    destruct Hin as [Hin|Hin].
    + revert Hin. apply escape_char_no_backtick. intros ->. apply H. now left.
    + revert Hin. apply IH. intros Hin. apply H. now right.
Qed.

Lemma escapeHtml_line_start a :
  line_start (lastp None a) -> line_start (lastp None (escapeHtml a)).
Proof.
  intros H. destruct (line_start_cases a H) as [->|(a0 & t & -> & Ht)].
  - rewrite escapeHtml_flat_map. exact I.
  - rewrite escapeHtml_app, escapeHtml_cons, (escape_char_terminator t Ht).
    rewrite lastp_app. rewrite escapeHtml_flat_map. cbn. exact Ht.
Qed.



Lemma exec_fence_other p c s : c <> BACKTICK -> exec plain re_fence p (c :: s) = None.
Proof.
  intros Hc. apply exec_none. unfold can_match. cbn.
  unfold is_char, plain, BACKTICK in *.
  apply N.eqb_neq in Hc. now rewrite Hc.
Qed.

Lemma exec_inline_other p c s : c <> BACKTICK -> exec plain re_inline p (c :: s) = None.
Proof.
  intros Hc. apply exec_none. unfold can_match. cbn.
  unfold is_char, plain, BACKTICK in *.
  apply N.eqb_neq in Hc. now rewrite Hc.
Qed.

Lemma dead_no_backtick r P :
  (forall p c s, c <> BACKTICK -> exec plain r p (c :: s) = None) ->
  ~ In BACKTICK P -> forall p s, dead r p P s.
Proof.
  intros Hr. induction P as [|c P IH]; intros H p s; [exact I|].
  split.
  - apply Hr. intros ->. apply H. now left.
  - apply IH. intros Hin. apply H. now right.
Qed.



(** ** The lines [### X] outside code *)



(** ** Header lines (C7) *)




(** ** Delimiters without a partner *)

(** A pattern whose characters are not those of the word does not
    reach into it. *)
Lemma reaches_out Q r tpl (w : jsstring) :
  chr_all Q r -> Forall (fun c => Q c = false) w -> w <> [] ->
  reaches_keep r tpl w.
Proof.
  intros HQ Hw Hn p a b st' Ha Ex Hlen. exfalso.
  destruct (exec_chr_all Q _ _ _ _ Ex HQ) as (mw & Es & Hd).
  assert (Hin : exists c, In c mw /\ In c w).
  { destruct (overlap_cases _ _ _ _ _ Es Hlen)
      as [(m3 & Em & _)|(u & v & Hu & Hv & Ew' & Em & _)].
    - destruct w as [|c w]; [now contradiction Hn|]. exists c. split; [|now left].
      rewrite Em. apply in_or_app. right. now left.
    - destruct u as [|c u]; [now contradiction Hu|]. exists c. split.
      + rewrite Em. apply in_or_app. right. now left.
      + rewrite Ew'. now left. }
  destruct Hin as (c & H1 & H2).
  rewrite Forall_forall in Hd, Hw. specialize (Hd _ H1). specialize (Hw _ H2).
  congruence.
Qed.

(** The grouping pattern around a word without [>] and without newline. *)
Lemma reaches_items_text (w : jsstring) :
  ~ In 62%N w -> ~ In NL w ->
  reaches_keep re_items (wrap1 plain "<ul>" "</ul>") w.
Proof.
  intros H1 H2 p a b st' Ha Ex Hlen.
  destruct (items_inv _ _ _ Ex) as (m0 & t & Es & Ht & Ec).
  assert (E : a ++ w ++ b = (m0 ++ str "</li>" ++ t) ++ rest st')
    by (rewrite Es; now rewrite <- !app_assoc).
  destruct (overlap_cases _ _ _ _ _ E Hlen)
    as [(m3 & Em & _)|(u & v & Hu & Hv & Ew' & Em & _)].
  - left. unfold wrap1. rewrite !lits_plain, Ec, Em.
    apply factor_app_l, factor_app_r. exists a, m3. reflexivity.
  - exfalso.
    assert (L : last (m0 ++ str "</li>" ++ t) 0%N = last (a ++ u) 0%N)
      by now rewrite Em.
    rewrite (last_app_r a u) in L by exact Hu.
    pose proof (last_in u 0%N Hu) as Hin. rewrite <- L in Hin.
    assert (Hw : In (last (m0 ++ str "</li>" ++ t) 0%N) w)
      by (rewrite Ew'; apply in_or_app; now left).
    rewrite last_app_r in Hw by (destruct Ht as [-> | ->]; discriminate).
    destruct Ht as [-> | ->]; cbn in Hw; tauto.
Qed.

Lemma dead_run r (d : cu) :
  (forall pv, can_match r (pv, Some d) = false) ->
  forall k p b, dead r p (repeat d k) b.
Proof.
  intros H k. induction k as [|k IH]; intros p b; [exact I|].
  split; [|apply IH]. apply exec_none. apply H.
Qed.

Lemma repeat_last (d : cu) k x : last (repeat d (S k)) x = d.
Proof.
  induction k as [|k IH]; [reflexivity|].
  change (repeat d (S (S k))) with (d :: d :: repeat d k).
  rewrite last_cons2. exact IH.
Qed.

Lemma repeat_in (d c : cu) k : In c (repeat d k) -> c = d.
Proof. intros H. now apply (repeat_spec k d c). Qed.

Lemma repeat_dots (d : cu) k :
  is_dot d = true -> Forall (fun c => is_dot c = true) (repeat d k).
Proof.
  intros H. apply Forall_forall. intros c Hc.
  now rewrite (repeat_in _ _ _ Hc).
Qed.

(** A subject in which the pattern matches nowhere is left as it is. *)
Lemma replace_id r tpl s :
  never_empty r = true ->
  (forall u c v p, s = u ++ c :: v -> exec plain r p (c :: v) = None) ->
  replace plain r tpl s = s.
Proof.
  intros Hz H. apply replace_all_dead; [exact Hz|].
  assert (G : forall v u p, s = u ++ v -> dead r p v []).
  { induction v as [|c v IH]; intros u p E; [exact I|]. split.
    - rewrite app_nil_r. now apply (H u c v).
    - apply (IH (u ++ [c])). now rewrite <- app_assoc. }
  now apply (G s []).
Qed.

Lemma quiet_facts c :
  quiet c = true ->
  ordinary c = true /\ (c =? 60)%N = false /\ (c =? 62)%N = false
  /\ is_line_terminator c = false /\ (c =? 10)%N = false
  /\ is_space c = false.
Proof.
  unfold quiet. intros H.
  apply andb_true_iff in H. destruct H as [H H4].
  apply andb_true_iff in H. destruct H as [H H3].
  apply andb_true_iff in H. destruct H as [H H2].
  apply negb_true_iff in H2, H3, H4.
  destruct (ordinary_facts c H) as (O1 & O2 & O3 & O4).
  repeat split; auto.
  unfold is_line_terminator in *.
  destruct (c =? 10)%N; [discriminate|reflexivity].
Qed.

Lemma quiet_line mk c :
  (forall k, zw mk k = false) ->
  (forall pv x, ordinary x = true -> adv mk (pv, Some x) = false) ->
  quiet c = true -> forall pv, can_match (re_line mk) (pv, Some c) = false.
Proof.
  intros Hz Ha Hq pv. destruct (quiet_facts c Hq) as (Ho & _).
  apply can_match_re_line; [apply Hz|]. right. now apply Ha.
Qed.

Ltac adv_ordinary :=
  let pv := fresh in let x := fresh in let H := fresh in
  intros pv x H; destruct (ordinary_facts x H) as (? & ? & ? & ?);
  cbn; unfold is_char;
  repeat match goal with E : _ = false |- _ => rewrite E end; reflexivity.

Lemma quiet_h3 c pv : quiet c = true -> can_match re_h3 (pv, Some c) = false.
Proof. intros H. apply quiet_line; [reflexivity|adv_ordinary|exact H]. Qed.
Lemma quiet_h2 c pv : quiet c = true -> can_match re_h2 (pv, Some c) = false.
Proof. intros H. apply quiet_line; [reflexivity|adv_ordinary|exact H]. Qed.
Lemma quiet_h1 c pv : quiet c = true -> can_match re_h1 (pv, Some c) = false.
Proof. intros H. apply quiet_line; [reflexivity|adv_ordinary|exact H]. Qed.
Lemma quiet_item c pv : quiet c = true -> can_match re_item (pv, Some c) = false.
Proof. intros H. apply quiet_line; [reflexivity|adv_ordinary|exact H]. Qed.
Lemma quiet_numbered c pv :
  quiet c = true -> can_match re_numbered (pv, Some c) = false.
Proof. intros H. apply quiet_line; [reflexivity|adv_ordinary|exact H]. Qed.

Ltac quiet_tac :=
  let H := fresh in
  intros H; destruct (quiet_facts _ H) as (? & ? & ? & ? & ? & ?);
  unfold can_match; cbn; unfold is_char, plain, NL;
  repeat match goal with E : _ = false |- _ => rewrite E end; reflexivity.

Lemma quiet_items c pv : quiet c = true -> can_match re_items (pv, Some c) = false.
Proof. quiet_tac. Qed.
Lemma quiet_blank c pv : quiet c = true -> can_match re_blank (pv, Some c) = false.
Proof. quiet_tac. Qed.
Lemma quiet_empty_p c pv :
  quiet c = true -> can_match re_empty_p (pv, Some c) = false.
Proof. quiet_tac. Qed.
Lemma quiet_p_before tag c pv :
  quiet c = true -> can_match (re_p_before tag) (pv, Some c) = false.
Proof. quiet_tac. Qed.
Lemma quiet_p_after_h c pv :
  quiet c = true -> can_match (re_p_after tag_h_close) (pv, Some c) = false.
Proof. quiet_tac. Qed.
Lemma quiet_p_after_pre c pv :
  quiet c = true -> can_match (re_p_after (L "</pre>")) (pv, Some c) = false.
Proof. quiet_tac. Qed.
Lemma quiet_p_after_ul c pv :
  quiet c = true -> can_match (re_p_after (L "</ul>")) (pv, Some c) = false.
Proof. quiet_tac. Qed.

Lemma chr_other_no (d : cu) r st0 st1 :
  chr_all (fun c => negb (c =? d)%N) r ->
  Matches plain r st0 st1 -> ~ In d (consumed st0 st1).
Proof.
  intros H Hm Hin. apply (Matches_chr_all _ _ _ _ Hm) in H.
  rewrite Forall_forall in H. specialize (H _ Hin).
  rewrite N.eqb_refl in H. discriminate H.
Qed.

Section QuietRun.

Variable d : cu.
Hypothesis Hq : quiet d = true.
Hypothesis Hchr :
  forall r, In r later_patterns -> chr_all (fun c => negb (c =? d)%N) r.
Variable k : nat.

Lemma run_dots : Forall (fun c => is_dot c = true) (repeat d (S k)).
Proof.
  apply repeat_dots. unfold is_dot.
  destruct (quiet_facts d Hq) as (_ & _ & _ & H & _). now rewrite H.
Qed.

Lemma run_all_other : Forall (fun c => negb (c =? d)%N = false) (repeat d (S k)).
Proof.
  apply Forall_forall. intros c Hc. rewrite (repeat_in _ _ _ Hc).
  now rewrite N.eqb_refl.
Qed.

Lemma run_not_in (c : cu) : c <> d -> ~ In c (repeat d (S k)).
Proof. intros Hc Hin. apply Hc. now apply (repeat_in d c (S k)). Qed.

Ltac later_in := unfold later_patterns; cbn; tauto.

Lemma run_line mk O C s :
  In mk later_patterns ->
  (forall pv, can_match (re_line mk) (pv, Some d) = false) ->
  factor (repeat d (S k)) s ->
  factor (repeat d (S k)) (replace plain (re_line mk) (wrap1 plain O C) s).
Proof.
  intros Hin Hcan. apply (keep_line_from mk O C _ d (repeat d k)).
  - intros st0 st1 Hm. apply (chr_other_no d mk); [now apply Hchr|exact Hm].
  - reflexivity.
  - apply run_dots.
  - apply dead_run. exact Hcan.
Qed.

Lemma run_headers s :
  factor (repeat d (S k)) s -> factor (repeat d (S k)) (stage_headers s).
Proof.
  intros F. unfold stage_headers, headers.
  apply run_line; [later_in|intros; now apply quiet_h1|].
  apply run_line; [later_in|intros; now apply quiet_h2|].
  apply run_line; [later_in|intros; now apply quiet_h3|].
  exact F.
Qed.

Lemma run_lists s :
  factor (repeat d (S k)) s ->
  factor (repeat d (S k)) (ordered_lists plain plain (stage_lists s)).
Proof.
  intros F. unfold ordered_lists, stage_lists, unordered_lists.
  destruct (quiet_facts d Hq) as (_ & _ & H62 & _ & H10 & _).
  apply run_line; [later_in|intros; now apply quiet_numbered|].
  apply replace_keeps;
    [reflexivity
    |apply starts_keep_dead, dead_run; intros; now apply quiet_items
    |apply reaches_items_text; apply run_not_in; intros <-; discriminate|].
  apply run_line; [later_in|intros; now apply quiet_item|].
  exact F.
Qed.

Lemma run_cleanup_pass r tpl s :
  In r later_patterns -> never_empty r = true ->
  (forall pv, can_match r (pv, Some d) = false) ->
  factor (repeat d (S k)) s -> factor (repeat d (S k)) (replace plain r tpl s).
Proof.
  intros Hin Hz Hcan. apply replace_keeps.
  - exact Hz.
  - apply starts_keep_dead, dead_run. exact Hcan.
  - apply (reaches_out (fun c => negb (c =? d)%N)).
    + now apply Hchr.
    + apply run_all_other.
    + discriminate.
Qed.

Lemma run_paragraphs s :
  factor (repeat d (S k)) s ->
  factor (repeat d (S k)) (stage_cleanup (stage_paragraphs s)).
Proof.
  intros F. unfold stage_cleanup, stage_paragraphs, cleanup, paragraphs.
  rewrite !lits_plain.
  apply run_cleanup_pass; [later_in|reflexivity|intros; now apply quiet_p_after_ul|].
  apply run_cleanup_pass; [later_in|reflexivity|intros; now apply quiet_p_before|].
  apply run_cleanup_pass; [later_in|reflexivity|intros; now apply quiet_p_after_pre|].
  apply run_cleanup_pass; [later_in|reflexivity|intros; now apply quiet_p_before|].
  apply run_cleanup_pass; [later_in|reflexivity|intros; now apply quiet_p_after_h|].
  apply run_cleanup_pass; [later_in|reflexivity|intros; now apply quiet_p_before|].
  apply run_cleanup_pass; [later_in|reflexivity|intros; now apply quiet_empty_p|].
  apply factor_app_l, factor_app_r.
  apply run_cleanup_pass; [later_in|reflexivity|intros; now apply quiet_blank|].
  exact F.
Qed.

End QuietRun.

(** ** What a span and a fence consist of *)

Lemma span_inv_chr o q c p s st' :
  exec plain (Lit o ;; Group 1 (Plus (Chr q)) ;; Lit c)%re p s = Some st' ->
  exists X, s = o ++ X ++ c ++ rest st' /\ cap 1 st' = X
            /\ X <> [] /\ Forall (fun x => q x = true) X.
Proof.
  intros H. apply exec_sound in H.
  inversion H as [| |? ? ? s1 ? H1 H2| | | | | | |]; subst.
  inversion H2 as [| |? ? ? s2 ? H3 H4| | | | | | |]; subst.
  inversion H3 as [| | | | | | |? ? ? st0 HR| |]; subst.
  apply Matches_Lit in H1. destruct H1 as (E1 & P1 & C1).
  apply Matches_Lit in H4. destruct H4 as (E4 & P4 & C4).
  destruct (Matches_suffix plain _ _ _ HR) as (X & E3 & P3).
  exists X. cbn [rest prev caps] in *. unfold set_cap in *.
  cbn [rest prev caps] in *. repeat split.
  - now rewrite E1, E3, E4.
  - unfold cap. rewrite C4. cbn [get_cap Nat.eqb].
    now apply consumed_app.
  - intros ->. cbn in E3.
    unfold Plus in HR.
    inversion HR as [| |? ? ? sA ? HA HS| | | | | | |]; subst.
    inversion HA as [|? ? x ? ? Hx| | | | | | | |]; subst.
    apply Matches_le in HS. cbn [rest] in *.
    rewrite <- E3 in HS. cbn in HS. lia.
  - rewrite <- (consumed_app X s1 st0 E3).
    apply (Matches_chr_all (fun x => q x) _ _ _ HR). cbn. auto.
Qed.

Lemma fence_inv p s st' :
  exec plain re_fence p s = Some st' ->
  exists lang body,
    s = str "```" ++ lang ++ NL :: body ++ str "```" ++ rest st'
    /\ cap 2 st' = body
    /\ Forall (fun c => is_word c = true) lang.
Proof.
  intros H. apply exec_sound in H. unfold re_fence in H.
  inversion H as [| |? ? ? s1 ? H1 H2| | | | | | |]; subst.
  inversion H2 as [| |? ? ? s2 ? H3 H4| | | | | | |]; subst.
  inversion H4 as [| |? ? ? s3 ? H5 H6| | | | | | |]; subst.
  inversion H6 as [| |? ? ? s4 ? H7 H8| | | | | | |]; subst.
  inversion H3 as [| | | | | | |? ? ? st0 HL| |]; subst.
  inversion H7 as [| | | | | | |? ? ? st1 HB| |]; subst.
  inversion H5 as [|? ? x ? ? Hx| | | | | | | |]; subst.
  apply (Matches_Lit (str "```")) in H1. destruct H1 as (E1 & _ & _).
  apply (Matches_Lit (str "```")) in H8. destruct H8 as (E8 & _ & C8).
  destruct (Matches_suffix plain _ _ _ HL) as (lang & EL & _).
  destruct (Matches_suffix plain _ _ _ HB) as (body & EB & _).
  exists lang, body. cbn [rest prev caps] in *. unfold set_cap in *.
  cbn [rest prev caps] in *.
  unfold is_char, plain in Hx. apply N.eqb_eq in Hx. subst x.
  repeat split.
  - rewrite E1, EL.
    match goal with Hr : _ :: _ = rest st0 |- _ => rewrite <- Hr end.
    now rewrite EB, E8.
  - unfold cap. rewrite C8. cbn [get_cap Nat.eqb]. now apply consumed_app.
  - rewrite <- (consumed_app lang s1 st0 EL).
    apply (Matches_chr_all (fun x => is_word x) _ _ _ HL). cbn. auto.
Qed.

(** ** A run of one character that stands alone *)

Lemma run_tail_between (d : cu) (b m u2 : jsstring) : forall k,
  ~ In d b -> repeat d k ++ b = m ++ d :: u2 -> Forall (fun c => c = d) m.
Proof.
  induction m as [|x m IH]; intros k Hb E; [constructor|].
  destruct k as [|k].
  - exfalso. apply Hb. cbn in E. rewrite E. right. apply in_elt.
  - cbn in E. injection E as <- E. constructor; [reflexivity|].
    now apply (IH k).
Qed.

Lemma run_between (d : cu) (b m u2 : jsstring) : forall u1 a k,
  ~ In d a -> ~ In d b ->
  a ++ repeat d k ++ b = u1 ++ d :: m ++ d :: u2 ->
  Forall (fun c => c = d) m.
Proof.
  induction u1 as [|x u1 IH]; intros a k Ha Hb E.
  - destruct a as [|y a].
    + destruct k as [|k].
      * exfalso. apply Hb. cbn in E. rewrite E. now left.
      * cbn in E. injection E as E. now apply (run_tail_between d b m u2 k).
    + exfalso. cbn in E. injection E as -> _. apply Ha. now left.
  - destruct a as [|y a].
    + destruct k as [|k].
      * exfalso. apply Hb. cbn in E. rewrite E. right. apply in_elt.
      * cbn in E. injection E as _ E. apply (IH [] k); auto.
    + cbn in E. injection E as _ E. apply (IH a k); auto.
      intros H. apply Ha. now right.
Qed.

Lemma span_alone (d : cu) j (a b : jsstring) k :
  ~ In d a -> ~ In d b ->
  forall u x v p,
    a ++ repeat d k ++ b = u ++ x :: v ->
    exec plain (Lit (repeat d (S j)) ;; Group 1 (Plus (Chr (is_not_char d)))
                ;; Lit (repeat d (S j)))%re p (x :: v) = None.
Proof.
  intros Ha Hb u x v p E.
  destruct (exec plain _ p (x :: v)) as [st'|] eqn:Ex; [exfalso|reflexivity].
  destruct (span_inv_chr _ _ _ _ _ _ Ex) as (X & Es & _ & HX & Hq).
  destruct X as [|y X]; [now contradiction HX|].
  apply Forall_inv in Hq. unfold is_not_char in Hq.
  rewrite Es in E.
  change (repeat d (S j) ++ (y :: X) ++ repeat d (S j) ++ rest st')
    with (d :: repeat d j ++ (y :: X) ++ d :: (repeat d j ++ rest st')) in E.
  assert (F : Forall (fun c => c = d) (repeat d j ++ y :: X)).
  { apply (run_between d b _ (repeat d j ++ rest st') u a k Ha Hb).
    rewrite E. now rewrite <- !app_assoc. }
  apply Forall_app in F. destruct F as [_ F]. apply Forall_inv in F.
  subst y. rewrite N.eqb_refl in Hq. discriminate Hq.
Qed.

Lemma fence_alone (a b : jsstring) k :
  ~ In BACKTICK a -> ~ In BACKTICK b ->
  forall u x v p,
    a ++ repeat BACKTICK k ++ b = u ++ x :: v ->
    exec plain re_fence p (x :: v) = None.
Proof.
  intros Ha Hb u x v p E.
  destruct (exec plain re_fence p (x :: v)) as [st'|] eqn:Ex; [exfalso|reflexivity].
  destruct (fence_inv _ _ _ Ex) as (lang & body & Es & _ & _).
  rewrite Es in E.
  assert (F : Forall (fun c => c = BACKTICK)
                (str "``" ++ lang ++ NL :: body ++ str "``")).
  { apply (run_between BACKTICK b _ (rest st') u a k Ha Hb).
    rewrite E. cbn. rewrite <- !app_assoc. cbn. do 4 f_equal.
    rewrite <- !app_assoc. reflexivity. }
  apply Forall_app in F. destruct F as [_ F].
  apply Forall_app in F. destruct F as [_ F].
  apply Forall_inv in F. discriminate F.
Qed.

(** ** A run of backticks without another backtick *)

Lemma escapeHtml_run (d : cu) k :
  escape_char d = [d] -> escapeHtml (repeat d k) = repeat d k.
Proof.
  intros H. induction k as [|k IH].
  - now rewrite escapeHtml_flat_map.
  - cbn [repeat]. now rewrite escapeHtml_cons, H, IH.
Qed.

Lemma quiet_backtick : quiet BACKTICK = true.  Proof. reflexivity. Qed.
Lemma quiet_star : quiet STAR = true.  Proof. reflexivity. Qed.

Ltac chr_other_tac :=
  let r := fresh in let Hr := fresh in
  intros r Hr; unfold later_patterns in Hr; cbn [In] in Hr;
  repeat (destruct Hr as [<-|Hr]; [cbn; repeat split;
    let c := fresh in let Hc := fresh in
    intros c Hc;
    match goal with
    | |- negb (c =? ?d)%N = true =>
        destruct (N.eqb_spec c d) as [->|]; [discriminate Hc|reflexivity]
    end|]);
  contradiction Hr.

Lemma later_no_backtick :
  forall r, In r later_patterns -> chr_all (fun c => negb (c =? BACKTICK)%N) r.
Proof. chr_other_tac. Qed.

Lemma later_no_star :
  forall r, In r later_patterns -> chr_all (fun c => negb (c =? STAR)%N) r.
Proof. chr_other_tac. Qed.

Lemma backticks_emphasis k s :
  factor (repeat BACKTICK (S k)) s ->
  factor (repeat BACKTICK (S k)) (stage_italic (stage_bold s)).
Proof.
  intros F. unfold stage_italic, stage_bold, italic, bold.
  apply (keep_span (str "*") _ (str "*") "<em>" "</em>" _ BACKTICK
           (repeat BACKTICK k));
    [reflexivity|reflexivity|cbn; intuition discriminate
    |rewrite repeat_last; cbn; intuition discriminate
    |discriminate|apply run_not_in; discriminate
    |apply dead_run; reflexivity|].
  apply (keep_span (str "**") _ (str "**") "<strong>" "</strong>" _ BACKTICK
           (repeat BACKTICK k));
    [reflexivity|reflexivity|cbn; intuition discriminate
    |rewrite repeat_last; cbn; intuition discriminate
    |discriminate|apply run_not_in; discriminate
    |apply dead_run; reflexivity|].
  exact F.
Qed.

Lemma backticks_code_stage (a b : jsstring) k :
  ~ In BACKTICK a -> ~ In BACKTICK b ->
  inline_code plain plain (stage_code_blocks (a ++ repeat BACKTICK k ++ b))
  = a ++ repeat BACKTICK k ++ b.
Proof.
  intros Ha Hb. unfold stage_code_blocks, code_blocks, inline_code.
  rewrite (replace_id re_fence); [|reflexivity|].
  - apply replace_id; [reflexivity|]. intros u c v p E.
    exact (span_alone BACKTICK 0 a b k Ha Hb u c v p E).
  - intros u c v p E. exact (fence_alone a b k Ha Hb u c v p E).
Qed.

Lemma backticks_alone_rendered k (a X : jsstring) :
  ~ In BACKTICK a -> ~ In BACKTICK X ->
  factor (repeat BACKTICK (S k))
    (renderMarkdown (a ++ repeat BACKTICK (S k) ++ X)).
Proof.
  intros Ha HX. unfold renderMarkdown.
  rewrite !escapeHtml_app, (escapeHtml_run BACKTICK (S k) eq_refl).
  match goal with
  | |- factor _ (markup plain plain ?s) =>
      change (markup plain plain s)
        with (stage_cleanup (stage_paragraphs (ordered_lists plain plain (stage_lists
                (stage_italic (stage_bold (stage_headers
                   (inline_code plain plain (stage_code_blocks s)))))))))
  end.
  rewrite backticks_code_stage by now apply escapeHtml_no_backtick.
  apply (run_paragraphs BACKTICK quiet_backtick later_no_backtick).
  apply (run_lists BACKTICK quiet_backtick later_no_backtick).
  apply backticks_emphasis.
  apply (run_headers BACKTICK quiet_backtick later_no_backtick).
  exists (escapeHtml a), (escapeHtml X). reflexivity.
Qed.

(** ** A run of [*] without another [*] *)

Lemma count_app d a b : count d (a ++ b) = count d a + count d b.
Proof. apply count_occ_app. Qed.

Lemma count_none d s : ~ In d s <-> count d s = 0.
Proof. apply count_occ_not_In. Qed.

Lemma count_run d k : count d (repeat d k) = k.
Proof. apply count_occ_repeat_eq. reflexivity. Qed.

Lemma count_alone d k (a b s : jsstring) :
  s = a ++ repeat d k ++ b -> count d s = k -> ~ In d a /\ ~ In d b.
Proof.
  intros -> H. rewrite !count_app, count_run in H.
  split; apply count_none; lia.
Qed.

Lemma replace_from_count d r tpl :
  never_empty r = true ->
  (forall p s st' w, exec plain r p s = Some st' -> s = w ++ rest st' ->
                     count d (tpl st') = count d w) ->
  forall p s, count d (replace_from plain r tpl 0 p s) = count d s.
Proof.
  intros Hz H.
  apply (replace_from_ind plain r tpl
           (fun p s out => count d out = count d s) (never_empty_zw r Hz)).
  - reflexivity.
  - intros p c s out _ IH.
    change (c :: out) with ([c] ++ out). change (c :: s) with ([c] ++ s).
    rewrite !count_app. now rewrite IH.
  - intros p c w s st' out Ex Er IH.
    rewrite count_app, IH.
    rewrite (H p (c :: w ++ s) st' (c :: w) Ex) by now rewrite Er.
    change (c :: w ++ s) with ((c :: w) ++ s). now rewrite count_app.
Qed.

Lemma count_spaces d (ws : jsstring) :
  is_space d = false -> spaces plain ws -> count d ws = 0.
Proof.
  intros Hd Hs. apply count_none. intros Hin.
  unfold spaces in Hs. rewrite Forall_forall in Hs. specialize (Hs _ Hin).
  unfold plain in Hs. congruence.
Qed.

Lemma count_trim d (s : jsstring) :
  is_space d = false -> count d (trim plain s) = count d s.
Proof.
  intros Hd. destruct (trim_split plain s) as (l & r & E & Hl & Hr).
  rewrite E at 2. rewrite !count_app.
  rewrite (count_spaces d l Hd Hl), (count_spaces d r Hd Hr). lia.
Qed.

Lemma count_all_other d (Q : cu -> bool) (w : jsstring) :
  Q d = false -> Forall (fun c => Q c = true) w -> count d w = 0.
Proof.
  intros Hd Hw. apply count_none. intros Hin.
  rewrite Forall_forall in Hw. specialize (Hw _ Hin). congruence.
Qed.

Lemma count_lit (x : jsstring) : ~ In STAR x -> count STAR x = 0.
Proof. apply count_none. Qed.

Ltac no_star_tac := cbn; unfold STAR; intuition discriminate.

Lemma count_fence p s st' w :
  exec plain re_fence p s = Some st' -> s = w ++ rest st' ->
  count STAR (str "<pre><code>" ++ trim plain (cap 2 st') ++ str "</code></pre>")
  = count STAR w.
Proof.
  intros Ex E.
  destruct (fence_inv _ _ _ Ex) as (lang & body & Es & Ec & Hl).
  assert (Ew : w = str "```" ++ lang ++ NL :: body ++ str "```").
  { apply (app_inv_tail (rest st')). rewrite <- E, Es.
    change (NL :: body ++ str "```" ++ rest st')
      with ([NL] ++ body ++ str "```" ++ rest st').
    change (NL :: body ++ str "```") with ([NL] ++ body ++ str "```").
    now rewrite <- !app_assoc. }
  rewrite Ew, Ec.
  change (NL :: body ++ str "```") with ([NL] ++ body ++ str "```").
  rewrite !count_app, (count_trim STAR body eq_refl).
  rewrite (count_all_other STAR is_word lang eq_refl Hl).
  rewrite (count_lit (str "<pre><code>")), (count_lit (str "</code></pre>")),
    (count_lit (str "```")), (count_lit [NL]) by no_star_tac.
  lia.
Qed.

Lemma count_wrap1 O C (st' : mstate cu) :
  ~ In STAR (str O) -> ~ In STAR (str C) ->
  count STAR (wrap1 plain O C st') = count STAR (cap 1 st').
Proof.
  intros HO HC. unfold wrap1. rewrite !lits_plain, !count_app.
  rewrite (count_lit _ HO), (count_lit _ HC). lia.
Qed.

Lemma count_span (o : jsstring) R (c : jsstring) O C p s st' w :
  ~ In STAR o -> ~ In STAR c -> ~ In STAR (str O) -> ~ In STAR (str C) ->
  exec plain (Lit o ;; Group 1 R ;; Lit c)%re p s = Some st' ->
  s = w ++ rest st' ->
  count STAR (wrap1 plain O C st') = count STAR w.
Proof.
  intros Ho Hc HO HC Ex E.
  destruct (span_inv _ _ _ _ _ _ Ex) as (X & Es & Ec & _).
  assert (Ew : w = o ++ X ++ c).
  { apply (app_inv_tail (rest st')). rewrite <- E, Es.
    now rewrite <- !app_assoc. }
  rewrite count_wrap1, Ec, Ew, !count_app by assumption.
  rewrite (count_lit _ Ho), (count_lit _ Hc). lia.
Qed.

Lemma count_line mk O C p s st' w :
  chr_all (fun c => negb (c =? STAR)%N) mk ->
  ~ In STAR (str O) -> ~ In STAR (str C) ->
  exec plain (re_line mk) p s = Some st' ->
  s = w ++ rest st' ->
  count STAR (wrap1 plain O C st') = count STAR w.
Proof.
  intros Hmk HO HC Ex E.
  destruct (line_inv _ _ _ _ Ex) as (st1 & X & Hm & Es & Ec & _).
  assert (Ew : w = consumed (MState p s []) st1 ++ X).
  { apply (app_inv_tail (rest st')). rewrite <- E, <- app_assoc. exact Es. }
  rewrite count_wrap1, Ec, Ew, !count_app by assumption.
  rewrite (count_lit (consumed _ _)); [reflexivity|].
  now apply (chr_other_no STAR mk).
Qed.

(** The fence pattern takes a word without white space at its ends,
    word characters, newline and backticks into its body, and the
    trimming leaves it there. *)
Lemma factor_trim (w : jsstring) (h : cu) (w' body : jsstring) :
  w = h :: w' -> is_space h = false -> is_space (last w 0%N) = false ->
  factor w body -> factor w (trim plain body).
Proof.
  intros Ew Hh Hl (a & b & E).
  destruct (trim_split plain body) as (l & r & Et & Sl & Sr).
  assert (Hnl : ~ In h l).
  { intros Hin. unfold spaces in Sl. rewrite Forall_forall in Sl.
    specialize (Sl _ Hin). unfold plain in Sl. congruence. }
  assert (Hnr : ~ In (last w 0%N) r).
  { intros Hin. unfold spaces in Sr. rewrite Forall_forall in Sr.
    specialize (Sr _ Hin). unfold plain in Sr. congruence. }
  apply (factor_before_suffix _ r w); [subst w; discriminate|exact Hnr|].
  apply (factor_after_prefix l _ a w b h w' Ew Hnl).
  rewrite <- Et. exact E.
Qed.

Lemma reaches_fence (w : jsstring) (h : cu) (w' : jsstring) :
  w = h :: w' -> is_word h = false -> h <> NL -> h <> BACKTICK ->
  is_space h = false -> is_space (last w 0%N) = false ->
  ~ In BACKTICK w ->
  reaches_keep re_fence
    (fun st => lits plain (str "<pre><code>") ++ trim plain (cap 2 st)
               ++ lits plain (str "</code></pre>")) w.
Proof.
  intros Ew Hw Hn Hb Hs Hl Hnb p a b st' Ha Ex Hlen.
  destruct (fence_inv _ _ _ Ex) as (lang & body & Es & Ec & HL).
  assert (E : a ++ w ++ b
              = ((str "```" ++ lang ++ [NL]) ++ body ++ str "```") ++ rest st').
  { rewrite Es.
    change (NL :: body ++ str "```" ++ rest st')
      with ([NL] ++ body ++ str "```" ++ rest st').
    now rewrite <- !app_assoc. }
  destruct (overlap_cases _ _ _ _ _ E Hlen)
    as [(m3 & Em & _)|(u & v & Hu & Hv & Ew' & Em & _)].
  - left. rewrite !lits_plain, Ec. apply factor_app_l, factor_app_r.
    apply (factor_trim w h w' body Ew Hs Hl).
    apply (factor_before_suffix body (str "```") w); [subst w; discriminate| |].
    + intros Hin. apply Hnb.
      assert (last w 0%N = BACKTICK)
        by (cbn in Hin; unfold BACKTICK; intuition congruence).
      rewrite <- H. apply last_in. subst w. discriminate.
    + apply (factor_after_prefix (str "```" ++ lang ++ [NL]) _ a w m3 h w' Ew);
        [|rewrite <- Em; now rewrite <- !app_assoc].
      intros Hin. apply in_app_or in Hin. destruct Hin as [Hin|Hin].
      * cbn in Hin. unfold BACKTICK in Hb. intuition congruence.
      * apply in_app_or in Hin. destruct Hin as [Hin|Hin].
        -- rewrite Forall_forall in HL. specialize (HL _ Hin). congruence.
        -- cbn in Hin. intuition congruence.
  - exfalso. apply Hnb.
    assert (L : last (((str "```" ++ lang ++ [NL]) ++ body) ++ str "```") 0%N
                = last (a ++ u) 0%N) by (rewrite <- app_assoc; now rewrite Em).
    rewrite !last_app_r in L by (assumption || discriminate).
    cbn in L. unfold BACKTICK. rewrite L, Ew'. apply in_or_app. left.
    now apply last_in.
Qed.

Lemma stars_code_stage k s :
  factor (repeat STAR (S k)) s ->
  factor (repeat STAR (S k)) (inline_code plain plain (stage_code_blocks s))
  /\ count STAR (inline_code plain plain (stage_code_blocks s)) = count STAR s.
Proof.
  intros F. unfold stage_code_blocks, inline_code, code_blocks. split.
  - apply (keep_span (str "`") _ (str "`") "<code>" "</code>" _ STAR
             (repeat STAR k));
      [reflexivity|reflexivity|cbn; unfold STAR; intuition discriminate
      |rewrite repeat_last; cbn; unfold STAR; intuition discriminate
      |discriminate|apply run_not_in; discriminate
      |apply dead_run; reflexivity|].
    apply replace_keeps;
      [reflexivity|apply starts_keep_dead, dead_run; reflexivity| |exact F].
    apply (reaches_fence _ STAR (repeat STAR k));
      [reflexivity|reflexivity|discriminate|discriminate|reflexivity
      |now rewrite repeat_last|apply run_not_in; discriminate].
  - unfold replace.
    rewrite (replace_from_count STAR re_inline); [|reflexivity|].
    + rewrite (replace_from_count STAR re_fence); [reflexivity|reflexivity|].
      intros p s0 st' w Ex E. rewrite !lits_plain.
      now apply (count_fence p s0 st' w).
    + intros p s0 st' w Ex E.
      apply (count_span (str "`") (Plus (Chr (is_not_char BACKTICK))) (str "`")
               "<code>" "</code>" p s0 st' w);
        auto; no_star_tac.
Qed.

Lemma stars_headers k s :
  factor (repeat STAR (S k)) s ->
  factor (repeat STAR (S k)) (stage_headers s)
  /\ count STAR (stage_headers s) = count STAR s.
Proof.
  intros F. split.
  - now apply (run_headers STAR quiet_star later_no_star).
  - unfold stage_headers, headers, replace.
    assert (G : forall mk O C x,
               In mk later_patterns ->
               ~ In STAR (str O) -> ~ In STAR (str C) ->
               count STAR (replace_from plain (re_line mk) (wrap1 plain O C) 0 None x)
               = count STAR x).
    { intros mk O C x Hin HO HC.
      apply replace_from_count; [apply never_empty_line|].
      intros p s0 st' w Ex E.
      apply (count_line mk O C p s0 st' w); auto. now apply later_no_star. }
    unfold re_h1, re_h2, re_h3.
    rewrite !G; try no_star_tac; try (unfold later_patterns; cbn; tauto).
Qed.

Lemma stars_emphasis k (a b : jsstring) :
  ~ In STAR a -> ~ In STAR b ->
  stage_italic (stage_bold (a ++ repeat STAR k ++ b)) = a ++ repeat STAR k ++ b.
Proof.
  intros Ha Hb. unfold stage_italic, stage_bold, italic, bold.
  rewrite (replace_id re_bold); [|reflexivity|].
  - apply replace_id; [reflexivity|]. intros u c v p E.
    exact (span_alone STAR 0 a b k Ha Hb u c v p E).
  - intros u c v p E. exact (span_alone STAR 1 a b k Ha Hb u c v p E).
Qed.

Lemma escapeHtml_no_star a : ~ In STAR a -> ~ In STAR (escapeHtml a).
Proof.
  induction a as [|c a IH]; intros H.
  - rewrite escapeHtml_flat_map. cbn. tauto.
  - rewrite escapeHtml_cons. intros Hin. apply in_app_or in Hin.
    destruct Hin as [Hin|Hin].
    + assert (Hc : c <> STAR) by (intros ->; apply H; now left).
      revert Hin. unfold escape_char, AMP, LTC, GTC, NBSP, STAR in *.
      destruct (c =? 38)%N; [cbn; intuition discriminate|].
      destruct (c =? 60)%N; [cbn; intuition discriminate|].
      destruct (c =? 62)%N; [cbn; intuition discriminate|].
      destruct (c =? 160)%N; [cbn; intuition discriminate|].
      cbn. intros [Hin|[]]. now apply Hc.
    + revert Hin. apply IH. intros Hin. apply H. now right.
Qed.

Lemma stars_alone_rendered k (a X : jsstring) :
  ~ In STAR a -> ~ In STAR X ->
  factor (repeat STAR (S k))
    (renderMarkdown (a ++ repeat STAR (S k) ++ X)).
Proof.
  intros Ha HX. unfold renderMarkdown.
  rewrite !escapeHtml_app, (escapeHtml_run STAR (S k) eq_refl).
  match goal with
  | |- factor _ (markup plain plain ?s) =>
      change (markup plain plain s)
        with (stage_cleanup (stage_paragraphs (ordered_lists plain plain (stage_lists
                (stage_italic (stage_bold (stage_headers
                   (inline_code plain plain (stage_code_blocks s)))))))))
  end.
  pose proof (escapeHtml_no_star a Ha) as Ha'.
  pose proof (escapeHtml_no_star X HX) as HX'.
  assert (F0 : factor (repeat STAR (S k))
                 (escapeHtml a ++ repeat STAR (S k) ++ escapeHtml X))
    by (exists (escapeHtml a), (escapeHtml X); reflexivity).
  assert (C0 : count STAR (escapeHtml a ++ repeat STAR (S k) ++ escapeHtml X) = S k).
  { rewrite !count_app, count_run.
    apply count_none in Ha', HX'. lia. }
  destruct (stars_code_stage k _ F0) as (F1 & C1).
  destruct (stars_headers k _ F1) as (F2 & C2).
  destruct F2 as (a2 & b2 & E2).
  rewrite C1, C0 in C2.
  destruct (count_alone STAR (S k) a2 b2 _ E2 C2) as (Ha2 & Hb2).
  rewrite E2, stars_emphasis by assumption.
  apply (run_paragraphs STAR quiet_star later_no_star).
  apply (run_lists STAR quiet_star later_no_star).
  exists a2, b2. reflexivity.
Qed.

(** ** Markup without a partner (C3) *)

(** Malformed markup is not always left as it is: the italic rule takes
    the second [*] of an unmatched [**] when a [*] follows, and the
    inline code rule takes the third backtick of an unterminated fence
    when a backtick follows. *)
Lemma malformed_markup_rewritten :
  renderMarkdown (str "**a*") = str "<p>*<em>a</em></p>"
  /\ occurs (str "**") (renderMarkdown (str "**a*")) = false
  /\ renderMarkdown (str "```" ++ NL :: str "foo `bar")
     = str "<p>``<code>" ++ NL :: str "foo </code>bar</p>"
  /\ occurs (str "```") (renderMarkdown (str "```" ++ NL :: str "foo `bar")) = false.
Proof. repeat split; vm_compute; reflexivity. Qed.

(** C3.  The renderer is total: [renderMarkdown] is a function on all
    strings, built from structural recursions only, and the bound on the
    iterations of its matcher is never reached, however long the subject
    is.  On the empty string and on strings of delimiters only it
    returns the text as it is, and a text of any length without markup
    comes out escaped in one paragraph.  Markup without a partner is
    left in the output as it is, wherever it stands and whatever else
    the message holds: a run of backticks (a lone backtick, an
    unterminated fence with its language tag and its lines) in a message
    with no other backtick, and a run of [*] (an unmatched [*] or [**])
    in a message with no other [*]; in a message that is the delimiter
    and one line of text the output is the paragraph of the escaped
    message. *)
Theorem render_total :
  (forall g (step : mstate cu -> list (mstate cu)) n n' st,
      length (rest st) < n -> length (rest st) < n' ->
      star g step n st = star g step n' st)
  /\ renderMarkdown [] = []
  /\ renderMarkdown (str "**") = str "<p>**</p>"
  /\ renderMarkdown (str "`") = str "<p>`</p>"
  /\ renderMarkdown (str "#") = str "<p>#</p>"
  /\ (forall X, X <> [] -> Forall (fun c => markup_free c = true) X ->
                head_ordinary X ->
                renderMarkdown X = str "<p>" ++ escapeHtml X ++ str "</p>")
  /\ (forall k a X,
         ~ In BACKTICK a -> ~ In BACKTICK X ->
         occurs (repeat BACKTICK (S k))
           (renderMarkdown (a ++ repeat BACKTICK (S k) ++ X)) = true)
  /\ (forall k a X,
         ~ In STAR a -> ~ In STAR X ->
         occurs (repeat STAR (S k))
           (renderMarkdown (a ++ repeat STAR (S k) ++ X)) = true)
  /\ (forall X, X <> [] -> Forall (fun c => markup_free c = true) X ->
                head_ordinary X ->
                renderMarkdown (str "```" ++ NL :: X)
                = str "<p>```" ++ NL :: escapeHtml X ++ str "</p>")
  /\ (forall X, X <> [] -> Forall (fun c => markup_free c = true) X ->
                renderMarkdown (str "**" ++ X)
                = str "<p>**" ++ escapeHtml X ++ str "</p>").
Proof.
  split; [intros g step; apply star_fuel|].
  do 4 (split; [vm_compute; reflexivity|]).
  split; [exact render_text|].
  split.
  { intros k a X Ha HX. apply occurs_factor.
    now apply backticks_alone_rendered. }
  split.
  { intros k a X Ha HX. apply occurs_factor.
    now apply stars_alone_rendered. }
  split; [exact render_unclosed_fence|exact render_unclosed_bold].
Qed.

Lemma render_total_witness :
  renderMarkdown (str "a < b & c") = str "<p>a &lt; b &amp; c</p>"
  /\ occurs (repeat BACKTICK 3)
       (renderMarkdown
          (unlines [str "# see"; str ""]
           ++ repeat BACKTICK 3
           ++ unlines [str "js"; str "let x = 1;"; str "- *b*"; str ""; str "c"]))
     = true
  /\ occurs (repeat STAR 2)
       (renderMarkdown
          (unlines [str "- a `b`"; str "c "]
           ++ repeat STAR 2 ++ unlines [str "d"; str "# e"]))
     = true
  /\ renderMarkdown (str "```" ++ NL :: str "let x = 1;")
     = str "<p>```" ++ NL :: str "let x = 1;</p>"
  /\ renderMarkdown (str "**" ++ str "bold") = str "<p>**bold</p>".
Proof.
  destruct render_total as (_ & _ & _ & _ & _ & T & K & S & F & B).
  split; [|split; [|split; [|split]]].
  - refine (T (str "a < b & c") _ _ _);
      [discriminate|repeat constructor|reflexivity].
  - refine (K 2 (unlines [str "# see"; str ""])
              (unlines [str "js"; str "let x = 1;"; str "- *b*"; str ""; str "c"])
              _ _); vm_compute; intuition discriminate.
  - refine (S 1 (unlines [str "- a `b`"; str "c "])
              (unlines [str "d"; str "# e"]) _ _);
      vm_compute; intuition discriminate.
  - refine (F (str "let x = 1;") _ _ _);
      [discriminate|repeat constructor|reflexivity].
  - refine (B (str "bold") _ _); [discriminate|repeat constructor].
Defined.

(** ** An inline code element stays as it is *)

Lemma code_word_headers E s :
  Forall (fun c => inert c = true) E ->
  factor (str "<code>" ++ E ++ str "</code>") s ->
  factor (str "<code>" ++ E ++ str "</code>") (stage_headers s).
Proof.
  intros HE F. unfold stage_headers, headers.
  apply (keep_line (L "# ") "<h1>" "</h1>" _ (str "code>" ++ E ++ str "</code>"));
    [apply marker_h1|reflexivity|word_dots|word_dead calm_h1|].
  apply (keep_line (L "## ") "<h2>" "</h2>" _ (str "code>" ++ E ++ str "</code>"));
    [apply marker_h2|reflexivity|word_dots|word_dead calm_h2|].
  apply (keep_line (L "### ") "<h3>" "</h3>" _ (str "code>" ++ E ++ str "</code>"));
    [apply marker_h3|reflexivity|word_dots|word_dead calm_h3|].
  exact F.
Qed.

Lemma code_word_emphasis E s :
  Forall (fun c => inert c = true) E ->
  factor (str "<code>" ++ E ++ str "</code>") s ->
  factor (str "<code>" ++ E ++ str "</code>") (stage_italic (stage_bold s)).
Proof.
  intros HE F. unfold stage_italic, stage_bold, italic, bold.
  apply (keep_span (str "*") _ (str "*") "<em>" "</em>" _ 60%N
           (str "code>" ++ E ++ str "</code>"));
    [reflexivity|reflexivity|cbn; intuition discriminate
    |rewrite last_wrapped by discriminate; cbn; intuition discriminate
    |discriminate|word_notin inert_no_star|word_dead calm_italic|].
  apply (keep_span (str "**") _ (str "**") "<strong>" "</strong>" _ 60%N
           (str "code>" ++ E ++ str "</code>"));
    [reflexivity|reflexivity|cbn; intuition discriminate
    |rewrite last_wrapped by discriminate; cbn; intuition discriminate
    |discriminate|word_notin inert_no_star|word_dead calm_bold|].
  exact F.
Qed.

Lemma code_word_lists E s :
  Forall (fun c => inert c = true) E ->
  factor (str "<code>" ++ E ++ str "</code>") s ->
  factor (str "<code>" ++ E ++ str "</code>")
    (ordered_lists plain plain (stage_lists s)).
Proof.
  intros HE F. unfold ordered_lists, stage_lists, unordered_lists.
  apply (keep_line _ "<li>" "</li>" _ (str "code>" ++ E ++ str "</code>"));
    [apply marker_numbered|reflexivity|word_dots|word_dead calm_numbered|].
  apply (keep_items _ 99%N (str "ode>" ++ E ++ str "</code>"));
    [reflexivity|discriminate|word_no_li HE|word_dead calm_items|].
  apply (keep_line _ "<li>" "</li>" _ (str "code>" ++ E ++ str "</code>"));
    [apply marker_item|reflexivity|word_dots|word_dead calm_item|].
  exact F.
Qed.

Lemma code_word_paragraphs E s :
  Forall (fun c => inert c = true) E ->
  factor (str "<code>" ++ E ++ str "</code>") s ->
  factor (str "<code>" ++ E ++ str "</code>") (stage_cleanup (stage_paragraphs s)).
Proof.
  intros HE F. unfold stage_cleanup, stage_paragraphs, cleanup, paragraphs.
  rewrite !lits_plain.
  apply (keep_p_after _ _ 99%N (str "ode>" ++ E ++ str "</code>"));
    [apply (one_tag_lit (str "/ul>")); cbn; intuition discriminate
    |reflexivity|discriminate
    |apply starts_keep_dead; word_dead calm_p_after_ul|].
  apply (keep_p_before _ _ (str "code>" ++ E ++ str "</code>"));
    [apply (one_tag_lit (str "ul>")); cbn; intuition discriminate
    |reflexivity|reflexivity|word_dead (calm_p_before (L "<ul>"))|].
  apply (keep_p_after _ _ 99%N (str "ode>" ++ E ++ str "</code>"));
    [apply (one_tag_lit (str "/pre>")); cbn; intuition discriminate
    |reflexivity|discriminate
    |apply starts_keep_dead; word_dead calm_p_after_pre|].
  apply (keep_p_before _ _ (str "code>" ++ E ++ str "</code>"));
    [apply (one_tag_lit (str "pre>")); cbn; intuition discriminate
    |reflexivity|reflexivity|word_dead (calm_p_before (L "<pre>"))|].
  apply (keep_p_after _ _ 99%N (str "ode>" ++ E ++ str "</code>"));
    [apply one_tag_h_close|reflexivity|discriminate
    |apply starts_keep_dead; word_dead calm_p_after_h|].
  apply (keep_p_before _ _ (str "code>" ++ E ++ str "</code>"));
    [apply one_tag_h_open|reflexivity|reflexivity
    |word_dead (calm_p_before tag_h_open)|].
  apply (keep_empty_p _ _ 99%N (str "ode>" ++ E ++ str "</code>"));
    [reflexivity|discriminate|word_dead calm_empty_p|].
  apply factor_app_l, factor_app_r.
  apply (keep_blank _ _ 60%N (str "code>" ++ E ++ str "</code>"));
    [reflexivity|discriminate|word_dead calm_blank|].
  exact F.
Qed.

(** Every inline code element that the code stage made, with a content
    of one line without [*], is in the output. *)
Lemma code_word_after_code E s :
  Forall (fun c => inert c = true) E ->
  factor (str "<code>" ++ E ++ str "</code>") s ->
  factor (str "<code>" ++ E ++ str "</code>")
    (stage_cleanup (stage_paragraphs (ordered_lists plain plain (stage_lists
       (stage_italic (stage_bold (stage_headers s))))))).
Proof.
  intros HE F.
  apply code_word_paragraphs; [exact HE|].
  apply code_word_lists; [exact HE|].
  apply code_word_emphasis; [exact HE|].
  now apply code_word_headers.
Qed.

(** ** An inline code span in a text *)

Lemma exec_fence_needs_three p (c : cu) (s : jsstring) :
  not_backtick_first s -> exec plain re_fence p (c :: s) = None.
Proof.
  intros Hs. destruct (exec plain re_fence p (c :: s)) as [st'|] eqn:Ex;
    [exfalso|reflexivity].
  destruct (fence_inv _ _ _ Ex) as (lang & body & Es & _).
  cbn in Es. injection Es as _ Es. destruct s as [|d s]; [discriminate Es|].
  injection Es as -> _. now apply Hs.
Qed.

Lemma inert_head_not_backtick E s :
  E <> [] -> Forall (fun c => inert c = true) E -> not_backtick_first (E ++ s).
Proof.
  intros HE HI. destruct E as [|c E]; [now contradiction HE|]. cbn.
  apply Forall_inv in HI. destruct (inert_facts c HI) as (H & _).
  intros ->. discriminate H.
Qed.

Lemma inline_span_code_stage (a E b : jsstring) :
  ~ In BACKTICK a -> E <> [] -> Forall (fun c => inert c = true) E ->
  not_backtick_first b ->
  factor (str "<code>" ++ E ++ str "</code>")
    (inline_code plain plain
       (stage_code_blocks (a ++ str "`" ++ E ++ str "`" ++ b))).
Proof.
  intros Ha HE HI Hb. unfold stage_code_blocks, code_blocks, inline_code.
  assert (D : dead re_fence None (a ++ str "`" ++ E ++ str "`") b).
  { apply dead_app; [apply dead_no_backtick; [apply exec_fence_other|exact Ha]|].
    change (str "`" ++ E ++ str "`") with ([BACKTICK] ++ E ++ [BACKTICK]).
    apply dead_app.
    - split; [|exact I]. cbn [app].
      apply exec_fence_needs_three. rewrite <- app_assoc.
      now apply inert_head_not_backtick.
    - apply dead_app.
      + apply dead_no_backtick; [apply exec_fence_other|].
        now apply inert_no_backtick.
      + split; [|exact I]. cbn [app]. now apply exec_fence_needs_three. }
  unfold replace at 2.
  replace (a ++ str "`" ++ E ++ str "`" ++ b)
    with ((a ++ str "`" ++ E ++ str "`") ++ b) by now rewrite <- !app_assoc.
  rewrite (replace_dead re_fence _ _ None b D).
  rewrite <- !app_assoc. unfold replace.
  rewrite (replace_dead re_inline _ a None)
    by (apply dead_no_backtick; [apply exec_inline_other|exact Ha]).
  match goal with
  | |- factor _ (a ++ replace_from plain re_inline ?tpl 0 ?p
                        (str "`" ++ E ++ str "`" ++ ?r)) =>
      rewrite (replace_from_match plain re_inline tpl p _ _ eq_refl
                 (exec_span (str "`") (str "`") (is_not_char BACKTICK) p E r HE
                    (inert_not_backtick E HI) eq_refl))
  end.
  rewrite wrap1_plain. apply factor_app_l.
  eexists [], _. reflexivity.
Qed.

Lemma escapeHtml_not_backtick_first b :
  not_backtick_first b -> not_backtick_first (escapeHtml b).
Proof.
  destruct b as [|c b]; intros H.
  - rewrite escapeHtml_flat_map. exact I.
  - rewrite escapeHtml_cons. cbn in H.
    pose proof (escape_char_no_backtick c H) as Hn.
    pose proof (escape_char_nonempty c) as Hne.
    destruct (escape_char c) as [|x xs]; [now contradiction Hne|].
    cbn. intros ->. apply Hn. now left.
Qed.

Lemma inline_span_rendered (a B b : jsstring) :
  ~ In BACKTICK a -> B <> [] -> Forall (fun c => markup_free c = true) B ->
  not_backtick_first b ->
  factor (str "<code>" ++ escapeHtml B ++ str "</code>")
    (renderMarkdown (a ++ str "`" ++ B ++ str "`" ++ b)).
Proof.
  intros Ha HB HF Hb. unfold renderMarkdown.
  rewrite !escapeHtml_app.
  change (escapeHtml (str "`")) with (str "`").
  pose proof (escapeHtml_inert B HF) as HI.
  match goal with
  | |- factor _ (markup plain plain ?s) =>
      change (markup plain plain s)
        with (stage_cleanup (stage_paragraphs (ordered_lists plain plain (stage_lists
                (stage_italic (stage_bold (stage_headers
                   (inline_code plain plain (stage_code_blocks s)))))))))
  end.
  apply code_word_after_code; [exact HI|].
  apply inline_span_code_stage; auto.
  - now apply escapeHtml_no_backtick.
  - now apply escapeHtml_nonempty.
  - now apply escapeHtml_not_backtick_first.
Qed.

(** ** A fenced block in a text *)

Lemma exec_fence_rest p lang body b :
  Forall (fun c => is_word c = true) lang ->
  ~ In BACKTICK body ->
  exec plain re_fence p (str "```" ++ lang ++ NL :: body ++ str "```" ++ b)
  = Some (MState (Some BACKTICK) b [(2, body); (1, lang)]).
Proof.
  intros Hl Hb. unfold exec, re_fence, L. norm_str.
  rewrite m_Seq, m_Lit. cbn [app map plain starts_with N.eqb Pos.eqb andb length firstn skipn lastp fold_left flat_map].
  rewrite app_nil_r.
  rewrite m_Seq, m_Group, flat_map_map.
  rewrite star_skip_run; [|exact Hl|].
  2:{ intros u1 c u2 E. unfold set_cap. cbn [prev rest caps].
      rewrite m_Seq, m_Chr. unfold is_char, plain.
      rewrite is_word_not_nl; [reflexivity|].
      rewrite Forall_forall in Hl. apply Hl. rewrite E. apply in_elt. }
  rewrite m_star_chr_stop by reflexivity.
  cbn [flat_map]. rewrite app_nil_r.
  rewrite set_cap_app.
  rewrite m_Seq, m_Chr. change (is_char NL (plain NL)) with true.
  cbn [flat_map]. rewrite app_nil_r.
  rewrite m_Seq, m_Group, flat_map_map.
  rewrite star_skip_run.
  2:{ apply Forall_forall. intros c _. unfold is_any. apply orb_negb_r. }
  2:{ intros u1 c u2 E. unfold set_cap. cbn [prev rest caps].
      rewrite m_Lit. cbn [map starts_with]. unfold plain.
      destruct (N.eqb_spec 96 c) as [<-|]; [|reflexivity].
      exfalso. apply Hb. rewrite E. apply in_elt. }
  rewrite m_star_chr_cons. cbn [flat_map].
  rewrite set_cap_app, m_Lit.
  cbn [app map plain starts_with N.eqb Pos.eqb andb length firstn skipn lastp
       fold_left flat_map hd_error].
  reflexivity.
Qed.

(** ** The lines of a fenced block *)

Lemma unlines_more l ls : unlines (l :: ls) = l ++ more_lines ls.
Proof.
  revert l. induction ls as [|l2 ls IH]; intros l.
  - cbn. now rewrite app_nil_r.
  - rewrite unlines_cons2, IH. reflexivity.
Qed.

Lemma line_markers_chars mk : In mk line_markers -> chr_all marker_char mk.
Proof.
  unfold line_markers. cbn [In].
  intros [<-|[<-|[<-|[<-|[<-|[]]]]]].
  - apply marker_h3.
  - apply marker_h2.
  - apply marker_h1.
  - apply marker_item.
  - apply marker_numbered.
Qed.

Lemma prefix_within (l r M Y : jsstring) :
  l ++ r = M ++ Y -> Forall (fun c => marker_char c = true) M ->
  code_follows r -> exists l', l = M ++ l'.
Proof.
  intros E HM Hr.
  destruct (app_eq_app _ _ _ _ E) as (x & [[E1 E2]|[E1 E2]]).
  - exists x. exact E1.
  - destruct x as [|c x].
    + exists []. rewrite E1, !app_nil_r. reflexivity.
    + exfalso. rewrite E2 in Hr. cbn in Hr.
      rewrite E1 in HM. apply Forall_app in HM. destruct HM as [_ HM].
      apply Forall_inv in HM. congruence.
Qed.

Lemma numbered_marker_inv st st1 :
  Matches plain (Plus (Chr is_digit) ;; L ". ")%re st st1 ->
  exists ds, ds <> [] /\ Forall (fun c => is_digit c = true) ds
             /\ consumed st st1 = ds ++ str ". ".
Proof.
  intros H.
  inversion H as [| |? ? ? s2 ? H1 H2| | | | | | |]; subst.
  exists (consumed st s2). split; [|split].
  - unfold Plus in H1.
    inversion H1 as [| |? ? ? sA ? HA HS| | | | | | |]; subst.
    inversion HA as [|? ? x ? ? Hx| | | | | | | |]; subst.
    apply Matches_le in HS. cbn [rest] in HS.
    unfold consumed. cbn [rest].
    replace (length (x :: s) - length (rest s2))
      with (S (length s - length (rest s2))) by (cbn [length]; lia).
    discriminate.
  - apply (Matches_chr_all (fun c => is_digit c) _ _ _ H1). cbn. auto.
  - rewrite (consumed_seq _ _ _ _ _ H1 H2).
    now rewrite (Matches_Lit_consumed _ _ _ H2).
Qed.

Lemma skip_digits_app ds (l : jsstring) :
  Forall (fun c => is_digit c = true) ds ->
  skip_digits (ds ++ 46%N :: l) = 46%N :: l.
Proof.
  induction 1 as [|c ds Hc _ IH]; [reflexivity|].
  cbn. now rewrite Hc.
Qed.

Lemma marker_prefix mk st st1 (l r : jsstring) :
  In mk line_markers -> Matches plain mk st st1 ->
  rest st = l ++ r -> code_follows r -> begins_marker l = true.
Proof.
  intros Hin Hm Er Hr.
  destruct (Matches_suffix plain _ _ _ Hm) as (M & EM & _).
  pose proof (consumed_app M st st1 EM) as EC.
  pose proof (Matches_chr_all marker_char _ _ _ Hm (line_markers_chars mk Hin)) as HM.
  rewrite EC in HM. rewrite Er in EM.
  destruct (prefix_within l r M (rest st1) EM HM Hr) as (l' & ->).
  unfold begins_marker.
  unfold line_markers in Hin. cbn [In] in Hin.
  destruct Hin as [<-|[<-|[<-|[<-|[<-|[]]]]]];
    try (rewrite <- EC, (Matches_Lit_consumed _ _ _ Hm), starts_with_app;
         now rewrite ?orb_true_r).
  destruct (numbered_marker_inv _ _ Hm) as (ds & Hn & Hd & Ec).
  rewrite <- EC, Ec.
  assert (B : begins_numbered ((ds ++ str ". ") ++ l') = true).
  { assert (E' : (ds ++ str ". ") ++ l' = ds ++ 46%N :: 32%N :: l')
      by (rewrite <- app_assoc; reflexivity).
    rewrite E'. unfold begins_numbered.
    rewrite skip_digits_app by exact Hd.
    destruct ds as [|d ds]; [now contradiction Hn|].
    cbn [app]. rewrite (Forall_inv Hd). reflexivity. }
  rewrite B. now rewrite !orb_true_r.
Qed.

Lemma exec_line_unmarked mk (l r : jsstring) p :
  In mk line_markers -> begins_marker l = false -> code_follows r ->
  exec plain (re_line mk) p (l ++ r) = None.
Proof.
  intros Hin Hb Hr.
  destruct (exec plain (re_line mk) p (l ++ r)) as [st'|] eqn:Ex;
    [exfalso|reflexivity].
  destruct (line_inv _ _ _ _ Ex) as (st1 & X & Hm & _).
  rewrite (marker_prefix mk _ st1 l r Hin Hm eq_refl Hr) in Hb. discriminate.
Qed.

Lemma code_follows_more ls rest :
  code_follows rest -> code_follows (more_lines ls ++ rest).
Proof. destruct ls as [|l ls]; [auto|]. intros _. reflexivity. Qed.

Lemma calm_of_marker mk : In mk line_markers -> calm (re_line mk).
Proof.
  unfold line_markers. cbn [In].
  intros [<-|[<-|[<-|[<-|[<-|[]]]]]].
  - apply calm_h3.
  - apply calm_h2.
  - apply calm_h1.
  - apply calm_item.
  - apply calm_numbered.
Qed.

Lemma inert_mid c : inert c = true -> mid_line (Some c).
Proof. intros H. cbn. now apply inert_not_lt. Qed.

Lemma dead_more_lines_line mk ls rest :
  In mk line_markers -> Forall later_line ls -> code_follows rest ->
  forall p, dead (re_line mk) p (more_lines ls) rest.
Proof.
  intros Hin Hls Hr. induction Hls as [|l ls [[Hne HI] Hb] _ IH]; intros p;
    [exact I|].
  cbn [more_lines flat_map]. fold (more_lines ls).
  split.
  - apply exec_line_at_terminator; [|reflexivity].
    apply marker_dots. now apply line_markers_chars.
  - apply dead_app; [|apply IH].
    destruct l as [|c l]; [now contradiction Hne|].
    split.
    + change (c :: l ++ more_lines ls ++ rest)
        with ((c :: l) ++ more_lines ls ++ rest).
      apply exec_line_unmarked; [exact Hin|exact Hb|].
      now apply code_follows_more.
    + inversion HI; subst.
      apply dead_inert; [now apply calm_of_marker|assumption|].
      left. now apply inert_mid.
Qed.

Lemma dead_still r X :
  still r -> Forall (fun c => inert c = true) X -> forall p s, dead r p X s.
Proof.
  intros Hr. induction 1 as [|c X Hc _ IH]; intros p s; [exact I|].
  split; [|apply IH]. apply exec_none. now apply Hr.
Qed.

Lemma dead_more_lines_still r ls rest :
  still r ->
  (forall p c s, inert c = true -> exec plain r p (NL :: c :: s) = None) ->
  Forall code_line ls ->
  forall p, dead r p (more_lines ls) rest.
Proof.
  intros Hr Hnl Hls. induction Hls as [|l ls [Hne HI] _ IH]; intros p;
    [exact I|].
  cbn [more_lines flat_map]. fold (more_lines ls).
  destruct l as [|c l]; [now contradiction Hne|].
  split.
  - cbn [app]. apply Hnl. now inversion HI.
  - apply dead_app; [|apply IH]. now apply dead_still.
Qed.

Lemma later_lines_code ls : Forall later_line ls -> Forall code_line ls.
Proof. apply Forall_impl. now intros l [H _]. Qed.

Lemma dead_pre_block_line mk l ls :
  In mk line_markers -> code_line l -> Forall later_line ls ->
  forall p b, dead (re_line mk) p (pre_block (unlines (l :: ls))) b.
Proof.
  intros Hin [Hne HI] Hls p b. unfold pre_block.
  rewrite unlines_more, <- app_assoc.
  apply dead_app.
  { unfold line_markers in Hin. cbn [In] in Hin.
    destruct Hin as [<-|[<-|[<-|[<-|[<-|[]]]]]]; dead_tac. }
  apply dead_app.
  { apply dead_inert; [now apply calm_of_marker|exact HI|]. now left. }
  apply dead_app.
  { apply dead_more_lines_line; auto. reflexivity. }
  unfold line_markers in Hin. cbn [In] in Hin.
  destruct Hin as [<-|[<-|[<-|[<-|[<-|[]]]]]]; dead_tac.
Qed.

Lemma dead_pre_block_still r l ls :
  still r ->
  (forall p c s, inert c = true -> exec plain r p (NL :: c :: s) = None) ->
  (forall p s, dead r p (str "<pre><code>") s) ->
  (forall p s, dead r p (str "</code></pre>") s) ->
  code_line l -> Forall later_line ls ->
  forall p b, dead r p (pre_block (unlines (l :: ls))) b.
Proof.
  intros Hr Hnl HU HV [Hne HI] Hls p b. unfold pre_block.
  rewrite unlines_more, <- app_assoc.
  apply dead_app; [apply HU|].
  apply dead_app; [now apply dead_still|].
  apply dead_app; [|apply HV].
  apply dead_more_lines_still; auto. now apply later_lines_code.
Qed.

Ltac still_tac :=
  let pv := fresh in let c := fresh in let Hi := fresh in
  intros pv c Hi;
  destruct (inert_facts c Hi) as (? & ? & ? & ? & ?);
  unfold can_match; cbn;
  unfold is_char, is_not_char, plain, NL, BACKTICK, STAR, LTC;
  repeat match goal with E : _ = false |- _ => rewrite E end; reflexivity.

Lemma still_fence : still re_fence.  Proof. still_tac. Qed.
Lemma still_inline : still re_inline.  Proof. still_tac. Qed.
Lemma still_bold : still re_bold.  Proof. still_tac. Qed.
Lemma still_italic : still re_italic.  Proof. still_tac. Qed.
Lemma still_items : still re_items.  Proof. still_tac. Qed.
Lemma still_blank : still re_blank.  Proof. still_tac. Qed.
Lemma still_empty_p : still re_empty_p.  Proof. still_tac. Qed.
Lemma still_p_before tag : still (re_p_before tag).  Proof. still_tac. Qed.
Lemma still_p_after_h : still (re_p_after tag_h_close).  Proof. still_tac. Qed.
Lemma still_p_after_pre : still (re_p_after (L "</pre>")).  Proof. still_tac. Qed.
Lemma still_p_after_ul : still (re_p_after (L "</ul>")).  Proof. still_tac. Qed.

Ltac at_nl_tac :=
  let p := fresh in let c := fresh in let s := fresh in let Hi := fresh in
  intros p c s Hi; apply exec_none; reflexivity.

Lemma blank_at_nl p c s :
  inert c = true -> exec plain re_blank p (NL :: c :: s) = None.
Proof.
  intros Hi. destruct (inert_facts c Hi) as (_ & _ & _ & H & _).
  unfold exec, re_blank. rewrite m_Lit. cbn [map starts_with plain].
  unfold NL, plain. rewrite (N.eqb_sym 10 c), H. reflexivity.
Qed.

(** ** The grouping pattern stops at a line that is no item *)

Lemma li_body_inv_dots st st' :
  Matches plain li_body st st' ->
  exists Y t, rest st = str "<li>" ++ Y ++ str "</li>" ++ t ++ rest st'
              /\ (t = [] \/ t = [NL])
              /\ Forall (fun c => is_dot c = true) Y.
Proof.
  unfold li_body. intros H.
  inversion H as [| |? ? ? s1 ? H1 H2| | | | | | |]; subst.
  inversion H2 as [| |? ? ? s2 ? H3 H4| | | | | | |]; subst.
  inversion H4 as [| |? ? ? s3 ? H5 H6| | | | | | |]; subst.
  apply Matches_Lit in H1. destruct H1 as (E1 & _).
  apply Matches_Lit in H5. destruct H5 as (E5 & _).
  destruct (Matches_suffix plain _ _ _ H3) as (Y & E3 & _).
  assert (HY : Forall (fun c => is_dot c = true) Y).
  { rewrite <- (consumed_app Y s1 s2 E3).
    apply (Matches_chr_all (fun c => is_dot c) _ _ _ H3). cbn. auto. }
  unfold Opt in H6.
  inversion H6 as [| | |? ? ? ? HA|? ? ? ? HA| | | | |]; subst.
  - inversion HA as [|q pv x s cs Hq| | | | | | | |]; subst.
    unfold is_char, plain in Hq. apply N.eqb_eq in Hq. subst x.
    exists Y, [NL]. cbn [rest] in *. split; [|split; [now right|exact HY]].
    now rewrite E1, E3, E5.
  - inversion HA; subst. exists Y, []. split; [|split; [now left|exact HY]].
    now rewrite E1, E3, E5.
Qed.

Lemma last_unique (c : cu) (P x l : jsstring) :
  P ++ [c] = x ++ c :: l -> ~ In c P -> l = [] /\ x = P.
Proof.
  intros E H.
  change (x ++ c :: l) with (x ++ [c] ++ l) in E. rewrite app_assoc in E.
  destruct (app_eq_app _ _ _ _ E) as (k & [[E1 E2]|[E1 E2]]).
  - exfalso. apply H. rewrite E1. apply in_or_app. left.
    apply in_or_app. right. now left.
  - destruct k as [|y k].
    + exfalso. apply H. rewrite app_nil_r in E1. rewrite <- E1.
      apply in_or_app. right. now left.
    + injection E2 as <- E2. destruct k; [|discriminate E2].
      cbn in E2. subst l. split; [reflexivity|].
      now apply app_inj_tail in E1.
Qed.

Lemma star_li_stop r st st' :
  Matches plain r st st' -> r = Star true li_body ->
  forall (x : jsstring) (t : cu) (y : jsstring),
    rest st = x ++ t :: y -> is_line_terminator t = true ->
    length y <= length (rest st') \/ starts_with (str "<li>") y = true.
Proof.
  induction 1 as [| | | | |g0 a0 z|g0 a0 z1 z2 z3 Ha _ Hlt Hs IHs| | |];
    intros Er x t y Ex Ht; try discriminate.
  - left. rewrite Ex, length_app. cbn. lia.
  - injection Er as -> ->.
    destruct (li_body_inv_dots _ _ Ha) as (Y & t' & EI & Ht' & HY).
    rewrite Ex in EI.
    assert (EI' : x ++ t :: y
                  = (str "<li>" ++ Y ++ str "</li>" ++ t') ++ rest z2)
      by (rewrite EI; now rewrite <- !app_assoc).
    destruct (app_eq_app _ _ _ _ EI') as (l & [[E1 E2]|[E1 E2]]).
    + (* the iteration ends in [x] *)
      apply (IHs eq_refl l t y); [|exact Ht]. exact E2.
    + destruct l as [|c l].
      * apply (IHs eq_refl [] t y); [|exact Ht]. cbn in E2 |- *. now symmetry.
      * injection E2 as <- E2.
        assert (Hd : Forall (fun c => is_dot c = true)
                       (str "<li>" ++ Y ++ str "</li>")).
        { apply Forall_app. split; [repeat constructor|].
          apply Forall_app. split; [exact HY|repeat constructor]. }
        assert (Hn : ~ In t (str "<li>" ++ Y ++ str "</li>")).
        { intros Hin. rewrite Forall_forall in Hd. specialize (Hd _ Hin).
          unfold is_dot in Hd. rewrite Ht in Hd. discriminate. }
        destruct Ht' as [-> | ->].
        -- exfalso. apply Hn. rewrite app_nil_r in E1.
           rewrite E1. apply in_elt.
        -- assert (t = NL).
           { assert (Hin : In t (str "<li>" ++ Y ++ str "</li>" ++ [NL]))
               by (rewrite E1; apply in_elt).
             rewrite !app_assoc in Hin. apply in_app_or in Hin.
             destruct Hin as [Hin|[Hin|[]]]; [|now symmetry].
             exfalso. apply Hn. now rewrite <- !app_assoc in Hin. }
           subst t.
           assert (E1' : (str "<li>" ++ Y ++ str "</li>") ++ [NL] = x ++ NL :: l)
             by (rewrite <- E1; now rewrite <- !app_assoc).
           destruct (last_unique NL _ x l E1' Hn) as [-> _].
           cbn in E2. subst y.
           inversion Hs as [| | | | |? ? ?|? ? ? w2 ? Hb _ _| | |]; subst.
           ++ left. lia.
           ++ right. destruct (li_body_inv_dots _ _ Hb) as (Y2 & t2 & E2 & _).
              rewrite E2. apply starts_with_app.
Qed.

Lemma items_stop (x : jsstring) (t : cu) (y : jsstring) p st' :
  is_line_terminator t = true -> starts_with (str "<li>") y = false ->
  exec plain re_items p (x ++ t :: y) = Some st' ->
  length y <= length (rest st').
Proof.
  intros Ht Hy Ex. apply exec_sound in Ex. unfold re_items in Ex.
  inversion Ex as [| | | | | | |? ? ? st0 HR| |]; subst.
  unfold set_cap. cbn [rest].
  assert (HS : Matches plain (Star true li_body) (MState p (x ++ t :: y) []) st0).
  { unfold Plus in HR.
    inversion HR as [| |? ? ? s1 ? H1 H2| | | | | | |]; subst.
    eapply M_StarS; [exact H1| |exact H2].
    destruct (li_body_inv_dots _ _ H1) as (Y & t' & E & _).
    cbn [rest] in E |- *. rewrite E, !length_app. cbn. lia. }
  destruct (star_li_stop _ _ _ HS eq_refl x t y eq_refl Ht) as [H|H];
    [exact H|congruence].
Qed.

(** ** A word that begins a line *)

Lemma keep_prefix r tpl (W s : jsstring) :
  (forall p b, dead r p W b) ->
  (exists b, s = W ++ b) -> exists b', replace plain r tpl s = W ++ b'.
Proof.
  intros Hd (b & ->). unfold replace. rewrite replace_dead by apply Hd.
  eexists. reflexivity.
Qed.

Lemma stands_factor (W s : jsstring) : stands W s -> factor W s.
Proof.
  intros [(b & ->)|(t & _ & (a & b & ->))].
  - exists [], b. reflexivity.
  - exists (a ++ [t]), b. now rewrite <- app_assoc.
Qed.

Lemma stands_line mk O C (W s : jsstring) :
  chr_all is_dot mk ->
  (forall p b, dead (re_line mk) p W b) ->
  stands W s -> stands W (replace plain (re_line mk) (wrap1 plain O C) s).
Proof.
  intros Hmk Hd [H|(t & Ht & F)].
  - left. now apply keep_prefix.
  - right. exists t. split; [exact Ht|].
    apply replace_keeps; [apply never_empty_line| | |exact F].
    + apply starts_keep_dead. intros p b. split; [|apply Hd].
      now apply exec_line_at_terminator.
    + now apply (reaches_line_nl mk _ (t :: W) t W).
Qed.

Lemma stands_span (o : jsstring) R (c : jsstring) O C (W s : jsstring) :
  never_empty (Lit o ;; Group 1 R ;; Lit c)%re = true ->
  W <> [] ->
  (forall t, is_line_terminator t = true -> ~ In t o) ->
  ~ In (last W 0%N) c -> c <> [] -> ~ In (last c 0%N) W ->
  is_line_terminator (last c 0%N) = false ->
  (forall p b, dead (Lit o ;; Group 1 R ;; Lit c)%re p W b) ->
  (forall p t b, is_line_terminator t = true ->
                 exec plain (Lit o ;; Group 1 R ;; Lit c)%re p (t :: b) = None) ->
  stands W s ->
  stands W (replace plain (Lit o ;; Group 1 R ;; Lit c)%re (wrap1 plain O C) s).
Proof.
  intros Hz HW Ho Hl Hc Hlc Hct Hd Ht [H|(t & Htt & F)].
  - left. now apply keep_prefix.
  - right. exists t. split; [exact Htt|].
    apply (keep_span o R c O C (t :: W) t W); auto.
    + destruct W as [|x W]; [now contradiction HW|].
      now rewrite last_cons2.
    + intros [H|H]; [|now apply Hlc]. rewrite <- H in Hct. congruence.
    + intros p b. split; [|apply Hd]. now apply Ht.
Qed.

Lemma suffix_ends (a : jsstring) (t : cu) (a1 a2 : jsstring) :
  a ++ [t] = a1 ++ a2 -> a2 <> [] -> exists x, a2 = x ++ [t].
Proof.
  intros E H2. destruct (exists_last H2) as (x & y & ->).
  rewrite app_assoc in E. apply app_inj_tail in E. destruct E as [_ ->].
  now exists x.
Qed.

Lemma stands_items (W s : jsstring) :
  (forall b, starts_with (str "<li>") (W ++ b) = false) ->
  (forall p b, dead re_items p W b) ->
  stands W s ->
  stands W (replace plain re_items (wrap1 plain "<ul>" "</ul>") s)
  \/ factor (NL :: str "</ul>" ++ W)
       (replace plain re_items (wrap1 plain "<ul>" "</ul>") s).
Proof.
  intros Hli Hd [H|(t & Ht & (a & b & ->))].
  - left. left. now apply keep_prefix.
  - unfold replace.
    destruct (replace_from_cut re_items (wrap1 plain "<ul>" "</ul>") eq_refl
                (length (a ++ [t])) (a ++ [t]) None (W ++ b) (le_n _))
      as (a' & E & _ & T).
    { intros a1 a2 st' E12 H2 Ex.
      destruct (suffix_ends a t a1 a2 E12 H2) as (x & ->).
      rewrite <- app_assoc in Ex. cbn [app] in Ex.
      exact (items_stop x t (W ++ b) _ st' Ht (Hli b) Ex). }
    assert (Es : a ++ (t :: W) ++ b = (a ++ [t]) ++ W ++ b)
      by (rewrite <- app_assoc; reflexivity).
    rewrite Es, E. rewrite replace_dead by apply Hd.
    destruct (T t a eq_refl)
      as [(a'' & ->)|(a'' & a1 & a2 & st' & E12 & H2 & Ex & Er & ->)].
    + left. right. exists t. split; [exact Ht|].
      eexists a'', _. rewrite <- !app_assoc. reflexivity.
    + right.
      destruct (suffix_ends a t a1 a2 E12 H2) as (x & ->).
      destruct (items_inv _ _ _ Ex) as (m0 & t' & Em & Ht' & Ec).
      rewrite Er in Em.
      assert (Ex2 : x ++ [t] = m0 ++ str "</li>" ++ t').
      { apply (app_inv_tail (W ++ b)). rewrite Em. now rewrite <- !app_assoc. }
      assert (t' = [NL]).
      { destruct Ht' as [-> | ->]; [exfalso|reflexivity].
        rewrite app_nil_r in Ex2.
        change (str "</li>") with (str "</li" ++ [62%N]) in Ex2.
        rewrite !app_assoc in Ex2. apply app_inj_tail in Ex2.
        destruct Ex2 as [_ ->]. discriminate Ht. }
      subst t'.
      unfold wrap1. rewrite !lits_plain, Ec.
      exists (a'' ++ str "<ul>" ++ m0 ++ str "</li>"), 
             (replace_from plain re_items (wrap1 plain "<ul>" "</ul>") 0
                (lastp (lastp None (a1 ++ x ++ [t])) W) b).
      rewrite <- E12. rewrite <- !app_assoc. cbn [app]. reflexivity.
Qed.

Lemma numbered_after_items (W w' s : jsstring) :
  W = 60%N :: w' ->
  (forall p b, dead re_numbered p W b) ->
  stands W s \/ factor (NL :: str "</ul>" ++ W) s ->
  factor W (replace plain re_numbered (wrap1 plain "<li>" "</li>") s).
Proof.
  intros EW Hd [H|F].
  - apply stands_factor. apply stands_line; auto.
    apply marker_dots, marker_numbered.
  - assert (F' : factor (NL :: str "</ul>" ++ W)
                   (replace plain re_numbered (wrap1 plain "<li>" "</li>") s)).
    { apply replace_keeps; [apply never_empty_line| | |exact F].
      - apply starts_keep_dead. intros p b. split.
        + apply exec_line_at_terminator; [|reflexivity].
          apply marker_dots, marker_numbered.
        + apply dead_app; [dead_tac|apply Hd].
      - apply (reaches_line_nl _ _ _ NL (str "</ul>" ++ W));
          [reflexivity|reflexivity|].
        apply marker_dots, marker_numbered. }
    destruct F' as (a & b & E). rewrite E.
    exists (a ++ NL :: str "</ul>"), b. rewrite <- !app_assoc. reflexivity.
Qed.

(** ** A code block that begins a line stays as it is *)

Lemma in_more_lines (c : cu) ls :
  In c (more_lines ls) -> c = NL \/ exists l, In l ls /\ In c l.
Proof.
  induction ls as [|l ls IH]; cbn; [tauto|].
  intros [H|H]; [now left|]. apply in_app_or in H. destruct H as [H|H].
  - right. exists l. split; [now left|exact H].
  - destruct (IH H) as [->|(l' & H1 & H2)]; [now left|].
    right. exists l'. split; [now right|exact H2].
Qed.

Lemma pre_block_not_in (c : cu) l ls :
  c <> NL -> inert c = false ->
  ~ In c (str "<pre><code>") -> ~ In c (str "</code></pre>") ->
  code_line l -> Forall later_line ls ->
  ~ In c (pre_block (unlines (l :: ls))).
Proof.
  intros Hn Hi HU HV [_ Hl] Hls. unfold pre_block. rewrite unlines_more.
  apply not_in_wrapped; [exact HU| |exact HV].
  intros H. apply in_app_or in H. destruct H as [H|H].
  - rewrite Forall_forall in Hl. specialize (Hl _ H). congruence.
  - destruct (in_more_lines c ls H) as [->|(l' & H1 & H2)]; [now apply Hn|].
    rewrite Forall_forall in Hls. destruct (Hls _ H1) as [[_ Hl'] _].
    rewrite Forall_forall in Hl'. specialize (Hl' _ H2). congruence.
Qed.

Lemma pre_block_last T : last (pre_block T) 0%N = 62%N.
Proof. unfold pre_block. now rewrite last_wrapped by discriminate. Qed.

Lemma more_lines_no_lt ls : Forall later_line ls -> ~ In 60%N (more_lines ls).
Proof.
  intros Hls H. destruct (in_more_lines _ ls H) as [E|(l' & H1 & H2)];
    [discriminate E|].
  rewrite Forall_forall in Hls. destruct (Hls _ H1) as [[_ Hl'] _].
  now apply (inert_no_lt l').
Qed.

Lemma pre_block_no_li l ls :
  code_line l -> Forall later_line ls ->
  occurs (str "</li>") (pre_block (unlines (l :: ls))) = false.
Proof.
  intros [_ Hl] Hls. unfold pre_block. rewrite unlines_more, <- app_assoc.
  cbn [app str]. norm_str.
  cbn [occurs starts_with app N.eqb Pos.eqb andb orb].
  rewrite occurs_lt_inert by now apply inert_no_lt.
  rewrite occurs_lt_inert by now apply more_lines_no_lt.
  reflexivity.
Qed.

Section CodeBlock.

Variables (l : jsstring) (ls : list jsstring).
Hypothesis Hl : code_line l.
Hypothesis Hls : Forall later_line ls.

Lemma block_dead_line mk p b : In mk line_markers -> dead (re_line mk) p (pre_block (unlines (l :: ls))) b.
Proof. intros Hin. now apply dead_pre_block_line. Qed.

Lemma block_no_star : ~ In STAR (pre_block (unlines (l :: ls))).
Proof.
  apply pre_block_not_in; auto; try discriminate;
    cbn; unfold STAR; intuition discriminate.
Qed.

Lemma block_no_backtick : ~ In BACKTICK (pre_block (unlines (l :: ls))).
Proof.
  apply pre_block_not_in; auto; try discriminate;
    cbn; unfold BACKTICK; intuition discriminate.
Qed.

Lemma block_dead_inline p b : dead re_inline p (pre_block (unlines (l :: ls))) b.
Proof.
  apply dead_no_backtick; [apply exec_inline_other|apply block_no_backtick].
Qed.

Lemma exec_bold_other p c s : c <> STAR -> exec plain re_bold p (c :: s) = None.
Proof.
  intros Hc. apply exec_none. unfold can_match. cbn.
  unfold is_char, plain, STAR in *.
  apply N.eqb_neq in Hc. now rewrite Hc.
Qed.

Lemma exec_italic_other p c s : c <> STAR -> exec plain re_italic p (c :: s) = None.
Proof.
  intros Hc. apply exec_none. unfold can_match. cbn.
  unfold is_char, plain, STAR in *.
  apply N.eqb_neq in Hc. now rewrite Hc.
Qed.

Lemma dead_no_star r P :
  (forall p c s, c <> STAR -> exec plain r p (c :: s) = None) ->
  ~ In STAR P -> forall p s, dead r p P s.
Proof.
  intros Hr. induction P as [|c P IH]; intros H p s; [exact I|].
  split.
  - apply Hr. intros ->. apply H. now left.
  - apply IH. intros Hin. apply H. now right.
Qed.

Lemma terminator_not_star t : is_line_terminator t = true -> t <> STAR.
Proof. intros H ->. discriminate H. Qed.

Lemma block_headers s : stands (pre_block (unlines (l :: ls))) s -> stands (pre_block (unlines (l :: ls))) (stage_headers s).
Proof.
  intros F. unfold stage_headers, headers.
  apply stands_line;
    [apply marker_dots, marker_h1
    |intros; apply block_dead_line; unfold line_markers; cbn; tauto|].
  apply stands_line;
    [apply marker_dots, marker_h2
    |intros; apply block_dead_line; unfold line_markers; cbn; tauto|].
  apply stands_line;
    [apply marker_dots, marker_h3
    |intros; apply block_dead_line; unfold line_markers; cbn; tauto|].
  exact F.
Qed.

Lemma block_emphasis s : stands (pre_block (unlines (l :: ls))) s -> stands (pre_block (unlines (l :: ls))) (stage_italic (stage_bold s)).
Proof.
  intros F. unfold stage_italic, stage_bold, italic, bold.
  apply (stands_span (str "*") _ (str "*") "<em>" "</em>");
    [reflexivity|discriminate
    |intros t Ht [H|[]]; subst t; discriminate Ht
    |rewrite pre_block_last; cbn; intuition discriminate
    |discriminate|apply block_no_star|reflexivity
    |intros; apply dead_no_star; [apply exec_italic_other|apply block_no_star]
    |intros; now apply exec_italic_other, terminator_not_star|].
  apply (stands_span (str "**") _ (str "**") "<strong>" "</strong>");
    [reflexivity|discriminate
    |intros t Ht [H|[H|[]]]; subst t; discriminate Ht
    |rewrite pre_block_last; cbn; intuition discriminate
    |discriminate|apply block_no_star|reflexivity
    |intros; apply dead_no_star; [apply exec_bold_other|apply block_no_star]
    |intros; now apply exec_bold_other, terminator_not_star|].
  exact F.
Qed.

Lemma block_dead_still r p b :
  still r ->
  (forall p c s, inert c = true -> exec plain r p (NL :: c :: s) = None) ->
  (forall p s, dead r p (str "<pre><code>") s) ->
  (forall p s, dead r p (str "</code></pre>") s) ->
  dead r p (pre_block (unlines (l :: ls))) b.
Proof. intros. now apply dead_pre_block_still. Qed.

Lemma block_lists s :
  stands (pre_block (unlines (l :: ls))) s -> factor (pre_block (unlines (l :: ls))) (ordered_lists plain plain (stage_lists s)).
Proof.
  intros F. unfold ordered_lists, stage_lists, unordered_lists.
  apply (numbered_after_items (pre_block (unlines (l :: ls)))
           (str "pre><code>" ++ unlines (l :: ls) ++ str "</code></pre>"));
    [reflexivity
    |intros; apply block_dead_line; unfold line_markers; cbn; tauto|].
  apply stands_items;
    [reflexivity
    |intros; apply block_dead_still;
       [apply still_items|at_nl_tac|intros; dead_tac|intros; dead_tac]|].
  apply stands_line;
    [apply marker_dots, marker_item
    |intros; apply block_dead_line; unfold line_markers; cbn; tauto|].
  exact F.
Qed.

Ltac block_dead S :=
  intros; apply block_dead_still;
  [apply S|at_nl_tac|intros; dead_tac|intros; dead_tac].

Lemma block_paragraphs s :
  factor (pre_block (unlines (l :: ls))) s -> factor (pre_block (unlines (l :: ls))) (stage_cleanup (stage_paragraphs s)).
Proof.
  intros F. unfold stage_cleanup, stage_paragraphs, cleanup, paragraphs.
  rewrite !lits_plain.
  apply (keep_p_after _ _ 112%N
           (str "re><code>" ++ unlines (l :: ls) ++ str "</code></pre>"));
    [apply (one_tag_lit (str "/ul>")); cbn; intuition discriminate
    |reflexivity|discriminate
    |apply starts_keep_dead; block_dead still_p_after_ul|].
  apply (keep_p_before _ _
           (str "pre><code>" ++ unlines (l :: ls) ++ str "</code></pre>"));
    [apply (one_tag_lit (str "ul>")); cbn; intuition discriminate
    |reflexivity|reflexivity|block_dead (still_p_before (L "<ul>"))|].
  apply (keep_p_after _ _ 112%N
           (str "re><code>" ++ unlines (l :: ls) ++ str "</code></pre>"));
    [apply (one_tag_lit (str "/pre>")); cbn; intuition discriminate
    |reflexivity|discriminate| |].
  { unfold pre_block. rewrite unlines_more.
    change (str "</code></pre>") with (str "</code>" ++ str "</pre>").
    rewrite !app_assoc. apply starts_keep_app; [|apply starts_keep_pre_close].
    intros p b. rewrite <- !app_assoc.
    destruct Hl as [_ HI].
    apply dead_app; [dead_tac|].
    apply dead_app; [apply dead_still; [apply still_p_after_pre|exact HI]|].
    apply dead_app; [|dead_tac].
    apply dead_more_lines_still;
      [apply still_p_after_pre|at_nl_tac|now apply later_lines_code]. }
  apply (keep_p_before _ _
           (str "pre><code>" ++ unlines (l :: ls) ++ str "</code></pre>"));
    [apply (one_tag_lit (str "pre>")); cbn; intuition discriminate
    |reflexivity|reflexivity|block_dead (still_p_before (L "<pre>"))|].
  apply (keep_p_after _ _ 112%N
           (str "re><code>" ++ unlines (l :: ls) ++ str "</code></pre>"));
    [apply one_tag_h_close|reflexivity|discriminate
    |apply starts_keep_dead; block_dead still_p_after_h|].
  apply (keep_p_before _ _
           (str "pre><code>" ++ unlines (l :: ls) ++ str "</code></pre>"));
    [apply one_tag_h_open|reflexivity|reflexivity
    |block_dead (still_p_before tag_h_open)|].
  apply (keep_empty_p _ _ 112%N
           (str "re><code>" ++ unlines (l :: ls) ++ str "</code></pre>"));
    [reflexivity|discriminate|block_dead still_empty_p|].
  apply factor_app_l, factor_app_r.
  apply (keep_blank _ _ 60%N
           (str "pre><code>" ++ unlines (l :: ls) ++ str "</code></pre>"));
    [reflexivity|discriminate| |exact F].
  intros; apply block_dead_still;
    [apply still_blank|intros; now apply blank_at_nl
    |intros; dead_tac|intros; dead_tac].
Qed.

(** Every code block that begins a line after the code stage is in the
    output. *)
Lemma block_after_code s :
  stands (pre_block (unlines (l :: ls))) s ->
  factor (pre_block (unlines (l :: ls)))
    (stage_cleanup (stage_paragraphs (ordered_lists plain plain (stage_lists
       (stage_italic (stage_bold (stage_headers s))))))).
Proof.
  intros F.
  apply block_paragraphs, block_lists, block_emphasis, block_headers, F.
Qed.

End CodeBlock.

(** ** The markers and the escaping *)

Lemma escape_char_first c x r :
  escape_char c = x :: r -> x <> 38%N -> c = x /\ r = [].
Proof.
  unfold escape_char, AMP, LTC, GTC, NBSP.
  destruct (c =? 38)%N; [intros E; injection E as <- _; now intros []|].
  destruct (c =? 60)%N; [intros E; injection E as <- _; now intros []|].
  destruct (c =? 62)%N; [intros E; injection E as <- _; now intros []|].
  destruct (c =? 160)%N; [intros E; injection E as <- _; now intros []|].
  intros E _. injection E as -> <-. auto.
Qed.

Lemma escapeHtml_prefix (w : jsstring) : forall s r,
  escapeHtml s = w ++ r -> ~ In 38%N w ->
  exists s', s = w ++ s' /\ r = escapeHtml s'.
Proof.
  induction w as [|x w IH]; intros s r E Hw.
  - exists s. split; [reflexivity|]. now rewrite E.
  - destruct s as [|c s].
    + rewrite escapeHtml_flat_map in E. discriminate E.
    + rewrite escapeHtml_cons in E.
      destruct (escape_char c) as [|y ys] eqn:Ec;
        [now destruct (escape_char_nonempty c)|].
      cbn in E. injection E as -> E.
      destruct (escape_char_first c x ys Ec) as [-> ->].
      { intros ->. apply Hw. now left. }
      cbn in E.
      destruct (IH s r E) as (s' & -> & ->).
      { intros H. apply Hw. now right. }
      exists s'. split; reflexivity.
Qed.

Lemma starts_with_escape (w s : jsstring) :
  ~ In 38%N w -> starts_with w (escapeHtml s) = true -> starts_with w s = true.
Proof.
  intros Hw H. apply starts_with_inv in H.
  destruct (escapeHtml_prefix w s _ H Hw) as (s' & -> & _).
  apply starts_with_app.
Qed.

Lemma skip_digits_split (l : jsstring) :
  exists ds, l = ds ++ skip_digits l /\ Forall (fun c => is_digit c = true) ds.
Proof.
  induction l as [|c l (ds & E & Hd)].
  - exists []. split; [reflexivity|constructor].
  - cbn [skip_digits]. destruct (is_digit c) eqn:Hc.
    + exists (c :: ds). split; [cbn; now rewrite <- E|now constructor].
    + exists []. split; [reflexivity|constructor].
Qed.

Lemma begins_numbered_app ds (l' : jsstring) :
  ds <> [] -> Forall (fun c => is_digit c = true) ds ->
  begins_numbered (ds ++ str ". " ++ l') = true.
Proof.
  intros Hn Hd. unfold begins_numbered.
  change (ds ++ str ". " ++ l') with (ds ++ 46%N :: 32%N :: l').
  rewrite skip_digits_app by exact Hd.
  destruct ds as [|d ds]; [now contradiction Hn|].
  cbn [app]. rewrite (Forall_inv Hd). reflexivity.
Qed.

Lemma digits_not_amp ds :
  Forall (fun c => is_digit c = true) ds -> ~ In 38%N ds.
Proof.
  intros H Hin. rewrite Forall_forall in H. specialize (H _ Hin).
  discriminate H.
Qed.

Lemma begins_marker_escape (l : jsstring) :
  begins_marker l = false -> begins_marker (escapeHtml l) = false.
Proof.
  intros H. destruct (begins_marker (escapeHtml l)) eqn:B; [|reflexivity].
  rewrite <- H. symmetry. unfold begins_marker in *.
  repeat (apply orb_prop in B; destruct B as [B|B]);
    try (apply starts_with_escape in B;
         [rewrite B; now rewrite ?orb_true_r|cbn; intuition discriminate]).
  assert (N : begins_numbered l = true); [|rewrite N; now rewrite !orb_true_r].
  unfold begins_numbered in B.
  destruct (escapeHtml l) as [|c E] eqn:EE; [discriminate B|].
  apply andb_true_iff in B. destruct B as [Hc B].
  destruct (skip_digits_split (c :: E)) as (ds & Es & Hd).
  apply starts_with_inv in B.
  assert (Hne : ds <> []).
  { intros ->. cbn in Es. cbn [skip_digits] in B. rewrite Hc in B.
    cbn [skip_digits] in Es. rewrite Hc in Es.
    rewrite <- Es in B. cbn in B. injection B as B _. subst c. discriminate Hc. }
  rewrite B in Es. rewrite <- EE in Es.
  rewrite app_assoc in Es.
  destruct (escapeHtml_prefix (ds ++ str ". ") l _ Es) as (s' & -> & _).
  { intros Hin. apply in_app_or in Hin. destruct Hin as [Hin|Hin].
    - now apply (digits_not_amp ds).
    - cbn in Hin. intuition discriminate. }
  rewrite <- app_assoc. now apply begins_numbered_app.
Qed.

(** ** A fenced block at the beginning of a line *)

Lemma fence_code_stage (a lang T b : jsstring) :
  ~ In BACKTICK a -> line_start (lastp None a) ->
  Forall (fun c => is_word c = true) lang ->
  T <> [] -> head_not_space plain T -> head_not_space plain (rev T) ->
  ~ In BACKTICK T ->
  stands (pre_block T)
    (inline_code plain plain
       (stage_code_blocks
          (a ++ str "```" ++ lang ++ NL :: T ++ NL :: str "```" ++ b))).
Proof.
  intros Ha Hs Hlang HT H1 H2 HnT.
  unfold stage_code_blocks, code_blocks, inline_code.
  unfold replace at 2.
  rewrite (replace_dead re_fence _ a None)
    by (apply dead_no_backtick; [apply exec_fence_other|exact Ha]).
  assert (Eb : T ++ NL :: str "```" ++ b = (T ++ [NL]) ++ str "```" ++ b)
    by now rewrite <- app_assoc.
  assert (Hb : ~ In BACKTICK (T ++ [NL])).
  { intros H. apply in_app_or in H. destruct H as [H|[H|[]]];
      [now apply HnT|discriminate H]. }
  rewrite Eb.
  rewrite (replace_from_match plain re_fence _ _ _ _ eq_refl
             (exec_fence_rest (lastp None a) lang (T ++ [NL]) b Hlang Hb)).
  cbn [prev rest]. unfold cap. cbn [caps get_cap Nat.eqb].
  rewrite !lits_plain.
  rewrite (trim_core plain T [NL] H1 H2 HT)
    by (repeat constructor).
  fold (pre_block T).
  assert (Hw : ~ In BACKTICK (a ++ pre_block T)).
  { intros H. apply in_app_or in H. destruct H as [H|H]; [now apply Ha|].
    unfold pre_block in H. revert H.
    apply not_in_wrapped; auto; cbn; unfold BACKTICK; intuition discriminate. }
  unfold replace.
  match goal with
  | |- stands _ (replace_from plain re_inline ?tpl 0 None (a ++ pre_block T ++ ?r)) =>
      replace (a ++ pre_block T ++ r) with ((a ++ pre_block T) ++ r)
        by (now rewrite <- app_assoc);
      rewrite (replace_dead re_inline tpl (a ++ pre_block T) None r)
        by (apply dead_no_backtick; [apply exec_inline_other|exact Hw])
  end.
  destruct (line_start_cases a Hs) as [->|(a0 & t & -> & Ht)].
  - left. cbn [app]. eexists. reflexivity.
  - right. exists t. split; [exact Ht|].
    eexists a0, _. rewrite <- !app_assoc. cbn [app]. reflexivity.
Qed.

Lemma in_unlines (c : cu) ls :
  In c (unlines ls) -> c = NL \/ exists l, In l ls /\ In c l.
Proof.
  destruct ls as [|l ls]; [intros []|]. rewrite unlines_more.
  intros H. apply in_app_or in H. destruct H as [H|H].
  - right. exists l. split; [now left|exact H].
  - destruct (in_more_lines c ls H) as [->|(l' & H1 & H2)]; [now left|].
    right. exists l'. split; [now right|exact H2].
Qed.

Lemma markup_free_no_backtick l :
  Forall (fun c => markup_free c = true) l -> ~ In BACKTICK l.
Proof.
  intros H Hin. rewrite Forall_forall in H. specialize (H _ Hin).
  discriminate H.
Qed.

Lemma source_code_line l : source_line l -> code_line (escapeHtml l).
Proof.
  intros [Hn Hf]. split; [now apply escapeHtml_nonempty|now apply escapeHtml_inert].
Qed.

Lemma fenced_block_rendered (a lang l b : jsstring) ls :
  ~ In BACKTICK a -> line_start (lastp None a) ->
  Forall (fun c => is_word c = true) lang ->
  Forall source_line (l :: ls) ->
  Forall (fun x => begins_marker x = false) ls ->
  head_not_space plain (unlines (l :: ls)) ->
  head_not_space plain (rev (unlines (l :: ls))) ->
  factor (pre_block (escapeHtml (unlines (l :: ls))))
    (renderMarkdown
       (a ++ str "```" ++ lang ++ NL :: unlines (l :: ls)
          ++ NL :: str "```" ++ b)).
Proof.
  intros Ha Hs Hlang Hsrc Hmk H1 H2. unfold renderMarkdown.
  assert (E : escapeHtml (a ++ str "```" ++ lang ++ NL :: unlines (l :: ls)
                            ++ NL :: str "```" ++ b)
              = escapeHtml a ++ str "```" ++ lang
                ++ NL :: escapeHtml (unlines (l :: ls))
                ++ NL :: str "```" ++ escapeHtml b).
  { rewrite !escapeHtml_app.
    change (NL :: unlines (l :: ls) ++ NL :: str "```" ++ b)
      with ([NL] ++ unlines (l :: ls) ++ [NL] ++ str "```" ++ b).
    rewrite !escapeHtml_app.
    rewrite (escapeHtml_word lang Hlang). reflexivity. }
  rewrite E.
  match goal with
  | |- factor _ (markup plain plain ?s) =>
      change (markup plain plain s)
        with (stage_cleanup (stage_paragraphs (ordered_lists plain plain (stage_lists
                (stage_italic (stage_bold (stage_headers
                   (inline_code plain plain (stage_code_blocks s)))))))))
  end.
  assert (HT : escapeHtml (unlines (l :: ls))
               = unlines (escapeHtml l :: map escapeHtml ls))
    by apply escapeHtml_unlines.
  inversion Hsrc as [|? ? Hl Hls]; subst.
  assert (Hls' : Forall later_line (map escapeHtml ls)).
  { apply Forall_forall. intros x Hx. apply in_map_iff in Hx.
    destruct Hx as (y & <- & Hy).
    rewrite Forall_forall in Hls, Hmk. split.
    - now apply source_code_line, Hls.
    - now apply begins_marker_escape, Hmk. }
  rewrite HT at 1.
  apply (block_after_code (escapeHtml l) (map escapeHtml ls)
           (source_code_line l Hl) Hls').
  rewrite <- HT.
  apply fence_code_stage; auto.
  - now apply escapeHtml_no_backtick.
  - now apply escapeHtml_line_start.
  - destruct Hl as [Hn _]. rewrite HT, unlines_more.
    intros H. apply app_eq_nil in H. destruct H as [H _].
    revert H. now apply escapeHtml_nonempty.
  - now apply escapeHtml_head.
  - now apply escapeHtml_last.
  - apply escapeHtml_no_backtick. intros H.
    destruct (in_unlines _ _ H) as [H0|(x & Hx & Hin)]; [discriminate H0|].
    rewrite Forall_forall in Hsrc. destruct (Hsrc _ Hx) as [_ Hf].
    now apply (markup_free_no_backtick x).
Qed.

(** ** Code content in a message (C2) *)

(** C2, as the specification states it, fails: the later stages run
    over the content of a code fence and of an inline code span.  The
    emphasis in it is rendered, a line of a fence that begins with a
    marker becomes a header or a list item, a blank line of a fence
    becomes a paragraph break, a backtick pair in a fence becomes an
    inline code element, the first line of a fence that does not open
    at the start of a line goes into the header of that line, and the
    white space at the two ends of the content of a fence is dropped. *)
Lemma code_content_is_transformed :
  renderMarkdown (unlines [str "```"; str "**not bold**"; str "```"])
  = str "<pre><code><strong>not bold</strong></code></pre>"
  /\ renderMarkdown (unlines [str "```"; str "**not bold**"; str "```"])
     <> str "<pre><code>**not bold**</code></pre>"
  /\ renderMarkdown (str "`**x**`") = str "<p><code><strong>x</strong></code></p>"
  /\ renderMarkdown (unlines [str "```"; str "a"; str "# b"; str "```"])
     = unlines [str "<pre><code>a"; str "<h1>b</code></pre></h1>"]
  /\ renderMarkdown (unlines [str "```"; str "x"; str "- a"; str "```"])
     = unlines [str "<pre><code>x"; str "<ul><li>a</code></pre></li></ul>"]
  /\ renderMarkdown (unlines [str "```"; str "a"; str ""; str "b"; str "```"])
     = str "<pre><code>a</p><p>b</code></pre>"
  /\ renderMarkdown (unlines [str "```"; str "a `b` c"; str "```"])
     = str "<pre><code>a <code>b</code> c</code></pre>"
  /\ renderMarkdown (unlines [str "# t ```"; str "a"; str "b"; str "```"])
     = unlines [str "<h1>t <pre><code>a</h1>"; str "b</code></pre>"]
  /\ renderMarkdown (unlines [str "`a"; str "# b`"])
     = unlines [str "<p><code>a"; str "<h1>b</code></h1>"]
  /\ renderMarkdown (unlines [str "```"; str "  x"; str "```"])
     = str "<pre><code>x</code></pre>".
Proof.
  repeat split; try (vm_compute; reflexivity).
  intros H; vm_compute in H; discriminate.
Qed.

(** C2, amended.  Code content is reproduced exactly, after the
    escaping, where no later rule finds a match in it.  Every inline
    code element that the code stage makes, with a content of one line
    without [*], is in the output as it is, wherever it stands; so the
    span of a message, with no backtick before it and none right after
    it, whatever else the message holds.  Every element of a fenced
    block that begins a line after the code stage is in the output as
    it is, when its lines are not empty and hold no backtick and no
    [*], and none after the first begins with the marker of a header or
    of a list item; so the fenced block of a message that opens at the
    start of a line with no backtick before it, whatever follows it.
    A message that is one fence of one line, or one span, is rendered
    as the element alone, the span in a paragraph; the empty fence is
    rendered as the empty element.  The later stages do run over code
    content: [**not bold**] typed inside a code fence renders as
    [<strong>not bold</strong>]. *)
Theorem code_content_reproduced :
  (forall E s,
      Forall (fun c => inert c = true) E ->
      occurs (str "<code>" ++ E ++ str "</code>") s = true ->
      occurs (str "<code>" ++ E ++ str "</code>")
        (stage_cleanup (stage_paragraphs (ordered_lists plain plain
           (stage_lists (stage_italic (stage_bold (stage_headers s)))))))
      = true)
  /\ (forall a B b,
         ~ In BACKTICK a -> B <> [] ->
         Forall (fun c => markup_free c = true) B ->
         not_backtick_first b ->
         occurs (str "<code>" ++ escapeHtml B ++ str "</code>")
           (renderMarkdown (a ++ str "`" ++ B ++ str "`" ++ b)) = true)
  /\ (forall l ls s,
         code_line l -> Forall later_line ls ->
         stands (pre_block (unlines (l :: ls))) s ->
         occurs (pre_block (unlines (l :: ls)))
           (stage_cleanup (stage_paragraphs (ordered_lists plain plain
              (stage_lists (stage_italic (stage_bold (stage_headers s)))))))
         = true)
  /\ (forall a lang l ls b,
         ~ In BACKTICK a -> line_start (lastp None a) ->
         Forall (fun c => is_word c = true) lang ->
         Forall source_line (l :: ls) ->
         Forall (fun x => begins_marker x = false) ls ->
         head_not_space plain (unlines (l :: ls)) ->
         head_not_space plain (rev (unlines (l :: ls))) ->
         occurs (pre_block (escapeHtml (unlines (l :: ls))))
           (renderMarkdown
              (a ++ str "```" ++ lang ++ NL :: unlines (l :: ls)
                 ++ NL :: str "```" ++ b)) = true)
  /\ (forall lang B,
         Forall (fun c => is_word c = true) lang ->
         B <> [] -> Forall (fun c => markup_free c = true) B ->
         head_not_space plain B -> head_not_space plain (rev B) ->
         renderMarkdown (str "```" ++ lang ++ NL :: B ++ NL :: str "```")
         = str "<pre><code>" ++ escapeHtml B ++ str "</code></pre>")
  /\ (forall B,
         B <> [] -> Forall (fun c => markup_free c = true) B ->
         renderMarkdown (str "`" ++ B ++ str "`")
         = str "<p><code>" ++ escapeHtml B ++ str "</code></p>")
  /\ renderMarkdown (unlines [str "```"; str "```"]) = str "<pre><code></code></pre>"
  /\ renderMarkdown (unlines [str "```"; str "**not bold**"; str "```"])
     = str "<pre><code><strong>not bold</strong></code></pre>".
Proof.
  split.
  { intros E s HE H. apply occurs_factor. apply occurs_factor in H.
    now apply code_word_after_code. }
  split.
  { intros a B b Ha HB HF Hb. apply occurs_factor.
    now apply inline_span_rendered. }
  split.
  { intros l ls s Hl Hls H. apply occurs_factor.
    now apply block_after_code. }
  split.
  { intros a lang l ls b Ha Hs Hlang Hsrc Hmk H1 H2. apply occurs_factor.
    now apply fenced_block_rendered. }
  split; [exact render_fence_text|].
  split; [exact render_inline_code_text|].
  split; vm_compute; reflexivity.
Qed.

Lemma code_content_reproduced_witness :
  occurs (str "<code>" ++ escapeHtml (str "a < b") ++ str "</code>")
    (renderMarkdown (str "*see* " ++ str "`" ++ str "a < b" ++ str "`"
                       ++ str " **now**")) = true
  /\ occurs (pre_block (escapeHtml (unlines [str "def f(x):";
                                             str "    return x < 1  # ok"])))
       (renderMarkdown
          (unlines [str "t"; str ""] ++ str "```" ++ str "py"
             ++ NL :: unlines [str "def f(x):"; str "    return x < 1  # ok"]
             ++ NL :: str "```" ++ NL :: str "- *a*")) = true
  /\ renderMarkdown (str "```" ++ str "js" ++ NL :: str "if (a < b) x = 1;"
                       ++ NL :: str "```")
     = str "<pre><code>if (a &lt; b) x = 1;</code></pre>"
  /\ renderMarkdown (str "`" ++ str "a < b" ++ str "`")
     = str "<p><code>a &lt; b</code></p>".
Proof.
  destruct code_content_reproduced as (_ & S & _ & F & F1 & S1 & _).
  split; [|split; [|split]].
  - refine (S (str "*see* ") (str "a < b") (str " **now**") _ _ _ _).
    + vm_compute. intuition discriminate.
    + discriminate.
    + repeat constructor.
    + discriminate.
  - refine (F (unlines [str "t"; str ""]) (str "py") (str "def f(x):")
              [str "    return x < 1  # ok"] (NL :: str "- *a*")
              _ _ _ _ _ _ _).
    + vm_compute. intuition discriminate.
    + reflexivity.
    + repeat constructor.
    + repeat constructor; discriminate.
    + repeat constructor.
    + reflexivity.
    + reflexivity.
  - refine (F1 (str "js") (str "if (a < b) x = 1;") _ _ _ _ _).
    + repeat constructor.
    + discriminate.
    + repeat constructor.
    + reflexivity.
    + reflexivity.
  - refine (S1 (str "a < b") _ _).
    + discriminate.
    + repeat constructor.
Defined.
